(** * ROCr debug agent: wave controller, code-object store and report selection

    A shallow embedding of the parts of [debug_agent.cpp] and
    [code_object.cpp] that decide the stop/resume protocol, the symbol and
    code-object lookups, the URI handling of [code_object_t::open] and the
    disassembly anchor, together with the properties proved about them.

    Conventions.
    - Unsigned machine integers are [Z] values with the wrap-around written
      out ([wrap32], [wrap64]).
    - [std::map] is a key-sorted association list ([StdMap]); iterators are
      positions in that list.
    - [std::unordered_set] is a [gset]; [std::unordered_map] a [gmap].
    - Calls into the debugger API, libelf, the file system and libc are
      answered by an explicit environment (a record of functions or a
      simulated world), never by an assumption. *)

From Stdlib Require Import ZArith Lia List Bool String Ascii Sorted.
From Stdlib Require Import Strings.Byte.
From stdpp Require Import base tactics option list gmap sets strings.

Local Open Scope Z_scope.

(** ** Machine integers *)

Definition wrap32 (z : Z) : Z := z mod 2 ^ 32.
Definition wrap64 (z : Z) : Z := z mod 2 ^ 64.

(** ** Resume mask of [process_dbgapi_events] (debug_agent.cpp:912-994) *)

Module ResumeMask.

(** The enumerators of [amd_dbgapi_wave_stop_reasons_t] that label the
    cases of the two switches.  ([AMD_DBGAPI_WAVE_STOP_REASON_RESERVED] is
    compiled only against old headers and its case adds nothing.) *)
Inductive wave_stop_reason :=
| AMD_DBGAPI_WAVE_STOP_REASON_NONE
| AMD_DBGAPI_WAVE_STOP_REASON_BREAKPOINT
| AMD_DBGAPI_WAVE_STOP_REASON_WATCHPOINT
| AMD_DBGAPI_WAVE_STOP_REASON_SINGLE_STEP
| AMD_DBGAPI_WAVE_STOP_REASON_FP_INPUT_DENORMAL
| AMD_DBGAPI_WAVE_STOP_REASON_FP_DIVIDE_BY_0
| AMD_DBGAPI_WAVE_STOP_REASON_FP_OVERFLOW
| AMD_DBGAPI_WAVE_STOP_REASON_FP_UNDERFLOW
| AMD_DBGAPI_WAVE_STOP_REASON_FP_INEXACT
| AMD_DBGAPI_WAVE_STOP_REASON_FP_INVALID_OPERATION
| AMD_DBGAPI_WAVE_STOP_REASON_INT_DIVIDE_BY_0
| AMD_DBGAPI_WAVE_STOP_REASON_DEBUG_TRAP
| AMD_DBGAPI_WAVE_STOP_REASON_ASSERT_TRAP
| AMD_DBGAPI_WAVE_STOP_REASON_TRAP
| AMD_DBGAPI_WAVE_STOP_REASON_MEMORY_VIOLATION
| AMD_DBGAPI_WAVE_STOP_REASON_ADDRESS_ERROR
| AMD_DBGAPI_WAVE_STOP_REASON_ILLEGAL_INSTRUCTION
| AMD_DBGAPI_WAVE_STOP_REASON_ECC_ERROR
| AMD_DBGAPI_WAVE_STOP_REASON_FATAL_HALT.

(** The enumerators of [amd_dbgapi_exceptions_t] the switch ORs in. *)
Inductive wave_exception :=
| AMD_DBGAPI_EXCEPTION_NONE
| AMD_DBGAPI_EXCEPTION_WAVE_ABORT
| AMD_DBGAPI_EXCEPTION_WAVE_TRAP
| AMD_DBGAPI_EXCEPTION_WAVE_MATH_ERROR
| AMD_DBGAPI_EXCEPTION_WAVE_ILLEGAL_INSTRUCTION
| AMD_DBGAPI_EXCEPTION_WAVE_MEMORY_VIOLATION
| AMD_DBGAPI_EXCEPTION_WAVE_ADDRESS_ERROR.

(** The numeric values live in [amd-dbgapi.h], which is not part of the
    agent: they are a parameter of everything below. *)
Record dbgapi_header := {
  reason_value : wave_stop_reason -> Z;
  exception_value : wave_exception -> Z
}.

(** Case labels in the order of the switch at lines 936-988. *)
Definition case_labels : list wave_stop_reason :=
  [ AMD_DBGAPI_WAVE_STOP_REASON_NONE;
    AMD_DBGAPI_WAVE_STOP_REASON_DEBUG_TRAP;
    AMD_DBGAPI_WAVE_STOP_REASON_BREAKPOINT;
    AMD_DBGAPI_WAVE_STOP_REASON_WATCHPOINT;
    AMD_DBGAPI_WAVE_STOP_REASON_ASSERT_TRAP;
    AMD_DBGAPI_WAVE_STOP_REASON_TRAP;
    AMD_DBGAPI_WAVE_STOP_REASON_SINGLE_STEP;
    AMD_DBGAPI_WAVE_STOP_REASON_FP_INPUT_DENORMAL;
    AMD_DBGAPI_WAVE_STOP_REASON_FP_DIVIDE_BY_0;
    AMD_DBGAPI_WAVE_STOP_REASON_FP_OVERFLOW;
    AMD_DBGAPI_WAVE_STOP_REASON_FP_UNDERFLOW;
    AMD_DBGAPI_WAVE_STOP_REASON_FP_INEXACT;
    AMD_DBGAPI_WAVE_STOP_REASON_FP_INVALID_OPERATION;
    AMD_DBGAPI_WAVE_STOP_REASON_INT_DIVIDE_BY_0;
    AMD_DBGAPI_WAVE_STOP_REASON_MEMORY_VIOLATION;
    AMD_DBGAPI_WAVE_STOP_REASON_ADDRESS_ERROR;
    AMD_DBGAPI_WAVE_STOP_REASON_ILLEGAL_INSTRUCTION;
    AMD_DBGAPI_WAVE_STOP_REASON_ECC_ERROR;
    AMD_DBGAPI_WAVE_STOP_REASON_FATAL_HALT ].

(** What each case ORs into [resume_exceptions]. *)
Definition case_exception (r : wave_stop_reason) : wave_exception :=
  match r with
  | AMD_DBGAPI_WAVE_STOP_REASON_NONE
  | AMD_DBGAPI_WAVE_STOP_REASON_DEBUG_TRAP => AMD_DBGAPI_EXCEPTION_NONE
  | AMD_DBGAPI_WAVE_STOP_REASON_BREAKPOINT
  | AMD_DBGAPI_WAVE_STOP_REASON_WATCHPOINT
  | AMD_DBGAPI_WAVE_STOP_REASON_ASSERT_TRAP
  | AMD_DBGAPI_WAVE_STOP_REASON_TRAP => AMD_DBGAPI_EXCEPTION_WAVE_TRAP
  | AMD_DBGAPI_WAVE_STOP_REASON_SINGLE_STEP => AMD_DBGAPI_EXCEPTION_NONE
  | AMD_DBGAPI_WAVE_STOP_REASON_FP_INPUT_DENORMAL
  | AMD_DBGAPI_WAVE_STOP_REASON_FP_DIVIDE_BY_0
  | AMD_DBGAPI_WAVE_STOP_REASON_FP_OVERFLOW
  | AMD_DBGAPI_WAVE_STOP_REASON_FP_UNDERFLOW
  | AMD_DBGAPI_WAVE_STOP_REASON_FP_INEXACT
  | AMD_DBGAPI_WAVE_STOP_REASON_FP_INVALID_OPERATION
  | AMD_DBGAPI_WAVE_STOP_REASON_INT_DIVIDE_BY_0 =>
      AMD_DBGAPI_EXCEPTION_WAVE_MATH_ERROR
  | AMD_DBGAPI_WAVE_STOP_REASON_MEMORY_VIOLATION =>
      AMD_DBGAPI_EXCEPTION_WAVE_MEMORY_VIOLATION
  | AMD_DBGAPI_WAVE_STOP_REASON_ADDRESS_ERROR =>
      AMD_DBGAPI_EXCEPTION_WAVE_ADDRESS_ERROR
  | AMD_DBGAPI_WAVE_STOP_REASON_ILLEGAL_INSTRUCTION =>
      AMD_DBGAPI_EXCEPTION_WAVE_ILLEGAL_INSTRUCTION
  | AMD_DBGAPI_WAVE_STOP_REASON_ECC_ERROR
  | AMD_DBGAPI_WAVE_STOP_REASON_FATAL_HALT => AMD_DBGAPI_EXCEPTION_WAVE_ABORT
  end.

Section WithHeader.
Variable h : dbgapi_header.

(** [switch (v)]: the case whose label equals [v], if any. *)
Definition matching_case (v : Z) : option wave_stop_reason :=
  List.find (fun r => reason_value h r =? v) case_labels.

(** One execution of the switch statement on scrutinee [v]. *)
Definition switch_on (v resume_exceptions : Z) : Z :=
  match matching_case v with
  | Some r => Z.lor resume_exceptions (exception_value h (case_exception r))
  | None => resume_exceptions
  end.

(** [one_bit = bits ^ (bits & (bits - 1))] on the 32-bit underlying type. *)
Definition lowest_bit (stop_reason_bits : Z) : Z :=
  Z.lxor stop_reason_bits
         (Z.land stop_reason_bits (wrap32 (stop_reason_bits - 1))).

(** The do-while loop of lines 930-989.  The switch scrutinee is
    [stop_reason], as in the source; [one_bit] only drives the loop. *)
Fixpoint resume_loop (fuel : nat) (stop_reason stop_reason_bits
                                    resume_exceptions : Z) : option Z :=
  match fuel with
  | O => None
  | S fuel' =>
      let one_bit := lowest_bit stop_reason_bits in
      let stop_reason_bits := Z.lxor stop_reason_bits one_bit in
      let resume_exceptions := switch_on stop_reason resume_exceptions in
      if stop_reason_bits =? 0 then Some resume_exceptions
      else resume_loop fuel' stop_reason stop_reason_bits resume_exceptions
  end.

(** The exceptions argument of [amd_dbgapi_wave_resume] for a stopped
    wave whose stop reason is [stop_reason]. *)
Definition resume_exceptions (stop_reason : Z) : option Z :=
  resume_loop 33 stop_reason stop_reason 0.

(** The mapping as section 4.4 of the specification words it: every set
    bit of the mask contributes the exception of that single bit. *)
Fixpoint per_bit_loop (fuel : nat) (stop_reason_bits
                                      resume_exceptions : Z) : option Z :=
  match fuel with
  | O => None
  | S fuel' =>
      let one_bit := lowest_bit stop_reason_bits in
      let stop_reason_bits := Z.lxor stop_reason_bits one_bit in
      let resume_exceptions := switch_on one_bit resume_exceptions in
      if stop_reason_bits =? 0 then Some resume_exceptions
      else per_bit_loop fuel' stop_reason_bits resume_exceptions
  end.

Definition spec_resume_exceptions (stop_reason : Z) : option Z :=
  per_bit_loop 33 stop_reason 0.

End WithHeader.

(** The values of [amd-dbgapi.h]: reason [k] of the header is bit [k-1]. *)
Definition amd_dbgapi_h : dbgapi_header := {|
  reason_value r :=
    match r with
    | AMD_DBGAPI_WAVE_STOP_REASON_NONE => 0
    | AMD_DBGAPI_WAVE_STOP_REASON_BREAKPOINT => Z.shiftl 1 0
    | AMD_DBGAPI_WAVE_STOP_REASON_WATCHPOINT => Z.shiftl 1 1
    | AMD_DBGAPI_WAVE_STOP_REASON_SINGLE_STEP => Z.shiftl 1 2
    | AMD_DBGAPI_WAVE_STOP_REASON_FP_INPUT_DENORMAL => Z.shiftl 1 3
    | AMD_DBGAPI_WAVE_STOP_REASON_FP_DIVIDE_BY_0 => Z.shiftl 1 4
    | AMD_DBGAPI_WAVE_STOP_REASON_FP_OVERFLOW => Z.shiftl 1 5
    | AMD_DBGAPI_WAVE_STOP_REASON_FP_UNDERFLOW => Z.shiftl 1 6
    | AMD_DBGAPI_WAVE_STOP_REASON_FP_INEXACT => Z.shiftl 1 7
    | AMD_DBGAPI_WAVE_STOP_REASON_FP_INVALID_OPERATION => Z.shiftl 1 8
    | AMD_DBGAPI_WAVE_STOP_REASON_INT_DIVIDE_BY_0 => Z.shiftl 1 9
    | AMD_DBGAPI_WAVE_STOP_REASON_DEBUG_TRAP => Z.shiftl 1 10
    | AMD_DBGAPI_WAVE_STOP_REASON_ASSERT_TRAP => Z.shiftl 1 11
    | AMD_DBGAPI_WAVE_STOP_REASON_TRAP => Z.shiftl 1 12
    | AMD_DBGAPI_WAVE_STOP_REASON_MEMORY_VIOLATION => Z.shiftl 1 13
    | AMD_DBGAPI_WAVE_STOP_REASON_ADDRESS_ERROR => Z.shiftl 1 14
    | AMD_DBGAPI_WAVE_STOP_REASON_ILLEGAL_INSTRUCTION => Z.shiftl 1 15
    | AMD_DBGAPI_WAVE_STOP_REASON_ECC_ERROR => Z.shiftl 1 16
    | AMD_DBGAPI_WAVE_STOP_REASON_FATAL_HALT => Z.shiftl 1 17
    end;
  exception_value e :=
    match e with
    | AMD_DBGAPI_EXCEPTION_NONE => 0
    | AMD_DBGAPI_EXCEPTION_WAVE_ABORT => Z.shiftl 1 0
    | AMD_DBGAPI_EXCEPTION_WAVE_TRAP => Z.shiftl 1 1
    | AMD_DBGAPI_EXCEPTION_WAVE_MATH_ERROR => Z.shiftl 1 2
    | AMD_DBGAPI_EXCEPTION_WAVE_ILLEGAL_INSTRUCTION => Z.shiftl 1 3
    | AMD_DBGAPI_EXCEPTION_WAVE_MEMORY_VIOLATION => Z.shiftl 1 4
    | AMD_DBGAPI_EXCEPTION_WAVE_ADDRESS_ERROR => Z.shiftl 1 5
    end
|}.

(** The low [k] bits of [x] are clear. *)
Definition low_clear (k x : Z) : Prop :=
  forall i, 0 <= i < k -> Z.testbit x i = false.

(** FP_OVERFLOW | MEMORY_VIOLATION | DEBUG_TRAP, with the values of
    [amd-dbgapi.h]. *)
Definition fp_overflow_memory_violation_debug_trap : Z :=
  Z.lor (Z.lor (reason_value amd_dbgapi_h
                  AMD_DBGAPI_WAVE_STOP_REASON_FP_OVERFLOW)
               (reason_value amd_dbgapi_h
                  AMD_DBGAPI_WAVE_STOP_REASON_MEMORY_VIOLATION))
        (reason_value amd_dbgapi_h
           AMD_DBGAPI_WAVE_STOP_REASON_DEBUG_TRAP).

End ResumeMask.

(** ** [std::map] keyed by 64-bit addresses *)

Module StdMap.
Section WithValue.
Context {V : Type}.

(** The entries in iteration order, as [begin ()] .. [end ()] walks them.
    An iterator is a position; [end ()] is the length. *)
Definition t : Type := list (Z * V).

(** [m.emplace (k, v)]: the position of the entry with key [k], whether
    the insertion took place, and the map afterwards.  An existing entry
    is left as it is. *)
Fixpoint emplace (k : Z) (v : V) (m : t) : nat * bool * t :=
  match m with
  | [] => (0%nat, true, [(k, v)])
  | (k', v') :: rest =>
      if k <? k' then (0%nat, true, (k, v) :: m)
      else if k =? k' then (0%nat, false, m)
      else let '(it, success, rest') := emplace k v rest in
           (S it, success, (k', v') :: rest')
  end.

(** [it->second = v]. *)
Definition assign (it : nat) (v : V) (m : t) : t :=
  alter (fun e => (e.1, v)) it m.

(** [m.upper_bound (k)]: the first position whose key is greater than
    [k]. *)
Fixpoint upper_bound (k : Z) (m : t) : nat :=
  match m with
  | [] => 0%nat
  | (k', _) :: rest => if k <? k' then 0%nat else S (upper_bound k rest)
  end.

(** [m.find (k)], with [None] for [end ()]. *)
Definition find (k : Z) (m : t) : option (Z * V) :=
  List.find (fun e => e.1 =? k) m.

(** [it != m.begin ()] followed by [*std::prev (it)]. *)
Definition prev_entry (it : nat) (m : t) : option (Z * V) :=
  match it with
  | O => None
  | S i => m !! i
  end.

(** The value stored under [k], if any. *)
Definition get (k : Z) (m : t) : option V :=
  match find k m with Some e => Some e.2 | None => None end.

(** The class invariant of [std::map]: strictly increasing keys. *)
Definition sorted (m : t) : Prop :=
  StronglySorted (fun a b => a.1 < b.1) m.

Fixpoint sortedb (m : t) : bool :=
  match m with
  | [] => true
  | (k, _) :: rest =>
      forallb (fun e => k <? e.1) rest && sortedb rest
  end.
End WithValue.
Arguments t : clear implicits.
End StdMap.

(** ** Symbols of a code object (code_object.cpp:105-132 and 379-436) *)

Module Symbols.

(** The constants and the macro of [elf.h] that [load_symbol_map] uses. *)
Record elf_h := {
  SHT_SYMTAB : Z;
  SHT_DYNSYM : Z;
  STT_FUNC : Z;
  SHN_UNDEF : Z;
  GELF_ST_TYPE : Z -> Z
}.

(** Their values in the ELF ABI. *)
Definition system_elf_h : elf_h := {|
  SHT_SYMTAB := 2;
  SHT_DYNSYM := 11;
  STT_FUNC := 2;
  SHN_UNDEF := 0;
  GELF_ST_TYPE info := Z.land info 15
|}.

(** A symbol-table entry as [gelf_getsym] returns it; [st_name] is already
    the string [elf_strptr] yields for it. *)
Record GElf_Sym := {
  st_name : string;
  st_info : Z;
  st_shndx : Z;
  st_value : Z;
  st_size : Z
}.

(** A section as [elf_nextscn] walks them: its header type and the entries
    of its data ([None] when [elf_getdata] fails). *)
Record Elf_Scn := {
  sh_type : Z;
  sh_data : option (list GElf_Sym)
}.

(** [m_symbol_map]: address to (mangled name, size). *)
Abbreviation symbol_map := (StdMap.t (string * Z)).

Record symbol_info_t := {
  m_name : string;
  m_value : Z;
  m_size : Z
}.

Section WithElf.
Variable E : elf_h.
Variable m_load_address : Z.

(** The body of the inner [for] loop, lines 413-431. *)
Definition insert_symbol (m : symbol_map) (sym : GElf_Sym) : symbol_map :=
  if negb (GELF_ST_TYPE E (st_info sym) =? STT_FUNC E)
     || (st_shndx sym =? SHN_UNDEF E)
  then m
  else
    let symbol_name := st_name sym in
    let '(it, success, m') :=
      StdMap.emplace (wrap64 (m_load_address + st_value sym))
                     (symbol_name, st_size sym) m in
    if negb success
       && match m' !! it with
          | Some (_, (_, size)) => size <? st_size sym
          | None => false
          end
    then StdMap.assign it (symbol_name, st_size sym) m'
    else m'.

(** The body of the [while] loop over sections, lines 400-432. *)
Definition slurp_section (m : symbol_map) (scn : Elf_Scn) : symbol_map :=
  if negb (sh_type scn =? SHT_SYMTAB E) && negb (sh_type scn =? SHT_DYNSYM E)
  then m
  else match sh_data scn with
       | None => m
       | Some symbols => fold_left insert_symbol symbols m
       end.

(** [load_symbol_map] on an opened code object: [m_symbol_map] is the
    cached map if there is one; otherwise it is built from what
    [elf_begin] returns for the backing file ([None]: no ELF handle). *)
Definition load_symbol_map (elf : option (list Elf_Scn))
           (m_symbol_map : option symbol_map) : symbol_map :=
  match m_symbol_map with
  | Some m => m
  | None =>
      match elf with
      | None => []
      | Some sections => fold_left slurp_section sections []
      end
  end.

(** [abi::__cxa_demangle]: [None] when the name does not demangle. *)
Variable cxa_demangle : string -> option string.

(** [find_symbol]; the second component is [m_symbol_map] afterwards. *)
Definition find_symbol (elf : option (list Elf_Scn))
           (m_symbol_map : option symbol_map) (address : Z)
  : option symbol_info_t * option symbol_map :=
  let m := load_symbol_map elf m_symbol_map in
  (match StdMap.prev_entry (StdMap.upper_bound address m) m with
   | Some (symbol_value, symbol) =>
       if address <? wrap64 (symbol_value + symbol.2) then
         let symbol_name := symbol.1 in
         let symbol_name := match cxa_demangle symbol_name with
                            | Some demangled_name => demangled_name
                            | None => symbol_name
                            end in
         Some {| m_name := symbol_name; m_value := symbol_value;
                 m_size := symbol.2 |}
       else None
   | None => None
   end, Some m).
End WithElf.

(** The entries that [insert_symbol] does not skip. *)
Definition is_defined_function (E : elf_h) (sym : GElf_Sym) : bool :=
  (GELF_ST_TYPE E (st_info sym) =? STT_FUNC E)
  && negb (st_shndx sym =? SHN_UNDEF E).

(** The key [insert_symbol] files an entry under. *)
Definition symbol_address (load_address : Z) (sym : GElf_Sym) : Z :=
  wrap64 (load_address + st_value sym).

(** The entries [load_symbol_map] looks at, in the order it meets them:
    those of the SHT_SYMTAB and SHT_DYNSYM sections that have data. *)
Definition symbol_entries (E : elf_h) (sections : list Elf_Scn)
  : list GElf_Sym :=
  concat (List.map (fun scn =>
                      if negb (sh_type scn =? SHT_SYMTAB E)
                         && negb (sh_type scn =? SHT_DYNSYM E)
                      then []
                      else match sh_data scn with
                           | Some symbols => symbols
                           | None => []
                           end) sections).

(** The state of the map after the entries [seen] have been processed. *)
Definition symbols_filed (E : elf_h) (load_address : Z)
           (seen : list GElf_Sym) (m : symbol_map) : Prop :=
  StdMap.sorted m
  /\ forall a,
      match StdMap.get a m with
      | Some (name, size) =>
          exists sym, sym ∈ seen /\ is_defined_function E sym = true
                      /\ symbol_address load_address sym = a
                      /\ st_name sym = name /\ st_size sym = size
                      /\ forall sym', sym' ∈ seen ->
                                      is_defined_function E sym' = true ->
                                      symbol_address load_address sym' = a ->
                                      st_size sym' <= size
      | None =>
          forall sym, sym ∈ seen -> is_defined_function E sym = true ->
                      symbol_address load_address sym <> a
      end.

(** The name [find_symbol] returns for a mangled name. *)
Definition demangled (cxa_demangle : string -> option string)
           (name : string) : string :=
  match cxa_demangle name with
  | Some demangled_name => demangled_name
  | None => name
  end.

(** The two symbols of the specification's example: A covers
    [base, base + 16), B covers [base + 32, base + 40). *)
Definition symbols_A_B (base : Z) : symbol_map :=
  [ (base, ("A"%string, 16)); (base + 32, ("B"%string, 8)) ].

(** A function symbol as a linker emits it: STB_GLOBAL, STT_FUNC, in
    section 7. *)
Definition function_symbol (name : string) (value size : Z) : GElf_Sym :=
  {| st_name := name; st_info := 18; st_shndx := 7;
     st_value := value; st_size := size |}.

End Symbols.

(** ** [std::string] operations on [size_t] positions *)

Module StdString.

Definition npos : Z := 2 ^ 64 - 1.

Definition size (s : string) : Z := Z.of_nat (String.length s).

(** [s.find (pat, pos)] for a non-empty [pat]. *)
Definition find (s pat : string) (pos : Z) : Z :=
  if size s <? pos then npos
  else match String.index (Z.to_nat pos) pat s with
       | Some i => Z.of_nat i
       | None => npos
       end.

Fixpoint first_of (chars : list ascii) (l : list ascii) : option nat :=
  match l with
  | [] => None
  | c :: rest =>
      if existsb (Ascii.eqb c) chars then Some O
      else match first_of chars rest with
           | Some i => Some (S i)
           | None => None
           end
  end.

(** [s.find_first_of (chars, pos)]. *)
Definition find_first_of (s chars : string) (pos : Z) : Z :=
  if size s <? pos then npos
  else match first_of (list_ascii_of_string chars)
                      (drop (Z.to_nat pos) (list_ascii_of_string s)) with
       | Some i => pos + Z.of_nat i
       | None => npos
       end.

(** [s.substr (pos, n)]; [None] when it throws [std::out_of_range]. *)
Definition substr (s : string) (pos n : Z) : option string :=
  if size s <? pos then None
  else Some (String.substring (Z.to_nat pos)
                              (Z.to_nat (Z.min n (size s - pos))) s).

(** [std::tolower] in the C locale. *)
Definition tolower (c : ascii) : ascii :=
  let n := nat_of_ascii c in
  if (65 <=? n)%nat && (n <=? 90)%nat then ascii_of_nat (n + 32) else c.

Definition map_chars (f : ascii -> ascii) (s : string) : string :=
  string_of_list_ascii (List.map f (list_ascii_of_string s)).

(** The value of a hexadecimal digit; [None] when [std::isxdigit] is false. *)
Definition xdigit (c : ascii) : option nat :=
  let n := nat_of_ascii c in
  if (48 <=? n)%nat && (n <=? 57)%nat then Some (n - 48)%nat
  else if (65 <=? n)%nat && (n <=? 70)%nat then Some (n - 55)%nat
  else if (97 <=? n)%nat && (n <=? 102)%nat then Some (n - 87)%nat
  else None.

End StdString.

(** ** The name given to [memfd_create] (code_object.cpp:264-294) *)

Module Memfd.
Import StdString.

Inductive named :=
| name_is (name : string)
| assertion_fails          (* [agent_assert], when compiled in *)
| throws.                  (* [std::out_of_range] from [substr] *)

Section WithLimits.
(** [NAME_MAX] of [limits.h], an [int]. *)
Variable NAME_MAX : Z.
Variable assertions : bool.

Definition memfd_name (uri : string) : named :=
  let length := size uri in
  if wrap64 (NAME_MAX - 6) <? length then
    match substr uri 0 7 with
    | None => throws
    | Some prefix =>
        if assertions && negb (String.eqb prefix "file://")
        then assertion_fails
        else
          match substr uri (wrap64 (length - wrap64 (NAME_MAX - 6 - 8 - 5)))
                       length with
          | Some tail => name_is (prefix +:+ "[...]" +:+ tail)
          | None => throws
          end
    end
  else name_is uri.
End WithLimits.

End Memfd.

(** ** [code_object_t::open] (code_object.cpp:134-347) *)

Module CodeObject.
Import StdString.

Record GElf_Phdr := {
  p_type : Z;
  p_vaddr : Z;
  p_memsz : Z
}.

(** What libelf reports for the backing file. *)
Inductive elf_phdrs :=
| elf_begin_failed
| elf_getphdrnum_failed
| elf_program_headers (phdrs : list (option GElf_Phdr)).
    (* [None] at an index where [gelf_getphdr] fails *)

Inductive protocol_t := file_protocol | memory_protocol.

Inductive warning :=
| could_not_open_file (decoded_path : string)
| file_size_less_than_offset (decoded_path : string)
| offset_and_size_must_be_nonzero (uri : string)
| could_not_read_memory (offset : Z)
| protocol_not_supported (protocol : string)
| could_not_create_temporary_file
| could_not_write_temporary_file
| elf_begin_warning (uri : string)
| elf_getphdrnum_warning (uri : string)
| gelf_getphdr_warning (uri : string).

(** What [open] does to the outside, in order. *)
Inductive effect :=
| agent_warning (w : warning)
| file_read (decoded_path : string) (offset size : Z)
| memory_read (offset size : Z)
| temporary_file_written (fd : Z) (bytes : list byte).

(** The answers of the environment [open] runs in. *)
Record environment := {
  (** [std::stoul (s, nullptr, 0)]; [None] when it throws. *)
  stoul : string -> option Z;
  (** The contents of the file a path names; [None] when the stream
      cannot be opened. *)
  file_contents : string -> option (list byte);
  (** Whether [buffer.resize (size)] succeeds (it throws otherwise). *)
  resize_succeeds : Z -> bool;
  (** [amd_dbgapi_code_object_get_info (..., PROCESS, ...)] succeeds. *)
  process_known : bool;
  (** [amd_dbgapi_read_memory] of [size] bytes of global memory at an
      address; [None] when the status is not SUCCESS. *)
  read_memory : Z -> Z -> option (list byte);
  (** Whether the build has [memfd_create] (line 262), [NAME_MAX] of
      [limits.h], and whether [agent_assert] is compiled in. *)
  HAVE_MEMFD_CREATE : bool;
  NAME_MAX : Z;
  assertions_enabled : bool;
  (** [memfd_create] with the given name, or [::open] of the given
      directory with [O_TMPFILE]; [None] for -1. *)
  create_temporary_file : string -> option Z;
  (** The return value of [::write (fd, data, count)]. *)
  write_result : Z -> list byte -> Z;
  (** libelf on a file with the given contents. *)
  read_elf : list byte -> elf_phdrs;
  PT_LOAD : Z
}.

Record code_object_t := {
  m_load_address : Z;
  m_mem_size : Z;
  m_uri : string;
  m_fd : option Z
}.

Definition is_open (co : code_object_t) : bool :=
  match m_fd co with Some _ => true | None => false end.

Inductive outcome :=
| returned (co : code_object_t)
| fatal_error            (* [agent_error]: the process aborts *)
| failed_assertion       (* a failed [agent_assert]: the process aborts *)
| uncaught_exception.    (* an exception leaves [open] *)

(** The %-decoding loop, lines 156-164.  Reading [path[i + 1]] at the end
    of the string yields the terminating NUL, which is not a hex digit. *)
Fixpoint percent_decode (path : list ascii) : list ascii :=
  match path with
  | [] => []
  | c :: tl =>
      if Ascii.eqb c "%" then
        match tl with
        | a :: b :: rest =>
            match xdigit a, xdigit b with
            | Some x, Some y => ascii_of_nat (16 * x + y) :: percent_decode rest
            | _, _ => c :: percent_decode tl
            end
        | _ => c :: percent_decode tl
        end
      else c :: percent_decode tl
  end.

(** The tokenizer loop, lines 168-175; [None] if [substr] throws. *)
Fixpoint tokenize (fuel : nat) (uri : string) (last : Z)
  : option (list string) :=
  match fuel with
  | O => None
  | S fuel' =>
      let pos := find uri "&" last in
      if pos =? npos then
        if last =? npos then Some []
        else tok ← substr uri last npos; Some [tok]
      else
        tok ← substr uri last (wrap64 (pos - last));
        rest ← tokenize fuel' uri (wrap64 (pos + 1));
        Some (tok :: rest)
  end.

(** The tag-value map, lines 178-183: [emplace] keeps the first value. *)
Definition add_param (params : gmap string string) (token : string)
  : gmap string string :=
  let delim := find token "=" 0 in
  if delim =? npos then params
  else match substr token 0 delim, substr token (wrap64 (delim + 1)) npos with
       | Some tag, Some value =>
           match params !! tag with
           | Some _ => params
           | None => <[tag := value]> params
           end
       | _, _ => params
       end.

Record parsed_uri := {
  protocol : string;
  decoded_path : string;
  params : gmap string string
}.

(** Lines 137-183; [None] when a [substr] throws. *)
Definition parse_uri (uri : string) : option parsed_uri :=
  let protocol_end := find uri "://" 0 in
  protocol ← substr uri 0 protocol_end;
  let protocol_end := wrap64 (protocol_end + 3) in
  let protocol := map_chars tolower protocol in
  let path_end := find_first_of uri "#?" protocol_end in
  path ← (if negb (path_end =? npos)
          then substr uri protocol_end (wrap64 (path_end - protocol_end))
          else substr uri protocol_end npos);
  let path_end := if negb (path_end =? npos) then wrap64 (path_end + 1)
                  else path_end in
  let decoded_path :=
    string_of_list_ascii (percent_decode (list_ascii_of_string path)) in
  tokens ← tokenize (S (String.length uri)) uri path_end;
  Some {| protocol := protocol; decoded_path := decoded_path;
          params := fold_left add_param tokens ∅ |}.

(** Lines 139-149 and 168: where the tokenizer starts, behind the first
    [#] or [?] that follows the protocol delimiter, or at [npos]. *)
Definition first_token_position (uri : string) : Z :=
  let protocol_end := wrap64 (find uri "://" 0 + 3) in
  let path_end := find_first_of uri "#?" protocol_end in
  if negb (path_end =? npos) then wrap64 (path_end + 1) else path_end.

(** The characters that end the path. *)
Definition ends_path (c : ascii) : bool :=
  existsb (Ascii.eqb c) (list_ascii_of_string "#?").

(** How the [try] block of lines 186-259 ends. *)
Inductive fetched :=
| fetch_buffer (buffer : list byte)   (* falls through to line 261 *)
| fetch_return                        (* a [return] inside the block *)
| fetch_fatal.                        (* [agent_error] *)

(** What lines 193-195 make of the [size] parameter. *)
Inductive size_parameter_t :=
| size_throws            (* [std::stoul] throws *)
| size_returns           (* given and zero: [open] returns at line 195 *)
| size_is (size : Z).    (* given and non-zero, or absent and still 0 *)

(** A buffer of [size] bytes, zero-filled behind what was read. *)
Definition pad (size : Z) (bytes : list byte) : list byte :=
  bytes ++ repeat x00 (Z.to_nat size - length bytes).

Section WithEnvironment.
Variable env : environment.

(** Lines 190-191: [offset] after the optional [std::stoul]; [None]
    when [std::stoul] throws. *)
Definition offset_parameter (u : parsed_uri) : option Z :=
  match params u !! "offset"%string with
  | Some s => stoul env s
  | None => Some 0
  end.

(** Lines 193-195. *)
Definition size_parameter (u : parsed_uri) : size_parameter_t :=
  match params u !! "size"%string with
  | Some s =>
      match stoul env s with
      | None => size_throws
      | Some size => if size =? 0 then size_returns else size_is size
      end
  | None => size_is 0
  end.

(** The [try] block; an exception inside it is swallowed by
    [catch (...)] and leaves the buffer empty. *)
Definition fetch (uri : string) (u : parsed_uri) : fetched * list effect :=
  match offset_parameter u with
  | None => (fetch_buffer [], [])
  | Some offset =>
      match size_parameter u with
      | size_throws => (fetch_buffer [], [])
      | size_returns => (fetch_return, [])
      | size_is size =>
          if String.eqb (protocol u) "file" then
            match file_contents env (decoded_path u) with
            | None =>
                (fetch_return,
                 [agent_warning (could_not_open_file (decoded_path u))])
            | Some contents =>
                let bytes := Z.of_nat (length contents) in
                if (size =? 0) && (bytes <? offset) then
                  (fetch_return,
                   [agent_warning
                      (file_size_less_than_offset (decoded_path u))])
                else
                  let size := if size =? 0 then bytes - offset else size in
                  if resize_succeeds env size then
                    (fetch_buffer
                       (pad size (take (Z.to_nat size)
                                       (drop (Z.to_nat offset) contents))),
                     [file_read (decoded_path u) offset size])
                  else (fetch_buffer [], [])
            end
          else if String.eqb (protocol u) "memory" then
            if (offset =? 0) || (size =? 0) then
              (fetch_return,
               [agent_warning (offset_and_size_must_be_nonzero uri)])
            else if negb (process_known env) then (fetch_fatal, [])
            else if resize_succeeds env size then
              match read_memory env offset size with
              | Some bytes =>
                  (fetch_buffer (pad size (take (Z.to_nat size) bytes)),
                   [memory_read offset size])
              | None =>
                  (fetch_return,
                   [memory_read offset size;
                    agent_warning (could_not_read_memory offset)])
              end
            else (fetch_buffer [], [])
          else
            (fetch_return,
             [agent_warning (protocol_not_supported (protocol u))])
      end
  end.

(** The loop over program headers, lines 332-344; [None] when
    [gelf_getphdr] fails. *)
Fixpoint scan_phdrs (phdrs : list (option GElf_Phdr)) (mem_size : Z)
  : option Z * Z :=
  match phdrs with
  | [] => (Some mem_size, mem_size)
  | None :: _ => (None, mem_size)
  | Some phdr :: rest =>
      scan_phdrs rest
        (if p_type phdr =? PT_LOAD env
         then Z.max mem_size (wrap64 (p_vaddr phdr + p_memsz phdr))
         else mem_size)
  end.

(** The first argument of the call of lines 261-298: the name the lambda
    of lines 264-294 gives, or the directory of line 297. *)
Definition temporary_file_name (uri : string) : Memfd.named :=
  if HAVE_MEMFD_CREATE env
  then Memfd.memfd_name (NAME_MAX env) (assertions_enabled env) uri
  else Memfd.name_is "/tmp".

(** Lines 261-346. *)
Definition materialize (co : code_object_t) (buffer : list byte)
  : outcome * list effect :=
  match temporary_file_name (m_uri co) with
  | Memfd.assertion_fails => (failed_assertion, [])
  | Memfd.throws => (uncaught_exception, [])
  | Memfd.name_is name =>
      match create_temporary_file env name with
      | None => (returned co, [agent_warning could_not_create_temporary_file])
      | Some fd =>
          if negb (write_result env fd buffer =? Z.of_nat (length buffer))
          then (returned co, [agent_warning could_not_write_temporary_file])
          else
            let written := temporary_file_written fd buffer in
            match read_elf env buffer with
            | elf_begin_failed =>
                (returned co,
                 [written; agent_warning (elf_begin_warning (m_uri co))])
            | elf_getphdrnum_failed =>
                (returned co,
                 [written; agent_warning (elf_getphdrnum_warning (m_uri co))])
            | elf_program_headers phdrs =>
                match scan_phdrs phdrs (m_mem_size co) with
                | (None, mem_size) =>
                    (returned {| m_load_address := m_load_address co;
                                 m_mem_size := mem_size;
                                 m_uri := m_uri co; m_fd := m_fd co |},
                     [written;
                      agent_warning (gelf_getphdr_warning (m_uri co))])
                | (Some _, mem_size) =>
                    (returned {| m_load_address := m_load_address co;
                                 m_mem_size := mem_size;
                                 m_uri := m_uri co; m_fd := Some fd |},
                     [written])
                end
            end
      end
  end.

Definition open (co : code_object_t) : outcome * list effect :=
  match parse_uri (m_uri co) with
  | None => (uncaught_exception, [])
  | Some u =>
      match fetch (m_uri co) u with
      | (fetch_return, effects) => (returned co, effects)
      | (fetch_fatal, effects) => (fatal_error, effects)
      | (fetch_buffer buffer, effects) =>
          let '(result, effects') := materialize co buffer in
          (result, effects ++ effects')
      end
  end.
End WithEnvironment.

(** The same environment in a build with or without [agent_assert]. *)
Definition with_assertions (enabled : bool) (env : environment)
  : environment :=
  {| stoul := stoul env;
     file_contents := file_contents env;
     resize_succeeds := resize_succeeds env;
     process_known := process_known env;
     read_memory := read_memory env;
     HAVE_MEMFD_CREATE := HAVE_MEMFD_CREATE env;
     NAME_MAX := NAME_MAX env;
     assertions_enabled := enabled;
     create_temporary_file := create_temporary_file env;
     write_result := write_result env;
     read_elf := read_elf env;
     PT_LOAD := PT_LOAD env |}.

(** Lines 640-646 of debug_agent.cpp: the code object that contains [pc],
    looked up in the map built by [print_wavefronts] (keyed by load
    address). *)
Definition find_code_object (code_object_map : StdMap.t code_object_t)
           (pc : Z) : option code_object_t :=
  match StdMap.prev_entry (StdMap.upper_bound pc code_object_map)
                          code_object_map with
  | Some (load_address, code_object) =>
      if wrap64 (pc - load_address) <=? m_mem_size code_object
      then Some code_object
      else None
  | None => None
  end.

End CodeObject.

(** ** The disassembly anchor of [code_object_t::disassemble]
       (code_object.cpp:522-604) *)

Module Disassemble.

Definition context_byte_size : Z := 24.

(** [m_line_number_map]: address to (file name, line number). *)
Abbreviation line_number_map := (StdMap.t (string * Z)).
(** [m_pc_ranges_map]: low pc to high pc. *)
Abbreviation pc_ranges_map := (StdMap.t Z).

Definition key_at {V} (m : StdMap.t V) (it : nat) : Z :=
  match m !! it with Some e => e.1 | None => 0 end.

(** The do-while loop of lines 532-538, entered with [it != begin ()];
    the result is the iterator it leaves. *)
Fixpoint walk_back (m : line_number_map) (pc : Z) (it : nat) : nat :=
  match it with
  | O => O
  | S it' =>
      if context_byte_size <=? wrap64 (pc - key_at m it') then it'
      else walk_back m pc it'
  end.

(** Lines 529-548. *)
Definition initial_start_pc (m : line_number_map) (pc : Z) : Z :=
  match StdMap.upper_bound pc m with
  | O => pc
  | it => key_at m (walk_back m pc it)
  end.

(** Lines 550-563: [start_pc] and [end_pc] after the clamp. *)
Definition clamp (ranges : pc_ranges_map) (pc start_pc : Z) : Z * Z :=
  let end_pc := wrap64 (pc + context_byte_size) in
  match StdMap.prev_entry (StdMap.upper_bound pc ranges) ranges with
  | Some (low_pc, high_pc) =>
      if pc <? high_pc then (Z.max start_pc low_pc, Z.min end_pc high_pc)
      else (start_pc, end_pc)
  | None => (start_pc, end_pc)
  end.

Section WithMemory.
(** The size [amd_dbgapi_disassemble_instruction] reports for the
    instruction at an address; [None] when [amd_dbgapi_read_memory] or
    the disassembler does not return SUCCESS there. *)
Variable instruction_size : Z -> option Z.

(** The while loop of lines 583-604; [None] when the fuel runs out. *)
Fixpoint skip_ahead (fuel : nat) (pc start_pc : Z) : option Z :=
  match fuel with
  | O => None
  | S fuel' =>
      if context_byte_size <? wrap64 (pc - start_pc) then
        match instruction_size start_pc with
        | None => Some start_pc
        | Some size =>
            if wrap64 (pc - wrap64 (start_pc + size)) <? context_byte_size
            then Some start_pc
            else skip_ahead fuel' pc (wrap64 (start_pc + size))
        end
      else Some start_pc
  end.

(** [start_pc] when the loop at line 610 starts: [saved_start_pc] is the
    clamped result of the backward walk, the result is where the
    forward skip leaves [start_pc]. *)
Definition saved_start_pc (m : line_number_map) (ranges : pc_ranges_map)
           (pc : Z) : Z :=
  (clamp ranges pc (initial_start_pc m pc)).1.

Definition start_pc (fuel : nat) (m : line_number_map)
           (ranges : pc_ranges_map) (pc : Z) : option Z :=
  skip_ahead fuel pc (saved_start_pc m ranges pc).

(** [b] is an instruction boundary when [a] is one: it is reached from [a]
    by stepping over whole instructions. *)
Inductive reaches : Z -> Z -> Prop :=
| reaches_here a : reaches a a
| reaches_over a size b :
    instruction_size a = Some size ->
    reaches (wrap64 (a + size)) b ->
    reaches a b.
End WithMemory.

(** A memory that holds instructions of the given sizes back to back from
    [origin], and is unreadable elsewhere. *)
Fixpoint instruction_stream (origin : Z) (sizes : list Z) (address : Z)
  : option Z :=
  match sizes with
  | [] => None
  | size :: rest =>
      if address =? origin then Some size
      else instruction_stream (origin + size) rest address
  end.

(** The line map of the specification's example: entries 100 and 8 bytes
    below [pc]. *)
Definition two_lines (pc : Z) : line_number_map :=
  [ (pc - 100, ("kernel.cpp"%string, 10)); (pc - 8, ("kernel.cpp"%string, 11)) ].

End Disassemble.

(** ** The status of a call of the debugger API *)

Module Dbgapi.

Inductive amd_dbgapi_status_t :=
| AMD_DBGAPI_STATUS_SUCCESS
| AMD_DBGAPI_STATUS_ERROR_INVALID_WAVE_ID
| AMD_DBGAPI_STATUS_ERROR_NOT_AVAILABLE
| AMD_DBGAPI_STATUS_ERROR.     (* any other status *)

End Dbgapi.

(** ** [print_registers] (debug_agent.cpp:247-363) *)

Module Registers.
Import Dbgapi.

(** What the library answers about the registers of the wave that is
    printed; every answer comes with its status. *)
Record register_file := {
  wave_architecture : amd_dbgapi_status_t * Z;
  register_class_list : Z -> amd_dbgapi_status_t * list Z;
  wave_register_list : amd_dbgapi_status_t * list Z;
  class_name : Z -> amd_dbgapi_status_t * string;
  (** [state == AMD_DBGAPI_REGISTER_CLASS_STATE_MEMBER]. *)
  is_member : Z -> Z -> amd_dbgapi_status_t * bool;
  register_name : Z -> amd_dbgapi_status_t * string;
  register_type : Z -> amd_dbgapi_status_t * string;
  register_size : Z -> amd_dbgapi_status_t * Z;
  read_register : Z -> Z -> amd_dbgapi_status_t * list byte
}.

(** What is written to [agent_out]. *)
Inductive item :=
| class_header (name : string)      (* a newline and "<name> registers:" *)
| newline
| register_line (register_id : Z) (name type : string) (value : list byte)
                                     (* the name and [register_value_string] *)
| end_of_class.

Inductive outcome :=
| finished
| fatal_error           (* [agent_error] through [DBGAPI_CHECK] *)
| division_by_zero      (* [16 / register_size] with a size of 0 *)
| out_of_fuel.

Section WithRegisters.
Variable env : register_file.

Definition succeeded (status : amd_dbgapi_status_t) : bool :=
  match status with AMD_DBGAPI_STATUS_SUCCESS => true | _ => false end.

(** The loop over the registers, lines 298-356, for one class: the
    outcome, the registers printed so far and what was written. *)
Fixpoint print_class (register_class_id : Z) (register_ids : list Z)
         (printed_registers : gset Z) (last_register_size column : Z)
  : outcome * gset Z * list item :=
  match register_ids with
  | [] => (finished, printed_registers, [])
  | register_id :: rest =>
      if bool_decide (register_id ∈ printed_registers)
      then print_class register_class_id rest printed_registers
                       last_register_size column
      else
        let '(status, member) := is_member env register_class_id register_id in
        if negb (succeeded status) then (fatal_error, printed_registers, [])
        else if negb member
        then print_class register_class_id rest printed_registers
                         last_register_size column
        else
          let '(s_name, name) := register_name env register_id in
          let '(s_type, type) := register_type env register_id in
          let '(s_size, size) := register_size env register_id in
          let '(s_read, value) := read_register env register_id size in
          if negb (succeeded s_name) || negb (succeeded s_type)
             || negb (succeeded s_size) || negb (succeeded s_read)
          then (fatal_error, printed_registers, [])
          else if size =? 0 then (division_by_zero, printed_registers, [])
          else
            let num_register_per_line := 16 / size in
            let breaks :=
              (8 <? size) || negb (size =? last_register_size)
              || (column mod num_register_per_line =? 0) in
            let column := if breaks then 1 else wrap64 (column + 1) in
            let '(result, printed, output) :=
              print_class register_class_id rest
                          (printed_registers ∪ {[register_id]}) size column in
            (result, printed,
             (if breaks then [newline] else [])
             ++ register_line register_id name type value :: output)
  end.

(** The loop over the classes, lines 276-359; the array
    [register_class_ids] is changed in place when the class "general" is
    moved to the end. *)
Fixpoint print_classes (fuel : nat) (register_class_ids register_ids : list Z)
         (i : nat) (printed_registers : gset Z) : outcome * list item :=
  match fuel with
  | O => (out_of_fuel, [])
  | S fuel' =>
      match register_class_ids !! i with
      | None => (finished, [])
      | Some register_class_id =>
          let '(status, name) := class_name env register_class_id in
          if negb (succeeded status) then (fatal_error, [])
          else
            let last := (length register_class_ids - 1)%nat in
            if String.eqb name "general" && (i <? last)%nat then
              print_classes fuel'
                (<[last := register_class_id]>
                   (<[i := default 0 (register_class_ids !! last)]>
                      register_class_ids))
                register_ids i printed_registers
            else
              let '(result, printed, output) :=
                print_class register_class_id register_ids
                            printed_registers 0 0 in
              match result with
              | finished =>
                  let '(result, output') :=
                    print_classes fuel' register_class_ids register_ids
                                  (S i) printed in
                  (result,
                   class_header name :: output ++ end_of_class :: output')
              | _ => (result, class_header name :: output)
              end
      end
  end.

Definition print_registers (fuel : nat) : outcome * list item :=
  let '(s_arch, architecture_id) := wave_architecture env in
  if negb (succeeded s_arch) then (fatal_error, [])
  else
    let '(s_classes, register_class_ids) :=
      register_class_list env architecture_id in
    if negb (succeeded s_classes) then (fatal_error, [])
    else
      let '(s_registers, register_ids) := wave_register_list env in
      if negb (succeeded s_registers) then (fatal_error, [])
      else print_classes fuel register_class_ids register_ids 0 ∅.
End WithRegisters.

(** The registers a piece of output prints, and the classes it heads. *)
Definition registers_of (output : list item) : list Z :=
  omap (fun x => match x with
                 | register_line register_id _ _ _ => Some register_id
                 | _ => None
                 end) output.

Definition classes_of (output : list item) : list string :=
  omap (fun x => match x with class_header name => Some name | _ => None end)
       output.

(** The name the library gives for a class. *)
Definition class_label (env : register_file) (register_class_id : Z)
  : string :=
  (class_name env register_class_id).2.

(** The array of classes after the class [g] at index [i] has changed
    places with the last one. *)
Definition general_moved (ids : list Z) (i : nat) (g : Z) : list Z :=
  <[(length ids - 1)%nat := g]>
    (<[i := default 0 (ids !! (length ids - 1)%nat)]> ids).

(** A wave with three classes, "general" coming first and holding every
    register, and a wave all of whose classes are called "general". *)
Definition three_classes : register_file := {|
  wave_architecture := (AMD_DBGAPI_STATUS_SUCCESS, 1);
  register_class_list := fun _ => (AMD_DBGAPI_STATUS_SUCCESS, [10; 11; 12]);
  wave_register_list := (AMD_DBGAPI_STATUS_SUCCESS, [100; 101; 102]);
  class_name := fun c =>
    (AMD_DBGAPI_STATUS_SUCCESS,
     if c =? 10 then "general"%string
     else if c =? 11 then "vector"%string else "scalar"%string);
  is_member := fun c r => (AMD_DBGAPI_STATUS_SUCCESS, (c =? 10) || (r - 90 =? c));
  register_name := fun r => (AMD_DBGAPI_STATUS_SUCCESS, "r"%string);
  register_type := fun _ => (AMD_DBGAPI_STATUS_SUCCESS, "uint32_t"%string);
  register_size := fun _ => (AMD_DBGAPI_STATUS_SUCCESS, 4);
  read_register := fun _ size =>
    (AMD_DBGAPI_STATUS_SUCCESS, repeat Byte.x00 (Z.to_nat size))
|}.

Definition all_general : register_file := {|
  wave_architecture := (AMD_DBGAPI_STATUS_SUCCESS, 1);
  register_class_list := fun _ => (AMD_DBGAPI_STATUS_SUCCESS, [10; 11]);
  wave_register_list := (AMD_DBGAPI_STATUS_SUCCESS, [100]);
  class_name := fun _ => (AMD_DBGAPI_STATUS_SUCCESS, "general"%string);
  is_member := fun _ _ => (AMD_DBGAPI_STATUS_SUCCESS, true);
  register_name := fun r => (AMD_DBGAPI_STATUS_SUCCESS, "r"%string);
  register_type := fun _ => (AMD_DBGAPI_STATUS_SUCCESS, "uint32_t"%string);
  register_size := fun _ => (AMD_DBGAPI_STATUS_SUCCESS, 4);
  read_register := fun _ size =>
    (AMD_DBGAPI_STATUS_SUCCESS, repeat Byte.x00 (Z.to_nat size))
|}.

End Registers.

(** ** [print_local_memory] (debug_agent.cpp:365-424) *)

Module LocalMemory.
Import Dbgapi.

Record local_memory := {
  (** [AMD_DBGAPI_WAVE_INFO_PROCESS] and [AMD_DBGAPI_WAVE_INFO_ARCHITECTURE]
      of the wave. *)
  wave_process : amd_dbgapi_status_t * Z;
  wave_architecture : amd_dbgapi_status_t * Z;
  (** [amd_dbgapi_dwarf_address_space_to_address_space] of an architecture
      and a DWARF address space. *)
  dwarf_address_space_to_address_space :
    Z -> Z -> amd_dbgapi_status_t * Z;
  (** [amd_dbgapi_read_memory] of a process in an address space at an
      address, with the size asked for: [None] when the status is not
      SUCCESS, else the size read and the words of the buffer. *)
  read_memory : Z -> Z -> Z -> Z -> option (Z * list Z)
}.

(** What is written to [agent_out]. *)
Inductive item :=
| memory_header            (* a newline and "Local memory content:" *)
| row_header (address : Z) (* a newline, "    0x", the address and ":" *)
| word (value : Z)         (* " " and the word *)
| final_newline.

Inductive outcome :=
| finished
| fatal_error           (* [agent_error] through [DBGAPI_CHECK] *)
| failed_assertion
| out_of_fuel.

Definition succeeded (status : amd_dbgapi_status_t) : bool :=
  match status with AMD_DBGAPI_STATUS_SUCCESS => true | _ => false end.

(** The for loop of lines 402-414 from index [i] on; [buffer] holds the
    words from [i] on. *)
Fixpoint print_words (base_address : Z) (buffer : list Z) (i column : Z)
  : list item :=
  match buffer with
  | [] => []
  | value :: rest =>
      if column mod 8 =? 0
      then row_header (wrap64 (base_address + wrap64 (i * 4)))
           :: word value :: print_words base_address rest (i + 1) 1
      else word value
           :: print_words base_address rest (i + 1) (wrap64 (column + 1))
  end.

Section WithMemory.
Variable env : local_memory.
Variable assertions_enabled : bool.

(** The while loop of lines 386-420 and the lines after it;
    [buffer_size] is [buffer.size ()]. *)
Fixpoint read_loop (fuel : nat) (process_id local_address_space_id : Z)
         (buffer_size base_address : Z) : outcome * list item :=
  match fuel with
  | O => (out_of_fuel, [])
  | S fuel' =>
      let after_loop base_address :=
        if base_address =? 0 then [] else [final_newline] in
      let requested_size := wrap64 (buffer_size * 4) in
      match read_memory env process_id local_address_space_id base_address
                        requested_size with
      | None => (finished, after_loop base_address)
      | Some (size, buffer) =>
          if assertions_enabled && negb (size mod 4 =? 0)
          then (failed_assertion, [])
          else
            let buffer := resize (Z.to_nat (size / 4)) 0 buffer in
            let output :=
              (if base_address =? 0 then [memory_header] else [])
              ++ print_words base_address buffer 0 0 in
            let base_address := wrap64 (base_address + size) in
            if negb (size =? requested_size)
            then (finished, output ++ after_loop base_address)
            else
              let '(result, output') :=
                read_loop fuel' process_id local_address_space_id
                          (size / 4) base_address in
              (result, output ++ output')
      end
  end.

Definition print_local_memory (fuel : nat) : outcome * list item :=
  let '(s_process, process_id) := wave_process env in
  if negb (succeeded s_process) then (fatal_error, [])
  else
    let '(s_architecture, architecture_id) := wave_architecture env in
    if negb (succeeded s_architecture) then (fatal_error, [])
    else
      let '(s_space, local_address_space_id) :=
        dwarf_address_space_to_address_space env architecture_id 3 in
      if negb (succeeded s_space) then (fatal_error, [])
      else read_loop fuel process_id local_address_space_id 1024 0.

(** The local memory as the reads from an address on give it: whole
    buffers of 4096 bytes, until a read fails or comes short. *)
Inductive reads (process_id local_address_space_id : Z)
  : Z -> list Z -> Prop :=
| reads_fail base_address :
    read_memory env process_id local_address_space_id base_address 4096
    = None ->
    reads process_id local_address_space_id base_address []
| reads_short base_address size buffer :
    read_memory env process_id local_address_space_id base_address 4096
    = Some (size, buffer) ->
    0 <= size < 4096 -> size mod 4 = 0 ->
    reads process_id local_address_space_id base_address
          (resize (Z.to_nat (size / 4)) 0 buffer)
| reads_full base_address buffer rest :
    read_memory env process_id local_address_space_id base_address 4096
    = Some (4096, buffer) ->
    reads process_id local_address_space_id (base_address + 4096) rest ->
    reads process_id local_address_space_id base_address
          (resize 1024 0 buffer ++ rest).
End WithMemory.

(** Rows of eight words, each under the address of its first word. *)
Fixpoint rows (count : nat) (address : Z) (words : list Z) : list item :=
  match count with
  | O => []
  | S count' =>
      match words with
      | [] => []
      | _ => row_header address
             :: (word <$> take 8 words)
             ++ rows count' (address + 32) (drop 8 words)
      end
  end.

(** A memory of 6 words, read at once. *)
Definition one_row : local_memory := {|
  wave_process := (AMD_DBGAPI_STATUS_SUCCESS, 1);
  wave_architecture := (AMD_DBGAPI_STATUS_SUCCESS, 2);
  dwarf_address_space_to_address_space := fun _ _ =>
    (AMD_DBGAPI_STATUS_SUCCESS, 3);
  read_memory := fun _ _ base_address size =>
    if base_address =? 0 then Some (24, repeat 9 1024) else None
|}.

(** A memory of 1030 words: one whole buffer and a short one. *)
Definition two_buffers : local_memory := {|
  wave_process := (AMD_DBGAPI_STATUS_SUCCESS, 1);
  wave_architecture := (AMD_DBGAPI_STATUS_SUCCESS, 2);
  dwarf_address_space_to_address_space := fun _ _ =>
    (AMD_DBGAPI_STATUS_SUCCESS, 3);
  read_memory := fun _ _ base_address size =>
    if base_address =? 0 then Some (4096, repeat 7 1024)
    else if base_address =? 4096 then Some (24, repeat 9 1024)
    else None
|}.

End LocalMemory.

(** ** The wave controller and the report of [debug_agent.cpp] *)

Module Agent.
Include Dbgapi.

Inductive amd_dbgapi_wave_state_t :=
| AMD_DBGAPI_WAVE_STATE_RUN
| AMD_DBGAPI_WAVE_STATE_SINGLE_STEP
| AMD_DBGAPI_WAVE_STATE_STOP.

Inductive amd_dbgapi_event_kind_t :=
| AMD_DBGAPI_EVENT_KIND_WAVE_STOP
| AMD_DBGAPI_EVENT_KIND_WAVE_COMMAND_TERMINATED
| AMD_DBGAPI_EVENT_KIND_CODE_OBJECT_LIST_UPDATED
| AMD_DBGAPI_EVENT_KIND_BREAKPOINT_RESUME
| AMD_DBGAPI_EVENT_KIND_RUNTIME
| AMD_DBGAPI_EVENT_KIND_QUEUE_ERROR.

Inductive amd_dbgapi_resume_mode_t :=
| AMD_DBGAPI_RESUME_MODE_NORMAL
| AMD_DBGAPI_RESUME_MODE_SINGLE_STEP.

Inductive abort_reason :=
| agent_error          (* [agent_error], also through [DBGAPI_CHECK] *)
| assertion_failure    (* a failed [agent_assert], when compiled in *)
| arithmetic_error.    (* an integer division by zero *)

(** How a call of a function that is not unfolded here ends. *)
Inductive ending :=
| returns
| aborts (why : abort_reason)
| never_returns.

(** The debugger API as the agent uses it: every call is answered from
    the current state of the library and of the GPU ([World]); calls that
    act on that state return the state afterwards.  Handles are [Z].
    An answer is only looked at when the status is SUCCESS. *)
Record dbgapi (World : Type) := {
  (** [None] stands for [AMD_DBGAPI_EVENT_NONE]. *)
  amd_dbgapi_process_next_pending_event :
    World -> amd_dbgapi_status_t * option (Z * amd_dbgapi_event_kind_t) * World;
  amd_dbgapi_event_get_info_wave : Z -> World -> amd_dbgapi_status_t * Z;
  amd_dbgapi_event_processed : Z -> World -> amd_dbgapi_status_t * World;
  amd_dbgapi_process_wave_list :
    World -> amd_dbgapi_status_t * list Z * World;
  amd_dbgapi_wave_get_info_state :
    Z -> World -> amd_dbgapi_status_t * amd_dbgapi_wave_state_t;
  amd_dbgapi_wave_get_info_stop_reason : Z -> World -> amd_dbgapi_status_t * Z;
  amd_dbgapi_wave_get_info_pc : Z -> World -> amd_dbgapi_status_t * Z;
  amd_dbgapi_wave_get_info_dispatch : Z -> World -> amd_dbgapi_status_t * Z;
  amd_dbgapi_wave_get_info_architecture :
    Z -> World -> amd_dbgapi_status_t * Z;
  amd_dbgapi_dispatch_get_info_kernel_code_entry_address :
    Z -> World -> amd_dbgapi_status_t * Z;
  amd_dbgapi_wave_stop : Z -> World -> amd_dbgapi_status_t * World;
  amd_dbgapi_wave_resume :
    Z -> amd_dbgapi_resume_mode_t -> Z -> World -> amd_dbgapi_status_t * World;
  amd_dbgapi_process_code_object_list : World -> amd_dbgapi_status_t * list Z;
  amd_dbgapi_code_object_get_info_load_address :
    Z -> World -> amd_dbgapi_status_t * Z;
  amd_dbgapi_code_object_get_info_uri_name :
    Z -> World -> amd_dbgapi_status_t * string;
  (** What the library answers [print_registers] and [print_local_memory]
      about a wave. *)
  wave_registers : Z -> World -> Registers.register_file;
  wave_local_memory : Z -> World -> LocalMemory.local_memory;
  (** How [code_object_t::disassemble] of a code object ends for an
      architecture and a [pc]: it reads the debug information and the
      symbols of the code object and the memory of the process. *)
  code_object_disassemble :
    CodeObject.code_object_t -> Z -> Z -> World -> ending
}.
Arguments amd_dbgapi_process_next_pending_event {World}.
Arguments amd_dbgapi_event_get_info_wave {World}.
Arguments amd_dbgapi_event_processed {World}.
Arguments amd_dbgapi_process_wave_list {World}.
Arguments amd_dbgapi_wave_get_info_state {World}.
Arguments amd_dbgapi_wave_get_info_stop_reason {World}.
Arguments amd_dbgapi_wave_get_info_pc {World}.
Arguments amd_dbgapi_wave_get_info_dispatch {World}.
Arguments amd_dbgapi_wave_get_info_architecture {World}.
Arguments amd_dbgapi_dispatch_get_info_kernel_code_entry_address {World}.
Arguments amd_dbgapi_wave_stop {World}.
Arguments amd_dbgapi_wave_resume {World}.
Arguments amd_dbgapi_process_code_object_list {World}.
Arguments amd_dbgapi_code_object_get_info_load_address {World}.
Arguments amd_dbgapi_code_object_get_info_uri_name {World}.
Arguments wave_registers {World}.
Arguments wave_local_memory {World}.
Arguments code_object_disassemble {World}.

(** The calls the agent makes on waves, events and code objects. *)
Inductive api_call :=
| process_next_pending_event
| event_get_info (event_id : Z)
| event_processed (event_id : Z)
| process_wave_list
| wave_get_info (wave_id : Z)
| wave_stop (wave_id : Z)
| wave_resume (wave_id : Z) (mode : amd_dbgapi_resume_mode_t) (exceptions : Z)
| dispatch_get_info (dispatch_id : Z)
| process_code_object_list
| code_object_get_info (code_object_id : Z)
| code_object_open (code_object_id : Z)
| code_object_save (code_object_id : Z).

(** The pieces of the report written to [agent_out]. *)
Inductive report_item :=
| blank_line
| separator
| wave_header (wave_id pc : Z) (kernel_entry : option Z)
              (kernel_symbol : option string) (stop_reason : Z)
| registers (wave_id : Z) (output : list Registers.item)
                                      (* [print_registers (wave_id)] *)
| local_memory (wave_id : Z) (output : list LocalMemory.item)
                                      (* [print_local_memory (wave_id)] *)
| disassembly (load_address architecture_id pc : Z).
                                      (* [code_object_found->disassemble] *)

Inductive action :=
| call (c : api_call)
| warn_could_not_open (code_object_id : Z)
| warn_could_not_save
| out (item : report_item).

(** What a trace wrote to [agent_out]. *)
Definition report_of (t : list action) : list report_item :=
  omap (fun a => match a with out item => Some item | _ => None end) t.

(** The stop requests of a trace. *)
Definition stop_requests (t : list action) : list Z :=
  omap (fun a => match a with call (wave_stop id) => Some id | _ => None end) t.

Inductive result (A : Type) :=
| Ok (a : A)
| Abort (why : abort_reason)
| OutOfFuel.
Arguments Ok {A}.
Arguments Abort {A}.
Arguments OutOfFuel {A}.

Section WithWorld.
Context {World : Type}.
Variable api : dbgapi World.
(** Whether [agent_assert] is compiled in (debug.h decides). *)
Variable assertions_enabled : bool.

Record state := {
  world : World;
  (** The function-local [static std::mutex lock] of
      [print_wavefronts]: [true] while some invocation holds it. *)
  lock : bool;
  trace : list action
}.

(** Agent code: it runs on a state and returns, aborts the process or
    (in this model) needs more fuel. *)
Definition M (A : Type) : Type := state -> result A * state.

Definition ret {A} (a : A) : M A := fun st => (Ok a, st).

Definition bind {A B} (m : M A) (k : A -> M B) : M B :=
  fun st =>
    match m st with
    | (Ok a, st') => k a st'
    | (Abort why, st') => (Abort why, st')
    | (OutOfFuel, st') => (OutOfFuel, st')
    end.

Definition abort {A} (why : abort_reason) : M A := fun st => (Abort why, st).

Definition emit (a : action) : M unit :=
  fun st => (Ok tt, {| world := world st; lock := lock st;
                       trace := trace st ++ [a] |}).

(** A call that only queries the library. *)
Definition query {A} (c : api_call) (f : World -> amd_dbgapi_status_t * A)
  : M (amd_dbgapi_status_t * A) :=
  fun st => (Ok (f (world st)),
             {| world := world st; lock := lock st;
                trace := trace st ++ [call c] |}).

(** A call that acts on the library or on the GPU. *)
Definition command (c : api_call) (f : World -> amd_dbgapi_status_t * World)
  : M amd_dbgapi_status_t :=
  fun st => let '(status, w) := f (world st) in
            (Ok status, {| world := w; lock := lock st;
                           trace := trace st ++ [call c] |}).

Definition command_with {A} (c : api_call)
           (f : World -> amd_dbgapi_status_t * A * World)
  : M (amd_dbgapi_status_t * A) :=
  fun st => let '(status, a, w) := f (world st) in
            (Ok (status, a), {| world := w; lock := lock st;
                                trace := trace st ++ [call c] |}).

(** The macro of lines 70-77. *)
Definition DBGAPI_CHECK (status : amd_dbgapi_status_t) : M unit :=
  match status with
  | AMD_DBGAPI_STATUS_SUCCESS => ret tt
  | _ => abort agent_error
  end.

Definition agent_assert (b : bool) : M unit :=
  if assertions_enabled && negb b then abort assertion_failure else ret tt.

End WithWorld.
Arguments state : clear implicits.
Arguments M : clear implicits.

Declare Scope agent_scope.
Delimit Scope agent_scope with agent.
Notation "x <- m ; k" := (bind m (fun x => k))
  (at level 20, m at level 100, k at level 200, only parsing) : agent_scope.
Notation "' p <- m ; k" := (bind m (fun p => k))
  (at level 20, p pattern, m at level 100, k at level 200, only parsing)
  : agent_scope.
Notation "m ;; k" := (bind m (fun _ => k))
  (at level 100, k at level 200, only parsing, right associativity)
  : agent_scope.
Local Open Scope agent_scope.

(** What the agent is built and started with, and the parts of the
    process around it that are not unfolded here. *)
Record configuration := {
  (** Whether [agent_assert] is compiled in. *)
  assertions : bool;
  (** [g_code_objects_dir.has_value ()]. *)
  save_code_objects : bool;
  (** The result of [code_object.save] into [g_code_objects_dir]. *)
  save_succeeds : CodeObject.code_object_t -> bool;
  (** The environment of [code_object_t::open], of the same build. *)
  os : CodeObject.environment;
  (** [m_load_address] of a code object whose load address could not be
      queried (the member is then never assigned). *)
  unassigned_load_address : Z;
  (** [code_object_found->find_symbol (address)->m_name]. *)
  symbol_name : CodeObject.code_object_t -> Z -> option string;
  (** The enumerator values of [amd-dbgapi.h]. *)
  header : ResumeMask.dbgapi_header
}.

(** The same build with [agent_assert] compiled out. *)
Definition release (cfg : configuration) : configuration :=
  {| assertions := false;
     save_code_objects := save_code_objects cfg;
     save_succeeds := save_succeeds cfg;
     os := CodeObject.with_assertions false (os cfg);
     unassigned_load_address := unassigned_load_address cfg;
     symbol_name := symbol_name cfg;
     header := header cfg |}.

(** The state after the library has been called with [calls] and has left
    the world [w]. *)
Definition asked {World} (st : state World) (calls : list api_call)
                 (w : World) : state World :=
  {| world := w; lock := lock st; trace := trace st ++ (call <$> calls) |}.

(** [m] does what [m'] does, unless an assertion stops it. *)
Definition asserts_or_agrees {World A} (m m' : M World A) : Prop :=
  forall st, m st = m' st \/ exists st', m st = (Abort assertion_failure, st').

Section Code.
Context {World : Type}.
Variable api : dbgapi World.
Variable cfg : configuration.

Abbreviation M' := (M World).

Definition is_success (s : amd_dbgapi_status_t) : bool :=
  match s with AMD_DBGAPI_STATUS_SUCCESS => true | _ => false end.

(** *** [stop_all_wavefronts] (lines 426-553) *)

(** The two sets of the convergence loop. *)
Record stop_sets := {
  already_stopped : gset Z;
  waiting_to_stop : gset Z
}.

(** The event loop of lines 438-478.  Each turn consumes one pending
    event; the loop ends at [AMD_DBGAPI_EVENT_NONE]. *)
Fixpoint drain_events (fuel : nat) (sets : stop_sets) : M' stop_sets :=
  match fuel with
  | O => fun st => (OutOfFuel, st)
  | S fuel' =>
      '(status, next) <- command_with process_next_pending_event
                           (amd_dbgapi_process_next_pending_event api) ;
      DBGAPI_CHECK status ;;
      match next with
      | None => ret sets
      | Some (event_id, kind) =>
          sets <-
            match kind with
            | AMD_DBGAPI_EVENT_KIND_WAVE_STOP
            | AMD_DBGAPI_EVENT_KIND_WAVE_COMMAND_TERMINATED =>
                '(status, wave_id) <-
                  query (event_get_info event_id)
                        (amd_dbgapi_event_get_info_wave api event_id) ;
                DBGAPI_CHECK status ;;
                agent_assert (assertions cfg)
                  (bool_decide (wave_id ∈ waiting_to_stop sets)) ;;
                let waiting := waiting_to_stop sets ∖ {[wave_id]} in
                match kind with
                | AMD_DBGAPI_EVENT_KIND_WAVE_STOP =>
                    ret {| already_stopped :=
                             already_stopped sets ∪ {[wave_id]};
                           waiting_to_stop := waiting |}
                | _ =>
                    ret {| already_stopped := already_stopped sets;
                           waiting_to_stop := waiting |}
                end
            | _ => ret sets
            end ;
          status <- command (event_processed event_id)
                      (amd_dbgapi_event_processed api event_id) ;
          DBGAPI_CHECK status ;;
          drain_events fuel' sets
      end
  end.

(** The body of the loop over the wave list, lines 488-543. *)
Definition stop_wave (sets : stop_sets) (wave_id : Z) : M' stop_sets :=
  if bool_decide (wave_id ∈ already_stopped sets) then ret sets
  else if bool_decide (wave_id ∈ waiting_to_stop sets) then ret sets
  else
    '(status, state) <- query (wave_get_info wave_id)
                          (amd_dbgapi_wave_get_info_state api wave_id) ;
    match status with
    | AMD_DBGAPI_STATUS_ERROR_INVALID_WAVE_ID => ret sets
    | AMD_DBGAPI_STATUS_SUCCESS =>
        match state with
        | AMD_DBGAPI_WAVE_STATE_STOP =>
            ret {| already_stopped := already_stopped sets ∪ {[wave_id]};
                   waiting_to_stop := waiting_to_stop sets |}
        | AMD_DBGAPI_WAVE_STATE_SINGLE_STEP => ret sets
        | AMD_DBGAPI_WAVE_STATE_RUN =>
            status <- command (wave_stop wave_id)
                        (amd_dbgapi_wave_stop api wave_id) ;
            match status with
            | AMD_DBGAPI_STATUS_ERROR_INVALID_WAVE_ID => ret sets
            | AMD_DBGAPI_STATUS_SUCCESS =>
                ret {| already_stopped := already_stopped sets;
                       waiting_to_stop :=
                         waiting_to_stop sets ∪ {[wave_id]} |}
            | _ => abort agent_error
            end
        end
    | _ => abort agent_error
    end.

Fixpoint stop_waves (sets : stop_sets) (wave_ids : list Z) : M' stop_sets :=
  match wave_ids with
  | [] => ret sets
  | wave_id :: rest =>
      sets <- stop_wave sets wave_id ; stop_waves sets rest
  end.

(** One turn of the [for (size_t iter = 0; ++iter)] loop, up to the
    test of line 548. *)
Definition stop_iteration (fuel : nat) (sets : stop_sets) : M' stop_sets :=
  sets <- drain_events fuel sets ;
  '(status, wave_ids) <- command_with process_wave_list
                           (amd_dbgapi_process_wave_list api) ;
  DBGAPI_CHECK status ;;
  stop_waves sets wave_ids.

(** The loop; [iterations] bounds the turns of the outer loop and
    [fuel] those of each event loop. *)
Fixpoint stop_loop (iterations fuel : nat) (sets : stop_sets)
  : M' stop_sets :=
  match iterations with
  | O => fun st => (OutOfFuel, st)
  | S iterations' =>
      sets <- stop_iteration fuel sets ;
      if bool_decide (size (waiting_to_stop sets) = 0%nat) then ret sets
      else stop_loop iterations' fuel sets
  end.

(** The function returns nothing; the model hands back the two local
    sets as they are when the loop is left. *)
Definition stop_all_wavefronts (iterations fuel : nat) : M' stop_sets :=
  stop_loop iterations fuel
            {| already_stopped := ∅; waiting_to_stop := ∅ |}.

(** *** [print_wavefronts] (lines 555-759) *)

(** The constructor [code_object_t (code_object_id)],
    code_object.cpp:65-89. *)
Definition construct_code_object (code_object_id : Z)
  : M' CodeObject.code_object_t :=
  '(status, load_address) <-
    query (code_object_get_info code_object_id)
          (amd_dbgapi_code_object_get_info_load_address api code_object_id) ;
  if negb (is_success status) then
    ret {| CodeObject.m_load_address := unassigned_load_address cfg;
           CodeObject.m_mem_size := 0;
           CodeObject.m_uri := ""; CodeObject.m_fd := None |}
  else
    '(status, uri) <-
      query (code_object_get_info code_object_id)
            (amd_dbgapi_code_object_get_info_uri_name api code_object_id) ;
    ret {| CodeObject.m_load_address := load_address;
           CodeObject.m_mem_size := 0;
           CodeObject.m_uri := if is_success status then uri else "";
           CodeObject.m_fd := None |}.

(** The body of the loop of lines 572-590. *)
Definition add_code_object
           (code_object_map : StdMap.t CodeObject.code_object_t)
           (code_object_id : Z)
  : M' (StdMap.t CodeObject.code_object_t) :=
  code_object <- construct_code_object code_object_id ;
  emit (call (code_object_open code_object_id)) ;;
  match (CodeObject.open (os cfg) code_object).1 with
  | CodeObject.returned code_object =>
      if negb (CodeObject.is_open code_object) then
        emit (warn_could_not_open code_object_id) ;;
        ret code_object_map
      else
        (if save_code_objects cfg then
           emit (call (code_object_save code_object_id)) ;;
           if negb (save_succeeds cfg code_object)
           then emit warn_could_not_save else ret tt
         else ret tt) ;;
        ret (StdMap.emplace (CodeObject.m_load_address code_object)
                            code_object code_object_map).2
  | CodeObject.failed_assertion => abort assertion_failure
  | _ => abort agent_error
  end.

Fixpoint add_code_objects
         (code_object_map : StdMap.t CodeObject.code_object_t)
         (ids : list Z) : M' (StdMap.t CodeObject.code_object_t) :=
  match ids with
  | [] => ret code_object_map
  | id :: rest =>
      code_object_map <- add_code_object code_object_map id ;
      add_code_objects code_object_map rest
  end.

(** The calls of lines 739, 740 and 750.  The functions called only
    query the library; what they write is one item of the report. *)
Definition print_registers (fuel : nat) (wave_id : Z) : M' unit :=
  fun st =>
    match Registers.print_registers (wave_registers api wave_id (world st))
                                    fuel with
    | (Registers.finished, output) => emit (out (registers wave_id output)) st
    | (Registers.fatal_error, _) => (Abort agent_error, st)
    | (Registers.division_by_zero, _) => (Abort arithmetic_error, st)
    | (Registers.out_of_fuel, _) => (OutOfFuel, st)
    end.

Definition print_local_memory (fuel : nat) (wave_id : Z) : M' unit :=
  fun st =>
    match LocalMemory.print_local_memory
            (wave_local_memory api wave_id (world st)) (assertions cfg)
            fuel with
    | (LocalMemory.finished, output) =>
        emit (out (local_memory wave_id output)) st
    | (LocalMemory.fatal_error, _) => (Abort agent_error, st)
    | (LocalMemory.failed_assertion, _) => (Abort assertion_failure, st)
    | (LocalMemory.out_of_fuel, _) => (OutOfFuel, st)
    end.

Definition disassemble (code_object : CodeObject.code_object_t)
           (architecture_id pc : Z) : M' unit :=
  fun st =>
    match code_object_disassemble api code_object architecture_id pc
                                  (world st) with
    | returns =>
        emit (out (disassembly (CodeObject.m_load_address code_object)
                               architecture_id pc)) st
    | aborts why => (Abort why, st)
    | never_returns => (OutOfFuel, st)
    end.

(** The body of the loop over the waves, lines 603-755; [i] is the loop
    index and [fuel] bounds the loops of the functions called. *)
Definition report_wave (fuel : nat)
           (code_object_map : StdMap.t CodeObject.code_object_t)
           (i : nat) (wave_id : Z) : M' unit :=
  '(status, state) <- query (wave_get_info wave_id)
                        (amd_dbgapi_wave_get_info_state api wave_id) ;
  DBGAPI_CHECK status ;;
  match state with
  | AMD_DBGAPI_WAVE_STATE_STOP =>
      '(status, stop_reason) <-
        query (wave_get_info wave_id)
              (amd_dbgapi_wave_get_info_stop_reason api wave_id) ;
      DBGAPI_CHECK status ;;
      '(status, pc) <- query (wave_get_info wave_id)
                         (amd_dbgapi_wave_get_info_pc api wave_id) ;
      DBGAPI_CHECK status ;;
      '(status, dispatch_id) <-
        query (wave_get_info wave_id)
              (amd_dbgapi_wave_get_info_dispatch api wave_id) ;
      kernel_entry <-
        match status with
        | AMD_DBGAPI_STATUS_SUCCESS =>
            '(status, entry) <-
              query (dispatch_get_info dispatch_id)
                    (amd_dbgapi_dispatch_get_info_kernel_code_entry_address
                       api dispatch_id) ;
            DBGAPI_CHECK status ;;
            ret (Some entry)
        | AMD_DBGAPI_STATUS_ERROR_NOT_AVAILABLE => ret None
        | _ => abort agent_error
        end ;
      let code_object_found :=
        CodeObject.find_code_object code_object_map pc in
      (if i is O then ret tt else emit (out blank_line)) ;;
      emit (out separator) ;;
      emit (out (wave_header wave_id pc kernel_entry
                   (match kernel_entry, code_object_found with
                    | Some entry, Some code_object =>
                        symbol_name cfg code_object entry
                    | _, _ => None
                    end)
                   stop_reason)) ;;
      print_registers fuel wave_id ;;
      print_local_memory fuel wave_id ;;
      match code_object_found with
      | Some code_object =>
          '(status, architecture_id) <-
            query (wave_get_info wave_id)
                  (amd_dbgapi_wave_get_info_architecture api wave_id) ;
          DBGAPI_CHECK status ;;
          disassemble code_object architecture_id pc
      | None => ret tt
      end
  | _ => ret tt
  end.

Fixpoint report_waves (fuel : nat)
         (code_object_map : StdMap.t CodeObject.code_object_t)
         (i : nat) (wave_ids : list Z) : M' unit :=
  match wave_ids with
  | [] => ret tt
  | wave_id :: rest =>
      report_wave fuel code_object_map i wave_id ;;
      report_waves fuel code_object_map (S i) rest
  end.

(** Lines 565-599: the code-object map and the wave list the report is
    made from. *)
Definition gather (iterations fuel : nat) (all_wavefronts : bool)
  : M' (StdMap.t CodeObject.code_object_t * list Z) :=
  '(status, ids) <- query process_code_object_list
                      (amd_dbgapi_process_code_object_list api) ;
  DBGAPI_CHECK status ;;
  code_object_map <- add_code_objects [] ids ;
  (if all_wavefronts
   then _ <- stop_all_wavefronts iterations fuel ; ret tt
   else ret tt) ;;
  '(status, wave_ids) <- command_with process_wave_list
                           (amd_dbgapi_process_wave_list api) ;
  DBGAPI_CHECK status ;;
  ret (code_object_map, wave_ids).

(** Lines 565-759: what an invocation does once it owns the lock. *)
Definition print_wavefronts_locked (iterations fuel : nat)
           (all_wavefronts : bool) : M' unit :=
  '(status, ids) <- query process_code_object_list
                      (amd_dbgapi_process_code_object_list api) ;
  DBGAPI_CHECK status ;;
  code_object_map <- add_code_objects [] ids ;
  (if all_wavefronts
   then _ <- stop_all_wavefronts iterations fuel ; ret tt
   else ret tt) ;;
  '(status, wave_ids) <- command_with process_wave_list
                           (amd_dbgapi_process_wave_list api) ;
  DBGAPI_CHECK status ;;
  report_waves fuel code_object_map 0 wave_ids.

(** [lock.try_lock ()] of line 560. *)
Definition try_lock : M' bool :=
  fun st => if lock st then (Ok false, st)
            else (Ok true, {| world := world st; lock := true;
                              trace := trace st |}).

(** The destructor of the [std::scoped_lock] of line 563. *)
Definition unlock : M' unit :=
  fun st => (Ok tt, {| world := world st; lock := false;
                       trace := trace st |}).

Definition print_wavefronts (iterations fuel : nat)
           (all_wavefronts : bool) : M' unit :=
  locked <- try_lock ;
  if negb locked then ret tt
  else
    print_wavefronts_locked iterations fuel all_wavefronts ;;
    unlock.

(** What lines 621-638 leave in [kernel_entry], when they do not abort. *)
Definition kernel_entry_answer (wave_id : Z) (w : World)
           (kernel_entry : option Z) : Prop :=
  match amd_dbgapi_wave_get_info_dispatch api wave_id w with
  | (AMD_DBGAPI_STATUS_SUCCESS, dispatch_id) =>
      exists entry,
        amd_dbgapi_dispatch_get_info_kernel_code_entry_address
          api dispatch_id w = (AMD_DBGAPI_STATUS_SUCCESS, entry)
        /\ kernel_entry = Some entry
  | (AMD_DBGAPI_STATUS_ERROR_NOT_AVAILABLE, _) => kernel_entry = None
  | _ => False
  end.

(** Two requests, the second made by another thread while the first holds
    the lock: right after the first took it, or right before the first
    gives it back. *)
Definition second_request_after_lock (iterations fuel : nat)
           (all_wavefronts all_wavefronts' : bool) : M' unit :=
  locked <- try_lock ;
  if negb locked then ret tt
  else
    print_wavefronts iterations fuel all_wavefronts' ;;
    print_wavefronts_locked iterations fuel all_wavefronts ;;
    unlock.

Definition second_request_before_unlock (iterations fuel : nat)
           (all_wavefronts all_wavefronts' : bool) : M' unit :=
  locked <- try_lock ;
  if negb locked then ret tt
  else
    print_wavefronts_locked iterations fuel all_wavefronts ;;
    print_wavefronts iterations fuel all_wavefronts' ;;
    unlock.

(** Code that neither takes nor gives back the lock. *)
Definition keeps_lock {A} (m : M' A) : Prop :=
  forall st, lock (m st).2 = lock st.

(** *** The resume loop of [process_dbgapi_events] (lines 912-994) *)

Definition resume_wave (wave_id : Z) : M' unit :=
  '(status, state) <- query (wave_get_info wave_id)
                        (amd_dbgapi_wave_get_info_state api wave_id) ;
  DBGAPI_CHECK status ;;
  match state with
  | AMD_DBGAPI_WAVE_STATE_STOP =>
      '(status, stop_reason) <-
        query (wave_get_info wave_id)
              (amd_dbgapi_wave_get_info_stop_reason api wave_id) ;
      DBGAPI_CHECK status ;;
      match ResumeMask.resume_exceptions (header cfg) stop_reason with
      | Some resume_exceptions =>
          status <- command
                      (wave_resume wave_id AMD_DBGAPI_RESUME_MODE_NORMAL
                                   resume_exceptions)
                      (amd_dbgapi_wave_resume api wave_id
                         AMD_DBGAPI_RESUME_MODE_NORMAL resume_exceptions) ;
          DBGAPI_CHECK status
      | None => fun st => (OutOfFuel, st)
      end
  | _ => ret tt
  end.

Fixpoint resume_waves (wave_ids : list Z) : M' unit :=
  match wave_ids with
  | [] => ret tt
  | wave_id :: rest => resume_wave wave_id ;; resume_waves rest
  end.

End Code.

End Agent.

(** ** A simulated GPU behind the debugger API

    A deterministic environment for [stop_all_wavefronts]: a finite set of
    waves, each of which answers a stop request after a finite number of
    polls of the wave list, by stopping or by terminating, and reports that
    transition with one event.  A single-stepping wave finishes its step
    after a finite number of polls and reports it with a WAVE_STOP event as
    well, and so does a wave that has stopped on an exception of its
    own. *)

Module SimulatedGpu.
Import Agent.

Inductive wave :=
| running (latency : nat) (dies : bool)
    (* RUN; once asked to stop it needs [latency] more polls, then stops,
       or terminates when [dies] *)
| stopping (remaining : nat) (dies : bool)
    (* RUN with a stop request in flight *)
| stop_unreported          (* STOP on request; its WAVE_STOP event is queued *)
| terminated_unreported    (* gone; its WAVE_COMMAND_TERMINATED is queued *)
| single_stepping (remaining : nat)
| own_stop_unreported      (* STOP without a request: after the step, or on
                              an exception; its WAVE_STOP event is queued *)
| stopped                  (* STOP, nothing to report *)
| terminated.              (* gone, nothing to report *)

Record world := {
  waves : gmap Z wave;
  (** The event queue; an event is named by the wave it is about. *)
  pending : list Z
}.

Definition alive (w : wave) : bool :=
  match w with
  | terminated | terminated_unreported => false
  | _ => true
  end.

Definition transitions (w : wave) : bool :=
  match w with
  | stopping O _ | single_stepping O => true
  | _ => false
  end.

(** What one poll of the wave list lets a wave do. *)
Definition tick (w : wave) : wave :=
  match w with
  | stopping O dies => if dies then terminated_unreported else stop_unreported
  | stopping (S n) dies => stopping n dies
  | single_stepping O => own_stop_unreported
  | single_stepping (S n) => single_stepping n
  | w => w
  end.

Definition ids_where (p : wave -> bool) (ws : gmap Z wave) : list Z :=
  (filter (fun e => p e.2 = true) (map_to_list ws)).*1.

Definition report (w : wave) : wave :=
  match w with
  | stop_unreported | own_stop_unreported => stopped
  | terminated_unreported => terminated
  | w => w
  end.

Definition event_kind_of (w : option wave) : amd_dbgapi_event_kind_t :=
  match w with
  | Some terminated_unreported => AMD_DBGAPI_EVENT_KIND_WAVE_COMMAND_TERMINATED
  | _ => AMD_DBGAPI_EVENT_KIND_WAVE_STOP
  end.

Definition state_of (w : option wave)
  : amd_dbgapi_status_t * amd_dbgapi_wave_state_t :=
  match w with
  | Some (running _ _) | Some (stopping _ _) =>
      (AMD_DBGAPI_STATUS_SUCCESS, AMD_DBGAPI_WAVE_STATE_RUN)
  | Some (single_stepping _) =>
      (AMD_DBGAPI_STATUS_SUCCESS, AMD_DBGAPI_WAVE_STATE_SINGLE_STEP)
  | Some stop_unreported | Some own_stop_unreported | Some stopped =>
      (AMD_DBGAPI_STATUS_SUCCESS, AMD_DBGAPI_WAVE_STATE_STOP)
  | Some terminated_unreported | Some terminated | None =>
      (AMD_DBGAPI_STATUS_ERROR_INVALID_WAVE_ID, AMD_DBGAPI_WAVE_STATE_RUN)
  end.

Definition request_stop (w : wave) : wave :=
  match w with
  | running latency dies => stopping latency dies
  | w => w
  end.

(** What the simulated library knows about waves, dispatches and code
    objects besides the run state of the waves; none of it changes while
    the agent runs. *)
Record snapshot := {
  stop_reason_of : Z -> Z;
  pc_of : Z -> Z;
  (** [None]: the dispatch is not available. *)
  dispatch_of : Z -> option Z;
  architecture_of : Z -> Z;
  kernel_code_entry_of : Z -> Z;
  code_object_ids : list Z;
  load_address_of : Z -> Z;
  uri_of : Z -> string;
  registers_of : Z -> Registers.register_file;
  local_memory_of : Z -> LocalMemory.local_memory;
  disassemble_of : CodeObject.code_object_t -> Z -> Z -> ending
}.

Definition resumed (mode : amd_dbgapi_resume_mode_t) (w : wave) : option wave :=
  match w with
  | stop_unreported | own_stop_unreported | stopped =>
      Some match mode with
           | AMD_DBGAPI_RESUME_MODE_NORMAL => running 0 false
           | AMD_DBGAPI_RESUME_MODE_SINGLE_STEP => single_stepping 0
           end
  | _ => None
  end.

(** The operations of the API on the simulated world. *)
Definition api (s : snapshot) : dbgapi world := {|
  amd_dbgapi_process_next_pending_event w :=
    match pending w with
    | [] => (AMD_DBGAPI_STATUS_SUCCESS, None, w)
    | id :: rest =>
        (AMD_DBGAPI_STATUS_SUCCESS,
         Some (id, event_kind_of (waves w !! id)),
         {| waves := alter report id (waves w); pending := rest |})
    end;
  amd_dbgapi_event_get_info_wave event_id w :=
    (AMD_DBGAPI_STATUS_SUCCESS, event_id);
  amd_dbgapi_event_processed event_id w := (AMD_DBGAPI_STATUS_SUCCESS, w);
  amd_dbgapi_process_wave_list w :=
    (AMD_DBGAPI_STATUS_SUCCESS, ids_where alive (waves w),
     {| waves := tick <$> waves w;
        pending := pending w ++ ids_where transitions (waves w) |});
  amd_dbgapi_wave_get_info_state wave_id w := state_of (waves w !! wave_id);
  amd_dbgapi_wave_get_info_stop_reason wave_id w :=
    ((state_of (waves w !! wave_id)).1, stop_reason_of s wave_id);
  amd_dbgapi_wave_get_info_pc wave_id w :=
    ((state_of (waves w !! wave_id)).1, pc_of s wave_id);
  amd_dbgapi_wave_get_info_dispatch wave_id w :=
    match dispatch_of s wave_id with
    | Some dispatch_id => ((state_of (waves w !! wave_id)).1, dispatch_id)
    | None => (AMD_DBGAPI_STATUS_ERROR_NOT_AVAILABLE, 0)
    end;
  amd_dbgapi_wave_get_info_architecture wave_id w :=
    ((state_of (waves w !! wave_id)).1, architecture_of s wave_id);
  amd_dbgapi_dispatch_get_info_kernel_code_entry_address dispatch_id w :=
    (AMD_DBGAPI_STATUS_SUCCESS, kernel_code_entry_of s dispatch_id);
  amd_dbgapi_wave_stop wave_id w :=
    match waves w !! wave_id with
    | Some wv =>
        if alive wv
        then (AMD_DBGAPI_STATUS_SUCCESS,
              {| waves := <[wave_id := request_stop wv]> (waves w);
                 pending := pending w |})
        else (AMD_DBGAPI_STATUS_ERROR_INVALID_WAVE_ID, w)
    | None => (AMD_DBGAPI_STATUS_ERROR_INVALID_WAVE_ID, w)
    end;
  amd_dbgapi_wave_resume wave_id mode exceptions w :=
    match waves w !! wave_id with
    | Some wv =>
        match resumed mode wv with
        | Some wv' =>
            (AMD_DBGAPI_STATUS_SUCCESS,
             {| waves := <[wave_id := wv']> (waves w);
                pending := List.filter (fun id => negb (id =? wave_id))
                                       (pending w) |})
        | None => (AMD_DBGAPI_STATUS_ERROR, w)
        end
    | None => (AMD_DBGAPI_STATUS_ERROR_INVALID_WAVE_ID, w)
    end;
  amd_dbgapi_process_code_object_list w :=
    (AMD_DBGAPI_STATUS_SUCCESS, code_object_ids s);
  amd_dbgapi_code_object_get_info_load_address id w :=
    (AMD_DBGAPI_STATUS_SUCCESS, load_address_of s id);
  amd_dbgapi_code_object_get_info_uri_name id w :=
    (AMD_DBGAPI_STATUS_SUCCESS, uri_of s id);
  wave_registers wave_id w := registers_of s wave_id;
  wave_local_memory wave_id w := local_memory_of s wave_id;
  code_object_disassemble code_object architecture_id pc w :=
    disassemble_of s code_object architecture_id pc
|}.

(** A world in which no stop request is in flight and nothing is queued:
    the state of the GPU when [stop_all_wavefronts] is entered. *)
Definition quiet (w : wave) : bool :=
  match w with
  | running _ _ | single_stepping _ | stopped | terminated => true
  | _ => false
  end.

Definition quiescent (w : world) : Prop :=
  pending w = [] /\ map_Forall (fun _ wv => quiet wv = true) (waves w).

(** A wave whose transition is queued as an event. *)
Definition unreported (w : wave) : bool :=
  match w with
  | stop_unreported | terminated_unreported | own_stop_unreported => true
  | _ => false
  end.

(** A wave with a stop request that the agent has not seen answered. *)
Definition awaited (w : wave) : bool :=
  match w with
  | stopping _ _ | stop_unreported | terminated_unreported => true
  | _ => false
  end.

(** The worlds [stop_all_wavefronts] can be entered in: no stop request
    is in flight, and the events queued are those of the waves that have
    stopped without a request. *)
Definition entered (w : world) : Prop :=
  NoDup (pending w)
  /\ (forall id, id ∈ pending w <-> waves w !! id = Some own_stop_unreported)
  /\ map_Forall (fun _ wv => awaited wv = false) (waves w).

(** A wave in state STOP that owes the agent no answer. *)
Definition halted (w : wave) : bool :=
  match w with
  | stopped | own_stop_unreported => true
  | _ => false
  end.

(** A wave that single-steps or has stopped without a request. *)
Definition stepping (w : wave) : bool :=
  match w with
  | single_stepping _ | own_stop_unreported => true
  | _ => false
  end.

(** The number of turns of the outer loop after which the agent has seen
    the wave's stop request answered. *)
Definition rank (w : wave) : nat :=
  match w with
  | running latency _ => latency + 3
  | stopping remaining _ => remaining + 2
  | stop_unreported | terminated_unreported => 1
  | _ => 0
  end.

(** What one turn of the outer loop does to a wave: its event is consumed,
    it advances by one poll, and it is asked to stop if it runs. *)
Definition turn (w : wave) : wave := request_stop (tick (report w)).

(** How the two sets of [stop_all_wavefronts] relate to the simulated
    world while the loop runs. *)
Record consistent (w : world) (sets : stop_sets) : Prop := {
  pending_NoDup : NoDup (pending w);
  pending_unreported :
    forall id, id ∈ pending w
               <-> exists wv, waves w !! id = Some wv /\ unreported wv = true;
  waiting_awaited :
    forall id, id ∈ waiting_to_stop sets
               <-> exists wv, waves w !! id = Some wv /\ awaited wv = true;
  stopped_halted :
    forall id, id ∈ already_stopped sets ->
               exists wv, waves w !! id = Some wv /\ halted wv = true
}.

(** The assertion of line 457 cannot fail: it is compiled out, or no wave
    single-steps or has stopped without a request. *)
Definition calm (cfg : configuration) (w : world) : Prop :=
  assertions cfg = false
  \/ map_Forall (fun _ wv => stepping wv = false) (waves w).

(** The largest rank in the world: a bound on the turns of the outer loop. *)
Definition bound (w : world) : nat :=
  max_list (rank <$> (map_to_list (waves w)).*2).

Definition is_single_stepping (w : wave) : bool :=
  match w with single_stepping _ => true | _ => false end.

Definition initial (w : world) : Agent.state world :=
  {| Agent.world := w; Agent.lock := false; Agent.trace := [] |}.

End SimulatedGpu.

(** ** Concrete environments

    Instances of the environments above, on which the definitions can be
    run. *)

Module Examples.

(** [std::stoul (s, nullptr, 0)] as [strtoul] reads a number: optional
    white space and sign, base from the prefix, the longest run of digits;
    [None] when there is no digit or the value does not fit 64 bits. *)
Definition isspace (c : ascii) : bool :=
  let n := nat_of_ascii c in
  (n =? 32)%nat || ((9 <=? n)%nat && (n <=? 13)%nat).

Fixpoint skip_space (l : list ascii) : list ascii :=
  match l with
  | c :: rest => if isspace c then skip_space rest else l
  | [] => []
  end.

Definition digit_in (base : Z) (c : ascii) : option Z :=
  match StdString.xdigit c with
  | Some d => if Z.of_nat d <? base then Some (Z.of_nat d) else None
  | None => None
  end.

Fixpoint digits (base : Z) (l : list ascii) (acc : option Z) : option Z :=
  match l with
  | c :: rest =>
      match digit_in base c with
      | Some d =>
          digits base rest
            (Some (base * match acc with Some a => a | None => 0 end + d))
      | None => acc
      end
  | [] => acc
  end.

Definition stoul (s : string) : option Z :=
  let l := skip_space (list_ascii_of_string s) in
  let '(negative, l) :=
    match l with
    | "-"%char :: rest => (true, rest)
    | "+"%char :: rest => (false, rest)
    | _ => (false, l)
    end in
  let value :=
    match l with
    | "0"%char :: x :: d :: rest =>
        if (Ascii.eqb x "x" || Ascii.eqb x "X")
           && match StdString.xdigit d with Some _ => true | None => false end
        then digits 16 (d :: rest) None
        else digits 8 l None
    | "0"%char :: _ => digits 8 l None
    | _ => digits 10 l None
    end in
  match value with
  | Some v => if v <? 2 ^ 64
              then Some (if negative then wrap64 (- v) else v)
              else None
  | None => None
  end.

(** A file system with one file, an allocator that serves up to 1 GiB,
    a temporary file that is always granted and fully written, and a libelf
    that finds one PT_LOAD segment of 4096 bytes in every non-empty file. *)
Definition kernel_bytes : list byte := [x7f; x45; x4c; x46; x02; x01; x01; x00].

Definition os : CodeObject.environment := {|
  CodeObject.stoul := stoul;
  CodeObject.file_contents path :=
    if String.eqb path "/opt/kernel.co" then Some kernel_bytes else None;
  CodeObject.resize_succeeds size := size <? 2 ^ 30;
  CodeObject.process_known := true;
  CodeObject.read_memory address size :=
    if address =? 4096 then Some (repeat x00 (Z.to_nat size)) else None;
  CodeObject.HAVE_MEMFD_CREATE := true;
  CodeObject.NAME_MAX := 255;
  CodeObject.assertions_enabled := true;
  CodeObject.create_temporary_file name := Some 3;
  CodeObject.write_result fd bytes := Z.of_nat (length bytes);
  CodeObject.read_elf bytes :=
    match bytes with
    | [] => CodeObject.elf_begin_failed
    | _ => CodeObject.elf_program_headers
             [ Some {| CodeObject.p_type := 1; CodeObject.p_vaddr := 0;
                       CodeObject.p_memsz := 4096 |} ]
    end;
  CodeObject.PT_LOAD := 1
|}.

(** A code object as its constructor leaves it. *)
Definition constructed (load_address : Z) (uri : string)
  : CodeObject.code_object_t :=
  {| CodeObject.m_load_address := load_address; CodeObject.m_mem_size := 0;
     CodeObject.m_uri := uri; CodeObject.m_fd := None |}.

(** An opened code object loaded at 4096 with a footprint of 256 bytes. *)
Definition loaded_code_object : CodeObject.code_object_t :=
  {| CodeObject.m_load_address := 4096; CodeObject.m_mem_size := 256;
     CodeObject.m_uri := "file:///opt/kernel.co"; CodeObject.m_fd := Some 3 |}.

Definition configuration (assertions : bool) : Agent.configuration := {|
  Agent.assertions := assertions;
  Agent.save_code_objects := false;
  Agent.save_succeeds _ := true;
  Agent.os := CodeObject.with_assertions assertions os;
  Agent.unassigned_load_address := 0;
  Agent.symbol_name _ _ := None;
  Agent.header := ResumeMask.amd_dbgapi_h
|}.

Definition snapshot : SimulatedGpu.snapshot := {|
  SimulatedGpu.stop_reason_of _ := Z.shiftl 1 13;
  SimulatedGpu.pc_of id := 4096 + 16 * id;
  SimulatedGpu.dispatch_of _ := None;
  SimulatedGpu.architecture_of _ := 1;
  SimulatedGpu.kernel_code_entry_of _ := 4096;
  SimulatedGpu.code_object_ids := [1];
  SimulatedGpu.load_address_of _ := 4096;
  SimulatedGpu.uri_of _ := "file:///opt/kernel.co";
  SimulatedGpu.registers_of _ := Registers.three_classes;
  SimulatedGpu.local_memory_of _ := LocalMemory.one_row;
  SimulatedGpu.disassemble_of _ _ _ := Agent.returns
|}.

(** The waves of the specification's stop-all example: W1 runs (and needs
    two polls to stop), W2 single-steps, W3 is stopped. *)
Definition three_waves (step : nat) : SimulatedGpu.world := {|
  SimulatedGpu.waves :=
    list_to_map [ (1, SimulatedGpu.running 2 false);
                  (2, SimulatedGpu.single_stepping step);
                  (3, SimulatedGpu.stopped) ];
  SimulatedGpu.pending := []
|}.

(** W1 runs; W3 has stopped on an exception of its own and its WAVE_STOP
    event has not been fetched yet. *)
Definition faulted_wave : SimulatedGpu.world := {|
  SimulatedGpu.waves :=
    list_to_map [ (1, SimulatedGpu.running 2 false);
                  (3, SimulatedGpu.own_stop_unreported) ];
  SimulatedGpu.pending := [3]
|}.

End Examples.

(** ** Values and names in the report (debug_agent.cpp:199-213,
       code_object.cpp:261-295, 761-771) *)

Module Report.

(** A [std::string] under construction is the list of its characters. *)
Definition byte_value (b : byte) : Z := Z.of_N (Byte.to_N b).

(** [hex_digits[n]]. *)
Definition hex_digit (n : Z) : ascii :=
  nth (Z.to_nat n) (list_ascii_of_string "0123456789abcdef") "000"%char.

(** The loop of [hex_string], lines 205-210: [pos] runs from
    [value.size ()] down to 1. *)
Fixpoint hex_string_from (pos : nat) (value : list byte)
         (value_string : list ascii) : list ascii :=
  match pos with
  | O => value_string
  | S pos' =>
      let b := byte_value (nth pos' value x00) in
      hex_string_from pos' value
        (value_string ++ [hex_digit (Z.shiftr b 4); hex_digit (Z.land b 15)])
  end.

Definition hex_string (value : list byte) : list ascii :=
  hex_string_from (length value) value [].

(** The two digits [hex_string] writes for one byte. *)
Definition hex_byte (b : byte) : list ascii :=
  [hex_digit (Z.shiftr (byte_value b) 4); hex_digit (Z.land (byte_value b) 15)].

(** The number a string of hexadecimal digits writes; [None] when a
    character is not a hexadecimal digit. *)
Definition hex_step (acc : option Z) (c : ascii) : option Z :=
  match acc, StdString.xdigit c with
  | Some a, Some d => Some (16 * a + Z.of_nat d)
  | _, _ => None
  end.

Definition hex_value (s : list ascii) : option Z :=
  fold_left hex_step s (Some 0).

(** The number the bytes of a register hold, least significant first. *)
Fixpoint little_endian (value : list byte) : Z :=
  match value with
  | [] => 0
  | b :: rest => byte_value b + 256 * little_endian rest
  end.

End Report.

(** ** The name of the saved code object (code_object.cpp:765-771) *)

Module Save.

Definition separators : list ascii := list_ascii_of_string ":/#?&=".

(** The loop of lines 767-769: the search starts over at the first
    character every time; [None] when the fuel runs out. *)
Fixpoint file_name (fuel : nat) (name : list ascii) : option (list ascii) :=
  match fuel with
  | O => None
  | S fuel' =>
      match StdString.first_of separators name with
      | Some pos => file_name fuel' (<[pos := "_"%char]> name)
      | None => Some name
      end
  end.

(** Line 771. *)
Definition file_path (fuel : nat) (directory uri : list ascii)
  : option (list ascii) :=
  name ← file_name fuel uri; Some (directory ++ "/"%char :: name).

Definition is_separator (c : ascii) : bool :=
  existsb (Ascii.eqb c) separators.

Definition separator_count (name : list ascii) : nat :=
  length (filter (fun c => is_separator c = true) name).

(** Every separator replaced by an underscore. *)
Definition underscored (name : list ascii) : list ascii :=
  (fun c => if is_separator c then "_"%char else c) <$> name.

End Save.

(** ** The breakpoint callbacks (debug_agent.cpp:163-187) *)

Module Breakpoint.
Import Agent.

(** [g_rbrk_breakpoint_id]. *)
Definition state := option Z.

Section WithRuntime.
(** [_amdgpu_r_debug.r_brk]. *)
Variable r_brk : Z.

Definition insert_breakpoint (address breakpoint_id : Z) (st : state)
  : amd_dbgapi_status_t * state :=
  if address =? r_brk then (AMD_DBGAPI_STATUS_SUCCESS, Some breakpoint_id)
  else (AMD_DBGAPI_STATUS_ERROR, st).

Definition remove_breakpoint (breakpoint_id : Z) (st : state)
  : amd_dbgapi_status_t * state :=
  match st with
  | Some current =>
      if breakpoint_id =? current then (AMD_DBGAPI_STATUS_SUCCESS, None)
      else (AMD_DBGAPI_STATUS_ERROR, st)
  | None => (AMD_DBGAPI_STATUS_ERROR, st)
  end.

(** A request of the library to the agent. *)
Inductive request :=
| insert (address breakpoint_id : Z)
| remove (breakpoint_id : Z).

Definition serve (st : state) (r : request) : state :=
  match r with
  | insert address breakpoint_id =>
      (insert_breakpoint address breakpoint_id st).2
  | remove breakpoint_id => (remove_breakpoint breakpoint_id st).2
  end.
End WithRuntime.

End Breakpoint.

Module MoreExamples.

(** A [file://] URI of 307 characters. *)
Definition long_uri : string :=
  "file:///" +:+ string_of_list_ascii (repeat "d"%char 280)
  +:+ "/k.co#offset=4096&size=8".

End MoreExamples.

(** ** %-escapes of a URI path *)

Module Escape.

(** The escape of one character, as [code_object_t::open] decodes it at
    lines 156-164: a percent sign and two hexadecimal digits. *)
Definition escaped (c : ascii) : list ascii :=
  "%"%char :: Report.hex_byte (byte_of_ascii c).

Definition is_warning (e : CodeObject.effect) : bool :=
  match e with CodeObject.agent_warning _ => true | _ => false end.

(** The tokens of a query or fragment written out again, with an
    ampersand between two tokens. *)
Fixpoint joined (tokens : list string) : list ascii :=
  match tokens with
  | [] => []
  | [token] => list_ascii_of_string token
  | token :: rest => list_ascii_of_string token ++ "&"%char :: joined rest
  end.

End Escape.

(** ** Reading a trace of the agent *)

Module Trace.
Import Agent.

(** The waves a trace reports, by their headers. *)
Definition reported_waves (t : list action) : list Z :=
  omap (fun a => match a with
                 | out (wave_header wave_id _ _ _ _) => Some wave_id
                 | _ => None
                 end) t.

(** Whether the library reports state STOP for a wave. *)
Definition stopped {World} (api : dbgapi World) (w : World) (wave_id : Z)
  : bool :=
  match (amd_dbgapi_wave_get_info_state api wave_id w).2 with
  | AMD_DBGAPI_WAVE_STATE_STOP => true
  | _ => false
  end.

(** The calls of a trace that fetch an event ([None]) or acknowledge
    one ([Some event_id]). *)
Definition event_calls (t : list action) : list (option Z) :=
  omap (fun a => match a with
                 | call process_next_pending_event => Some None
                 | call (event_processed event_id) => Some (Some event_id)
                 | _ => None
                 end) t.

(** Every event fetched is acknowledged before the next one is fetched;
    the last fetch finds the queue empty. *)
Definition handshake (events : list Z) : list (option Z) :=
  flat_map (fun event_id => [None; Some event_id]) events ++ [None].

(** What every entry of the code-object map of [print_wavefronts]
    satisfies. *)
Definition filed (e : Z * CodeObject.code_object_t) : Prop :=
  CodeObject.is_open e.2 = true /\ e.1 = CodeObject.m_load_address e.2.

Section Report.
Context {World : Type}.
Variable api : dbgapi World.
Variable cfg : configuration.
Variable fuel : nat.
Variable code_object_map : StdMap.t CodeObject.code_object_t.

(** The kernel entry the library gives for a wave, if it gives one. *)
Definition kernel_entry_of (w : World) (wave_id : Z) : option Z :=
  match amd_dbgapi_wave_get_info_dispatch api wave_id w with
  | (AMD_DBGAPI_STATUS_SUCCESS, dispatch_id) =>
      Some (amd_dbgapi_dispatch_get_info_kernel_code_entry_address
              api dispatch_id w).2
  | _ => None
  end.

(** The header, the registers and the local memory of a wave: the part of
    its report that does not depend on the code object. *)
Definition wave_block (w : World) (i : nat) (wave_id : Z)
           (symbol : option string) : list report_item :=
  (if i is O then [] else [blank_line])
  ++ [ separator;
       wave_header wave_id (amd_dbgapi_wave_get_info_pc api wave_id w).2
                   (kernel_entry_of w wave_id) symbol
                   (amd_dbgapi_wave_get_info_stop_reason api wave_id w).2;
       registers wave_id
         (Registers.print_registers (wave_registers api wave_id w) fuel).2;
       local_memory wave_id
         (LocalMemory.print_local_memory (wave_local_memory api wave_id w)
                                         (assertions cfg) fuel).2 ].

(** The report of the wave at index [i] of the wave list, as the claim
    words it: nothing for a wave that is not stopped; else the block of
    the wave, followed by the disassembly exactly when a code object
    contains its [pc]. *)
Definition wave_report (w : World) (i : nat) (wave_id : Z)
  : list report_item :=
  if stopped api w wave_id then
    let pc := (amd_dbgapi_wave_get_info_pc api wave_id w).2 in
    match CodeObject.find_code_object code_object_map pc with
    | Some code_object =>
        wave_block w i wave_id
                   (match kernel_entry_of w wave_id with
                    | Some entry => symbol_name cfg code_object entry
                    | None => None
                    end)
        ++ [ disassembly
               (CodeObject.m_load_address code_object)
               (amd_dbgapi_wave_get_info_architecture api wave_id w).2 pc ]
    | None => wave_block w i wave_id None
    end
  else [].

Fixpoint reports (w : World) (i : nat) (wave_ids : list Z)
  : list report_item :=
  match wave_ids with
  | [] => []
  | wave_id :: rest => wave_report w i wave_id ++ reports w (S i) rest
  end.

(** The library answers what the report of a wave asks, and the functions
    called for a stopped wave return. *)
Definition answered (w : World) (wave_id : Z) : Prop :=
  (amd_dbgapi_wave_get_info_state api wave_id w).1
  = AMD_DBGAPI_STATUS_SUCCESS
  /\ (stopped api w wave_id = true ->
      (amd_dbgapi_wave_get_info_stop_reason api wave_id w).1
      = AMD_DBGAPI_STATUS_SUCCESS
      /\ (amd_dbgapi_wave_get_info_pc api wave_id w).1
         = AMD_DBGAPI_STATUS_SUCCESS
      /\ (exists kernel_entry, kernel_entry_answer api wave_id w kernel_entry)
      /\ (Registers.print_registers (wave_registers api wave_id w) fuel).1
         = Registers.finished
      /\ (LocalMemory.print_local_memory
            (wave_local_memory api wave_id w) (assertions cfg) fuel).1
         = LocalMemory.finished
      /\ forall code_object,
          CodeObject.find_code_object
            code_object_map (amd_dbgapi_wave_get_info_pc api wave_id w).2
          = Some code_object ->
          (amd_dbgapi_wave_get_info_architecture api wave_id w).1
          = AMD_DBGAPI_STATUS_SUCCESS
          /\ code_object_disassemble
               api code_object
               (amd_dbgapi_wave_get_info_architecture api wave_id w).2
               (amd_dbgapi_wave_get_info_pc api wave_id w).2 w
             = returns).
End Report.

(** A state in which the lock of [print_wavefronts] is held. *)
Definition locked {World} (st : state World) : state World :=
  {| world := world st; lock := true; trace := trace st |}.

(** Code that writes nothing to [agent_out]. *)
Definition silent {World A} (m : M World A) : Prop :=
  forall st, report_of (trace (m st).2) = report_of (trace st).

(** A state after further actions. *)
Definition after {World} (st : state World) (t : list action)
  : state World :=
  {| world := world st; lock := lock st; trace := trace st ++ t |}.

End Trace.

(** ** [process_dbgapi_events] (debug_agent.cpp:821-1001) *)

Module Events.
Import Agent.
Local Open Scope agent_scope.

Inductive amd_dbgapi_progress_t :=
| AMD_DBGAPI_PROGRESS_NORMAL
| AMD_DBGAPI_PROGRESS_NO_FORWARD.

Inductive amd_dbgapi_wave_creation_t :=
| AMD_DBGAPI_WAVE_CREATION_NORMAL
| AMD_DBGAPI_WAVE_CREATION_STOP.

(** The two calls of the function that act on the process as a whole. *)
Record process_control (World : Type) := {
  amd_dbgapi_process_set_progress :
    amd_dbgapi_progress_t -> World -> amd_dbgapi_status_t * World;
  amd_dbgapi_process_set_wave_creation :
    amd_dbgapi_wave_creation_t -> World -> amd_dbgapi_status_t * World
}.
Arguments amd_dbgapi_process_set_progress {World}.
Arguments amd_dbgapi_process_set_wave_creation {World}.

Inductive control_call :=
| process_set_progress (progress : amd_dbgapi_progress_t)
| process_set_wave_creation (creation : amd_dbgapi_wave_creation_t).

(** What the function does, in order: the actions of the code it shares
    with [print_wavefronts], and its calls on the process. *)
Inductive step :=
| did (a : action)
| control (c : control_call).

(** [need_print_waves] and [wave_need_resume]. *)
Record needs := {
  need_print_waves : bool;
  wave_need_resume : bool
}.

Section Code.
Context {World : Type}.
Variable api : dbgapi World.
Variable process : process_control World.
Variable cfg : configuration.

Record state := {
  world : World;
  lock : bool;
  steps : list step
}.

Definition M (A : Type) : Type := state -> result A * state.

Definition ret {A} (a : A) : M A := fun st => (Ok a, st).

Definition bind {A B} (m : M A) (k : A -> M B) : M B :=
  fun st =>
    match m st with
    | (Ok a, st') => k a st'
    | (Abort why, st') => (Abort why, st')
    | (OutOfFuel, st') => (OutOfFuel, st')
    end.

(** Code of the agent run inside this function: its actions are appended
    to the steps (the trace is only written, never read). *)
Definition lift {A} (m : Agent.M World A) : M A :=
  fun st =>
    let '(r, st') := m {| Agent.world := world st; Agent.lock := lock st;
                          Agent.trace := [] |} in
    (r, {| world := Agent.world st'; lock := Agent.lock st';
           steps := steps st ++ (did <$> Agent.trace st') |}).

Definition control_command (c : control_call)
           (f : World -> amd_dbgapi_status_t * World)
  : M amd_dbgapi_status_t :=
  fun st => let '(status, w) := f (world st) in
            (Ok status, {| world := w; lock := lock st;
                           steps := steps st ++ [control c] |}).

(** [DBGAPI_CHECK] around a call on the process. *)
Definition checked (c : control_call)
           (f : World -> amd_dbgapi_status_t * World) : M unit :=
  bind (control_command c f)
       (fun status => lift (DBGAPI_CHECK status)).

(** The body of the switch of lines 837-879 for one event. *)
Definition note_event (flags : needs) (event_id : Z)
           (kind : amd_dbgapi_event_kind_t) : Agent.M World needs :=
  match kind with
  | AMD_DBGAPI_EVENT_KIND_WAVE_STOP =>
      '(status, wave_id) <-
        query (event_get_info event_id)
              (amd_dbgapi_event_get_info_wave api event_id) ;
      DBGAPI_CHECK status ;;
      '(status, stop_reason) <-
        query (wave_get_info wave_id)
              (amd_dbgapi_wave_get_info_stop_reason api wave_id) ;
      DBGAPI_CHECK status ;;
      if stop_reason
         =? ResumeMask.reason_value
              (header cfg) ResumeMask.AMD_DBGAPI_WAVE_STOP_REASON_DEBUG_TRAP
      then Agent.ret {| need_print_waves := need_print_waves flags;
                        wave_need_resume := true |}
      else Agent.ret {| need_print_waves := true;
                        wave_need_resume := wave_need_resume flags |}
  | AMD_DBGAPI_EVENT_KIND_QUEUE_ERROR =>
      Agent.ret {| need_print_waves := true;
                   wave_need_resume := wave_need_resume flags |}
  | AMD_DBGAPI_EVENT_KIND_RUNTIME
  | AMD_DBGAPI_EVENT_KIND_CODE_OBJECT_LIST_UPDATED
  | AMD_DBGAPI_EVENT_KIND_BREAKPOINT_RESUME => Agent.ret flags
  | _ => Agent.ret flags      (* default: a warning is logged *)
  end.

(** The loop of lines 827-884; [OutOfFuel] when the fuel runs out. *)
Fixpoint consume_events (fuel : nat) (flags : needs) : Agent.M World needs :=
  match fuel with
  | O => fun st => (OutOfFuel, st)
  | S fuel' =>
      '(status, next) <- command_with process_next_pending_event
                           (amd_dbgapi_process_next_pending_event api) ;
      DBGAPI_CHECK status ;;
      match next with
      | None => Agent.ret flags
      | Some (event_id, kind) =>
          flags <- note_event flags event_id kind ;
          status <- command (event_processed event_id)
                      (amd_dbgapi_event_processed api event_id) ;
          DBGAPI_CHECK status ;;
          consume_events fuel' flags
      end
  end.

(** Lines 905-994. *)
Definition resume_all : Agent.M World unit :=
  '(status, wave_ids) <- command_with process_wave_list
                           (amd_dbgapi_process_wave_list api) ;
  DBGAPI_CHECK status ;;
  resume_waves api cfg wave_ids.

Definition process_dbgapi_events (iterations fuel : nat)
           (all_wavefronts : bool) : M unit :=
  bind (lift (consume_events fuel {| need_print_waves := false;
                                     wave_need_resume := false |}))
       (fun flags =>
  if negb (need_print_waves flags) && negb (wave_need_resume flags)
  then ret tt
  else
    bind (checked (process_set_progress AMD_DBGAPI_PROGRESS_NO_FORWARD)
                  (amd_dbgapi_process_set_progress
                     process AMD_DBGAPI_PROGRESS_NO_FORWARD))
         (fun _ =>
    bind (checked (process_set_wave_creation AMD_DBGAPI_WAVE_CREATION_STOP)
                  (amd_dbgapi_process_set_wave_creation
                     process AMD_DBGAPI_WAVE_CREATION_STOP))
         (fun _ =>
    bind (if need_print_waves flags
          then lift (print_wavefronts api cfg iterations fuel all_wavefronts)
          else ret tt)
         (fun _ =>
    bind (lift resume_all)
         (fun _ =>
    bind (checked (process_set_wave_creation AMD_DBGAPI_WAVE_CREATION_NORMAL)
                  (amd_dbgapi_process_set_wave_creation
                     process AMD_DBGAPI_WAVE_CREATION_NORMAL))
         (fun _ =>
    checked (process_set_progress AMD_DBGAPI_PROGRESS_NORMAL)
            (amd_dbgapi_process_set_progress
               process AMD_DBGAPI_PROGRESS_NORMAL))))))).
End Code.

(** An action that only fetches, inspects or acknowledges an event. *)
Definition inspects (a : action) : bool :=
  match a with
  | call process_next_pending_event
  | call (event_get_info _)
  | call (wave_get_info _)
  | call (event_processed _) => true
  | _ => false
  end.

(** Code that appends to the trace only actions that satisfy [p]. *)
Definition only {World A} (p : action -> bool) (m : Agent.M World A) : Prop :=
  forall st, exists t,
    trace (m st).2 = trace st ++ t /\ Forall (fun a => p a = true) t.

(** The calls on the process among the steps. *)
Definition controls (l : list step) : list control_call :=
  omap (fun s => match s with control c => Some c | did _ => None end) l.

(** The bracket of lines 893-897 and 996-1000. *)
Definition stop_bracket : list control_call :=
  [ process_set_progress AMD_DBGAPI_PROGRESS_NO_FORWARD;
    process_set_wave_creation AMD_DBGAPI_WAVE_CREATION_STOP ].

Definition resume_bracket : list control_call :=
  [ process_set_wave_creation AMD_DBGAPI_WAVE_CREATION_NORMAL;
    process_set_progress AMD_DBGAPI_PROGRESS_NORMAL ].

End Events.

Module EventExamples.

(** A library that accepts every change of forward progress and of wave
    creation and leaves the simulated waves as they are. *)
Definition process : Events.process_control SimulatedGpu.world := {|
  Events.amd_dbgapi_process_set_progress _ w :=
    (Agent.AMD_DBGAPI_STATUS_SUCCESS, w);
  Events.amd_dbgapi_process_set_wave_creation _ w :=
    (Agent.AMD_DBGAPI_STATUS_SUCCESS, w)
|}.

(** Wave 1 has stopped on a memory violation and its event is queued;
    wave 2 runs. *)
Definition faulted : Events.state (World := SimulatedGpu.world) := {|
  Events.world :=
    {| SimulatedGpu.waves :=
         list_to_map [ (1, SimulatedGpu.stop_unreported);
                       (2, SimulatedGpu.running 0 false) ];
       SimulatedGpu.pending := [1] |};
  Events.lock := false;
  Events.steps := []
|}.

(** The same world inside [stop_all_wavefronts], which has asked wave 1
    to stop. *)
Definition stopping : Agent.state SimulatedGpu.world :=
  {| Agent.world := Events.world faulted; Agent.lock := true;
     Agent.trace := [] |}.

Definition asked_one : Agent.stop_sets :=
  {| Agent.already_stopped := ∅; Agent.waiting_to_stop := {[1]} |}.

Definition drained : Agent.result Agent.stop_sets
                     * Agent.state SimulatedGpu.world :=
  Agent.drain_events (SimulatedGpu.api Examples.snapshot)
                     (Examples.configuration true) 3 asked_one stopping.

Definition drained_sets : Agent.stop_sets :=
  match drained.1 with Agent.Ok sets => sets | _ => asked_one end.

End EventExamples.

(** ** Source lines in the disassembly (code_object.cpp:352-375,
       634-677) *)

Module SourceLines.
Import Disassemble.

(** The [std::find_if] of lines 647-657: some address of the table is
    attributed to line [line] of [file_name]. *)
Definition mentions (m : line_number_map) (file_name : string) (line : Z)
  : bool :=
  existsb (fun e => String.eqb file_name e.2.1 && (line =? e.2.2)) m.

(** The while loop of lines 645-659; the result is [first_line] when the
    loop is left, [None] when the fuel runs out. *)
Fixpoint back_up (fuel : nat) (m : line_number_map) (file_name : string)
         (prev_line_number first_line : Z) : option Z :=
  match fuel with
  | O => None
  | S fuel' =>
      let first_line := wrap64 (first_line - 1) in
      if prev_line_number <? first_line then
        if mentions m file_name first_line then Some first_line
        else back_up fuel' m file_name prev_line_number first_line
      else Some first_line
  end.

(** Lines 636-663: the first line of the block printed for an address of
    line [line_number]; the block ends at [line_number]. *)
Definition first_line (fuel : nat) (m : line_number_map)
           (prev_file_name : string) (prev_line_number : Z)
           (file_name : string) (line_number : Z) : option Z :=
  if String.eqb file_name prev_file_name
     && (prev_line_number <? wrap64 (line_number + 1))
  then
    match back_up fuel m file_name prev_line_number line_number with
    | Some first_line => Some (wrap64 (first_line + 1))
    | None => None
    end
  else Some line_number.

(** [std::getline] until it fails: the lines of a file, without their
    newline characters. *)
Fixpoint getlines (content line : list ascii) : list (list ascii) :=
  match content with
  | [] => match line with [] => [] | _ => [line] end
  | c :: rest =>
      if Ascii.eqb c "010" then line :: getlines rest []
      else getlines rest (line ++ [c])
  end.

(** [file_map], the function-local static cache. *)
Abbreviation file_map := (gmap string (list (list ascii))).

(** [get_source_file_index]: the lines of the file, if any, and the
    cache afterwards.  [files] gives the contents of the files that can
    be opened at the time of the call. *)
Definition get_source_file_index (files : string -> option (list ascii))
           (cache : file_map) (file_name : string)
  : option (list (list ascii)) * file_map :=
  match cache !! file_name with
  | Some lines => (Some lines, cache)
  | None =>
      match files file_name with
      | None => (None, cache)
      | Some content =>
          let lines := getlines content [] in
          (Some lines, <[file_name := lines]> cache)
      end
  end.

(** Lines 670-673: what is written after the line number. *)
Inductive source_text :=
| no_such_file
| text (line : list ascii)
| nothing.

Definition source_line (files : string -> option (list ascii))
           (cache : file_map) (file_name : string) (line : Z)
  : source_text * file_map :=
  match get_source_file_index files cache file_name with
  | (None, cache) => (no_such_file, cache)
  | (Some lines, cache) =>
      (if negb (line =? 0) && (line <=? Z.of_nat (length lines))
       then match lines !! Z.to_nat (line - 1) with
            | Some l => text l
            | None => nothing
            end
       else nothing,
       cache)
  end.

(** The lines of a file written out again, each followed by a newline. *)
Definition unlines (lines : list (list ascii)) : list ascii :=
  flat_map (fun line => line ++ ["010"%char]) lines.

End SourceLines.

(** ** The stop reason in the wave header (debug_agent.cpp:670-737) *)

Module StopReason.
Import ResumeMask.

(** The strings of the switch of lines 683-727. *)
Definition reason_name (r : wave_stop_reason) : string :=
  match r with
  | AMD_DBGAPI_WAVE_STOP_REASON_NONE => "NONE"
  | AMD_DBGAPI_WAVE_STOP_REASON_BREAKPOINT => "BREAKPOINT"
  | AMD_DBGAPI_WAVE_STOP_REASON_WATCHPOINT => "WATCHPOINT"
  | AMD_DBGAPI_WAVE_STOP_REASON_SINGLE_STEP => "SINGLE_STEP"
  | AMD_DBGAPI_WAVE_STOP_REASON_FP_INPUT_DENORMAL => "FP_INPUT_DENORMAL"
  | AMD_DBGAPI_WAVE_STOP_REASON_FP_DIVIDE_BY_0 => "FP_DIVIDE_BY_0"
  | AMD_DBGAPI_WAVE_STOP_REASON_FP_OVERFLOW => "FP_OVERFLOW"
  | AMD_DBGAPI_WAVE_STOP_REASON_FP_UNDERFLOW => "FP_UNDERFLOW"
  | AMD_DBGAPI_WAVE_STOP_REASON_FP_INEXACT => "FP_INEXACT"
  | AMD_DBGAPI_WAVE_STOP_REASON_FP_INVALID_OPERATION => "FP_INVALID_OPERATION"
  | AMD_DBGAPI_WAVE_STOP_REASON_INT_DIVIDE_BY_0 => "INT_DIVIDE_BY_0"
  | AMD_DBGAPI_WAVE_STOP_REASON_DEBUG_TRAP => "DEBUG_TRAP"
  | AMD_DBGAPI_WAVE_STOP_REASON_ASSERT_TRAP => "ASSERT_TRAP"
  | AMD_DBGAPI_WAVE_STOP_REASON_TRAP => "TRAP"
  | AMD_DBGAPI_WAVE_STOP_REASON_MEMORY_VIOLATION => "MEMORY_VIOLATION"
  | AMD_DBGAPI_WAVE_STOP_REASON_ADDRESS_ERROR => "ADDRESS_ERROR"
  | AMD_DBGAPI_WAVE_STOP_REASON_ILLEGAL_INSTRUCTION => "ILLEGAL_INSTRUCTION"
  | AMD_DBGAPI_WAVE_STOP_REASON_ECC_ERROR => "ECC_ERROR"
  | AMD_DBGAPI_WAVE_STOP_REASON_FATAL_HALT => "FATAL_HALT"
  end.

(** The case labels in the order of that switch. *)
Definition name_labels : list wave_stop_reason :=
  [ AMD_DBGAPI_WAVE_STOP_REASON_NONE;
    AMD_DBGAPI_WAVE_STOP_REASON_BREAKPOINT;
    AMD_DBGAPI_WAVE_STOP_REASON_WATCHPOINT;
    AMD_DBGAPI_WAVE_STOP_REASON_SINGLE_STEP;
    AMD_DBGAPI_WAVE_STOP_REASON_FP_INPUT_DENORMAL;
    AMD_DBGAPI_WAVE_STOP_REASON_FP_DIVIDE_BY_0;
    AMD_DBGAPI_WAVE_STOP_REASON_FP_OVERFLOW;
    AMD_DBGAPI_WAVE_STOP_REASON_FP_UNDERFLOW;
    AMD_DBGAPI_WAVE_STOP_REASON_FP_INEXACT;
    AMD_DBGAPI_WAVE_STOP_REASON_FP_INVALID_OPERATION;
    AMD_DBGAPI_WAVE_STOP_REASON_INT_DIVIDE_BY_0;
    AMD_DBGAPI_WAVE_STOP_REASON_DEBUG_TRAP;
    AMD_DBGAPI_WAVE_STOP_REASON_ASSERT_TRAP;
    AMD_DBGAPI_WAVE_STOP_REASON_TRAP;
    AMD_DBGAPI_WAVE_STOP_REASON_MEMORY_VIOLATION;
    AMD_DBGAPI_WAVE_STOP_REASON_ADDRESS_ERROR;
    AMD_DBGAPI_WAVE_STOP_REASON_ILLEGAL_INSTRUCTION;
    AMD_DBGAPI_WAVE_STOP_REASON_ECC_ERROR;
    AMD_DBGAPI_WAVE_STOP_REASON_FATAL_HALT ].

Section WithHeader.
Variable h : dbgapi_header.

(** The lambda of lines 682-729 applied to [one_bit]; the empty string
    when no case matches. *)
Definition name_of (one_bit : Z) : string :=
  match List.find (fun r => reason_value h r =? one_bit) name_labels with
  | Some r => reason_name r
  | None => ""
  end.

(** Lines 679-682: the separator, then the name. *)
Definition add_name (stop_reason_str name : string) : string :=
  (if String.eqb stop_reason_str "" then stop_reason_str
   else stop_reason_str +:+ "|") +:+ name.

(** The do-while loop of lines 672-730; [None] when the fuel runs out. *)
Fixpoint name_loop (fuel : nat) (stop_reason_bits : Z)
         (stop_reason_str : string) : option string :=
  match fuel with
  | O => None
  | S fuel' =>
      let one_bit := lowest_bit stop_reason_bits in
      let stop_reason_bits := Z.lxor stop_reason_bits one_bit in
      let stop_reason_str := add_name stop_reason_str (name_of one_bit) in
      if stop_reason_bits =? 0 then Some stop_reason_str
      else name_loop fuel' stop_reason_bits stop_reason_str
  end.

Definition stop_reason_str (stop_reason : Z) : option string :=
  name_loop 33 stop_reason "".

(** Lines 732-737: the end of the header line. *)
Definition status_text (stop_reason : Z) : option string :=
  match stop_reason_str stop_reason with
  | Some str =>
      Some ("(" +:+ (if negb (stop_reason
                              =? reason_value
                                   h AMD_DBGAPI_WAVE_STOP_REASON_NONE)
                     then "stopped, reason: " +:+ str
                     else "running") +:+ ")")
  | None => None
  end.
End WithHeader.

(** The single bits of a 32-bit mask, lowest first, from bit [k] on. *)
Definition set_bits_from (k : Z) (mask : Z) : list Z :=
  omap (fun i => if Z.testbit mask i then Some (2 ^ i) else None)
       (seqZ k (32 - k)).

Definition set_bits (mask : Z) : list Z := set_bits_from 0 mask.

End StopReason.

(** * [code_object_t::load_debug_info] (code_object.cpp:438-498)

    libdw is read through the answers it gives; a DIE is named by its
    offset.  The code object is open, as the assertion of line 441
    demands. *)

Module DebugInfo.
Import Disassemble.

(** A [Dwarf_Line]: [dwarf_lineaddr] and [dwarf_lineno] give [None] when
    they do not return 0. *)
Record Dwarf_Line := {
  dwarf_lineaddr : option Z;
  dwarf_lineno : option Z;
  dwarf_linesrc : string
}.

Record libdw := {
  (** Whether [dwarf_begin] gives a descriptor. *)
  dwarf_begin : bool;
  (** [dwarf_nextcu] at an offset: [None] when the return value is not 0,
      else [next_offset] and [header_size]. *)
  dwarf_nextcu : Z -> option (Z * Z);
  (** Whether [dwarf_offdie] finds a DIE at the offset. *)
  dwarf_offdie : Z -> bool;
  (** [dwarf_ranges] of a DIE at an offset: the return value, [start] and
      [end]. *)
  dwarf_ranges : Z -> Z -> Z * Z * Z;
  (** [dwarf_getsrclines] of a DIE: [None] when the return value is not 0,
      else what [dwarf_onesrcline] gives for 0 .. [line_count - 1], a null
      pointer being [None]. *)
  dwarf_getsrclines : Z -> option (list (option Dwarf_Line))
}.

Section WithLibdw.
Variable dw : libdw.
Variable m_load_address : Z.

(** The while loop of lines 471-473.  The assignment stores the result of
    the comparison, so [offset] is 0 or 1. *)
Fixpoint ranges_loop (fuel : nat) (die offset : Z) (ranges : pc_ranges_map)
  : option pc_ranges_map :=
  match fuel with
  | O => None
  | S fuel' =>
      let '(result, start, end_) := dwarf_ranges dw die offset in
      let offset := if 0 <? result then 1 else 0 in
      if offset =? 0 then Some ranges
      else ranges_loop fuel' die offset
             (StdMap.emplace (wrap64 (m_load_address + start))
                             (wrap64 (m_load_address + end_)) ranges).2
  end.

(** The body of the for loop, lines 482-493. *)
Definition add_line (lines : line_number_map) (line : option Dwarf_Line)
  : line_number_map :=
  match line with
  | Some l =>
      match dwarf_lineaddr l, dwarf_lineno l with
      | Some addr, Some line_number =>
          if line_number =? 0 then lines
          else (StdMap.emplace (wrap64 (m_load_address + addr))
                               (dwarf_linesrc l, wrap64 line_number) lines).2
      | _, _ => lines
      end
  | None => lines
  end.

(** The while loop of lines 458-497; both [continue]s leave [cu_offset] as
    it is. *)
Fixpoint units (fuel : nat) (cu_offset : Z)
         (maps : line_number_map * pc_ranges_map)
  : option (line_number_map * pc_ranges_map) :=
  match fuel with
  | O => None
  | S fuel' =>
      match dwarf_nextcu dw cu_offset with
      | None => Some maps
      | Some (next_offset, header_size) =>
          let die := wrap64 (cu_offset + header_size) in
          if negb (dwarf_offdie dw die) then units fuel' cu_offset maps
          else
            match ranges_loop fuel' die 0 maps.2 with
            | None => None
            | Some ranges =>
                match dwarf_getsrclines dw die with
                | None => units fuel' cu_offset (maps.1, ranges)
                | Some lines =>
                    units fuel' next_offset
                          (fold_left add_line lines maps.1, ranges)
                end
            end
      end
  end.

(** [load_debug_info]: the two optional maps afterwards, [None] when the
    fuel runs out. *)
Definition load_debug_info (fuel : nat)
           (maps : option line_number_map * option pc_ranges_map)
  : option (option line_number_map * option pc_ranges_map) :=
  match maps with
  | (Some _, Some _) => Some maps
  | _ =>
      if negb (dwarf_begin dw) then Some (Some [], Some [])
      else
        match units fuel 0 ([], []) with
        | Some (lines, ranges) => Some (Some lines, Some ranges)
        | None => None
        end
  end.

(** The entry a line of the line table asks for. *)
Definition line_entry (line : option Dwarf_Line)
  : option (Z * (string * Z)) :=
  match line with
  | Some l =>
      match dwarf_lineaddr l, dwarf_lineno l with
      | Some addr, Some line_number =>
          if line_number =? 0 then None
          else Some (wrap64 (m_load_address + addr),
                     (dwarf_linesrc l, wrap64 line_number))
      | _, _ => None
      end
  | None => None
  end.

(** The entry the range of a unit asks for: the answer at offset 0. *)
Definition range_entry (die : Z) : option (Z * Z) :=
  let '(result, start, end_) := dwarf_ranges dw die 0 in
  if 0 <? result
  then Some (wrap64 (m_load_address + start), wrap64 (m_load_address + end_))
  else None.

(** The units the loop walks through from an offset to a later offset
    when each of them can be read: the DIE and the lines of each. *)
Inductive walks_to
  : Z -> list (Z * list (option Dwarf_Line)) -> Z -> Prop :=
| walks_here cu_offset : walks_to cu_offset [] cu_offset
| walks_unit cu_offset next_offset header_size lines rest last_offset :
    dwarf_nextcu dw cu_offset = Some (next_offset, header_size) ->
    dwarf_offdie dw (wrap64 (cu_offset + header_size)) = true ->
    dwarf_getsrclines dw (wrap64 (cu_offset + header_size)) = Some lines ->
    walks_to next_offset rest last_offset ->
    walks_to cu_offset ((wrap64 (cu_offset + header_size), lines) :: rest)
             last_offset.

(** The entries the lines and the ranges of some units ask for, in the
    order in which the loops come to them. *)
Definition line_entries (read : list (Z * list (option Dwarf_Line)))
  : list (Z * (string * Z)) :=
  flat_map (fun unit => omap line_entry unit.2) read.

Definition range_entries (read : list (Z * list (option Dwarf_Line)))
  : list (Z * Z) :=
  omap (fun unit => range_entry unit.1) read.

(** A unit that cannot be read: its DIE or its line table is not
    found. *)
Definition unreadable (cu_offset : Z) : Prop :=
  exists next_offset header_size,
    dwarf_nextcu dw cu_offset = Some (next_offset, header_size)
    /\ (dwarf_offdie dw (wrap64 (cu_offset + header_size)) = false
        \/ dwarf_getsrclines dw (wrap64 (cu_offset + header_size)) = None).

End WithLibdw.

(** The first entry of a list with a given key. *)
Definition first_entry {V} (key : Z) (entries : list (Z * V)) : option V :=
  snd <$> List.find (fun e => e.1 =? key) entries.

(** [m.emplace (e.first, e.second)], the map afterwards. *)
Definition emplaced {V} (m : StdMap.t V) (e : Z * V) : StdMap.t V :=
  (StdMap.emplace e.1 e.2 m).2.

(** Two units of 100 bytes with DIEs at 11 and 111.  The first has one
    range, the second a list of ranges, for which [dwarf_ranges] answers
    with the offset of the next one. *)
Definition first_unit_lines : list (option Dwarf_Line) :=
  [ Some {| dwarf_lineaddr := Some 4096; dwarf_lineno := Some 3;
            dwarf_linesrc := "a.cpp" |};
    None;
    Some {| dwarf_lineaddr := Some 4096; dwarf_lineno := Some 4;
            dwarf_linesrc := "a.cpp" |};
    Some {| dwarf_lineaddr := Some 4100; dwarf_lineno := Some 0;
            dwarf_linesrc := "a.cpp" |} ].

Definition second_unit_lines : list (option Dwarf_Line) :=
  [ Some {| dwarf_lineaddr := Some 8192; dwarf_lineno := Some 7;
            dwarf_linesrc := "b.cpp" |};
    Some {| dwarf_lineaddr := None; dwarf_lineno := Some 8;
            dwarf_linesrc := "b.cpp" |} ].

Definition two_units (second_die_found : bool) : libdw := {|
  dwarf_begin := true;
  dwarf_nextcu := fun cu_offset =>
    if cu_offset =? 0 then Some (100, 11)
    else if cu_offset =? 100 then Some (200, 11) else None;
  dwarf_offdie := fun die => (die =? 11) || second_die_found;
  dwarf_ranges := fun die offset =>
    if offset =? 0
    then if die =? 11 then (1, 4096, 4352) else (40, 8192, 8256)
    else (0, 0, 0);
  dwarf_getsrclines := fun die =>
    Some (if die =? 11 then first_unit_lines else second_unit_lines)
|}.

End DebugInfo.


(** ** The handshake of [update_code_object_list] with the worker thread *)

(** The thread that calls [update_code_object_list] and the worker thread
    ([dbgapi_worker]) meet at the pair [g_rbrk_sync], the command pipe and
    the shared state of the promise.  The model interleaves the two
    threads at these accesses; an access takes effect at once for both
    threads, so the release and acquire orders of the source are read as
    one total order.  The calls on the worker are serialized by the mutex
    of [WorkerThreadAccess] (debug_agent.cpp:1270-1317): one caller at a
    time. *)
Module Sync.

(** Where the calling thread stands; [future] is [update_brk_future],
    the local of line 1230. *)
Inductive client_pc :=
| idle
| at_entry                       (* lines 1220-1225 *)
| at_emplace                     (* line 1229 *)
| at_publish (future : nat)      (* line 1231 *)
| at_write (future : nat)        (* line 1235 *)
| at_wait (future : nat)         (* line 1243 *)
| at_reset (future : nat)        (* line 1244 *)
| at_unpublish (future : nat)    (* line 1245 *)
| at_return (future : nat)       (* line 1246 *)
| joining                        (* [m_worker_thread.join ()], line 1258 *)
| finished.

(** Where the worker stands in its loop (lines 1093-1160). *)
Inductive worker_pc :=
| polling                        (* [epoll_wait], line 1098 *)
| printing                       (* case 'p', line 1117 *)
| at_load                        (* case 'b', lines 1129-1133 *)
| at_has_value                   (* line 1134 *)
| at_has_breakpoint              (* line 1136 *)
| at_report                      (* lines 1138-1139 *)
| at_set_value                   (* line 1141 *)
| exited.                        (* case 'q' *)

(** Why the process was aborted. *)
Inductive cause :=
| entry_assertion                (* lines 1223-1225 *)
| write_error                    (* lines 1211-1213, 1236-1238, 1254-1256 *)
| guard_assertion                (* line 1133 *)
| promise_assertion              (* line 1134 *)
| breakpoint_assertion           (* line 1136 *)
| bad_optional_access            (* [value ()] of line 1139 *)
| report_error                   (* [DBGAPI_CHECK] of line 1138 *)
| promise_error                  (* [set_value] of line 1141 goes wrong *)
| library_error.                 (* [print_wavefronts] or
                                    [process_dbgapi_events] aborts *)

(** [promise] is the slot [g_rbrk_sync.promise]; a promise refers to its
    shared state by its index in [shared], where [true] stands for a state
    that has been made ready. *)
Record state := {
  guard : bool;
  promise : option nat;
  shared : list bool;
  pipe : list ascii;
  breakpoint : option Z;         (* [g_rbrk_breakpoint_id] *)
  client : client_pc;
  worker : worker_pc;
  aborted : option cause
}.

Inductive event :=
(* the calling thread *)
| update_called
| entry_checked
| promise_emplaced (future : nat)
| guard_stored (value : bool)
| pipe_written (c : ascii)
| write_failed (c : ascii)
| future_ready (future : nat)
| promise_reset
| update_returned
| worker_joined
(* the worker *)
| pipe_read (c : ascii)
| guard_loaded
| promise_checked
| breakpoint_checked
| breakpoint_missing
| breakpoint_hit_reported (success : bool)
| promise_fulfilled (future : nat)
| waves_printed (returned : bool)
| events_processed (returned : bool) (breakpoint_id : option Z).

Definition set_guard (value : bool) (s : state) : state :=
  {| guard := value; promise := promise s; shared := shared s;
     pipe := pipe s; breakpoint := breakpoint s; client := client s;
     worker := worker s; aborted := aborted s |}.

Definition set_promise (slot : option nat) (s : state) : state :=
  {| guard := guard s; promise := slot; shared := shared s;
     pipe := pipe s; breakpoint := breakpoint s; client := client s;
     worker := worker s; aborted := aborted s |}.

Definition set_shared (states : list bool) (s : state) : state :=
  {| guard := guard s; promise := promise s; shared := states;
     pipe := pipe s; breakpoint := breakpoint s; client := client s;
     worker := worker s; aborted := aborted s |}.

Definition set_pipe (bytes : list ascii) (s : state) : state :=
  {| guard := guard s; promise := promise s; shared := shared s;
     pipe := bytes; breakpoint := breakpoint s; client := client s;
     worker := worker s; aborted := aborted s |}.

Definition set_breakpoint (id : option Z) (s : state) : state :=
  {| guard := guard s; promise := promise s; shared := shared s;
     pipe := pipe s; breakpoint := id; client := client s;
     worker := worker s; aborted := aborted s |}.

Definition set_client (pc : client_pc) (s : state) : state :=
  {| guard := guard s; promise := promise s; shared := shared s;
     pipe := pipe s; breakpoint := breakpoint s; client := pc;
     worker := worker s; aborted := aborted s |}.

Definition set_worker (pc : worker_pc) (s : state) : state :=
  {| guard := guard s; promise := promise s; shared := shared s;
     pipe := pipe s; breakpoint := breakpoint s; client := client s;
     worker := pc; aborted := aborted s |}.

(** [agent_error], a failed [agent_assert] or an exception nobody
    catches: the process is gone. *)
Definition abort (why : cause) (s : state) : state :=
  {| guard := guard s; promise := promise s; shared := shared s;
     pipe := pipe s; breakpoint := breakpoint s; client := client s;
     worker := worker s; aborted := Some why |}.

Definition has_value {A} (slot : option A) : bool :=
  match slot with Some _ => true | None => false end.

(** The [switch (buf)] of line 1114. *)
Definition dispatch (c : ascii) : worker_pc :=
  if Ascii.eqb c "p" then printing
  else if Ascii.eqb c "q" then exited
  else if Ascii.eqb c "b" then at_load
  else polling.

Section Step.
(** Whether [agent_assert] is compiled in. *)
Variable assertions : bool.

(** The steps of the calling thread: [update_code_object_list] (lines
    1217-1246), [query_print_waves] (1205-1215) and the destructor
    (1248-1262). *)
Definition client_step (s : state) (e : event) : option state :=
  match e, client s with
  | update_called, idle => Some (set_client at_entry s)
  | entry_checked, at_entry =>
      if assertions && (guard s || has_value (promise s))
      then Some (abort entry_assertion s)
      else Some (set_client at_emplace s)
  | promise_emplaced future, at_emplace =>
      if bool_decide (future = length (shared s))
      then Some (set_client (at_publish future)
                   (set_promise (Some future)
                      (set_shared (shared s ++ [false]) s)))
      else None
  | guard_stored true, at_publish future =>
      Some (set_client (at_write future) (set_guard true s))
  | pipe_written c, at_write future =>
      if Ascii.eqb c "b"
      then Some (set_client (at_wait future) (set_pipe (pipe s ++ [c]) s))
      else None
  | write_failed c, at_write future =>
      if Ascii.eqb c "b" then Some (abort write_error s) else None
  | future_ready future', at_wait future =>
      (* [wait ()] blocks until the shared state is ready *)
      if bool_decide (future' = future)
         && bool_decide (shared s !! future = Some true)
      then Some (set_client (at_reset future) s)
      else None
  | promise_reset, at_reset future =>
      Some (set_client (at_unpublish future) (set_promise None s))
  | guard_stored false, at_unpublish future =>
      Some (set_client (at_return future) (set_guard false s))
  | update_returned, at_return future => Some (set_client idle s)
  | pipe_written c, idle =>
      if Ascii.eqb c "p" then Some (set_pipe (pipe s ++ [c]) s)
      else if Ascii.eqb c "q"
           then Some (set_client joining (set_pipe (pipe s ++ [c]) s))
           else None
  | write_failed c, idle =>
      if Ascii.eqb c "p" || Ascii.eqb c "q"
      then Some (abort write_error s) else None
  | worker_joined, joining =>
      match worker s with
      | exited => Some (set_client finished s)
      | _ => None
      end
  | _, _ => None
  end.

(** The steps of the worker: one byte of the pipe at a time (lines
    1107-1143), and the events of the library (1145-1155). *)
Definition worker_step (s : state) (e : event) : option state :=
  match e, worker s with
  | pipe_read c, polling =>
      match pipe s with
      | c' :: rest =>
          if Ascii.eqb c c'
          then Some (set_worker (dispatch c) (set_pipe rest s))
          else None
      | [] => None
      end
  | guard_loaded, at_load =>
      if assertions && negb (guard s)
      then Some (abort guard_assertion s)
      else Some (set_worker at_has_value s)
  | promise_checked, at_has_value =>
      if assertions && negb (has_value (promise s))
      then Some (abort promise_assertion s)
      else Some (set_worker at_has_breakpoint s)
  | breakpoint_checked, at_has_breakpoint =>
      if assertions && negb (has_value (breakpoint s))
      then Some (abort breakpoint_assertion s)
      else Some (set_worker at_report s)
  | breakpoint_missing, at_report =>
      match breakpoint s with
      | None => Some (abort bad_optional_access s)
      | Some _ => None
      end
  | breakpoint_hit_reported success, at_report =>
      match breakpoint s with
      | Some _ =>
          if success then Some (set_worker at_set_value s)
          else Some (abort report_error s)
      | None => None
      end
  | promise_fulfilled future, at_set_value =>
      match promise s with
      | Some future' =>
          if bool_decide (future = future') then
            match shared s !! future with
            | Some false =>
                Some (set_worker polling
                        (set_shared (<[future := true]> (shared s)) s))
            | _ => Some (abort promise_error s)
            end
          else None
      | None => Some (abort promise_error s)
      end
  | waves_printed returned, printing =>
      if returned then Some (set_worker polling s)
      else Some (abort library_error s)
  | events_processed returned breakpoint_id, polling =>
      if returned then Some (set_breakpoint breakpoint_id s)
      else Some (abort library_error s)
  | _, _ => None
  end.

Definition is_client (e : event) : bool :=
  match e with
  | update_called | entry_checked | promise_emplaced _ | guard_stored _
  | pipe_written _ | write_failed _ | future_ready _ | promise_reset
  | update_returned | worker_joined => true
  | _ => false
  end.

Definition step (s : state) (e : event) : option state :=
  match aborted s with
  | Some _ => None
  | None => if is_client e then client_step s e else worker_step s e
  end.

Fixpoint exec (s : state) (es : list event) : option state :=
  match es with
  | [] => Some s
  | e :: es' =>
      match step s e with
      | Some s' => exec s' es'
      | None => None
      end
  end.
End Step.

(** The worker has been started and polls; nothing has been asked. *)
Definition initial (breakpoint_id : option Z) : state :=
  {| guard := false; promise := None; shared := []; pipe := [];
     breakpoint := breakpoint_id; client := idle; worker := polling;
     aborted := None |}.

(** *** Reading a run *)

Definition is_call (e : event) : bool :=
  match e with update_called => true | _ => false end.

(** A run cut at its last call of [update_code_object_list]: what came
    before, and the events from the call on. *)
Definition split_calls (es : list event) : list event * list event :=
  fold_left (fun '(before, since) e =>
               if is_call e then (before ++ since, [e])
               else (before, since ++ [e]))
            es ([], []).

Definition earlier (es : list event) : list event := (split_calls es).1.
Definition segment (es : list event) : list event := (split_calls es).2.

Definition client_events (es : list event) : list event :=
  List.filter is_client es.

(** The shared states a run names. *)
Definition ids (es : list event) : list nat :=
  omap (fun e => match e with
                 | promise_emplaced future | promise_fulfilled future
                 | future_ready future => Some future
                 | _ => None
                 end) es.

(** What the calling thread does in one call that returns. *)
Definition program (future : nat) : list event :=
  [ update_called; entry_checked; promise_emplaced future;
    guard_stored true; pipe_written "b"; future_ready future;
    promise_reset; guard_stored false; update_returned ].

(** The order of the effects of the two threads in a call that
    returns. *)
Definition handshake (future : nat) : list event :=
  [ update_called; promise_emplaced future; guard_stored true;
    pipe_written "b"; pipe_read "b"; breakpoint_hit_reported true;
    promise_fulfilled future; future_ready future; promise_reset;
    guard_stored false; update_returned ].

Definition seen (k : nat) (future : nat) (since : list event) : Prop :=
  sublist (take k (handshake future)) since.

Definition done (n : nat) (future : nat) (since : list event) : Prop :=
  client_events since = take n (program future).

Definition fresh (future : nat) (before : list event) : Prop :=
  Forall (fun g => g <> future) (ids before).

(** The requests for [report_breakpoint_hit] queued in the pipe. *)
Definition requests (bytes : list ascii) : nat :=
  length (List.filter (fun c => Ascii.eqb c "b") bytes).

(** The worker is in the handler of 'b', before [report_breakpoint_hit]
    has returned. *)
Definition checking (pc : worker_pc) : bool :=
  match pc with
  | at_load | at_has_value | at_has_breakpoint | at_report => true
  | _ => false
  end.

Definition handling (pc : worker_pc) : bool :=
  match pc with
  | at_set_value => true
  | _ => checking pc
  end.

Definition quiet (s : state) : Prop :=
  requests (pipe s) = 0%nat /\ handling (worker s) = false.

Definition at_rest (s : state) : Prop :=
  guard s = false /\ promise s = None.

(** The causes that have nothing to do with the pair [g_rbrk_sync]. *)
Definition benign (why : cause) : bool :=
  match why with
  | entry_assertion | guard_assertion | promise_assertion | promise_error =>
      false
  | _ => true
  end.

(** How far the worker is with the request of a caller that waits. *)
Definition waiting (future : nat) (since : list event) (s : state) : Prop :=
  (shared s !! future = Some false /\ requests (pipe s) = 1%nat
   /\ handling (worker s) = false /\ seen 4 future since)
  \/ (shared s !! future = Some false /\ requests (pipe s) = 0%nat
      /\ checking (worker s) = true /\ seen 5 future since)
  \/ (shared s !! future = Some false /\ requests (pipe s) = 0%nat
      /\ worker s = at_set_value /\ seen 6 future since)
  \/ (shared s !! future = Some true /\ quiet s /\ seen 7 future since).

(** What holds of every state a run reaches. *)
Definition invariant (before since : list event) (s : state) : Prop :=
  match aborted s with
  | Some why => benign why = true
  | None =>
      match client s with
      | idle | joining | finished => at_rest s /\ quiet s
      | at_entry =>
          at_rest s /\ quiet s
          /\ forall future, seen 1 future since /\ done 1 future since
      | at_emplace =>
          at_rest s /\ quiet s
          /\ forall future, seen 1 future since /\ done 2 future since
      | at_publish future =>
          guard s = false /\ promise s = Some future
          /\ shared s !! future = Some false /\ quiet s
          /\ fresh future before
          /\ seen 2 future since /\ done 3 future since
      | at_write future =>
          guard s = true /\ promise s = Some future
          /\ shared s !! future = Some false /\ quiet s
          /\ fresh future before
          /\ seen 3 future since /\ done 4 future since
      | at_wait future =>
          guard s = true /\ promise s = Some future
          /\ fresh future before
          /\ done 5 future since /\ waiting future since s
      | at_reset future =>
          guard s = true /\ promise s = Some future /\ quiet s
          /\ fresh future before
          /\ seen 8 future since /\ done 6 future since
      | at_unpublish future =>
          guard s = true /\ promise s = None /\ quiet s
          /\ fresh future before
          /\ seen 9 future since /\ done 7 future since
      | at_return future =>
          at_rest s /\ quiet s
          /\ fresh future before
          /\ seen 10 future since /\ done 8 future since
      end
  end.

Arguments requests : simpl never.
Arguments seen : simpl never.
Arguments done : simpl never.
Arguments fresh : simpl never.
Arguments waiting : simpl never.

(** *** A call that returns *)

Definition one_call : list event :=
  [ update_called; entry_checked; promise_emplaced 0; guard_stored true;
    pipe_written "b"; events_processed true (Some 7); pipe_read "b";
    guard_loaded; promise_checked; breakpoint_checked;
    breakpoint_hit_reported true; promise_fulfilled 0; future_ready 0;
    promise_reset; guard_stored false; update_returned ].

Definition after_one_call : state :=
  {| guard := false; promise := None; shared := [true]; pipe := [];
     breakpoint := Some 7; client := idle; worker := polling;
     aborted := None |}.

End Sync.

(** * Properties *)

(** ** Machine integers *)

Lemma wrap64_small z : 0 <= z < 2 ^ 64 -> wrap64 z = z.
Proof. intros H. unfold wrap64. apply Z.mod_small; lia. Qed.

Lemma wrap32_small z : 0 <= z < 2 ^ 32 -> wrap32 z = z.
Proof. intros H. unfold wrap32. apply Z.mod_small; lia. Qed.

Lemma wrap64_range z : 0 <= wrap64 z < 2 ^ 64.
Proof. unfold wrap64. apply Z.mod_pos_bound. lia. Qed.

(** ** The resume mask *)

Section ResumeMaskFacts.
Import ResumeMask.
Variable h : dbgapi_header.

Lemma low_clear_mod k x : 0 <= k -> low_clear k x -> x mod 2 ^ k = 0.
Proof.
  intros Hk Hlow. apply Z.bits_inj'. intros i Hi.
  rewrite Z.bits_0. destruct (Z.lt_ge_cases i k) as [Hlt | Hge].
  - rewrite Z.mod_pow2_bits_low by lia. apply Hlow. lia.
  - apply Z.mod_pow2_bits_high. lia.
Qed.

(** Clearing the lowest set bit clears one more low bit. *)
Lemma low_clear_step k x :
  0 <= k -> 0 < x -> low_clear k x -> low_clear (k + 1) (Z.land x (x - 1)).
Proof.
  intros Hk Hx Hlow i Hi. rewrite Z.land_spec.
  destruct (Z.eq_dec i k) as [-> | Hne].
  - destruct (Z.testbit x k) eqn:Hbit; [| reflexivity]. simpl.
    pose proof (low_clear_mod k x Hk Hlow) as Hmod.
    assert (Hpos : 0 < 2 ^ k) by (apply Z.pow_pos_nonneg; lia).
    apply Z.testbit_true in Hbit; [| lia].
    apply Z.testbit_false; [lia |].
    pose proof (Z.div_mod x (2 ^ k) ltac:(lia)) as Hdm.
    rewrite Hmod in Hdm.
    assert (Hq : (x - 1) / 2 ^ k = x / 2 ^ k - 1).
    { symmetry. apply Z.div_unique with (r := 2 ^ k - 1); lia. }
    rewrite Hq.
    pose proof (Z.div_mod (x / 2 ^ k) 2 ltac:(lia)) as Hodd.
    rewrite Hbit in Hodd. symmetry.
    apply Z.mod_unique with (q := x / 2 ^ k / 2); lia.
  - rewrite Hlow by lia. reflexivity.
Qed.

Lemma low_clear_all x : 0 <= x < 2 ^ 32 -> low_clear 32 x -> x = 0.
Proof.
  intros Hx Hlow. pose proof (low_clear_mod 32 x ltac:(lia) Hlow) as Hmod.
  rewrite Z.mod_small in Hmod; lia.
Qed.

(** What the loop leaves in [stop_reason_bits] after one turn. *)
Lemma consume_one_bit x :
  0 < x < 2 ^ 32 -> Z.lxor x (lowest_bit x) = Z.land x (x - 1).
Proof.
  intros Hx. unfold lowest_bit. rewrite wrap32_small by lia.
  rewrite <- Z.lxor_assoc, Z.lxor_nilpotent, Z.lxor_0_l. reflexivity.
Qed.

Lemma consume_zero : Z.lxor 0 (lowest_bit 0) = 0.
Proof. reflexivity. Qed.

Lemma land_pred_range x : 0 < x < 2 ^ 32 -> 0 <= Z.land x (x - 1) < 2 ^ 32.
Proof.
  intros Hx. split.
  - apply Z.land_nonneg. lia.
  - destruct (Z.eq_dec (Z.land x (x - 1)) 0) as [-> | Hnz]; [lia |].
    assert (0 <= Z.land x (x - 1)) by (apply Z.land_nonneg; lia).
    apply Z.log2_lt_pow2; [lia |].
    pose proof (Z.log2_land x (x - 1) ltac:(lia) ltac:(lia)).
    assert (Z.log2 x < 32) by (apply Z.log2_lt_pow2; lia).
    lia.
Qed.

Lemma resume_loop_turn fuel stop_reason bits exceptions :
  resume_loop h (S fuel) stop_reason bits exceptions
  = if Z.lxor bits (lowest_bit bits) =? 0
    then Some (switch_on h stop_reason exceptions)
    else resume_loop h fuel stop_reason (Z.lxor bits (lowest_bit bits))
                     (switch_on h stop_reason exceptions).
Proof. reflexivity. Qed.

Lemma per_bit_loop_turn fuel bits exceptions :
  per_bit_loop h (S fuel) bits exceptions
  = if Z.lxor bits (lowest_bit bits) =? 0
    then Some (switch_on h (lowest_bit bits) exceptions)
    else per_bit_loop h fuel (Z.lxor bits (lowest_bit bits))
                      (switch_on h (lowest_bit bits) exceptions).
Proof. reflexivity. Qed.

(** The do-while loop ends within 33 turns on every 32-bit mask. *)
Lemma resume_loop_total n stop_reason bits exceptions :
  0 <= bits < 2 ^ 32 -> low_clear (32 - Z.of_nat n) bits ->
  exists r, resume_loop h (S n) stop_reason bits exceptions = Some r.
Proof.
  revert bits exceptions.
  induction n as [| n IH]; intros bits exceptions Hbits Hlow.
  - assert (bits = 0) as -> by (apply low_clear_all; auto).
    rewrite resume_loop_turn. rewrite consume_zero. eauto.
  - rewrite resume_loop_turn.
    destruct (Z.lxor bits (lowest_bit bits) =? 0) eqn:Hz; [eauto |].
    assert (Hpos : 0 < bits).
    { destruct (Z.eq_dec bits 0) as [-> | ?]; [discriminate | lia]. }
    rewrite consume_one_bit by lia.
    apply IH.
    + apply land_pred_range. lia.
    + replace (32 - Z.of_nat n) with (32 - Z.of_nat (S n) + 1) by lia.
      destruct (Z.le_gt_cases 0 (32 - Z.of_nat (S n))) as [Hk | Hk].
      * apply low_clear_step; auto.
      * intros i Hi. lia.
Qed.

(** With no matching case label the switch never changes
    [resume_exceptions]. *)
Lemma resume_loop_unmatched fuel stop_reason bits exceptions r :
  matching_case h stop_reason = None ->
  resume_loop h fuel stop_reason bits exceptions = Some r -> r = exceptions.
Proof.
  intros Hnone. revert bits exceptions.
  induction fuel as [| fuel IH]; intros bits exceptions; cbn [resume_loop].
  - discriminate.
  - unfold switch_on. rewrite Hnone.
    destruct (_ =? 0); [congruence | apply IH].
Qed.

Lemma matching_case_none v :
  (forall r, reason_value h r <> v) -> matching_case h v = None.
Proof.
  intros Hne. unfold matching_case.
  destruct (List.find _ _) as [r |] eqn:Hfind; [| reflexivity].
  apply List.find_some in Hfind as [_ Heq].
  apply Z.eqb_eq in Heq. destruct (Hne r Heq).
Qed.

(** On a mask with at most one bit set the source and section 4.4 of the
    specification agree. *)
Lemma resume_exceptions_single_bit stop_reason :
  Z.land stop_reason (wrap32 (stop_reason - 1)) = 0 ->
  resume_exceptions h stop_reason = spec_resume_exceptions h stop_reason
  /\ resume_exceptions h stop_reason = Some (switch_on h stop_reason 0).
Proof.
  intros Hone. unfold resume_exceptions, spec_resume_exceptions.
  change 33%nat with (S 32).
  rewrite resume_loop_turn, per_bit_loop_turn.
  assert (Hlow : lowest_bit stop_reason = stop_reason).
  { unfold lowest_bit. rewrite Hone. apply Z.lxor_0_r. }
  rewrite Hlow, Z.lxor_nilpotent. auto.
Qed.
End ResumeMaskFacts.

(** C1 (the code departs from the specification).  Specified: the
    exceptions passed to the resume call are the OR, over the set bits of
    the stop reason, of each bit's exception.  The source switches on the
    whole [stop_reason] instead of [one_bit]: whenever the 32-bit mask is
    not the value of one single enumerator, no case matches in any turn of
    the loop and the wave is resumed with no exception at all. *)
Theorem resume_exceptions_combined_mask_is_none
        (h : ResumeMask.dbgapi_header) (stop_reason : Z) :
  0 <= stop_reason < 2 ^ 32 ->
  (forall r, ResumeMask.reason_value h r <> stop_reason) ->
  ResumeMask.resume_exceptions h stop_reason = Some 0.
Proof.
  intros Hrange Hne.
  destruct (resume_loop_total h 32 stop_reason stop_reason 0 Hrange)
    as [r Hr].
  { intros i Hi. simpl in Hi. lia. }
  unfold ResumeMask.resume_exceptions. rewrite Hr. f_equal.
  eapply resume_loop_unmatched; [| exact Hr].
  apply matching_case_none. exact Hne.
Qed.

(** On {FP_OVERFLOW | MEMORY_VIOLATION | DEBUG_TRAP} the source resumes the
    wave with 0, where the per-bit mapping of the specification gives
    WAVE_MATH_ERROR | WAVE_MEMORY_VIOLATION. *)
Lemma resume_exceptions_combined_mask_witness :
  0 <= ResumeMask.fp_overflow_memory_violation_debug_trap < 2 ^ 32
  /\ (forall r, ResumeMask.reason_value ResumeMask.amd_dbgapi_h r
                <> ResumeMask.fp_overflow_memory_violation_debug_trap)
  /\ ResumeMask.resume_exceptions ResumeMask.amd_dbgapi_h
       ResumeMask.fp_overflow_memory_violation_debug_trap = Some 0
  /\ ResumeMask.spec_resume_exceptions ResumeMask.amd_dbgapi_h
       ResumeMask.fp_overflow_memory_violation_debug_trap
     = Some (Z.lor (ResumeMask.exception_value ResumeMask.amd_dbgapi_h
                      ResumeMask.AMD_DBGAPI_EXCEPTION_WAVE_MATH_ERROR)
                   (ResumeMask.exception_value ResumeMask.amd_dbgapi_h
                      ResumeMask.AMD_DBGAPI_EXCEPTION_WAVE_MEMORY_VIOLATION)).
Proof.
  assert (Hrange : 0 <= ResumeMask.fp_overflow_memory_violation_debug_trap < 2 ^ 32)
    by (vm_compute; split; [discriminate | reflexivity]).
  assert (Hne : forall r, ResumeMask.reason_value ResumeMask.amd_dbgapi_h r
                          <> ResumeMask.fp_overflow_memory_violation_debug_trap)
    by (intros r; destruct r; vm_compute; discriminate).
  split; [exact Hrange |]. split; [exact Hne |]. split.
  - exact (resume_exceptions_combined_mask_is_none
             ResumeMask.amd_dbgapi_h
             ResumeMask.fp_overflow_memory_violation_debug_trap Hrange Hne).
  - vm_compute. reflexivity.
Defined.

(** ** [std::map] *)

Section StdMapFacts.
Context {V : Type}.
Implicit Types (m : StdMap.t V) (k : Z) (v : V).

Lemma sorted_cons k v m :
  StdMap.sorted ((k, v) :: m)
  <-> (forall e, e ∈ m -> k < e.1) /\ StdMap.sorted m.
Proof.
  unfold StdMap.sorted. split.
  - intros H. apply StronglySorted_inv in H as [Hs Hall]. split; [| exact Hs].
    intros e He. rewrite List.Forall_forall in Hall.
    apply Hall. apply list_elem_of_In. exact He.
  - intros [Hall Hs]. constructor; [exact Hs |].
    apply List.Forall_forall. intros e He. apply Hall.
    apply list_elem_of_In. exact He.
Qed.

Lemma sorted_nil : StdMap.sorted (@nil (Z * V)).
Proof. constructor. Qed.

Lemma get_cons k k0 v0 m :
  StdMap.get k ((k0, v0) :: m)
  = if k0 =? k then Some v0 else StdMap.get k m.
Proof.
  unfold StdMap.get, StdMap.find. simpl. destruct (k0 =? k); reflexivity.
Qed.

Lemma get_Some_elem k v m : StdMap.get k m = Some v -> (k, v) ∈ m.
Proof.
  induction m as [| [k0 v0] m IH]; [discriminate |].
  rewrite get_cons. destruct (k0 =? k) eqn:Hk.
  - apply Z.eqb_eq in Hk as ->. intros [= ->]. left.
  - intros H. right. auto.
Qed.

Lemma get_None_elem k m : StdMap.get k m = None -> forall v, (k, v) ∉ m.
Proof.
  induction m as [| [k0 v0] m IH]; intros Hget v Hin.
  - inversion Hin.
  - rewrite get_cons in Hget. destruct (k0 =? k) eqn:Hk; [discriminate |].
    apply Z.eqb_neq in Hk. inversion Hin; subst; [congruence |].
    eapply IH; eauto.
Qed.

(** In a sorted map an entry is what [get] finds under its key. *)
Lemma elem_get k v m : StdMap.sorted m -> (k, v) ∈ m -> StdMap.get k m = Some v.
Proof.
  induction m as [| [k0 v0] m IH]; intros Hs Hin.
  - inversion Hin.
  - apply sorted_cons in Hs as [Hall Hs]. rewrite get_cons.
    inversion Hin; subst.
    + rewrite Z.eqb_refl. reflexivity.
    + destruct (k0 =? k) eqn:Hk.
      * apply Z.eqb_eq in Hk as ->.
        specialize (Hall _ ltac:(eassumption)). simpl in Hall. lia.
      * auto.
Qed.

Lemma upper_bound_0 k m :
  StdMap.sorted m -> StdMap.upper_bound k m = 0%nat ->
  forall e, e ∈ m -> k < e.1.
Proof.
  destruct m as [| [k0 v0] m]; intros Hs Hub e He.
  - inversion He.
  - simpl in Hub. destruct (k <? k0) eqn:Hk; [| discriminate].
    apply Z.ltb_lt in Hk. apply sorted_cons in Hs as [Hall _].
    inversion He; subst; [exact Hk |].
    specialize (Hall _ ltac:(eassumption)). lia.
Qed.

(** [upper_bound] followed by [std::prev] is the predecessor lookup: the
    entry with the greatest key that is at most [k]. *)
Lemma prev_entry_upper_bound k m k' v :
  StdMap.sorted m ->
  StdMap.prev_entry (StdMap.upper_bound k m) m = Some (k', v)
  <-> (k', v) ∈ m /\ k' <= k /\ forall e, e ∈ m -> e.1 <= k -> e.1 <= k'.
Proof.
  revert k' v. induction m as [| [k0 v0] m IH]; intros k' v Hs.
  - simpl. split; [discriminate |]. intros [Hin _]. inversion Hin.
  - pose proof Hs as Hs0. apply sorted_cons in Hs as [Hall Hs].
    simpl. destruct (k <? k0) eqn:Hk.
    + apply Z.ltb_lt in Hk. simpl. split; [discriminate |].
      intros (Hin & Hle & _). exfalso.
      inversion Hin; subst; [lia |].
      specialize (Hall _ ltac:(eassumption)). simpl in Hall. lia.
    + apply Z.ltb_ge in Hk. simpl.
      destruct (StdMap.upper_bound k m) as [| i] eqn:Hub.
      * simpl. split.
        -- intros [= <- <-]. split; [left |]. split; [exact Hk |].
           intros e He Hle. inversion He; subst; [simpl; lia |].
           pose proof (upper_bound_0 k m Hs Hub e ltac:(eassumption)). lia.
        -- intros (Hin & Hle & Hmax). inversion Hin; subst; [reflexivity |].
           pose proof (upper_bound_0 k m Hs Hub _ ltac:(eassumption)) as Hgt.
           simpl in Hgt. lia.
      * change (((k0, v0) :: m) !! S i) with (m !! i).
        change (m !! i) with (StdMap.prev_entry (S i) m).
        rewrite (IH _ _ Hs). split.
        -- intros (Hin & Hle & Hmax). split; [right; exact Hin |].
           split; [exact Hle |]. intros e He Hek.
           inversion He; subst; [| auto].
           specialize (Hall _ Hin). simpl in *. lia.
        -- intros (Hin & Hle & Hmax).
           assert (Hin' : (k', v) ∈ m).
           { inversion Hin; subst; [| assumption]. exfalso.
             assert (Hsome : is_Some (m !! i)).
             { apply lookup_lt_is_Some.
               clear -Hub. revert i Hub.
               induction m as [| [k1 v1] m IHm]; intros i Hub;
                 [discriminate |].
               simpl in Hub. destruct (k <? k1); [discriminate |].
               injection Hub as Hub. simpl.
               destruct (StdMap.upper_bound k m) eqn:E; [lia |].
               subst. specialize (IHm _ eq_refl). lia. }
             destruct Hsome as [[k1 v1] Hl].
             assert (Hin1 : (k1, v1) ∈ m) by (eapply list_elem_of_lookup_2; eauto).
             assert (Hprev : StdMap.prev_entry (S i) m = Some (k1, v1))
               by exact Hl.
             apply (IH _ _ Hs) in Hprev as (_ & Hle1 & _).
             specialize (Hmax (k1, v1) ltac:(right; exact Hin1) Hle1).
             specialize (Hall _ Hin1). simpl in *. lia. }
           split; [exact Hin' |]. split; [exact Hle |].
           intros e He Hek. apply Hmax; [right; exact He | exact Hek].
Qed.

Lemma emplace_spec k v m it success m' :
  StdMap.sorted m -> StdMap.emplace k v m = (it, success, m') ->
  StdMap.sorted m'
  /\ (forall e, e ∈ m' -> e = (k, v) \/ e ∈ m)
  /\ (forall k', StdMap.get k' m'
                 = if k' =? k
                   then Some (match StdMap.get k m with
                              | Some v0 => v0
                              | None => v
                              end)
                   else StdMap.get k' m)
  /\ success = match StdMap.get k m with Some _ => false | None => true end
  /\ exists v', m' !! it = Some (k, v').
Proof.
  revert it success m'.
  induction m as [| [k0 v0] m IH]; intros it success m' Hs Hem.
  - simpl in Hem. injection Hem as <- <- <-.
    split; [apply sorted_cons; split; [intros e He; inversion He | constructor] |].
    split; [intros e He; inversion He; subst; [auto | inversion H1] |].
    split.
    { intros k'. rewrite get_cons. rewrite (Z.eqb_sym k k').
      destruct (k' =? k); reflexivity. }
    split; [reflexivity | eauto].
  - pose proof Hs as Hs0. apply sorted_cons in Hs as [Hall Hs].
    simpl in Hem. destruct (k <? k0) eqn:Hlt.
    + apply Z.ltb_lt in Hlt. injection Hem as <- <- <-.
      assert (Hk0 : (k0 =? k) = false) by (apply Z.eqb_neq; lia).
      assert (Hnone : StdMap.get k ((k0, v0) :: m) = None).
      { rewrite get_cons, Hk0.
        destruct (StdMap.get k m) as [v1 |] eqn:Hg; [| reflexivity].
        apply get_Some_elem in Hg. specialize (Hall _ Hg). simpl in Hall. lia. }
      split.
      { apply sorted_cons. split; [| exact Hs0].
        intros e He. inversion He; subst; [simpl; lia |].
        specialize (Hall _ ltac:(eassumption)). lia. }
      split; [intros e He; inversion He; subst; auto |].
      split.
      { intros k'. rewrite (get_cons k' k), Hnone, (Z.eqb_sym k k').
        destruct (k' =? k) eqn:Hk'; [reflexivity |]. reflexivity. }
      split; [rewrite Hnone; reflexivity | eauto].
    + apply Z.ltb_ge in Hlt. destruct (k =? k0) eqn:Heq.
      * apply Z.eqb_eq in Heq as ->. injection Hem as <- <- <-.
        assert (Hg : StdMap.get k0 ((k0, v0) :: m) = Some v0)
          by (rewrite get_cons, Z.eqb_refl; reflexivity).
        split; [exact Hs0 |]. split; [auto |]. split.
        { intros k'. rewrite Hg. destruct (k' =? k0) eqn:Hk'; [| reflexivity].
          apply Z.eqb_eq in Hk' as ->. exact Hg. }
        split; [rewrite Hg; reflexivity | eauto].
      * apply Z.eqb_neq in Heq.
        destruct (StdMap.emplace k v m) as [[it0 success0] m0] eqn:Hrec.
        injection Hem as <- <- <-.
        destruct (IH _ _ _ Hs eq_refl)
          as (Hs1 & Hin1 & Hget1 & Hsucc1 & v' & Hit1).
        assert (Hk0 : (k0 =? k) = false) by (apply Z.eqb_neq; lia).
        split.
        { apply sorted_cons. split; [| exact Hs1].
          intros e He. destruct (Hin1 e He) as [-> | He']; [simpl; lia |].
          apply Hall. exact He'. }
        split.
        { intros e He. inversion He; subst; [right; left |].
          destruct (Hin1 e ltac:(eassumption)) as [-> | He']; [auto |].
          right. right. exact He'. }
        split.
        { intros k'. rewrite !get_cons, Hk0, Hget1.
          destruct (k0 =? k') eqn:Hk0'; [| reflexivity].
          apply Z.eqb_eq in Hk0' as <-.
          rewrite Hk0. reflexivity. }
        split; [rewrite get_cons, Hk0; exact Hsucc1 |].
        exists v'. exact Hit1.
Qed.

Lemma assign_spec it k v0 v m :
  StdMap.sorted m -> m !! it = Some (k, v0) ->
  StdMap.sorted (StdMap.assign it v m)
  /\ (forall e, e ∈ StdMap.assign it v m -> e = (k, v) \/ e ∈ m)
  /\ (forall k', StdMap.get k' (StdMap.assign it v m)
                 = if k' =? k then Some v else StdMap.get k' m).
Proof.
  unfold StdMap.assign. revert it.
  induction m as [| [k0 v1] m IH]; intros it Hs Hit; [discriminate |].
  pose proof Hs as Hs0. apply sorted_cons in Hs as [Hall Hs].
  destruct it as [| it]; simpl in Hit |- *.
  - injection Hit as -> ->. split.
    { apply sorted_cons. split; [exact Hall | exact Hs]. }
    split; [intros e He; inversion He; subst; auto; right; right; auto |].
    intros k'. rewrite !get_cons, (Z.eqb_sym k k').
    destruct (k' =? k); reflexivity.
  - destruct (IH it Hs Hit) as (Hs1 & Hin1 & Hget1).
    assert (Hin : (k, v0) ∈ m) by (eapply list_elem_of_lookup_2; eauto).
    assert (Hk0 : (k0 =? k) = false).
    { apply Z.eqb_neq. specialize (Hall _ Hin). simpl in Hall. lia. }
    split.
    { apply sorted_cons. split; [| exact Hs1].
      intros e He. destruct (Hin1 e He) as [-> | He'].
      - specialize (Hall _ Hin). exact Hall.
      - apply Hall. exact He'. }
    split.
    { intros e He. inversion He; subst; [right; left |].
      destruct (Hin1 e ltac:(eassumption)) as [-> | He']; [auto |].
      right. right. exact He'. }
    intros k'. rewrite !get_cons, Hget1.
    destruct (k0 =? k') eqn:Hk0'; [| reflexivity].
    apply Z.eqb_eq in Hk0' as <-. rewrite Hk0. reflexivity.
Qed.
End StdMapFacts.

(** ** The symbol map *)

Section SymbolFacts.
Import Symbols.
Variable E : elf_h.
Variable load_address : Z.

(** What one turn of the inner loop does to the entry under each address. *)
Lemma insert_symbol_spec (m : symbol_map) (sym : GElf_Sym) :
  StdMap.sorted m ->
  StdMap.sorted (insert_symbol E load_address m sym)
  /\ forall a,
      StdMap.get a (insert_symbol E load_address m sym)
      = if is_defined_function E sym && (a =? symbol_address load_address sym)
        then Some (match StdMap.get a m with
                   | Some (name, size) =>
                       if size <? st_size sym
                       then (st_name sym, st_size sym)
                       else (name, size)
                   | None => (st_name sym, st_size sym)
                   end)
        else StdMap.get a m.
Proof.
  intros Hs. unfold insert_symbol, is_defined_function, symbol_address.
  destruct (GELF_ST_TYPE E (st_info sym) =? STT_FUNC E); simpl;
    [| split; [exact Hs | reflexivity]].
  destruct (st_shndx sym =? SHN_UNDEF E); simpl;
    [split; [exact Hs | reflexivity] |].
  set (key := wrap64 (load_address + st_value sym)).
  destruct (StdMap.emplace key (st_name sym, st_size sym) m)
    as [[it success] m'] eqn:Hem.
  destruct (emplace_spec _ _ _ _ _ _ Hs Hem)
    as (Hs' & _ & Hget & Hsucc & v' & Hit).
  pose proof (Hget key) as Hkey. rewrite Z.eqb_refl in Hkey.
  assert (Hv' : StdMap.get key m' = Some v').
  { apply elem_get; [exact Hs' |]. eapply list_elem_of_lookup_2; eauto. }
  rewrite Hit.
  destruct (StdMap.get key m) as [[name size] |] eqn:Hold.
  - subst success. simpl. rewrite Hkey in Hv'. injection Hv' as <-.
    destruct (size <? st_size sym) eqn:Hlt.
    + destruct (assign_spec it key (name, size)
                            (st_name sym, st_size sym) m' Hs' Hit)
        as (Hs2 & _ & Hget2).
      split; [exact Hs2 |]. intros a. rewrite Hget2, Hget.
      destruct (a =? key) eqn:Ha; [| reflexivity].
      apply Z.eqb_eq in Ha as ->. rewrite Hold, Hlt. reflexivity.
    + split; [exact Hs' |]. intros a. rewrite Hget.
      destruct (a =? key) eqn:Ha; [| reflexivity].
      apply Z.eqb_eq in Ha as ->. rewrite Hold, Hlt. reflexivity.
  - subst success. simpl. split; [exact Hs' |]. intros a. rewrite Hget.
    destruct (a =? key) eqn:Ha; [| reflexivity].
    apply Z.eqb_eq in Ha as ->. rewrite Hold. reflexivity.
Qed.

Lemma symbols_filed_step seen m sym :
  symbols_filed E load_address seen m ->
  symbols_filed E load_address (seen ++ [sym]) (insert_symbol E load_address m sym).
Proof.
  intros [Hs Hinv].
  destruct (insert_symbol_spec m sym Hs) as [Hs' Hget].
  split; [exact Hs' |]. intros a. rewrite Hget. specialize (Hinv a).
  destruct (is_defined_function E sym) eqn:Hdef; simpl.
  - destruct (a =? symbol_address load_address sym) eqn:Ha.
    + apply Z.eqb_eq in Ha. subst a.
      destruct (StdMap.get _ m) as [[name size] |].
      * destruct Hinv as (sym0 & Hin0 & Hdef0 & Ha0 & Hn0 & Hsz0 & Hmax0).
        destruct (size <? st_size sym) eqn:Hlt.
        -- apply Z.ltb_lt in Hlt. exists sym.
           split; [apply elem_of_app; right; left |]. do 4 (split; [auto |]).
           intros sym' Hin' Hdef' Ha'.
           apply elem_of_app in Hin' as [Hin' | Hin'].
           ++ specialize (Hmax0 _ Hin' Hdef' Ha'). lia.
           ++ apply list_elem_of_singleton in Hin' as ->. lia.
        -- apply Z.ltb_ge in Hlt. exists sym0.
           split; [apply elem_of_app; left; exact Hin0 |].
           do 4 (split; [auto |]).
           intros sym' Hin' Hdef' Ha'.
           apply elem_of_app in Hin' as [Hin' | Hin'].
           ++ auto.
           ++ apply list_elem_of_singleton in Hin' as ->. lia.
      * exists sym. split; [apply elem_of_app; right; left |].
        do 4 (split; [auto |]).
        intros sym' Hin' Hdef' Ha'.
        apply elem_of_app in Hin' as [Hin' | Hin'].
        -- destruct (Hinv _ Hin' Hdef' Ha').
        -- apply list_elem_of_singleton in Hin' as ->. lia.
    + apply Z.eqb_neq in Ha.
      destruct (StdMap.get a m) as [[name size] |].
      * destruct Hinv as (sym0 & Hin0 & Hdef0 & Ha0 & Hn0 & Hsz0 & Hmax0).
        exists sym0. split; [apply elem_of_app; left; exact Hin0 |].
        do 4 (split; [auto |]).
        intros sym' Hin' Hdef' Ha'.
        apply elem_of_app in Hin' as [Hin' | Hin']; [auto |].
        apply list_elem_of_singleton in Hin' as ->. congruence.
      * intros sym' Hin' Hdef' Ha'.
        apply elem_of_app in Hin' as [Hin' | Hin'].
        -- exact (Hinv _ Hin' Hdef' Ha').
        -- apply list_elem_of_singleton in Hin' as ->. congruence.
  - destruct (StdMap.get a m) as [[name size] |].
    + destruct Hinv as (sym0 & Hin0 & Hdef0 & Ha0 & Hn0 & Hsz0 & Hmax0).
      exists sym0. split; [apply elem_of_app; left; exact Hin0 |].
      do 4 (split; [auto |]).
      intros sym' Hin' Hdef' Ha'.
      apply elem_of_app in Hin' as [Hin' | Hin']; [auto |].
      apply list_elem_of_singleton in Hin' as ->. congruence.
    + intros sym' Hin' Hdef' Ha'.
      apply elem_of_app in Hin' as [Hin' | Hin'].
      * exact (Hinv _ Hin' Hdef' Ha').
      * apply list_elem_of_singleton in Hin' as ->. congruence.
Qed.

Lemma symbols_filed_fold entries seen m :
  symbols_filed E load_address seen m ->
  symbols_filed E load_address (seen ++ entries)
                (fold_left (insert_symbol E load_address) entries m).
Proof.
  revert seen m. induction entries as [| sym entries IH]; intros seen m H.
  - rewrite app_nil_r. exact H.
  - simpl. replace (seen ++ sym :: entries) with ((seen ++ [sym]) ++ entries)
      by (rewrite <- app_assoc; reflexivity).
    apply IH. apply symbols_filed_step. exact H.
Qed.

(** The loop over the sections files the entries of [symbol_entries]. *)
Lemma slurp_sections_entries sections m :
  fold_left (slurp_section E load_address) sections m
  = fold_left (insert_symbol E load_address) (symbol_entries E sections) m.
Proof.
  revert m. induction sections as [| scn sections IH]; intros m;
    [reflexivity |].
  unfold symbol_entries. simpl. rewrite fold_left_app. rewrite IH.
  unfold symbol_entries. f_equal. unfold slurp_section.
  destruct (negb (sh_type scn =? SHT_SYMTAB E)
            && negb (sh_type scn =? SHT_DYNSYM E)); [reflexivity |].
  destruct (sh_data scn); reflexivity.
Qed.
End SymbolFacts.

(** C4.  [load_symbol_map] files exactly the STT_FUNC entries with a defined
    section, under [load_address + st_value]; the entry left under an
    address is one of the largest [st_size] among those filed there.  With
    sizes 16 and 64 at one value, in either order, the size-64 entry stays. *)
Theorem load_symbol_map_larger_size_wins
        (E : Symbols.elf_h) (load_address : Z)
        (sections : list Symbols.Elf_Scn) :
  let entries := Symbols.symbol_entries E sections in
  let m := Symbols.load_symbol_map E load_address (Some sections) None in
  StdMap.sorted m
  /\ (forall a name size,
         (a, (name, size)) ∈ m ->
         exists sym,
           sym ∈ entries
           /\ Symbols.GELF_ST_TYPE E (Symbols.st_info sym) = Symbols.STT_FUNC E
           /\ Symbols.st_shndx sym <> Symbols.SHN_UNDEF E
           /\ wrap64 (load_address + Symbols.st_value sym) = a
           /\ Symbols.st_name sym = name /\ Symbols.st_size sym = size
           /\ forall sym',
               sym' ∈ entries ->
               Symbols.is_defined_function E sym' = true ->
               wrap64 (load_address + Symbols.st_value sym') = a ->
               Symbols.st_size sym' <= size)
  /\ (forall sym,
         sym ∈ entries -> Symbols.is_defined_function E sym = true ->
         exists name size,
           (wrap64 (load_address + Symbols.st_value sym), (name, size)) ∈ m
           /\ Symbols.st_size sym <= size)
  /\ m = fold_left (Symbols.insert_symbol E load_address)
                   (List.filter (Symbols.is_defined_function E) entries) []
  /\ (forall name1 name2 value,
         Symbols.load_symbol_map Symbols.system_elf_h load_address
           (Some [ {| Symbols.sh_type := 2;
                      Symbols.sh_data :=
                        Some [ Symbols.function_symbol name1 value 16;
                               Symbols.function_symbol name2 value 64 ] |} ])
           None
         = [ (wrap64 (load_address + value), (name2, 64)) ]
         /\ Symbols.load_symbol_map Symbols.system_elf_h load_address
              (Some [ {| Symbols.sh_type := 11;
                         Symbols.sh_data :=
                           Some [ Symbols.function_symbol name1 value 64;
                                  Symbols.function_symbol name2 value 16 ] |} ])
              None
            = [ (wrap64 (load_address + value), (name1, 64)) ]).
Proof.
  intros entries m.
  assert (Hm : m = fold_left (Symbols.insert_symbol E load_address) entries [])
    by (apply slurp_sections_entries).
  assert (Hfiled : Symbols.symbols_filed E load_address entries m).
  { rewrite Hm. apply (symbols_filed_fold E load_address entries [] []).
    split; [apply sorted_nil | intros a sym Hin; inversion Hin]. }
  destruct Hfiled as [Hs Hinv].
  split; [exact Hs |]. split; [| split; [| split]].
  - intros a name size Hin. apply (elem_get _ _ _ Hs) in Hin.
    specialize (Hinv a). rewrite Hin in Hinv.
    destruct Hinv as (sym & Hsym & Hdef & Ha & Hn & Hsz & Hmax).
    exists sym. unfold Symbols.is_defined_function in Hdef.
    apply andb_true_iff in Hdef as [Hty Hsec].
    apply Z.eqb_eq in Hty. apply negb_true_iff, Z.eqb_neq in Hsec.
    repeat split; auto.
  - intros sym Hsym Hdef.
    specialize (Hinv (Symbols.symbol_address load_address sym)).
    destruct (StdMap.get _ m) as [[name size] |] eqn:Hget.
    + destruct Hinv as (sym0 & _ & _ & _ & _ & _ & Hmax).
      exists name, size. split; [apply get_Some_elem; exact Hget |].
      apply Hmax; auto.
    + destruct (Hinv sym Hsym Hdef eq_refl).
  - rewrite Hm. clear. generalize (@nil (Z * (string * Z))).
    induction entries as [| sym entries IH]; intros m0; [reflexivity |].
    simpl. destruct (Symbols.is_defined_function E sym) eqn:Hdef.
    + simpl. apply IH.
    + rewrite <- IH. f_equal. unfold Symbols.insert_symbol.
      unfold Symbols.is_defined_function in Hdef.
      destruct (Symbols.GELF_ST_TYPE E (Symbols.st_info sym)
                =? Symbols.STT_FUNC E); simpl in *; [| reflexivity].
      destruct (Symbols.st_shndx sym =? Symbols.SHN_UNDEF E);
        [reflexivity | discriminate].
  - intros name1 name2 value.
    unfold Symbols.load_symbol_map, Symbols.slurp_section,
      Symbols.insert_symbol. simpl.
    rewrite !Z.ltb_irrefl, !Z.eqb_refl. simpl. split; reflexivity.
Qed.

(** C3.  On a populated symbol map [find_symbol] is the predecessor lookup:
    it returns the entry with the greatest address at most [address], and
    only if [address] is below that address plus the size (in 64-bit
    arithmetic), with the name demangled; the map is left as it is.  With A
    at [base, base + 16) and B at [base + 32, base + 40): [base + 15] is
    in A, [base + 20] in no symbol, [base + 32] in B, [base + 40] in no
    symbol. *)
Theorem find_symbol_predecessor_rule
        (E : Symbols.elf_h) (load_address : Z)
        (cxa_demangle : string -> option string)
        (elf : option (list Symbols.Elf_Scn))
        (m : Symbols.symbol_map) (address : Z) :
  StdMap.sorted m ->
  let find_symbol := Symbols.find_symbol E load_address cxa_demangle elf in
  (forall info,
      (find_symbol (Some m) address).1 = Some info
      <-> exists value name size,
          (value, (name, size)) ∈ m
          /\ value <= address
          /\ (forall e, e ∈ m -> e.1 <= address -> e.1 <= value)
          /\ address < wrap64 (value + size)
          /\ info = {| Symbols.m_name := Symbols.demangled cxa_demangle name;
                       Symbols.m_value := value;
                       Symbols.m_size := size |})
  /\ (find_symbol (Some m) address).2 = Some m
  /\ (forall base,
         0 <= base -> base + 40 < 2 ^ 64 ->
         (find_symbol (Some (Symbols.symbols_A_B base)) (base + 15)).1
         = Some {| Symbols.m_name := Symbols.demangled cxa_demangle "A";
                   Symbols.m_value := base; Symbols.m_size := 16 |}
         /\ (find_symbol (Some (Symbols.symbols_A_B base)) (base + 20)).1 = None
         /\ (find_symbol (Some (Symbols.symbols_A_B base)) (base + 32)).1
            = Some {| Symbols.m_name := Symbols.demangled cxa_demangle "B";
                      Symbols.m_value := base + 32; Symbols.m_size := 8 |}
         /\ (find_symbol (Some (Symbols.symbols_A_B base)) (base + 40)).1
            = None).
Proof.
  intros Hs find_symbol. subst find_symbol. split; [| split].
  - intros info. unfold Symbols.find_symbol, Symbols.load_symbol_map. simpl.
    destruct (StdMap.prev_entry (StdMap.upper_bound address m) m)
      as [[value [name size]] |] eqn:Hprev.
    + apply (prev_entry_upper_bound _ _ _ _ Hs) in Hprev
        as (Hin & Hle & Hmax).
      simpl. destruct (address <? wrap64 (value + size)) eqn:Hlt.
      * apply Z.ltb_lt in Hlt. split.
        -- intros [= <-]. exists value, name, size. repeat split; auto.
        -- intros (value' & name' & size' & Hin' & Hle' & Hmax' & Hlt' & ->).
           assert (value' = value).
           { specialize (Hmax _ Hin' Hle'). specialize (Hmax' _ Hin Hle).
             simpl in *. lia. }
           subst value'.
           pose proof (elem_get _ _ _ Hs Hin) as H1.
           pose proof (elem_get _ _ _ Hs Hin') as H2.
           rewrite H1 in H2. injection H2 as <- <-. reflexivity.
      * apply Z.ltb_ge in Hlt. split; [discriminate |].
        intros (value' & name' & size' & Hin' & Hle' & Hmax' & Hlt' & _).
        assert (value' = value).
        { specialize (Hmax _ Hin' Hle'). specialize (Hmax' _ Hin Hle).
          simpl in *. lia. }
        subst value'.
        pose proof (elem_get _ _ _ Hs Hin) as H1.
        pose proof (elem_get _ _ _ Hs Hin') as H2.
        rewrite H1 in H2. injection H2 as <- <-. lia.
    + split; [discriminate |].
      intros (value' & name' & size' & Hin' & Hle' & Hmax' & _).
      assert (Hp : StdMap.prev_entry (StdMap.upper_bound address m) m
                   = Some (value', (name', size')))
        by (apply prev_entry_upper_bound; auto).
      congruence.
  - reflexivity.
  - intros base Hbase Hmax.
    unfold Symbols.find_symbol, Symbols.load_symbol_map, Symbols.symbols_A_B,
      Symbols.demangled.
    simpl.
    repeat match goal with
           | |- context [?a <? ?b] =>
               first [ rewrite (proj2 (Z.ltb_lt a b)) by lia
                     | rewrite (proj2 (Z.ltb_ge a b)) by lia ]
           end.
    simpl. rewrite !wrap64_small by lia.
    repeat match goal with
           | |- context [?a <? ?b] =>
               first [ rewrite (proj2 (Z.ltb_lt a b)) by lia
                     | rewrite (proj2 (Z.ltb_ge a b)) by lia ]
           end.
    repeat split; reflexivity.
Qed.

Lemma find_symbol_predecessor_rule_witness :
  StdMap.sorted (Symbols.symbols_A_B 4096)
  /\ (Symbols.find_symbol Symbols.system_elf_h 0 (fun _ => None) None
        (Some (Symbols.symbols_A_B 4096)) (4096 + 15)).1
     = Some {| Symbols.m_name := "A"; Symbols.m_value := 4096;
               Symbols.m_size := 16 |}
  /\ (Symbols.find_symbol Symbols.system_elf_h 0 (fun _ => None) None
        (Some (Symbols.symbols_A_B 4096)) (4096 + 40)).1 = None.
Proof.
  assert (Hs : StdMap.sorted (Symbols.symbols_A_B 4096)).
  { repeat constructor. }
  split; [exact Hs |].
  destruct (find_symbol_predecessor_rule
              Symbols.system_elf_h 0 (fun _ => None) None
              (Symbols.symbols_A_B 4096) (4096 + 15) Hs)
    as (_ & _ & Hex).
  destruct (Hex 4096 ltac:(lia) ltac:(lia)) as (HA & _ & _ & Hnone).
  split; [exact HA | exact Hnone].
Defined.

(** ** The code object of a wave *)

Lemma report_of_app t a :
  Agent.report_of (t ++ [a])
  = Agent.report_of t
    ++ match a with Agent.out item => [item] | _ => [] end.
Proof.
  unfold Agent.report_of. rewrite omap_app. destruct a; reflexivity.
Qed.

Lemma find_code_object_spec
      (code_object_map : StdMap.t CodeObject.code_object_t) (pc : Z) co :
  StdMap.sorted code_object_map ->
  0 <= pc < 2 ^ 64 ->
  (forall e, e ∈ code_object_map -> 0 <= e.1) ->
  CodeObject.find_code_object code_object_map pc = Some co
  <-> exists load_address,
      (load_address, co) ∈ code_object_map
      /\ load_address <= pc
      /\ (forall e, e ∈ code_object_map -> e.1 <= pc -> e.1 <= load_address)
      /\ pc - load_address <= CodeObject.m_mem_size co.
Proof.
  intros Hs Hpc Hkeys. unfold CodeObject.find_code_object.
  destruct (StdMap.prev_entry _ _) as [[load code_object] |] eqn:Hprev.
  - apply (prev_entry_upper_bound _ _ _ _ Hs) in Hprev as (Hin & Hle & Hmax).
    pose proof (Hkeys _ Hin) as Hload. simpl in Hload.
    rewrite wrap64_small by lia.
    assert (Huniq : forall load' co',
               (load', co') ∈ code_object_map -> load' <= pc ->
               (forall e, e ∈ code_object_map -> e.1 <= pc -> e.1 <= load') ->
               load' = load /\ co' = code_object).
    { intros load' co' Hin' Hle' Hmax'.
      assert (load' = load).
      { specialize (Hmax _ Hin' Hle'). specialize (Hmax' _ Hin Hle).
        simpl in *. lia. }
      subst load'. split; [reflexivity |].
      pose proof (elem_get _ _ _ Hs Hin) as H1.
      pose proof (elem_get _ _ _ Hs Hin') as H2. congruence. }
    destruct (pc - load <=? CodeObject.m_mem_size code_object) eqn:Hsz.
    + apply Z.leb_le in Hsz. split.
      * intros [= <-]. exists load. auto.
      * intros (load' & Hin' & Hle' & Hmax' & _).
        destruct (Huniq _ _ Hin' Hle' Hmax') as [_ ->]. reflexivity.
    + apply Z.leb_gt in Hsz. split; [discriminate |].
      intros (load' & Hin' & Hle' & Hmax' & Hsz').
      destruct (Huniq _ _ Hin' Hle' Hmax') as [-> ->]. lia.
  - split; [discriminate |].
    intros (load' & Hin' & Hle' & Hmax' & _).
    assert (Hp : StdMap.prev_entry
                   (StdMap.upper_bound pc code_object_map) code_object_map
                 = Some (load', co))
      by (apply prev_entry_upper_bound; auto).
    congruence.
Qed.

(** ** [code_object_t::open] *)

Section OpenFacts.
Import CodeObject.
Variable env : environment.

Lemma pad_exact (bytes : list byte) :
  pad (Z.of_nat (length bytes)) bytes = bytes.
Proof.
  unfold pad. rewrite Nat2Z.id, Nat.sub_diag. apply app_nil_r.
Qed.

(** Without a size the buffer is the file from [offset] to its end. *)
Lemma read_to_end (contents : list byte) (offset : Z) :
  0 <= offset <= Z.of_nat (length contents) ->
  let size := Z.of_nat (length contents) - offset in
  pad size (take (Z.to_nat size) (drop (Z.to_nat offset) contents))
  = drop (Z.to_nat offset) contents.
Proof.
  intros Hoff size.
  assert (Hlen : Z.to_nat size = length (drop (Z.to_nat offset) contents)).
  { rewrite length_drop. subst size. lia. }
  rewrite Hlen, firstn_all.
  replace size with (Z.of_nat (length (drop (Z.to_nat offset) contents)))
    by lia.
  apply pad_exact.
Qed.

Lemma scan_phdrs_all (phdrs : list (option GElf_Phdr)) (mem_size : Z) :
  Forall is_Some phdrs ->
  exists mem_size', scan_phdrs env phdrs mem_size = (Some mem_size', mem_size').
Proof.
  intros Hall. revert mem_size.
  induction Hall as [| phdr phdrs [p ->] _ IH]; intros mem_size.
  - exists mem_size. reflexivity.
  - simpl. apply IH.
Qed.
End OpenFacts.

(** C5 (amended).  For a file URI with no size parameter, a readable file
    and an offset within it: when the buffer can be allocated, [open] reads
    the bytes from the offset to the end of the file and goes on to the
    temporary file with them; the code object becomes opened when, on top
    of that, the name for the temporary file is made, the file is created
    and written in full, and libelf returns every program header; when the
    assertion of line 283 on that name fails, the agent is stopped after
    the read.  When the buffer cannot be allocated, nothing is read and
    [open] goes on with an empty buffer.  Past the end of the file [open]
    warns and leaves the code object as it was.  A size parameter given as
    0 makes [open] return before anything is read. *)
Theorem open_file_reads_to_end_of_file
        (env : CodeObject.environment) (co : CodeObject.code_object_t)
        (u : CodeObject.parsed_uri) (offset : Z) (contents : list byte) :
  CodeObject.parse_uri (CodeObject.m_uri co) = Some u ->
  CodeObject.protocol u = "file"%string ->
  CodeObject.offset_parameter env u = Some offset ->
  0 <= offset ->
  CodeObject.file_contents env (CodeObject.decoded_path u) = Some contents ->
  let file_length := Z.of_nat (length contents) in
  let buffer := drop (Z.to_nat offset) contents in
  let read :=
    CodeObject.file_read (CodeObject.decoded_path u) offset
                         (file_length - offset) in
  (CodeObject.params u !! "size"%string = None ->
   (offset <= file_length ->
    (CodeObject.resize_succeeds env (file_length - offset) = true ->
     CodeObject.open env co
     = ((CodeObject.materialize env co buffer).1,
        read :: (CodeObject.materialize env co buffer).2)
     /\ (forall name fd phdrs,
            CodeObject.temporary_file_name env (CodeObject.m_uri co)
            = Memfd.name_is name ->
            CodeObject.create_temporary_file env name = Some fd ->
            CodeObject.write_result env fd buffer
            = Z.of_nat (length buffer) ->
            CodeObject.read_elf env buffer
            = CodeObject.elf_program_headers phdrs ->
            Forall is_Some phdrs ->
            exists co',
              CodeObject.open env co
              = (CodeObject.returned co',
                 [read; CodeObject.temporary_file_written fd buffer])
              /\ CodeObject.m_fd co' = Some fd
              /\ CodeObject.is_open co' = true)
     /\ (CodeObject.temporary_file_name env (CodeObject.m_uri co)
         = Memfd.assertion_fails ->
         CodeObject.open env co = (CodeObject.failed_assertion, [read])))
    /\ (CodeObject.resize_succeeds env (file_length - offset) = false ->
        CodeObject.open env co = CodeObject.materialize env co []
        /\ forall path from size,
            CodeObject.file_read path from size
            ∉ (CodeObject.open env co).2))
   /\ (file_length < offset ->
       CodeObject.open env co
       = (CodeObject.returned co,
          [CodeObject.agent_warning
             (CodeObject.file_size_less_than_offset
                (CodeObject.decoded_path u))])))
  /\ (forall s,
         CodeObject.params u !! "size"%string = Some s ->
         CodeObject.stoul env s = Some 0 ->
         CodeObject.open env co = (CodeObject.returned co, [])).
Proof.
  intros Hparse Hproto Hoffset Hnonneg Hfile file_length buffer read.
  split.
  - intros Hsize.
    assert (Hsp : CodeObject.size_parameter env u = CodeObject.size_is 0)
      by (unfold CodeObject.size_parameter; rewrite Hsize; reflexivity).
    split.
    + intros Hle. split.
      * intros Hresize.
        assert (Hfetch : CodeObject.fetch env (CodeObject.m_uri co) u
                         = (CodeObject.fetch_buffer buffer, [read])).
        { unfold CodeObject.fetch. rewrite Hoffset, Hsp, Hproto. simpl.
          rewrite Hfile. fold file_length.
          rewrite (proj2 (Z.ltb_ge file_length offset)) by lia.
          simpl. rewrite Hresize.
          unfold file_length. rewrite read_to_end by (fold file_length; lia).
          reflexivity. }
        assert (Hopen : CodeObject.open env co
                        = ((CodeObject.materialize env co buffer).1,
                           read :: (CodeObject.materialize env co buffer).2)).
        { unfold CodeObject.open. rewrite Hparse, Hfetch.
          destruct (CodeObject.materialize env co buffer). reflexivity. }
        split; [exact Hopen |]. split.
        -- intros name fd phdrs Hname Hfd Hwrite Helf Hall.
           destruct (scan_phdrs_all env phdrs (CodeObject.m_mem_size co) Hall)
             as [mem_size Hscan].
           rewrite Hopen. unfold CodeObject.materialize.
           rewrite Hname, Hfd, Hwrite, Z.eqb_refl, Helf, Hscan. simpl.
           eexists. split; [reflexivity |]. split; reflexivity.
        -- intros Hname. rewrite Hopen. unfold CodeObject.materialize.
           rewrite Hname. reflexivity.
      * intros Hresize.
        assert (Hfetch : CodeObject.fetch env (CodeObject.m_uri co) u
                         = (CodeObject.fetch_buffer [], [])).
        { unfold CodeObject.fetch. rewrite Hoffset, Hsp, Hproto. simpl.
          rewrite Hfile. fold file_length.
          rewrite (proj2 (Z.ltb_ge file_length offset)) by lia.
          simpl. rewrite Hresize. reflexivity. }
        assert (Hopen : CodeObject.open env co
                        = CodeObject.materialize env co []).
        { unfold CodeObject.open. rewrite Hparse, Hfetch.
          destruct (CodeObject.materialize env co []). reflexivity. }
        split; [exact Hopen |].
        intros path from size. rewrite Hopen. unfold CodeObject.materialize.
        repeat case_match; cbn [snd]; intros Hin;
          repeat (apply elem_of_cons in Hin as [Hin | Hin];
                  [discriminate |]);
          inversion Hin.
    + intros Hgt. unfold CodeObject.open. rewrite Hparse.
      unfold CodeObject.fetch. rewrite Hoffset, Hsp, Hproto. simpl.
      rewrite Hfile. fold file_length.
      rewrite (proj2 (Z.ltb_lt file_length offset)) by lia. reflexivity.
  - intros s Hsize Hzero. unfold CodeObject.open. rewrite Hparse.
    unfold CodeObject.fetch. rewrite Hoffset.
    unfold CodeObject.size_parameter. rewrite Hsize, Hzero. reflexivity.
Qed.

Lemma open_file_reads_to_end_of_file_witness :
  let co := Examples.constructed 4096 "file:///opt/kernel.co#offset=2" in
  let u := {| CodeObject.protocol := "file";
              CodeObject.decoded_path := "/opt/kernel.co";
              CodeObject.params := {[ "offset"%string := "2"%string ]} |} in
  CodeObject.parse_uri (CodeObject.m_uri co) = Some u
  /\ CodeObject.protocol u = "file"%string
  /\ CodeObject.offset_parameter Examples.os u = Some 2
  /\ 0 <= 2
  /\ CodeObject.file_contents Examples.os (CodeObject.decoded_path u)
     = Some Examples.kernel_bytes
  /\ CodeObject.temporary_file_name Examples.os (CodeObject.m_uri co)
     = Memfd.name_is "file:///opt/kernel.co#offset=2"
  /\ exists co',
      CodeObject.open Examples.os co
      = (CodeObject.returned co',
         [ CodeObject.file_read "/opt/kernel.co" 2 6;
           CodeObject.temporary_file_written
             3 (drop 2 Examples.kernel_bytes) ])
      /\ CodeObject.is_open co' = true.
Proof.
  intros co u.
  assert (Hu : CodeObject.parse_uri (CodeObject.m_uri co) = Some u)
    by (vm_compute; reflexivity).
  assert (Hproto : CodeObject.protocol u = "file"%string) by reflexivity.
  assert (Hoff : CodeObject.offset_parameter Examples.os u = Some 2)
    by (vm_compute; reflexivity).
  assert (Hfile : CodeObject.file_contents Examples.os
                    (CodeObject.decoded_path u) = Some Examples.kernel_bytes)
    by (vm_compute; reflexivity).
  assert (Hname : CodeObject.temporary_file_name Examples.os
                    (CodeObject.m_uri co)
                  = Memfd.name_is "file:///opt/kernel.co#offset=2")
    by (vm_compute; reflexivity).
  split; [exact Hu |]. split; [exact Hproto |]. split; [exact Hoff |].
  split; [lia |]. split; [exact Hfile |]. split; [exact Hname |].
  destruct (open_file_reads_to_end_of_file
              Examples.os co u 2 Examples.kernel_bytes
              Hu Hproto Hoff ltac:(lia) Hfile) as [Habsent _].
  destruct (Habsent ltac:(vm_compute; reflexivity)) as [Hread _].
  destruct (Hread ltac:(vm_compute; discriminate)) as [Hallocated _].
  destruct (Hallocated ltac:(vm_compute; reflexivity)) as (_ & Hopened & _).
  destruct (Hopened _ 3 [ Some {| CodeObject.p_type := 1;
                                  CodeObject.p_vaddr := 0;
                                  CodeObject.p_memsz := 4096 |} ]
                    Hname eq_refl eq_refl eq_refl
                    ltac:(repeat constructor; eauto))
    as (co' & Hopen & _ & Hisopen).
  exists co'. split; [exact Hopen | exact Hisopen].
Defined.

(** C5 as stated fails when the size parameter is written out as 0: the
    file is there and the offset is inside it, yet [open] returns at line
    195 without reading a byte, and the code object stays unopened. *)
Lemma open_file_explicit_zero_size_counterexample :
  let co := Examples.constructed 4096 "file:///opt/kernel.co#offset=0&size=0" in
  (exists u,
      CodeObject.parse_uri (CodeObject.m_uri co) = Some u
      /\ CodeObject.protocol u = "file"%string
      /\ CodeObject.params u !! "size"%string = Some "0"%string
      /\ CodeObject.offset_parameter Examples.os u = Some 0
      /\ CodeObject.file_contents Examples.os (CodeObject.decoded_path u)
         = Some Examples.kernel_bytes)
  /\ CodeObject.open Examples.os co = (CodeObject.returned co, [])
  /\ ~ (exists co' effects,
           CodeObject.open Examples.os co = (CodeObject.returned co', effects)
           /\ CodeObject.is_open co' = true).
Proof.
  intros co. split; [| split].
  - exists {| CodeObject.protocol := "file";
              CodeObject.decoded_path := "/opt/kernel.co";
              CodeObject.params := {[ "offset"%string := "0"%string;
                                      "size"%string := "0"%string ]} |}.
    repeat split; vm_compute; reflexivity.
  - vm_compute. reflexivity.
  - intros (co' & effects & Hopen & Hisopen).
    assert (Hrun : CodeObject.open Examples.os co = (CodeObject.returned co, []))
      by (vm_compute; reflexivity).
    rewrite Hrun in Hopen. injection Hopen as <- <-. discriminate.
Qed.

(** C6 (amended).  For a memory URI whose offset is zero or absent, or
    whose size is zero or absent (every value that is present being a
    number [std::stoul] accepts), [open] reads no memory and returns with
    the code object exactly as it was, hence unopened.  It warns that offset
    and size must be non-zero, except when the size parameter is written
    out as 0: then it returns at line 195 before the protocol is looked at,
    and nothing is emitted. *)
Theorem open_memory_rejects_zero
        (env : CodeObject.environment) (co : CodeObject.code_object_t)
        (u : CodeObject.parsed_uri) (offset : Z) :
  CodeObject.parse_uri (CodeObject.m_uri co) = Some u ->
  CodeObject.protocol u = "memory"%string ->
  CodeObject.offset_parameter env u = Some offset ->
  CodeObject.size_parameter env u <> CodeObject.size_throws ->
  offset = 0
  \/ CodeObject.size_parameter env u = CodeObject.size_returns
  \/ CodeObject.size_parameter env u = CodeObject.size_is 0 ->
  exists effects,
    CodeObject.open env co = (CodeObject.returned co, effects)
    /\ (forall address size, CodeObject.memory_read address size ∉ effects)
    /\ effects
       = match CodeObject.size_parameter env u with
         | CodeObject.size_returns => []
         | _ => [ CodeObject.agent_warning
                    (CodeObject.offset_and_size_must_be_nonzero
                       (CodeObject.m_uri co)) ]
         end.
Proof.
  intros Hparse Hproto Hoffset Hnothrow Hzero.
  unfold CodeObject.open. rewrite Hparse.
  unfold CodeObject.fetch. rewrite Hoffset.
  destruct (CodeObject.size_parameter env u) as [| | size] eqn:Hsp.
  - congruence.
  - exists []. split; [reflexivity |]. split; [| reflexivity].
    intros address size Hin. inversion Hin.
  - rewrite Hproto. simpl.
    assert (Hor : (offset =? 0) || (size =? 0) = true).
    { destruct Hzero as [-> | [Hz | Hz]];
        [reflexivity | discriminate |].
      injection Hz as ->. apply orb_true_r. }
    rewrite Hor. eexists. split; [reflexivity |]. split; [| reflexivity].
    intros address n Hin. apply list_elem_of_singleton in Hin. discriminate.
Qed.

Lemma open_memory_rejects_zero_witness :
  let co := Examples.constructed 4096 "memory://x#offset=0&size=4" in
  let u := {| CodeObject.protocol := "memory";
              CodeObject.decoded_path := "x";
              CodeObject.params := {[ "offset"%string := "0"%string;
                                      "size"%string := "4"%string ]} |} in
  CodeObject.parse_uri (CodeObject.m_uri co) = Some u
  /\ CodeObject.protocol u = "memory"%string
  /\ CodeObject.offset_parameter Examples.os u = Some 0
  /\ CodeObject.size_parameter Examples.os u = CodeObject.size_is 4
  /\ CodeObject.open Examples.os co
     = (CodeObject.returned co,
        [ CodeObject.agent_warning
            (CodeObject.offset_and_size_must_be_nonzero
               (CodeObject.m_uri co)) ]).
Proof.
  intros co u.
  assert (Hu : CodeObject.parse_uri (CodeObject.m_uri co) = Some u)
    by (vm_compute; reflexivity).
  assert (Hproto : CodeObject.protocol u = "memory"%string) by reflexivity.
  assert (Hoff : CodeObject.offset_parameter Examples.os u = Some 0)
    by (vm_compute; reflexivity).
  assert (Hsize : CodeObject.size_parameter Examples.os u
                  = CodeObject.size_is 4)
    by (vm_compute; reflexivity).
  split; [exact Hu |]. split; [exact Hproto |]. split; [exact Hoff |].
  split; [exact Hsize |].
  destruct (open_memory_rejects_zero Examples.os co u 0 Hu Hproto Hoff
              ltac:(rewrite Hsize; discriminate) ltac:(left; reflexivity))
    as (effects & Hopen & _ & Heffects).
  rewrite Hsize in Heffects. rewrite Hopen, Heffects. reflexivity.
Defined.

(** C6 as stated fails on the URI the specification itself names: with
    [size=0] written out, [open] returns before the memory branch and its
    warning are reached, so no warning is emitted. *)
Lemma open_memory_explicit_zero_size_counterexample :
  let co := Examples.constructed 4096 "memory://x#offset=0&size=0" in
  (exists u,
      CodeObject.parse_uri (CodeObject.m_uri co) = Some u
      /\ CodeObject.protocol u = "memory"%string
      /\ CodeObject.offset_parameter Examples.os u = Some 0
      /\ CodeObject.params u !! "size"%string = Some "0"%string)
  /\ CodeObject.open Examples.os co = (CodeObject.returned co, [])
  /\ ~ (exists co' effects w,
           CodeObject.open Examples.os co = (co', effects)
           /\ CodeObject.agent_warning w ∈ effects).
Proof.
  intros co. split; [| split].
  - exists {| CodeObject.protocol := "memory";
              CodeObject.decoded_path := "x";
              CodeObject.params := {[ "offset"%string := "0"%string;
                                      "size"%string := "0"%string ]} |}.
    repeat split; vm_compute; reflexivity.
  - vm_compute. reflexivity.
  - intros (co' & effects & w & Hopen & Hin).
    assert (Hrun : CodeObject.open Examples.os co = (CodeObject.returned co, []))
      by (vm_compute; reflexivity).
    rewrite Hrun in Hopen. injection Hopen as <- <-. inversion Hin.
Qed.

(** ** The disassembly anchor *)

Section AnchorFacts.
Import Disassemble.

Lemma upper_bound_length {V} k (m : StdMap.t V) :
  (StdMap.upper_bound k m <= length m)%nat.
Proof.
  induction m as [| [k0 v0] m IH]; simpl; [lia |].
  destruct (k <? k0); simpl; lia.
Qed.

(** In a sorted map the positions before [upper_bound k] are those whose
    key is at most [k]. *)
Lemma upper_bound_lt_iff {V} k (m : StdMap.t V) i e :
  StdMap.sorted m -> m !! i = Some e ->
  (i < StdMap.upper_bound k m)%nat <-> e.1 <= k.
Proof.
  revert i. induction m as [| [k0 v0] m IH]; intros i Hs Hi; [discriminate |].
  apply sorted_cons in Hs as [Hall Hs]. simpl.
  destruct (k <? k0) eqn:Hk.
  - apply Z.ltb_lt in Hk. split; [lia |]. intros Hle. exfalso.
    destruct i as [| i]; simpl in Hi.
    + injection Hi as <-. simpl in Hle. lia.
    + apply list_elem_of_lookup_2 in Hi. specialize (Hall _ Hi). lia.
  - apply Z.ltb_ge in Hk. destruct i as [| i]; simpl in Hi.
    + injection Hi as <-. simpl. split; [intros _; exact Hk | lia].
    + rewrite <- (IH i Hs Hi). lia.
Qed.

(** The backward walk stops at the predecessor of [pc - 24]. *)
Lemma walk_back_predecessor (m : line_number_map) pc j it :
  StdMap.sorted m ->
  (forall e, e ∈ m -> 0 <= e.1) ->
  24 <= pc < 2 ^ 64 ->
  StdMap.upper_bound (pc - context_byte_size) m = S j ->
  (j < it)%nat -> (it <= StdMap.upper_bound pc m)%nat ->
  walk_back m pc it = j.
Proof.
  intros Hs Hkeys Hpc Hub. induction it as [| it IH]; intros Hj Hit; [lia |].
  simpl.
  assert (Hsome : is_Some (m !! it)).
  { apply lookup_lt_is_Some. pose proof (upper_bound_length pc m). lia. }
  destruct Hsome as [e He].
  pose proof (Hkeys _ (list_elem_of_lookup_2 _ _ _ He)) as Hnonneg.
  assert (Hle : e.1 <= pc).
  { apply (upper_bound_lt_iff pc m it e Hs He). lia. }
  unfold key_at. rewrite He. rewrite wrap64_small by lia.
  pose proof (upper_bound_lt_iff (pc - context_byte_size) m it e Hs He) as Hiff.
  rewrite Hub in Hiff. unfold context_byte_size in *.
  destruct (24 <=? pc - e.1) eqn:Hd.
  - apply Z.leb_le in Hd. assert (it < S j)%nat by (apply Hiff; lia). lia.
  - apply Z.leb_gt in Hd. apply IH; [| lia].
    destruct (Nat.eq_dec it j) as [-> | ?]; [| lia].
    assert (e.1 <= pc - 24) by (apply Hiff; lia). lia.
Qed.

Variable instruction_size : Z -> option Z.

(** The forward skip only moves over whole instructions, and never to less
    than 24 bytes before [pc]. *)
Lemma skip_ahead_spec fuel pc s0 :
  (forall a size, reaches instruction_size s0 a ->
                  instruction_size a = Some size ->
                  0 < size /\ (a < pc -> a + size <= pc)) ->
  0 <= s0 -> pc < 2 ^ 64 -> 24 <= pc - s0 ->
  (Z.to_nat (pc - s0) < fuel)%nat ->
  exists s,
    skip_ahead instruction_size fuel pc s0 = Some s
    /\ reaches instruction_size s0 s
    /\ s0 <= s /\ 24 <= pc - s
    /\ (24 < pc - s ->
        match instruction_size s with
        | Some size => pc - (s + size) < 24
        | None => True
        end).
Proof.
  revert s0.
  induction fuel as [| fuel IH]; intros s0 Hsizes Hs0 Hpc Hdist Hfuel;
    [lia |].
  simpl. unfold context_byte_size. rewrite wrap64_small by lia.
  destruct (24 <? pc - s0) eqn:Hfar.
  - apply Z.ltb_lt in Hfar.
    destruct (instruction_size s0) as [size |] eqn:Hsize.
    + destruct (Hsizes _ _ (reaches_here _ _) Hsize) as [Hpos Hfit].
      specialize (Hfit ltac:(lia)).
      rewrite (wrap64_small (s0 + size)) by lia.
      rewrite wrap64_small by lia.
      destruct (pc - (s0 + size) <? 24) eqn:Hnear.
      * apply Z.ltb_lt in Hnear. exists s0.
        split; [reflexivity |]. split; [constructor |].
        split; [lia |]. split; [lia |]. intros _. rewrite Hsize. exact Hnear.
      * apply Z.ltb_ge in Hnear.
        destruct (IH (s0 + size)) as (s & Hrun & Hreach & Hle & Hd & Hstop);
          [| lia | exact Hpc | lia | lia |].
        { intros a size' Hreach. apply Hsizes.
          eapply reaches_over; [exact Hsize |].
          rewrite wrap64_small by lia. exact Hreach. }
        exists s. split; [exact Hrun |].
        split.
        { eapply reaches_over; [exact Hsize |].
          rewrite wrap64_small by lia. exact Hreach. }
        split; [lia |]. split; [exact Hd | exact Hstop].
    + exists s0. split; [reflexivity |]. split; [constructor |].
      split; [lia |]. split; [lia |]. intros _. rewrite Hsize. exact I.
  - apply Z.ltb_ge in Hfar. exists s0.
    split; [reflexivity |]. split; [constructor |].
    split; [lia |]. split; [lia |]. intros Hcontra. lia.
Qed.
End AnchorFacts.

(** C7 (amended).  With line entries 100 and 8 bytes below [pc] and none
    nearer, the backward walk starts the disassembly at [pc - 100], not at
    [pc - 8].  When the instructions that follow one another from
    [pc - 100] have positive sizes and none of them reaches across [pc],
    the forward skip moves over whole instructions as long as the next
    boundary is still at least 24 bytes before [pc]: it ends on an
    instruction boundary [s] at least 24 bytes before [pc], and when it
    ends more than 24 bytes before [pc], either the instruction at [s]
    could not be read or disassembled, or the boundary after it is nearer
    than 24 bytes. *)
Theorem disassemble_anchor_keeps_context
        (instruction_size : Z -> option Z)
        (m : Disassemble.line_number_map)
        (ranges : Disassemble.pc_ranges_map) (pc : Z) :
  StdMap.sorted m ->
  (forall e, e ∈ m -> 0 <= e.1) ->
  100 <= pc < 2 ^ 64 ->
  (exists line, (pc - 100, line) ∈ m) ->
  (exists line, (pc - 8, line) ∈ m) ->
  (forall e, e ∈ m -> pc - 100 < e.1 <= pc -> e.1 = pc - 8) ->
  (Disassemble.clamp ranges pc (pc - 100)).1 = pc - 100 ->
  (forall a size, Disassemble.reaches instruction_size (pc - 100) a ->
                  instruction_size a = Some size ->
                  0 < size /\ (a < pc -> a + size <= pc)) ->
  Disassemble.initial_start_pc m pc = pc - 100
  /\ Disassemble.saved_start_pc m ranges pc = pc - 100
  /\ exists s,
      Disassemble.start_pc instruction_size 101 m ranges pc = Some s
      /\ Disassemble.reaches instruction_size (pc - 100) s
      /\ pc - 100 <= s
      /\ Disassemble.context_byte_size <= pc - s
      /\ (Disassemble.context_byte_size < pc - s ->
          match instruction_size s with
          | Some size => pc - (s + size) < Disassemble.context_byte_size
          | None => True
          end).
Proof.
  intros Hs Hkeys Hpc [line100 H100] [line8 H8] Hgap Hclamp Hsizes.
  assert (Hinit : Disassemble.initial_start_pc m pc = pc - 100).
  { unfold Disassemble.initial_start_pc.
    assert (Hpred : StdMap.prev_entry
                      (StdMap.upper_bound (pc - Disassemble.context_byte_size) m)
                      m = Some (pc - 100, line100)).
    { apply prev_entry_upper_bound; [exact Hs |].
      unfold Disassemble.context_byte_size.
      split; [exact H100 |]. split; [lia |].
      intros e He Hle. destruct (Z.le_gt_cases e.1 (pc - 100)); [assumption |].
      specialize (Hgap e He ltac:(lia)). simpl in *. lia. }
    destruct (StdMap.upper_bound (pc - Disassemble.context_byte_size) m)
      as [| j] eqn:Hub; [discriminate |].
    simpl in Hpred.
    assert (Hj : (j < StdMap.upper_bound pc m)%nat).
    { apply (upper_bound_lt_iff pc m j _ Hs Hpred). simpl. lia. }
    destruct (StdMap.upper_bound pc m) as [| i] eqn:Hubpc; [lia |].
    rewrite (walk_back_predecessor m pc j (S i) Hs Hkeys ltac:(lia) Hub Hj
               ltac:(lia)).
    unfold Disassemble.key_at. rewrite Hpred. reflexivity. }
  assert (Hsaved : Disassemble.saved_start_pc m ranges pc = pc - 100).
  { unfold Disassemble.saved_start_pc. rewrite Hinit. exact Hclamp. }
  split; [exact Hinit |]. split; [exact Hsaved |].
  unfold Disassemble.start_pc. rewrite Hsaved.
  apply skip_ahead_spec; try assumption; try lia.
Qed.

Lemma disassemble_anchor_keeps_context_witness :
  let m := Disassemble.two_lines 1000 in
  let instruction_size := Disassemble.instruction_stream 900 (repeat 4 25) in
  StdMap.sorted m
  /\ (forall e, e ∈ m -> 0 <= e.1)
  /\ 100 <= 1000 < 2 ^ 64
  /\ (forall e, e ∈ m -> 1000 - 100 < e.1 <= 1000 -> e.1 = 1000 - 8)
  /\ (Disassemble.clamp [] 1000 (1000 - 100)).1 = 1000 - 100
  /\ (forall a size, Disassemble.reaches instruction_size (1000 - 100) a ->
                     instruction_size a = Some size ->
                     0 < size /\ (a < 1000 -> a + size <= 1000))
  /\ Disassemble.initial_start_pc m 1000 = 900
  /\ Disassemble.start_pc instruction_size 101 m [] 1000 = Some 976.
Proof.
  intros m instruction_size.
  assert (Hs : StdMap.sorted m) by (repeat constructor).
  assert (Hkeys : forall e, e ∈ m -> 0 <= e.1).
  { intros e He. repeat (apply elem_of_cons in He as [-> | He]; [simpl; lia |]).
    inversion He. }
  assert (Hpc : 100 <= 1000 < 2 ^ 64) by lia.
  assert (Hgap : forall e, e ∈ m -> 1000 - 100 < e.1 <= 1000 -> e.1 = 1000 - 8).
  { intros e He Hr.
    repeat (apply elem_of_cons in He as [-> | He]; [simpl in *; lia |]).
    inversion He. }
  assert (Hclamp : (Disassemble.clamp [] 1000 (1000 - 100)).1 = 1000 - 100)
    by reflexivity.
  assert (Hsizes : forall a size,
             Disassemble.reaches instruction_size (1000 - 100) a ->
             instruction_size a = Some size ->
             0 < size /\ (a < 1000 -> a + size <= 1000)).
  { intros a size _ H. subst instruction_size. cbn in H.
    repeat match type of H with
           | (if a =? ?b then _ else _) = _ =>
               destruct (Z.eqb_spec a b) as [-> | _];
               [injection H as <-; lia |]
           end.
    discriminate. }
  split; [exact Hs |]. split; [exact Hkeys |]. split; [exact Hpc |].
  split; [exact Hgap |]. split; [exact Hclamp |]. split; [exact Hsizes |].
  destruct (disassemble_anchor_keeps_context
              instruction_size m [] 1000 Hs Hkeys Hpc
              ltac:(eexists; left)
              ltac:(eexists; right; left)
              Hgap Hclamp Hsizes)
    as (Hinit & _ & s & Hrun & _).
  split; [exact Hinit |].
  vm_compute. reflexivity.
Defined.

(** C7 as stated fails with 8-byte instructions: from [pc - 100] the skip
    stops at [pc - 28], because the instruction there ends at [pc - 16],
    which would leave less than 24 bytes; the anchor is 28 bytes before
    [pc], not within 24.  (The stream below has boundaries at [pc - 100],
    at [pc - 8] and at [pc], as the line map and the wave require.)  When
    the memory at [pc - 100] cannot be read the anchor stays at
    [pc - 100]. *)
Lemma disassemble_anchor_counterexample :
  let m := Disassemble.two_lines 1000 in
  let instruction_size :=
    Disassemble.instruction_stream 900 (repeat 8 9 ++ [12; 8; 8; 8; 8; 8]) in
  instruction_size (1000 - 8) = Some 8
  /\ Disassemble.reaches instruction_size (1000 - 100) 1000
  /\ Disassemble.start_pc instruction_size 101 m [] 1000 = Some 972
  /\ Disassemble.reaches instruction_size (1000 - 100) 972
  /\ ~ (1000 - 972 <= Disassemble.context_byte_size)
  /\ Disassemble.start_pc (fun _ => None) 101 m [] 1000 = Some (1000 - 100).
Proof.
  intros m instruction_size. split; [reflexivity |]. split; [| split; [| split; [| split]]].
  - do 12 (eapply Disassemble.reaches_over; [reflexivity |]; simpl).
    apply Disassemble.reaches_here.
  - vm_compute. reflexivity.
  - do 9 (eapply Disassemble.reaches_over; [reflexivity |]; simpl).
    apply Disassemble.reaches_here.
  - unfold Disassemble.context_byte_size. lia.
  - vm_compute. reflexivity.
Qed.

(** ** The lock of [print_wavefronts] *)

Section LockFacts.
Import Agent.
Context {World : Type}.
Variable api : dbgapi World.
Variable cfg : configuration.

Lemma keeps_lock_ret {A} (a : A) : keeps_lock (World := World) (ret a).
Proof. intros st. reflexivity. Qed.

Lemma keeps_lock_abort {A} why : keeps_lock (World := World) (@abort World A why).
Proof. intros st. reflexivity. Qed.

Lemma keeps_lock_out_of_fuel {A} :
  keeps_lock (World := World) (fun st => (@OutOfFuel A, st)).
Proof. intros st. reflexivity. Qed.

Lemma keeps_lock_emit a : keeps_lock (World := World) (emit a).
Proof. intros st. reflexivity. Qed.

Lemma keeps_lock_query {A} c (f : World -> amd_dbgapi_status_t * A) :
  keeps_lock (query c f).
Proof. intros st. reflexivity. Qed.

Lemma keeps_lock_command c (f : World -> amd_dbgapi_status_t * World) :
  keeps_lock (command c f).
Proof. intros st. unfold command. destruct (f (world st)). reflexivity. Qed.

Lemma keeps_lock_command_with {A} c
      (f : World -> amd_dbgapi_status_t * A * World) :
  keeps_lock (command_with c f).
Proof.
  intros st. unfold command_with. destruct (f (world st)) as [[? ?] ?].
  reflexivity.
Qed.

Lemma keeps_lock_bind {A B} (m : M World A) (k : A -> M World B) :
  keeps_lock m -> (forall a, keeps_lock (k a)) -> keeps_lock (bind m k).
Proof.
  intros Hm Hk st. unfold bind. specialize (Hm st).
  destruct (m st) as [[a | why |] st']; simpl in *; [| assumption ..].
  rewrite Hk. exact Hm.
Qed.

Lemma keeps_lock_check status : keeps_lock (World := World) (DBGAPI_CHECK status).
Proof. destruct status; [apply keeps_lock_ret | apply keeps_lock_abort ..]. Qed.

Lemma keeps_lock_assert enabled b :
  keeps_lock (World := World) (agent_assert enabled b).
Proof.
  unfold agent_assert.
  destruct (enabled && negb b); [apply keeps_lock_abort | apply keeps_lock_ret].
Qed.

(** Follows the structure of the code down to the primitive steps. *)
Ltac keeps_lock_step :=
  first
    [ apply keeps_lock_ret | apply keeps_lock_abort
    | apply keeps_lock_out_of_fuel | apply keeps_lock_emit
    | apply keeps_lock_query | apply keeps_lock_command
    | apply keeps_lock_command_with | apply keeps_lock_check
    | apply keeps_lock_assert | assumption
    | apply keeps_lock_bind; [| intros ?]
    | match goal with
      | |- keeps_lock (match ?x with _ => _ end) => destruct x
      | |- keeps_lock (if ?b then _ else _) => destruct b
      end ].

Lemma keeps_lock_drain_events fuel sets :
  keeps_lock (drain_events api cfg fuel sets).
Proof.
  revert sets. induction fuel as [| fuel IH]; intros sets; simpl;
    repeat keeps_lock_step; apply IH.
Qed.

Lemma keeps_lock_stop_wave sets wave_id :
  keeps_lock (stop_wave api sets wave_id).
Proof. unfold stop_wave. repeat keeps_lock_step. Qed.

Lemma keeps_lock_stop_waves sets wave_ids :
  keeps_lock (stop_waves api sets wave_ids).
Proof.
  revert sets. induction wave_ids as [| id ids IH]; intros sets; simpl.
  - apply keeps_lock_ret.
  - apply keeps_lock_bind; [apply keeps_lock_stop_wave | intros; apply IH].
Qed.

Lemma keeps_lock_stop_loop iterations fuel sets :
  keeps_lock (stop_loop api cfg iterations fuel sets).
Proof.
  revert sets. induction iterations as [| n IH]; intros sets; simpl.
  - apply keeps_lock_out_of_fuel.
  - apply keeps_lock_bind.
    + unfold stop_iteration.
      apply keeps_lock_bind; [apply keeps_lock_drain_events | intros].
      repeat keeps_lock_step. apply keeps_lock_stop_waves.
    + intros sets'. destruct (bool_decide _); [apply keeps_lock_ret | apply IH].
Qed.

Lemma keeps_lock_add_code_objects code_object_map ids :
  keeps_lock (add_code_objects api cfg code_object_map ids).
Proof.
  revert code_object_map.
  induction ids as [| id ids IH]; intros code_object_map; simpl.
  - apply keeps_lock_ret.
  - apply keeps_lock_bind; [| intros; apply IH].
    unfold add_code_object, construct_code_object. repeat keeps_lock_step.
Qed.

Lemma keeps_lock_print_registers fuel wave_id :
  keeps_lock (print_registers api fuel wave_id).
Proof.
  intros st. unfold print_registers.
  destruct (Registers.print_registers _ _) as [[] output]; reflexivity.
Qed.

Lemma keeps_lock_print_local_memory fuel wave_id :
  keeps_lock (print_local_memory api cfg fuel wave_id).
Proof.
  intros st. unfold print_local_memory.
  destruct (LocalMemory.print_local_memory _ _ _) as [[] output];
    reflexivity.
Qed.

Lemma keeps_lock_disassemble code_object architecture_id pc :
  keeps_lock (disassemble api code_object architecture_id pc).
Proof.
  intros st. unfold disassemble.
  destruct (code_object_disassemble _ _ _ _ _); reflexivity.
Qed.

Lemma keeps_lock_report_waves fuel code_object_map i wave_ids :
  keeps_lock (report_waves api cfg fuel code_object_map i wave_ids).
Proof.
  revert i. induction wave_ids as [| id ids IH]; intros i; simpl.
  - apply keeps_lock_ret.
  - apply keeps_lock_bind; [| intros; apply IH].
    unfold report_wave.
    repeat first [ apply keeps_lock_print_registers
                 | apply keeps_lock_print_local_memory
                 | apply keeps_lock_disassemble
                 | keeps_lock_step ].
Qed.

Lemma keeps_lock_print_wavefronts_locked iterations fuel all_wavefronts :
  keeps_lock (print_wavefronts_locked api cfg iterations fuel all_wavefronts).
Proof.
  unfold print_wavefronts_locked, stop_all_wavefronts.
  repeat first [ apply keeps_lock_add_code_objects
               | apply keeps_lock_stop_loop
               | apply keeps_lock_report_waves
               | keeps_lock_step ].
Qed.

(** A request made while the lock is held does nothing at all. *)
Lemma print_wavefronts_locked_out iterations fuel all_wavefronts st :
  lock st = true ->
  print_wavefronts api cfg iterations fuel all_wavefronts st = (Ok tt, st).
Proof.
  intros Hlock. unfold print_wavefronts, bind, try_lock. rewrite Hlock.
  reflexivity.
Qed.

(** A request made while the lock is free takes it, runs and gives it
    back. *)
Lemma print_wavefronts_takes_lock iterations fuel all_wavefronts st :
  lock st = false ->
  print_wavefronts api cfg iterations fuel all_wavefronts st
  = bind (print_wavefronts_locked api cfg iterations fuel all_wavefronts)
         (fun _ => unlock)
         {| world := world st; lock := true; trace := trace st |}.
Proof.
  intros Hlock. unfold print_wavefronts. unfold bind at 1.
  unfold try_lock. rewrite Hlock. reflexivity.
Qed.
End LockFacts.

(** C8.  An invocation of [print_wavefronts] made while the lock is held
    returns at once: it makes no call, writes nothing and leaves the lock
    with its holder.  Hence two requests of which the second arrives while
    the first is inside (right after it took the lock, or right before it
    gives it back) leave exactly what the first alone leaves: one report.
    On the simulated GPU with the three waves of the specification that
    report is not empty. *)
Theorem print_wavefronts_drops_request_under_lock
        {World : Type} (api : Agent.dbgapi World) (cfg : Agent.configuration) :
  (forall iterations fuel all_wavefronts st,
      Agent.lock st = true ->
      Agent.print_wavefronts api cfg iterations fuel all_wavefronts st
      = (Agent.Ok tt, st))
  /\ (forall iterations fuel all_wavefronts all_wavefronts' st,
         Agent.lock st = false ->
         Agent.second_request_after_lock
           api cfg iterations fuel all_wavefronts all_wavefronts' st
         = Agent.print_wavefronts api cfg iterations fuel all_wavefronts st
         /\ Agent.second_request_before_unlock
              api cfg iterations fuel all_wavefronts all_wavefronts' st
            = Agent.print_wavefronts api cfg iterations fuel all_wavefronts st)
  /\ (let gpu := SimulatedGpu.api Examples.snapshot in
      let st := SimulatedGpu.initial (Examples.three_waves 5) in
      let one := Agent.print_wavefronts
                   gpu (Examples.configuration true) 10 10 true st in
      let two := Agent.second_request_after_lock
                   gpu (Examples.configuration true) 10 10 true true st in
      one.1 = Agent.Ok tt
      /\ length (Agent.report_of (Agent.trace one.2)) = 17%nat
      /\ Agent.trace two.2 = Agent.trace one.2).
Proof.
  split; [| split].
  - intros iterations fuel all_wavefronts st Hlock.
    apply print_wavefronts_locked_out. exact Hlock.
  - intros iterations fuel all_wavefronts all_wavefronts' st Hlock.
    rewrite (print_wavefronts_takes_lock api cfg) by exact Hlock.
    unfold Agent.second_request_after_lock,
      Agent.second_request_before_unlock.
    unfold Agent.bind. unfold Agent.try_lock at 1 2. rewrite Hlock.
    change (negb true) with false. cbv beta iota.
    set (st1 := {| Agent.world := Agent.world st; Agent.lock := true;
                   Agent.trace := Agent.trace st |}).
    split.
    + rewrite (print_wavefronts_locked_out api cfg) by reflexivity.
      reflexivity.
    + pose proof (keeps_lock_print_wavefronts_locked
                    api cfg iterations fuel all_wavefronts st1) as Hkeep.
      destruct (Agent.print_wavefronts_locked
                  api cfg iterations fuel all_wavefronts st1)
        as [[[] | why |] st2]; try reflexivity.
      simpl in Hkeep.
      rewrite (print_wavefronts_locked_out api cfg) by exact Hkeep.
      reflexivity.
  - vm_compute. repeat split; reflexivity.
Qed.

(** A request made while the lock is held, on the simulated GPU. *)
Lemma print_wavefronts_drops_request_under_lock_witness :
  Agent.print_wavefronts
    (SimulatedGpu.api Examples.snapshot) (Examples.configuration true)
    10 10 true
    {| Agent.world := Examples.three_waves 5; Agent.lock := true;
       Agent.trace := [] |}
  = (Agent.Ok tt,
     {| Agent.world := Examples.three_waves 5; Agent.lock := true;
        Agent.trace := [] |}).
Proof.
  apply (proj1 (print_wavefronts_drops_request_under_lock _ _)).
  reflexivity.
Defined.

(** ** [stop_all_wavefronts] on the simulated GPU *)

Section SimulationFacts.
Import Agent SimulatedGpu.
Variable s : snapshot.
Variable cfg : configuration.

Lemma report_unreported wv : unreported wv = false -> report wv = wv.
Proof. destruct wv; simpl; congruence. Qed.

Lemma report_idempotent wv : report (report wv) = report wv.
Proof. destruct wv; reflexivity. Qed.

Lemma elem_of_ids_where p (ws : gmap Z wave) id :
  id ∈ ids_where p ws <-> exists wv, ws !! id = Some wv /\ p wv = true.
Proof.
  unfold ids_where. rewrite list_elem_of_fmap. split.
  - intros ([id' wv] & -> & Hin). apply list_elem_of_filter in Hin as [Hp Hin].
    apply elem_of_map_to_list in Hin. eauto.
  - intros (wv & Hl & Hp). exists (id, wv). split; [reflexivity |].
    apply list_elem_of_filter. split; [exact Hp |].
    apply elem_of_map_to_list. exact Hl.
Qed.

Lemma NoDup_ids_where p (ws : gmap Z wave) : NoDup (ids_where p ws).
Proof.
  unfold ids_where. apply NoDup_fmap_fst.
  - intros id wv1 wv2 H1 H2.
    apply list_elem_of_filter in H1 as [_ H1], H2 as [_ H2].
    apply elem_of_map_to_list in H1, H2. congruence.
  - apply NoDup_filter. apply NoDup_map_to_list.
Qed.

Lemma length_ids_where p (ws : gmap Z wave) :
  (length (ids_where p ws) <= size ws)%nat.
Proof.
  unfold ids_where. rewrite length_fmap.
  rewrite <- (length_map_to_list ws). apply length_filter.
Qed.

(** The event loop on the simulated world: every queued event is consumed,
    every wave it is about becomes reported, and the sets follow. *)
Lemma drain_events_simulated fuel w sets l t :
  consistent w sets -> calm cfg w ->
  (length (pending w) < fuel)%nat ->
  exists sets' t',
    drain_events (api s) cfg fuel sets
                 {| Agent.world := w; lock := l; trace := t |}
    = (Ok sets',
       {| Agent.world := {| waves := report <$> waves w; pending := [] |};
          lock := l; trace := t ++ t' |})
    /\ consistent {| waves := report <$> waves w; pending := [] |} sets'
    /\ stop_requests t' = [].
Proof.
  revert w sets t.
  induction fuel as [| fuel IH]; intros [ws pend] sets t Hc Hcalm Hfuel;
    [simpl in Hfuel; lia |].
  destruct pend as [| id rest].
  - (* nothing is queued *)
    assert (Hsame : report <$> ws = ws).
    { apply map_eq. intros id. rewrite lookup_fmap.
      destruct (ws !! id) as [wv |] eqn:Hl; [| reflexivity]. simpl. f_equal.
      apply report_unreported.
      destruct (unreported wv) eqn:Hu; [| reflexivity].
      assert (Hin : id ∈ pending {| waves := ws; pending := [] |})
        by (apply (pending_unreported _ _ Hc); eauto).
      inversion Hin. }
    exists sets, [call process_next_pending_event]. cbn [waves].
    rewrite Hsame.
    split; [reflexivity |]. split; [exact Hc | reflexivity].
  - (* the event about [id] is next *)
    destruct (proj1 (pending_unreported _ _ Hc id) ltac:(left))
      as (wv & Hl & Hu).
    simpl in Hl.
    pose proof (pending_NoDup _ _ Hc) as Hnd. simpl in Hnd.
    apply NoDup_cons in Hnd as [Hfresh Hnd].
    set (w1 := {| waves := alter report id ws; pending := rest |}).
    set (kind := event_kind_of (Some wv)).
    set (sets1 :=
           {| already_stopped :=
                match kind with
                | AMD_DBGAPI_EVENT_KIND_WAVE_STOP =>
                    already_stopped sets ∪ {[id]}
                | _ => already_stopped sets
                end;
              waiting_to_stop := waiting_to_stop sets ∖ {[id]} |}).
    assert (Hassert :
              assertions cfg && negb (bool_decide (id ∈ waiting_to_stop sets))
              = false).
    { destruct (bool_decide (id ∈ waiting_to_stop sets)) eqn:Hw;
        [apply andb_false_r |].
      apply bool_decide_eq_false in Hw.
      destruct Hcalm as [-> | Hno]; [reflexivity |].
      exfalso. specialize (Hno id wv Hl). simpl in Hno.
      destruct wv; try discriminate; apply Hw;
        apply (waiting_awaited _ _ Hc); eauto. }
    assert (Hc1 : consistent w1 sets1).
    { split; simpl.
      - exact Hnd.
      - intros id'. rewrite lookup_alter. destruct (decide (id = id')) as [<- | Hne].
        + rewrite Hl. simpl. split; [intros Hin; contradiction |].
          intros (wv' & [= <-] & Hu'). destruct wv; discriminate.
        + rewrite <- (pending_unreported _ _ Hc id'). simpl.
          rewrite elem_of_cons. intuition congruence.
      - intros id'. rewrite lookup_alter, elem_of_difference, elem_of_singleton.
        destruct (decide (id = id')) as [<- | Hne].
        + rewrite Hl. simpl. split; [intros [_ Hn]; congruence |].
          intros (wv' & [= <-] & Ha). destruct wv; discriminate.
        + rewrite (waiting_awaited _ _ Hc id'). simpl. intuition congruence.
      - intros id' Hin. rewrite lookup_alter.
        destruct (decide (id = id')) as [<- | Hne].
        + rewrite Hl. simpl. eexists. split; [reflexivity |].
          subst kind. destruct wv; try discriminate; simpl in *;
            try reflexivity.
          destruct (stopped_halted _ _ Hc id Hin) as (wv' & Hl' & Hh).
          simpl in Hl'. rewrite Hl in Hl'. injection Hl' as <-. discriminate.
        + apply (stopped_halted _ _ Hc id'). subst kind.
          destruct (event_kind_of (Some wv)); try exact Hin;
            apply elem_of_union in Hin as [Hin | Hin]; try exact Hin;
            apply elem_of_singleton in Hin; congruence. }
    assert (Hcalm1 : calm cfg w1).
    { destruct Hcalm as [Ha | Hno]; [left; exact Ha | right].
      intros id' wv'. simpl. rewrite lookup_alter.
      destruct (decide (id = id')) as [<- | Hne].
      - rewrite Hl. simpl. intros [= <-]. specialize (Hno id wv Hl).
        simpl in Hno. destruct wv; simpl in *; congruence.
      - apply Hno. }
    destruct (IH w1 sets1 (t ++ [call process_next_pending_event;
                                 call (event_get_info id);
                                 call (event_processed id)])
                 Hc1 Hcalm1 ltac:(simpl in *; lia))
      as (sets' & t' & Hrun & Hc' & Hreq).
    assert (Hwaves : report <$> waves w1 = report <$> ws).
    { apply map_eq. intros id'. subst w1. simpl.
      rewrite !lookup_fmap, lookup_alter.
      destruct (decide (id = id')) as [<- | Hne]; [| reflexivity].
      destruct (ws !! id); [| reflexivity]. simpl.
      rewrite report_idempotent. reflexivity. }
    rewrite Hwaves in Hrun, Hc'.
    exists sets', ([call process_next_pending_event; call (event_get_info id);
                    call (event_processed id)] ++ t').
    cbn [waves].
    split; [| split; [exact Hc' |]].
    + rewrite app_assoc. rewrite <- Hrun.
      cbn [drain_events]. unfold bind, command_with, command, query, ret,
        DBGAPI_CHECK, agent_assert. cbn.
      rewrite Hl. fold kind.
      destruct wv; try discriminate; cbn in *;
        rewrite Hassert; cbn; rewrite <- !app_assoc; reflexivity.
    + unfold stop_requests in *. rewrite omap_app, Hreq. reflexivity.
Qed.

Lemma tick_unreported wv :
  unreported wv = false -> unreported (tick wv) = transitions wv.
Proof. destruct wv as [| [] [] | | | [] | | |]; simpl; congruence. Qed.

Lemma tick_awaited wv : awaited (tick wv) = awaited wv.
Proof. destruct wv as [| [] [] | | | [] | | |]; reflexivity. Qed.

Lemma tick_halted wv : halted wv = true -> tick wv = wv.
Proof. destruct wv; simpl; congruence. Qed.

(** One poll of the wave list keeps the sets and the world in step. *)
Lemma tick_consistent ws sets :
  consistent {| waves := ws; pending := [] |} sets ->
  consistent {| waves := tick <$> ws;
                pending := ids_where transitions ws |} sets.
Proof.
  intros Hc.
  assert (Hnone : forall id wv, ws !! id = Some wv -> unreported wv = false).
  { intros id wv Hl. destruct (unreported wv) eqn:Hu; [| reflexivity].
    assert (Hin : id ∈ pending {| waves := ws; pending := [] |})
      by (apply (pending_unreported _ _ Hc); eauto).
    inversion Hin. }
  split; simpl.
  - apply NoDup_ids_where.
  - intros id. rewrite elem_of_ids_where, lookup_fmap. split.
    + intros (wv & Hl & Ht). rewrite Hl. simpl. eexists. split; [reflexivity |].
      rewrite tick_unreported by eauto. exact Ht.
    + intros (wv' & Hl & Hu). destruct (ws !! id) as [wv |] eqn:Hw;
        [| discriminate].
      simpl in Hl. injection Hl as <-. exists wv. split; [reflexivity |].
      rewrite <- tick_unreported by eauto. exact Hu.
  - intros id. rewrite (waiting_awaited _ _ Hc id), lookup_fmap. simpl. split.
    + intros (wv & Hl & Ha). rewrite Hl. simpl. eexists. split; [reflexivity |].
      rewrite tick_awaited. exact Ha.
    + intros (wv' & Hl & Ha). destruct (ws !! id) as [wv |] eqn:Hw;
        [| discriminate].
      simpl in Hl. injection Hl as <-. exists wv. split; [reflexivity |].
      rewrite <- tick_awaited. exact Ha.
  - intros id Hin. destruct (stopped_halted _ _ Hc id Hin) as (wv & Hl & Hh).
    simpl in Hl. rewrite lookup_fmap, Hl. simpl. exists (tick wv).
    split; [reflexivity |]. rewrite tick_halted by exact Hh. exact Hh.
Qed.

Lemma request_stop_not_running wv :
  (forall latency dies, wv <> running latency dies) -> request_stop wv = wv.
Proof. destruct wv; intros H; try reflexivity. destruct (H _ _ eq_refl). Qed.

Lemma request_stop_idempotent wv :
  request_stop (request_stop wv) = request_stop wv.
Proof. destruct wv; reflexivity. Qed.

Lemma request_stop_halted wv :
  halted (request_stop wv) = true -> halted wv = true.
Proof. destruct wv; simpl; congruence. Qed.

Lemma alter_request_stop_keep (ws : gmap Z wave) id wv0 :
  ws !! id = Some wv0 ->
  (forall latency dies, wv0 <> running latency dies) ->
  alter request_stop id ws = ws.
Proof.
  intros Hl Hnr. apply alter_id. intros x Hx.
  rewrite Hl in Hx. injection Hx as <-.
  apply request_stop_not_running. exact Hnr.
Qed.

(** One turn of the loop over the wave list, on the simulated world. *)
Lemma stop_wave_simulated w sets id l t :
  consistent w sets ->
  exists sets' t',
    stop_wave (api s) sets id {| Agent.world := w; lock := l; trace := t |}
    = (Ok sets',
       {| Agent.world := {| waves := alter request_stop id (waves w);
                            pending := pending w |};
          lock := l; trace := t ++ t' |})
    /\ consistent {| waves := alter request_stop id (waves w);
                     pending := pending w |} sets'
    /\ already_stopped sets ⊆ already_stopped sets'
    /\ (forall wv, waves w !! id = Some wv -> halted wv = true ->
                   id ∈ already_stopped sets').
Proof.
  intros Hc. destruct w as [ws pend]. cbn [waves pending].
  unfold stop_wave.
  destruct (bool_decide (id ∈ already_stopped sets)) eqn:HA.
  { apply bool_decide_eq_true in HA.
    destruct (stopped_halted _ _ Hc id HA) as (wv & Hl & Hh). simpl in Hl.
    exists sets, []. rewrite app_nil_r.
    rewrite (alter_request_stop_keep ws id _ Hl) by (intros; intros ->; discriminate).
    repeat split; try apply Hc; auto. }
  apply bool_decide_eq_false in HA.
  destruct (bool_decide (id ∈ waiting_to_stop sets)) eqn:HW.
  { apply bool_decide_eq_true in HW.
    destruct (proj1 (waiting_awaited _ _ Hc id) HW) as (wv & Hl & Ha).
    simpl in Hl.
    exists sets, []. rewrite app_nil_r.
    rewrite (alter_request_stop_keep ws id _ Hl) by (intros; intros ->; discriminate).
    repeat split; try apply Hc; auto.
    intros wv' Hl' Hh. rewrite Hl in Hl'. injection Hl' as <-.
    destruct wv; discriminate. }
  apply bool_decide_eq_false in HW.
  unfold bind, query, command, ret, abort. cbn.
  destruct (ws !! id) as [wv |] eqn:Hl.
  2:{ exists sets, [call (wave_get_info id)].
      rewrite alter_id by (intros x Hx; congruence).
      cbn. repeat split; try apply Hc; auto. intros wv; discriminate. }
  destruct wv as [latency dies | remaining dies | | | remaining | | |]; cbn.
  - (* running: the stop request is sent *)
    rewrite Hl. cbn.
    assert (Hins : <[id := stopping latency dies]> ws
                   = alter request_stop id ws).
    { apply map_eq. intros id'. rewrite lookup_insert, lookup_alter.
      destruct (decide (id = id')) as [<- | Hne]; [| reflexivity].
      rewrite Hl. reflexivity. }
    rewrite Hins.
    exists {| already_stopped := already_stopped sets;
              waiting_to_stop := waiting_to_stop sets ∪ {[id]} |},
           [call (wave_get_info id); call (wave_stop id)].
    rewrite <- app_assoc. split; [reflexivity |]. split; [| split].
    + rewrite <- Hins. split; simpl.
      * apply (pending_NoDup _ _ Hc).
      * intros id'. rewrite (pending_unreported _ _ Hc id'). simpl.
        rewrite lookup_insert. destruct (decide (id = id')) as [<- | Hne];
          [| reflexivity].
        rewrite Hl. split; intros (wv & [= <-] & Hu); discriminate.
      * intros id'. rewrite elem_of_union, elem_of_singleton.
        rewrite (waiting_awaited _ _ Hc id'). simpl. rewrite lookup_insert.
        destruct (decide (id = id')) as [<- | Hne].
        -- split; [intros _; eauto |]. intros _. right. reflexivity.
        -- split; [intros [H | ->]; [exact H | congruence] | auto].
      * intros id' Hin. rewrite lookup_insert.
        destruct (decide (id = id')) as [<- | Hne]; [contradiction |].
        apply (stopped_halted _ _ Hc id' Hin).
    + reflexivity.
    + intros wv [= <-]. discriminate.
  - (* stopping: it would be in [waiting_to_stop] *)
    exfalso. apply HW. apply (waiting_awaited _ _ Hc). eauto.
  - exfalso. apply HW. apply (waiting_awaited _ _ Hc). eauto.
  - exfalso. apply HW. apply (waiting_awaited _ _ Hc). eauto.
  - (* single-stepping: left alone *)
    exists sets, [call (wave_get_info id)].
    rewrite (alter_request_stop_keep ws id _ Hl) by (intros; discriminate).
    repeat split; try apply Hc; auto. intros wv [= <-]. discriminate.
  - (* the step is over: the wave is in state STOP *)
    exists {| already_stopped := already_stopped sets ∪ {[id]};
              waiting_to_stop := waiting_to_stop sets |},
           [call (wave_get_info id)].
    rewrite (alter_request_stop_keep ws id _ Hl) by (intros; discriminate).
    split; [reflexivity |]. split; [| split].
    + split; simpl; try apply Hc.
      intros id' Hin. apply elem_of_union in Hin as [Hin | Hin].
      * apply (stopped_halted _ _ Hc id' Hin).
      * apply elem_of_singleton in Hin as ->. simpl. eauto.
    + simpl. apply union_subseteq_l.
    + intros _ _ _. simpl. apply elem_of_union_r, elem_of_singleton.
      reflexivity.
  - exists {| already_stopped := already_stopped sets ∪ {[id]};
              waiting_to_stop := waiting_to_stop sets |},
           [call (wave_get_info id)].
    rewrite (alter_request_stop_keep ws id _ Hl) by (intros; discriminate).
    split; [reflexivity |]. split; [| split].
    + split; simpl; try apply Hc.
      intros id' Hin. apply elem_of_union in Hin as [Hin | Hin].
      * apply (stopped_halted _ _ Hc id' Hin).
      * apply elem_of_singleton in Hin as ->. simpl. eauto.
    + simpl. apply union_subseteq_l.
    + intros _ _ _. simpl. apply elem_of_union_r, elem_of_singleton.
      reflexivity.
  - (* terminated: INVALID_WAVE_ID, skipped *)
    exists sets, [call (wave_get_info id)].
    rewrite (alter_request_stop_keep ws id _ Hl) by (intros; discriminate).
    repeat split; try apply Hc; auto. intros wv [= <-]. discriminate.
Qed.
(** The loop over the wave list: every listed wave that runs is asked to
    stop, every listed wave in state STOP ends in [already_stopped]. *)
Lemma stop_waves_simulated ids : forall w sets l t,
  consistent w sets ->
  exists sets' t' ws',
    stop_waves (api s) sets ids {| Agent.world := w; lock := l; trace := t |}
    = (Ok sets',
       {| Agent.world := {| waves := ws'; pending := pending w |};
          lock := l; trace := t ++ t' |})
    /\ consistent {| waves := ws'; pending := pending w |} sets'
    /\ (forall id, ws' !! id
                   = if bool_decide (id ∈ ids)
                     then request_stop <$> waves w !! id
                     else waves w !! id)
    /\ already_stopped sets ⊆ already_stopped sets'
    /\ (forall id wv, id ∈ ids -> ws' !! id = Some wv -> halted wv = true ->
                      id ∈ already_stopped sets').
Proof.
  induction ids as [| id0 rest IH]; intros w sets l t Hc.
  - exists sets, [], (waves w). rewrite app_nil_r. destruct w as [ws pend].
    cbn. repeat split; try apply Hc; auto.
    intros id wv Hin. inversion Hin.
  - destruct (stop_wave_simulated w sets id0 l t Hc)
      as (sets1 & t1 & Hrun1 & Hc1 & Hmono1 & Hhalt1).
    destruct (IH _ sets1 l (t ++ t1) Hc1)
      as (sets' & t' & ws' & Hrun & Hc' & Hlook & Hmono & Hhalt).
    cbn [waves pending] in *.
    exists sets', (t1 ++ t'), ws'. rewrite app_assoc.
    assert (Hlook' : forall id,
               ws' !! id = if bool_decide (id ∈ id0 :: rest)
                           then request_stop <$> waves w !! id
                           else waves w !! id).
    { intros id. rewrite Hlook, lookup_alter.
      destruct (decide (id0 = id)) as [<- | Hne].
      - rewrite (bool_decide_eq_true_2 (id0 ∈ id0 :: rest))
          by apply list_elem_of_here.
        destruct (bool_decide (id0 ∈ rest)); [| reflexivity].
        destruct (waves w !! id0); simpl; [| reflexivity].
        rewrite request_stop_idempotent. reflexivity.
      - destruct (decide (id ∈ rest)) as [Hin | Hout].
        + rewrite !bool_decide_eq_true_2; auto using list_elem_of_further.
        + rewrite !bool_decide_eq_false_2; auto.
          intros Hin. apply elem_of_cons in Hin as [-> | Hin]; auto. }
    split; [| split; [exact Hc' | split; [exact Hlook' | split]]].
    + cbn [stop_waves]. unfold bind at 1. rewrite Hrun1. exact Hrun.
    + etransitivity; eassumption.
    + intros id wv Hin Hl Hh.
      destruct (decide (id ∈ rest)) as [Hrest | Hrest]; [eauto |].
      apply elem_of_cons in Hin as [-> | Hin]; [| contradiction].
      apply Hmono. rewrite Hlook' in Hl.
      rewrite bool_decide_eq_true_2 in Hl by apply list_elem_of_here.
      destruct (waves w !! id0) as [wv0 |] eqn:Hl0; [| discriminate].
      simpl in Hl. injection Hl as <-.
      apply (Hhalt1 wv0 eq_refl). apply request_stop_halted. exact Hh.
Qed.

Lemma turn_not_alive wv :
  alive (report wv) = false -> tick (report wv) = turn wv.
Proof. unfold turn. destruct wv; simpl; congruence. Qed.

Lemma turn_halted wv :
  halted (turn wv) = true -> alive (report wv) = true.
Proof. unfold turn. destruct wv as [| [] [] | | | [] | | |]; simpl; congruence. Qed.

Lemma turn_stepping wv : stepping wv = false -> stepping (turn wv) = false.
Proof. unfold turn. destruct wv as [| [] [] | | | [] | | |]; simpl; congruence. Qed.

Lemma turn_rank wv : (rank (turn wv) <= pred (rank wv))%nat.
Proof. unfold turn. destruct wv as [| [] [] | | | [] | | |]; simpl; lia. Qed.

Lemma rank_awaited wv : rank wv = 0%nat -> awaited wv = false.
Proof. destruct wv; simpl; try reflexivity; lia. Qed.

Lemma calm_turn w pend :
  calm cfg w -> calm cfg {| waves := turn <$> waves w; pending := pend |}.
Proof.
  intros [Hoff | Hnone]; [left; exact Hoff | right]. simpl.
  apply map_Forall_fmap. intros id wv Hl. simpl.
  apply turn_stepping. exact (Hnone id wv Hl).
Qed.

(** One turn of the outer loop on the simulated world. *)
Lemma stop_iteration_simulated fuel w sets l t :
  consistent w sets -> calm cfg w -> (length (pending w) < fuel)%nat ->
  exists sets' t',
    let w' := {| waves := turn <$> waves w;
                 pending := ids_where transitions (report <$> waves w) |} in
    stop_iteration (api s) cfg fuel sets
                   {| Agent.world := w; lock := l; trace := t |}
    = (Ok sets', {| Agent.world := w'; lock := l; trace := t ++ t' |})
    /\ consistent w' sets'
    /\ (forall id wv, waves w' !! id = Some wv -> halted wv = true ->
                      id ∈ already_stopped sets').
Proof.
  intros Hc Hcalm Hfuel.
  destruct (drain_events_simulated fuel w sets l t Hc Hcalm Hfuel)
    as (sets1 & t1 & Hrun1 & Hc1 & _).
  apply tick_consistent in Hc1.
  set (ws1 := report <$> waves w) in *.
  destruct (stop_waves_simulated (ids_where alive ws1)
              {| waves := tick <$> ws1;
                 pending := ids_where transitions ws1 |}
              sets1 l ((t ++ t1) ++ [call process_wave_list]) Hc1)
    as (sets' & t' & ws' & Hrun & Hc' & Hlook & _ & Hhalt).
  cbn [waves pending] in *.
  assert (Hws : ws' = turn <$> waves w).
  { apply map_eq. intros id. rewrite Hlook. unfold ws1.
    rewrite !lookup_fmap.
    destruct (waves w !! id) as [wv |] eqn:Hl; simpl.
    - case_bool_decide as Hin; [reflexivity |].
      f_equal. apply turn_not_alive.
      destruct (alive (report wv)) eqn:Ha; [| reflexivity].
      exfalso. apply Hin. apply elem_of_ids_where. exists (report wv).
      rewrite lookup_fmap, Hl. auto.
    - destruct (bool_decide _); reflexivity. }
  subst ws'.
  exists sets', (t1 ++ [call process_wave_list] ++ t'). cbn zeta.
  split; [| split].
  - unfold stop_iteration. unfold bind at 1. rewrite Hrun1.
    unfold bind, command_with. cbn -[stop_waves ids_where].
    fold ws1. rewrite Hrun. rewrite <- !app_assoc. reflexivity.
  - exact Hc'.
  - cbn [waves]. intros id wv Hl Hh. apply (Hhalt id wv); auto.
    apply elem_of_ids_where. rewrite lookup_fmap in Hl.
    destruct (waves w !! id) as [wv0 |] eqn:Hl0; [| discriminate].
    simpl in Hl. injection Hl as <-. exists (report wv0). unfold ws1.
    rewrite lookup_fmap, Hl0. split; [reflexivity |].
    apply turn_halted. exact Hh.
Qed.
Lemma rank_le_bound w id wv :
  waves w !! id = Some wv -> (rank wv <= bound w)%nat.
Proof.
  intros Hl. unfold bound. apply max_list_elem_of_le.
  apply list_elem_of_fmap. exists wv. split; [reflexivity |].
  apply list_elem_of_fmap. exists (id, wv). split; [reflexivity |].
  apply elem_of_map_to_list. exact Hl.
Qed.

Lemma quiescent_consistent w :
  quiescent w -> consistent w {| already_stopped := ∅; waiting_to_stop := ∅ |}.
Proof.
  intros [Hpend Hquiet]. split; simpl.
  - rewrite Hpend. constructor.
  - intros id. rewrite Hpend. split; [intros Hin; inversion Hin |].
    intros (wv & Hl & Hu). specialize (Hquiet id wv Hl). simpl in Hquiet.
    destruct wv; discriminate.
  - intros id. split; [intros Hin; set_solver |].
    intros (wv & Hl & Hu). specialize (Hquiet id wv Hl). simpl in Hquiet.
    destruct wv; discriminate.
  - intros id Hin. set_solver.
Qed.

Lemma entered_consistent w :
  entered w -> consistent w {| already_stopped := ∅; waiting_to_stop := ∅ |}.
Proof.
  intros (Hnodup & Hpend & Hunasked). split; simpl.
  - exact Hnodup.
  - intros id. rewrite Hpend. split.
    + intros Hl. exists own_stop_unreported. split; [exact Hl | reflexivity].
    + intros (wv & Hl & Hu). specialize (Hunasked id wv Hl).
      simpl in Hunasked. destruct wv; try discriminate. exact Hl.
  - intros id. split; [intros Hin; set_solver |].
    intros (wv & Hl & Ha). specialize (Hunasked id wv Hl). simpl in Hunasked.
    congruence.
  - intros id Hin. set_solver.
Qed.

Lemma quiescent_entered w : quiescent w -> entered w.
Proof.
  intros [Hpend Hquiet]. split; [| split].
  - rewrite Hpend. constructor.
  - intros id. rewrite Hpend. split; [intros Hin; inversion Hin |].
    intros Hl. specialize (Hquiet id _ Hl). discriminate.
  - intros id wv Hl. specialize (Hquiet id wv Hl). simpl in *.
    destruct wv; try discriminate; reflexivity.
Qed.

Lemma entered_pending w :
  entered w -> (length (pending w) <= size (waves w))%nat.
Proof.
  intros (Hnodup & Hpend & _).
  assert (Hsub : list_to_set (C := gset Z) (pending w) ⊆ dom (waves w)).
  { intros id Hin. apply elem_of_list_to_set, Hpend in Hin.
    apply elem_of_dom. eauto. }
  apply subseteq_size in Hsub.
  rewrite size_list_to_set, size_dom in Hsub by exact Hnodup. exact Hsub.
Qed.

(** The outer loop on the simulated world: when every rank is below the
    number of turns allowed, the loop is left with [waiting_to_stop] empty
    and [already_stopped] the waves in state STOP. *)
Lemma stop_loop_simulated iterations : forall T fuel w sets l t,
  consistent w sets -> calm cfg w ->
  map_Forall (fun _ wv => (rank wv <= T)%nat) (waves w) ->
  (T < iterations)%nat ->
  (length (pending w) <= size (waves w))%nat ->
  (size (waves w) < fuel)%nat ->
  exists sets' w' t',
    stop_loop (api s) cfg iterations fuel sets
              {| Agent.world := w; lock := l; trace := t |}
    = (Ok sets', {| Agent.world := w'; lock := l; trace := t ++ t' |})
    /\ waiting_to_stop sets' = ∅
    /\ consistent w' sets'
    /\ (forall id wv, waves w' !! id = Some wv -> halted wv = true ->
                      id ∈ already_stopped sets').
Proof.
  induction iterations as [| iterations IH];
    intros T fuel w sets l t Hc Hcalm Hrank HT Hpend Hfuel; [lia |].
  destruct (stop_iteration_simulated fuel w sets l t Hc Hcalm)
    as (sets1 & t1 & Hrun1 & Hc1 & Hhalt1); [lia |].
  cbn zeta in Hrun1.
  set (w1 := {| waves := turn <$> waves w;
                pending := ids_where transitions (report <$> waves w) |}) in *.
  cbn [stop_loop]. unfold bind at 1. rewrite Hrun1.
  case_bool_decide as Hsize.
  - exists sets1, w1, t1. split; [reflexivity |]. split; [| auto].
    apply leibniz_equiv. apply size_empty_iff. exact Hsize.
  - assert (Hrank1 : map_Forall (fun _ wv => (rank wv <= pred T)%nat)
                                (waves w1)).
    { unfold w1. cbn [waves]. apply map_Forall_fmap. intros id wv Hl. simpl.
      pose proof (turn_rank wv). specialize (Hrank id wv Hl). simpl in Hrank.
      lia. }
    destruct T as [| T'].
    { exfalso. apply Hsize. apply size_empty_iff, elem_of_equiv_empty.
      intros id Hin.
      apply (waiting_awaited _ _ Hc1) in Hin as (wv & Hl & Ha).
      specialize (Hrank1 id wv Hl). simpl in Hrank1.
      rewrite rank_awaited in Ha by lia. discriminate. }
    destruct (IH T' fuel w1 sets1 l (t ++ t1) Hc1)
      as (sets' & w' & t' & Hrun & Hempty & Hc' & Hhalt).
    + apply calm_turn. exact Hcalm.
    + exact Hrank1.
    + lia.
    + unfold w1. cbn [waves pending].
      etransitivity; [apply length_ids_where |].
      rewrite !map_size_fmap. reflexivity.
    + unfold w1. cbn [waves]. rewrite map_size_fmap. exact Hfuel.
    + exists sets', w', (t1 ++ t'). rewrite app_assoc. auto.
Qed.
End SimulationFacts.

Section StopFacts.
Import Agent.
Context {World : Type}.
Variable api : dbgapi World.
Variable cfg : configuration.

(** The outer loop is left normally only through the test of line 548. *)
Lemma stop_loop_exit iterations : forall fuel sets st sets' st',
  stop_loop api cfg iterations fuel sets st = (Ok sets', st') ->
  waiting_to_stop sets' = ∅.
Proof.
  induction iterations as [| iterations IH];
    intros fuel sets st sets' st' Hrun; [discriminate |].
  cbn [stop_loop] in Hrun. unfold bind at 1 in Hrun.
  destruct (stop_iteration api cfg fuel sets st) as [[sets1 | why |] st1];
    try discriminate.
  case_bool_decide as Hsize.
  - injection Hrun as <- <-. apply leibniz_equiv, size_empty_iff. exact Hsize.
  - eapply IH. exact Hrun.
Qed.

Lemma stop_wave_visit sets id st :
  id ∉ already_stopped sets -> id ∉ waiting_to_stop sets ->
  stop_wave api sets id st
  = match amd_dbgapi_wave_get_info_state api id (world st) with
    | (AMD_DBGAPI_STATUS_SUCCESS, AMD_DBGAPI_WAVE_STATE_STOP) =>
        (Ok {| already_stopped := already_stopped sets ∪ {[id]};
               waiting_to_stop := waiting_to_stop sets |},
         asked st [wave_get_info id] (world st))
    | (AMD_DBGAPI_STATUS_SUCCESS, AMD_DBGAPI_WAVE_STATE_SINGLE_STEP) =>
        (Ok sets, asked st [wave_get_info id] (world st))
    | (AMD_DBGAPI_STATUS_SUCCESS, AMD_DBGAPI_WAVE_STATE_RUN) =>
        let (status, w) := amd_dbgapi_wave_stop api id (world st) in
        (match status with
         | AMD_DBGAPI_STATUS_SUCCESS =>
             Ok {| already_stopped := already_stopped sets;
                   waiting_to_stop := waiting_to_stop sets ∪ {[id]} |}
         | AMD_DBGAPI_STATUS_ERROR_INVALID_WAVE_ID => Ok sets
         | _ => Abort agent_error
         end,
         asked st [wave_get_info id; wave_stop id] w)
    | (AMD_DBGAPI_STATUS_ERROR_INVALID_WAVE_ID, _) =>
        (Ok sets, asked st [wave_get_info id] (world st))
    | _ => (Abort agent_error, asked st [wave_get_info id] (world st))
    end.
Proof.
  intros HA HW. unfold stop_wave.
  rewrite (bool_decide_eq_false_2 _ HA), (bool_decide_eq_false_2 _ HW).
  unfold bind, query, command, ret, abort, asked. cbn.
  destruct (amd_dbgapi_wave_get_info_state api id (world st))
    as [[] []]; try reflexivity.
  cbn. destruct (amd_dbgapi_wave_stop api id (world st)) as [[] w]; cbn;
    rewrite <- app_assoc; reflexivity.
Qed.

Lemma asserts_or_agrees_refl {A} (m : M World A) : asserts_or_agrees m m.
Proof. intros st. left. reflexivity. Qed.

Lemma asserts_or_agrees_bind {A B} (m m' : M World A) (k k' : A -> M World B) :
  asserts_or_agrees m m' -> (forall a, asserts_or_agrees (k a) (k' a)) ->
  asserts_or_agrees (bind m k) (bind m' k').
Proof.
  intros Hm Hk st. unfold bind. destruct (Hm st) as [-> | [st' ->]].
  - destruct (m' st) as [[a | why |] st1]; [apply Hk | left; reflexivity ..].
  - right. eauto.
Qed.

Lemma asserts_or_agrees_assert enabled b :
  asserts_or_agrees (World := World) (agent_assert enabled b)
                    (agent_assert false b).
Proof.
  intros st. unfold agent_assert, abort.
  destruct (enabled && negb b); simpl; eauto.
Qed.

Ltac asserts_or_agrees_step :=
  first
    [ apply asserts_or_agrees_assert | assumption
    | apply asserts_or_agrees_bind; [| intros ?]
    | match goal with
      | |- asserts_or_agrees (match ?x with _ => _ end)
                             (match ?x with _ => _ end) => destruct x
      end
    | apply asserts_or_agrees_refl ].

(** The assertion of line 457 is all that a build with assertions adds to
    the loops of [stop_all_wavefronts]. *)
Lemma drain_events_release fuel : forall sets,
  asserts_or_agrees (drain_events api cfg fuel sets)
                    (drain_events api (release cfg) fuel sets).
Proof.
  induction fuel as [| fuel IH]; intros sets; cbn [drain_events];
    [apply asserts_or_agrees_refl |].
  cbn [release assertions].
  repeat (asserts_or_agrees_step; try apply IH).
Qed.

Lemma stop_iteration_release fuel sets :
  asserts_or_agrees (stop_iteration api cfg fuel sets)
                    (stop_iteration api (release cfg) fuel sets).
Proof.
  unfold stop_iteration. apply asserts_or_agrees_bind.
  - apply drain_events_release.
  - intros sets'. apply asserts_or_agrees_refl.
Qed.

Lemma stop_loop_release iterations fuel : forall sets,
  asserts_or_agrees (stop_loop api cfg iterations fuel sets)
                    (stop_loop api (release cfg) iterations fuel sets).
Proof.
  induction iterations as [| iterations IH]; intros sets; cbn [stop_loop];
    [apply asserts_or_agrees_refl |].
  apply asserts_or_agrees_bind; [apply stop_iteration_release |].
  intros sets'. destruct (bool_decide _);
    [apply asserts_or_agrees_refl | apply IH].
Qed.

End StopFacts.

(** On the simulated GPU [stop_all_wavefronts] always comes to an end: it
    returns with [waiting_to_stop] empty and [already_stopped] the waves in
    state STOP, or the assertion of line 457 stops the agent, which needs a
    build with assertions and a wave that stops without a request. *)
Lemma stop_all_wavefronts_simulated s cfg w iterations fuel :
  SimulatedGpu.entered w ->
  (SimulatedGpu.bound w < iterations)%nat ->
  (size (SimulatedGpu.waves w) < fuel)%nat ->
  exists r st',
    Agent.stop_all_wavefronts (SimulatedGpu.api s) cfg iterations fuel
                              (SimulatedGpu.initial w) = (r, st')
    /\ ((exists sets',
           r = Agent.Ok sets'
           /\ Agent.waiting_to_stop sets' = ∅
           /\ forall id,
               id ∈ Agent.already_stopped sets'
               <-> exists wv,
                     SimulatedGpu.waves (Agent.world st') !! id = Some wv
                     /\ SimulatedGpu.halted wv = true)
        \/ (r = Agent.Abort Agent.assertion_failure
            /\ ~ SimulatedGpu.calm cfg w)).
Proof.
  intros Hq HT Hfuel.
  assert (Hpend : (length (SimulatedGpu.pending w)
                   <= size (SimulatedGpu.waves w))%nat)
    by exact (entered_pending w Hq).
  assert (Hrank : map_Forall
                    (fun _ wv => (SimulatedGpu.rank wv
                                  <= SimulatedGpu.bound w)%nat)
                    (SimulatedGpu.waves w)).
  { intros id wv Hl. exact (rank_le_bound w id wv Hl). }
  assert (Hgood : forall cfg',
             SimulatedGpu.calm cfg' w ->
             exists sets' st',
               Agent.stop_all_wavefronts (SimulatedGpu.api s) cfg'
                 iterations fuel (SimulatedGpu.initial w)
               = (Agent.Ok sets', st')
               /\ Agent.waiting_to_stop sets' = ∅
               /\ forall id,
                   id ∈ Agent.already_stopped sets'
                   <-> exists wv,
                         SimulatedGpu.waves (Agent.world st') !! id = Some wv
                         /\ SimulatedGpu.halted wv = true).
  { intros cfg' Hcalm.
    destruct (stop_loop_simulated s cfg' iterations (SimulatedGpu.bound w)
                fuel w _ false [] (entered_consistent w Hq) Hcalm Hrank
                HT Hpend Hfuel)
      as (sets' & w' & t' & Hrun & Hempty & Hc & Hhalt).
    exists sets'. eexists. split; [exact Hrun |]. split; [exact Hempty |].
    intros id. simpl. split.
    - apply (SimulatedGpu.stopped_halted _ _ Hc).
    - intros (wv & Hl & Hh). eauto. }
  destruct (stop_loop_release (SimulatedGpu.api s) cfg iterations fuel
              {| Agent.already_stopped := ∅; Agent.waiting_to_stop := ∅ |}
              (SimulatedGpu.initial w)) as [Hsame | [st' Habort]].
  - destruct (Hgood (Agent.release cfg)) as (sets' & st' & Hrun & Hrest).
    { left. reflexivity. }
    exists (Agent.Ok sets'), st'. split.
    + unfold Agent.stop_all_wavefronts in *. rewrite Hsame. exact Hrun.
    + left. eauto.
  - exists (Agent.Abort Agent.assertion_failure), st'.
    split; [exact Habort |]. right. split; [reflexivity |].
    intros Hcalm. destruct (Hgood cfg Hcalm) as (sets' & st'' & Hrun & _).
    unfold Agent.stop_all_wavefronts in Hrun. congruence.
Qed.

(** C2. [stop_all_wavefronts]: what the visit of a wave of the list does,
    by the state the library reports for it; that the loop is left only
    with [waiting_to_stop] empty; and that the function comes to an end in
    an environment where every wave asked to stop stops or terminates
    after finitely many polls and every such transition is delivered as an
    event.  The function then returns with every wave in state STOP in
    [already_stopped], unless the event loop fetches the WAVE_STOP event of
    a wave that was not asked to stop (it has stopped on an exception, and
    its event was queued when the function was entered, or it has finished
    a single step): that wave is not in [waiting_to_stop], and the
    assertion of line 457, when compiled in, stops the agent. *)
Theorem stop_all_wavefronts_converges :
  (* a wave already in one of the sets is passed over *)
  (forall World (api : Agent.dbgapi World) sets id st,
      id ∈ Agent.already_stopped sets \/ id ∈ Agent.waiting_to_stop sets ->
      Agent.stop_wave api sets id st = (Agent.Ok sets, st))
  (* any other wave is handled by its state *)
  /\ (forall World (api : Agent.dbgapi World) sets id st status state,
         id ∉ Agent.already_stopped sets ->
         id ∉ Agent.waiting_to_stop sets ->
         Agent.amd_dbgapi_wave_get_info_state api id (Agent.world st)
         = (status, state) ->
         let seen := Agent.asked st [Agent.wave_get_info id]
                                 (Agent.world st) in
         (status = Agent.AMD_DBGAPI_STATUS_SUCCESS ->
          state = Agent.AMD_DBGAPI_WAVE_STATE_STOP ->
          Agent.stop_wave api sets id st
          = (Agent.Ok
               {| Agent.already_stopped :=
                    Agent.already_stopped sets ∪ {[id]};
                  Agent.waiting_to_stop := Agent.waiting_to_stop sets |},
             seen))
         /\ (status = Agent.AMD_DBGAPI_STATUS_SUCCESS ->
             state = Agent.AMD_DBGAPI_WAVE_STATE_SINGLE_STEP ->
             Agent.stop_wave api sets id st = (Agent.Ok sets, seen))
         /\ (status = Agent.AMD_DBGAPI_STATUS_ERROR_INVALID_WAVE_ID ->
             Agent.stop_wave api sets id st = (Agent.Ok sets, seen))
         /\ (status = Agent.AMD_DBGAPI_STATUS_SUCCESS ->
             state = Agent.AMD_DBGAPI_WAVE_STATE_RUN ->
             forall answer w,
               Agent.amd_dbgapi_wave_stop api id (Agent.world st)
               = (answer, w) ->
               let requested :=
                 Agent.asked st [Agent.wave_get_info id; Agent.wave_stop id]
                             w in
               (answer = Agent.AMD_DBGAPI_STATUS_SUCCESS ->
                Agent.stop_wave api sets id st
                = (Agent.Ok
                     {| Agent.already_stopped := Agent.already_stopped sets;
                        Agent.waiting_to_stop :=
                          Agent.waiting_to_stop sets ∪ {[id]} |},
                   requested))
               /\ (answer = Agent.AMD_DBGAPI_STATUS_ERROR_INVALID_WAVE_ID ->
                   Agent.stop_wave api sets id st
                   = (Agent.Ok sets, requested))
               /\ (answer <> Agent.AMD_DBGAPI_STATUS_SUCCESS ->
                   answer <> Agent.AMD_DBGAPI_STATUS_ERROR_INVALID_WAVE_ID ->
                   Agent.stop_wave api sets id st
                   = (Agent.Abort Agent.agent_error, requested))))
  (* the loop is left only with [waiting_to_stop] empty *)
  /\ (forall World (api : Agent.dbgapi World) cfg iterations fuel
             sets st sets' st',
         Agent.stop_loop api cfg iterations fuel sets st
         = (Agent.Ok sets', st') ->
         Agent.waiting_to_stop sets' = ∅)
  (* the function comes to an end on the simulated GPU *)
  /\ (forall s cfg w iterations fuel,
         SimulatedGpu.entered w ->
         (SimulatedGpu.bound w < iterations)%nat ->
         (size (SimulatedGpu.waves w) < fuel)%nat ->
         exists r st',
           Agent.stop_all_wavefronts (SimulatedGpu.api s) cfg iterations fuel
                                     (SimulatedGpu.initial w) = (r, st')
           /\ ((exists sets',
                  r = Agent.Ok sets'
                  /\ Agent.waiting_to_stop sets' = ∅
                  /\ forall id,
                      id ∈ Agent.already_stopped sets'
                      <-> exists wv,
                            SimulatedGpu.waves (Agent.world st') !! id
                            = Some wv
                            /\ SimulatedGpu.halted wv = true)
               \/ (r = Agent.Abort Agent.assertion_failure
                   /\ ~ SimulatedGpu.calm cfg w)))
  (* W1 runs, W2 single-steps for longer than the loop lasts, W3 is stopped *)
  /\ (exists sets' st',
         Agent.stop_all_wavefronts
           (SimulatedGpu.api Examples.snapshot) (Examples.configuration true)
           6 4 (SimulatedGpu.initial (Examples.three_waves 5))
         = (Agent.Ok sets', st')
         /\ Agent.already_stopped sets' = {[1; 3]}
         /\ Agent.waiting_to_stop sets' = ∅
         /\ Agent.stop_requests (Agent.trace st') = [1]
         /\ SimulatedGpu.waves (Agent.world st') !! 2
            = Some (SimulatedGpu.single_stepping 0))
  (* W3 has stopped on an exception and its event is still queued *)
  /\ (exists st',
         Agent.stop_all_wavefronts
           (SimulatedGpu.api Examples.snapshot) (Examples.configuration true)
           6 4 (SimulatedGpu.initial Examples.faulted_wave)
         = (Agent.Abort Agent.assertion_failure, st')
         /\ Agent.stop_requests (Agent.trace st') = [])
  /\ (exists sets' st',
         Agent.stop_all_wavefronts
           (SimulatedGpu.api Examples.snapshot) (Examples.configuration false)
           6 4 (SimulatedGpu.initial Examples.faulted_wave)
         = (Agent.Ok sets', st')
         /\ Agent.already_stopped sets' = {[1; 3]}
         /\ Agent.waiting_to_stop sets' = ∅
         /\ Agent.stop_requests (Agent.trace st') = [1])
  (* W2 finishes its step while W1 is stopping *)
  /\ (exists st',
         Agent.stop_all_wavefronts
           (SimulatedGpu.api Examples.snapshot) (Examples.configuration true)
           6 4 (SimulatedGpu.initial (Examples.three_waves 1))
         = (Agent.Abort Agent.assertion_failure, st')
         /\ Agent.stop_requests (Agent.trace st') = [1])
  /\ (exists sets' st',
         Agent.stop_all_wavefronts
           (SimulatedGpu.api Examples.snapshot) (Examples.configuration false)
           6 4 (SimulatedGpu.initial (Examples.three_waves 1))
         = (Agent.Ok sets', st')
         /\ Agent.already_stopped sets' = {[1; 2; 3]}
         /\ Agent.waiting_to_stop sets' = ∅
         /\ Agent.stop_requests (Agent.trace st') = [1]).
Proof.
  split; [| split; [| split; [| split; [| split; [| split; [| split;
    [| split]]]]]]].
  - intros World api sets id st Hin. unfold Agent.stop_wave.
    destruct (decide (id ∈ Agent.already_stopped sets)) as [HA | HA].
    + rewrite (bool_decide_eq_true_2 _ HA). reflexivity.
    + destruct Hin as [Hin | Hin]; [contradiction |].
      rewrite (bool_decide_eq_false_2 _ HA), (bool_decide_eq_true_2 _ Hin).
      reflexivity.
  - intros World api sets id st status state HA HW Hstate. cbn zeta.
    rewrite (stop_wave_visit api sets id st HA HW), Hstate.
    split; [| split; [| split]].
    + intros -> ->. reflexivity.
    + intros -> ->. reflexivity.
    + intros ->. reflexivity.
    + intros -> -> answer w Hstop. cbn zeta. rewrite Hstop.
      split; [| split]; [intros ->; reflexivity .. |].
      intros Hne1 Hne2. destruct answer; try reflexivity; contradiction.
  - intros World api cfg iterations fuel sets st sets' st'.
    apply stop_loop_exit.
  - intros s cfg w iterations fuel.
    apply stop_all_wavefronts_simulated.
  - eexists _, _. split; [vm_compute; reflexivity |].
    repeat split; vm_compute; reflexivity.
  - eexists. split; [vm_compute; reflexivity |]. vm_compute; reflexivity.
  - eexists _, _. split; [vm_compute; reflexivity |].
    repeat split; vm_compute; reflexivity.
  - eexists. split; [vm_compute; reflexivity |]. vm_compute; reflexivity.
  - eexists _, _. split; [vm_compute; reflexivity |].
    repeat split; vm_compute; reflexivity.
Qed.

Lemma stop_all_wavefronts_converges_witness :
  exists r st',
    Agent.stop_all_wavefronts
      (SimulatedGpu.api Examples.snapshot) (Examples.configuration true)
      6 4 (SimulatedGpu.initial Examples.faulted_wave) = (r, st')
    /\ ((exists sets',
           r = Agent.Ok sets'
           /\ Agent.waiting_to_stop sets' = ∅
           /\ forall id,
               id ∈ Agent.already_stopped sets'
               <-> exists wv,
                     SimulatedGpu.waves (Agent.world st') !! id = Some wv
                     /\ SimulatedGpu.halted wv = true)
        \/ (r = Agent.Abort Agent.assertion_failure
            /\ ~ SimulatedGpu.calm (Examples.configuration true)
                                   Examples.faulted_wave)).
Proof.
  apply (proj1 (proj2 (proj2 (proj2 stop_all_wavefronts_converges)))).
  - split; [repeat constructor; set_solver |]. split.
    + intros id. unfold Examples.faulted_wave. cbn.
      destruct (decide (id = 3)) as [-> | Hne3].
      * split; [reflexivity | intros _; apply list_elem_of_here].
      * split; [intros Hin; apply list_elem_of_singleton in Hin; lia |].
        destruct (decide (id = 1)) as [-> | Hne1].
        -- rewrite lookup_insert_eq. discriminate.
        -- rewrite !lookup_insert_ne by congruence. discriminate.
    + apply (bool_decide_unpack _). vm_compute. exact I.
  - vm_compute. lia.
  - vm_compute. lia.
Defined.

(** ** Values and names in the report *)

Section ReportFacts.
Import Report.

Lemma hex_string_from_spec pos : forall value value_string,
  (pos <= length value)%nat ->
  hex_string_from pos value value_string
  = value_string ++ flat_map hex_byte (rev (take pos value)).
Proof.
  induction pos as [| pos IH]; intros value value_string Hpos.
  - rewrite take_0. simpl. rewrite app_nil_r. reflexivity.
  - destruct (lookup_lt_is_Some_2 value pos) as [b Hb]; [lia |].
    cbn [hex_string_from]. rewrite IH by lia.
    rewrite (take_S_r _ _ _ Hb), rev_app_distr. simpl.
    rewrite nth_lookup, Hb. simpl. rewrite <- app_assoc. reflexivity.
Qed.

Lemma hex_string_bytes value :
  hex_string value = flat_map hex_byte (rev value).
Proof.
  unfold hex_string. rewrite hex_string_from_spec by lia.
  rewrite firstn_all. reflexivity.
Qed.

Lemma hex_step_byte a b :
  fold_left hex_step (hex_byte b) (Some a) = Some (256 * a + byte_value b).
Proof.
  assert (H : exists hi lo,
             StdString.xdigit (hex_digit (Z.shiftr (byte_value b) 4)) = Some hi
             /\ StdString.xdigit (hex_digit (Z.land (byte_value b) 15)) = Some lo
             /\ byte_value b = 16 * Z.of_nat hi + Z.of_nat lo).
  { destruct b; vm_compute; eauto. }
  destruct H as (hi & lo & Hhi & Hlo & Hb).
  simpl. unfold hex_step. rewrite Hhi, Hlo, Hb. f_equal. lia.
Qed.

(** X1. [hex_string] writes two lower-case hexadecimal digits per byte,
    the last byte first: read as a hexadecimal number the string is the
    value the bytes hold, least significant byte first. *)
Theorem hex_string_reads_back (value : list byte) :
  length (Report.hex_string value) = (2 * length value)%nat
  /\ Report.hex_value (Report.hex_string value)
     = Some (Report.little_endian value)
  /\ forall more,
      Report.hex_string (value ++ more)
      = Report.hex_string more ++ Report.hex_string value.
Proof.
  rewrite hex_string_bytes. split; [| split].
  - rewrite <- (length_rev value). induction (rev value) as [| b l IH];
      [reflexivity |].
    simpl. rewrite IH. lia.
  - unfold hex_value. induction value as [| b rest IH]; [reflexivity |].
    simpl. rewrite flat_map_app, fold_left_app, IH.
    change (flat_map hex_byte [b]) with (hex_byte b).
    rewrite hex_step_byte. f_equal. lia.
  - intros more. rewrite !hex_string_bytes, rev_app_distr, flat_map_app.
    reflexivity.
Qed.
End ReportFacts.

(** ** The name of the saved code object *)

Section SaveFacts.
Import Save.

Lemma is_separator_underscore : is_separator "_" = false.
Proof. reflexivity. Qed.

Lemma first_of_None name :
  StdString.first_of separators name = None -> underscored name = name.
Proof.
  induction name as [| c rest IH]; [reflexivity |].
  cbn [StdString.first_of]. fold (is_separator c).
  destruct (is_separator c) eqn:Hc; [discriminate |].
  destruct (StdString.first_of separators rest); [discriminate |].
  intros _. unfold underscored in *. cbn [fmap list_fmap].
  rewrite Hc. f_equal. apply IH. reflexivity.
Qed.

Lemma first_of_Some name : forall pos,
  StdString.first_of separators name = Some pos ->
  underscored (<[pos := "_"%char]> name) = underscored name
  /\ S (separator_count (<[pos := "_"%char]> name)) = separator_count name.
Proof.
  induction name as [| c rest IH]; intros pos; [discriminate |].
  cbn [StdString.first_of]. fold (is_separator c).
  destruct (is_separator c) eqn:Hc.
  - intros [= <-]. unfold underscored, separator_count.
    cbn [insert list_insert fmap list_fmap].
    rewrite Hc, is_separator_underscore. rewrite !filter_cons.
    rewrite Hc, is_separator_underscore.
    split; [reflexivity |].
    rewrite decide_False by discriminate. rewrite decide_True by reflexivity.
    reflexivity.
  - destruct (StdString.first_of separators rest) as [i |] eqn:Hrest;
      [| discriminate].
    intros [= <-]. destruct (IH i eq_refl) as [Hu Hn].
    unfold underscored, separator_count in *.
    cbn [insert list_insert fmap list_fmap].
    rewrite Hc. rewrite !filter_cons, Hc.
    rewrite decide_False by discriminate. split; [f_equal; exact Hu | exact Hn].
Qed.

Lemma file_name_underscored fuel : forall name,
  (separator_count name < fuel)%nat ->
  file_name fuel name = Some (underscored name).
Proof.
  induction fuel as [| fuel IH]; intros name Hfuel; [lia |].
  cbn [file_name].
  destruct (StdString.first_of separators name) as [pos |] eqn:Hfirst.
  - destruct (first_of_Some name pos Hfirst) as [Hu Hn].
    rewrite IH by lia. rewrite Hu. reflexivity.
  - rewrite first_of_None by exact Hfirst. reflexivity.
Qed.

(** X2. The file a code object is saved to: the loop that replaces the
    separators comes to an end, and the name is the URI with every one of
    [: / # ? & =] replaced by an underscore and every other character
    kept, so that the file lies directly in the directory. *)
Theorem save_file_name_is_flat (directory uri : list ascii) (fuel : nat) :
  (length uri < fuel)%nat ->
  Save.file_path fuel directory uri
  = Some (directory ++ "/"%char :: Save.underscored uri)
  /\ length (Save.underscored uri) = length uri
  /\ (forall i c, Save.underscored uri !! i = Some c ->
                  Save.is_separator c = false
                  /\ (uri !! i = Some c
                      \/ c = "_"%char
                         /\ exists c', uri !! i = Some c'
                                       /\ Save.is_separator c' = true)).
Proof.
  intros Hfuel. split; [| split].
  - unfold file_path. rewrite file_name_underscored; [reflexivity |].
    unfold separator_count.
    pose proof (length_filter (fun c => is_separator c = true) uri). lia.
  - unfold underscored. apply length_fmap.
  - intros i c. unfold underscored. rewrite list_lookup_fmap.
    destruct (uri !! i) as [c' |]; [| discriminate]. simpl.
    destruct (is_separator c') eqn:Hc'; intros [= <-].
    + split; [reflexivity |]. right. eauto.
    + split; [exact Hc' |]. left. reflexivity.
Qed.

Lemma save_file_name_is_flat_witness :
  Save.file_path 22 (list_ascii_of_string "/tmp/dump")
                 (list_ascii_of_string "file:///a/k.co#size=8")
  = Some (list_ascii_of_string "/tmp/dump/file____a_k.co_size_8").
Proof.
  refine (proj1 (save_file_name_is_flat _ _ 22 _)). vm_compute. lia.
Defined.
End SaveFacts.

(** ** Strings as lists of characters *)

Lemma length_list_ascii_of_string s :
  length (list_ascii_of_string s) = String.length s.
Proof. induction s as [| c s IH]; simpl; congruence. Qed.

Lemma list_ascii_of_string_app s1 s2 :
  list_ascii_of_string (s1 +:+ s2)
  = list_ascii_of_string s1 ++ list_ascii_of_string s2.
Proof.
  induction s1 as [| c s1 IH]; [reflexivity |]. simpl. f_equal. exact IH.
Qed.

Lemma list_ascii_of_substring s : forall n m,
  list_ascii_of_string (String.substring n m s)
  = take m (drop n (list_ascii_of_string s)).
Proof.
  induction s as [| c s IH]; intros n m.
  - destruct n, m; reflexivity.
  - destruct n as [| n]; simpl.
    + destruct m as [| m]; simpl; [reflexivity |]. rewrite IH. reflexivity.
    + apply IH.
Qed.

Lemma length_substring s n m :
  String.length (String.substring n m s)
  = (m `min` (String.length s - n))%nat.
Proof.
  rewrite <- !length_list_ascii_of_string, list_ascii_of_substring.
  rewrite length_take, length_drop. reflexivity.
Qed.

Lemma length_string_app s1 s2 :
  String.length (s1 +:+ s2) = (String.length s1 + String.length s2)%nat.
Proof.
  rewrite <- !length_list_ascii_of_string, list_ascii_of_string_app.
  apply length_app.
Qed.

(** ** The name given to [memfd_create] *)

Section MemfdFacts.
Import Memfd.

(** X3. The name handed to [memfd_create] never exceeds [NAME_MAX - 6]
    characters: a URI that fits is passed as it is; a longer one is cut to
    its first 7 characters, the mark [[...]] and its last [NAME_MAX - 19]
    characters, unless the assertion that it starts with [file://] fails.
    No [substr] throws. *)
Theorem memfd_name_fits (NAME_MAX : Z) (assertions : bool) (uri : string) :
  19 <= NAME_MAX < 2 ^ 31 ->
  StdString.size uri < 2 ^ 64 ->
  match Memfd.memfd_name NAME_MAX assertions uri with
  | Memfd.name_is name =>
      StdString.size name <= NAME_MAX - 6
      /\ (StdString.size uri <= NAME_MAX - 6 -> name = uri)
      /\ (NAME_MAX - 6 < StdString.size uri ->
          StdString.size name = NAME_MAX - 7
          /\ name = String.substring 0 7 uri +:+ "[...]"
                    +:+ String.substring
                          (String.length uri - Z.to_nat (NAME_MAX - 19))
                          (Z.to_nat (NAME_MAX - 19)) uri)
  | Memfd.assertion_fails =>
      assertions = true /\ NAME_MAX - 6 < StdString.size uri
      /\ String.substring 0 7 uri <> "file://"%string
  | Memfd.throws => False
  end.
Proof.
  intros HN Hsize. unfold memfd_name, StdString.substr, StdString.size in *.
  set (len := Z.of_nat (String.length uri)) in *.
  assert (Hlen : 0 <= len) by (unfold len; lia).
  unfold wrap64.
  rewrite (Z.mod_small (NAME_MAX - 6)) by lia.
  rewrite (Z.mod_small (NAME_MAX - 6 - 8 - 5)) by lia.
  destruct (NAME_MAX - 6 <? len) eqn:Hlong.
  2:{ apply Z.ltb_ge in Hlong. split; [lia |]. split; [reflexivity | lia]. }
  apply Z.ltb_lt in Hlong.
  rewrite (Z.mod_small (len - _)) by lia.
  replace (len <? 0) with false by (symmetry; apply Z.ltb_ge; lia).
  replace (len <? len - (NAME_MAX - 6 - 8 - 5)) with false
    by (symmetry; apply Z.ltb_ge; lia).
  replace (Z.to_nat 0) with 0%nat by reflexivity.
  replace (Z.to_nat (7 `min` (len - 0))) with 7%nat by lia.
  replace (Z.to_nat (len - (NAME_MAX - 6 - 8 - 5)))
    with (String.length uri - Z.to_nat (NAME_MAX - 19))%nat by lia.
  replace (Z.to_nat (len `min` (len - (len - (NAME_MAX - 6 - 8 - 5)))))
    with (Z.to_nat (NAME_MAX - 19)) by lia.
  destruct (assertions
            && negb (String.eqb (String.substring 0 7 uri) "file://"))
    eqn:Hassert.
  - apply andb_true_iff in Hassert as [-> Hne]. split; [reflexivity |].
    split; [lia |]. apply negb_true_iff, String.eqb_neq in Hne. exact Hne.
  - assert (Hname :
              Z.of_nat (String.length
                          (String.substring 0 7 uri +:+ "[...]"
                           +:+ String.substring
                                 (String.length uri
                                  - Z.to_nat (NAME_MAX - 19))
                                 (Z.to_nat (NAME_MAX - 19)) uri))
              = NAME_MAX - 7).
    { rewrite !length_string_app, !length_substring. simpl String.length.
      lia. }
    split; [lia |]. split; [lia |]. intros _. split; [exact Hname |].
    reflexivity.
Qed.

Lemma memfd_name_fits_witness :
  Memfd.memfd_name 255 true MoreExamples.long_uri
  = Memfd.name_is
      ("file://[...]" +:+ string_of_list_ascii (repeat "d"%char 212)
       +:+ "/k.co#offset=4096&size=8")
  /\ match Memfd.memfd_name 255 true MoreExamples.long_uri with
     | Memfd.name_is name =>
         StdString.size name <= 255 - 6
         /\ (StdString.size MoreExamples.long_uri <= 255 - 6 ->
             name = MoreExamples.long_uri)
         /\ (255 - 6 < StdString.size MoreExamples.long_uri ->
             StdString.size name = 255 - 7
             /\ name = String.substring 0 7 MoreExamples.long_uri +:+ "[...]"
                       +:+ String.substring
                             (String.length MoreExamples.long_uri
                              - Z.to_nat (255 - 19))
                             (Z.to_nat (255 - 19)) MoreExamples.long_uri)
     | Memfd.assertion_fails =>
         true = true /\ 255 - 6 < StdString.size MoreExamples.long_uri
         /\ String.substring 0 7 MoreExamples.long_uri <> "file://"%string
     | Memfd.throws => False
     end.
Proof.
  split; [vm_compute; reflexivity |].
  apply (memfd_name_fits 255 true MoreExamples.long_uri);
    [lia | vm_compute; reflexivity].
Defined.
End MemfdFacts.

(** ** The breakpoint callbacks *)

(** X4. The agent keeps one breakpoint: an insertion at [r_brk] always
    succeeds and replaces what was kept, an insertion elsewhere fails and
    changes nothing; after any requests, a removal succeeds exactly for the
    identifier kept, then nothing is kept and a second removal fails. *)
Theorem remove_breakpoint_only_latest
        (r_brk : Z) (requests : list Breakpoint.request)
        (st : Breakpoint.state) (address id id' : Z) :
  let st1 := fold_left (Breakpoint.serve r_brk) requests st in
  let st2 := (Breakpoint.insert_breakpoint r_brk address id st1).2 in
  (Breakpoint.insert_breakpoint r_brk address id st1).1
  = (if address =? r_brk then Agent.AMD_DBGAPI_STATUS_SUCCESS
     else Agent.AMD_DBGAPI_STATUS_ERROR)
  /\ (address <> r_brk -> st2 = st1)
  /\ (address = r_brk ->
      ((Breakpoint.remove_breakpoint id' st2).1
       = Agent.AMD_DBGAPI_STATUS_SUCCESS <-> id' = id)
      /\ (Breakpoint.remove_breakpoint id st2
          = (Agent.AMD_DBGAPI_STATUS_SUCCESS, None))
      /\ (Breakpoint.remove_breakpoint id'
            (Breakpoint.remove_breakpoint id st2).2).1
         = Agent.AMD_DBGAPI_STATUS_ERROR).
Proof.
  cbn zeta. unfold Breakpoint.insert_breakpoint.
  destruct (address =? r_brk) eqn:Haddr.
  - apply Z.eqb_eq in Haddr. split; [reflexivity |].
    split; [intros Hne; contradiction |]. intros _. simpl.
    rewrite Z.eqb_refl. simpl. split; [| split; reflexivity].
    destruct (id' =? id) eqn:Hid; simpl.
    + apply Z.eqb_eq in Hid. tauto.
    + apply Z.eqb_neq in Hid. split; [discriminate | contradiction].
  - apply Z.eqb_neq in Haddr. split; [reflexivity |].
    split; [reflexivity | contradiction].
Qed.

(** ** The URI of a code object *)

Section UriFacts.
Import CodeObject.

Lemma percent_decode_escaped c rest :
  percent_decode (Escape.escaped c ++ rest) = c :: percent_decode rest.
Proof.
  destruct c as [[] [] [] [] [] [] [] []]; reflexivity.
Qed.

Lemma percent_decode_length_le n : forall path,
  (length path <= n)%nat ->
  (length (percent_decode path) <= length path)%nat.
Proof.
  induction n as [| n IH]; intros path Hn.
  - destruct path; [simpl; lia | simpl in Hn; lia].
  - destruct path as [| c tl]; [simpl; lia |].
    simpl in Hn. cbn [percent_decode].
    assert (Htl : (length (percent_decode tl) <= length tl)%nat)
      by (apply IH; lia).
    destruct (Ascii.eqb c "%"); [| simpl; lia].
    destruct tl as [| a [| b rest]]; try (simpl in *; lia).
    destruct (StdString.xdigit a), (StdString.xdigit b);
      try (simpl in *; lia).
    assert (Hrest : (length (percent_decode rest) <= length rest)%nat)
      by (apply IH; simpl in Hn; lia).
    simpl. lia.
Qed.

(** X5. The %-decoding of the path never lengthens it, leaves a path
    without a percent sign as it is, and turns the escape of every
    character back into that character. *)
Theorem percent_decode_round_trip :
  (forall path,
      (length (CodeObject.percent_decode path) <= length path)%nat)
  /\ (forall path,
         Forall (fun c => c <> "%"%char) path ->
         CodeObject.percent_decode path = path)
  /\ (forall s,
         CodeObject.percent_decode (flat_map Escape.escaped s) = s).
Proof.
  split; [| split].
  - intros path. apply (percent_decode_length_le (length path)). lia.
  - intros path Hpath. induction Hpath as [| c tl Hc _ IH]; [reflexivity |].
    cbn [percent_decode].
    destruct (Ascii.eqb_spec c "%"); [contradiction |]. rewrite IH.
    reflexivity.
  - intros s. induction s as [| c s IH]; [reflexivity |].
    cbn [flat_map]. rewrite percent_decode_escaped, IH. reflexivity.
Qed.

Section WithEnvironment.
Variable env : environment.

Lemma scan_phdrs_grows phdrs : forall mem_size,
  mem_size <= (scan_phdrs env phdrs mem_size).2.
Proof.
  induction phdrs as [| [phdr |] rest IH]; intros mem_size; simpl;
    [lia | | lia].
  etransitivity; [| apply IH]. destruct (p_type phdr =? PT_LOAD env); lia.
Qed.

Lemma scan_phdrs_attained phdrs : forall mem_size,
  (scan_phdrs env phdrs mem_size).2 = mem_size
  \/ exists phdr,
      Some phdr ∈ phdrs /\ p_type phdr = PT_LOAD env
      /\ (scan_phdrs env phdrs mem_size).2
         = wrap64 (p_vaddr phdr + p_memsz phdr).
Proof.
  induction phdrs as [| [phdr |] rest IH]; intros mem_size; simpl;
    [left; reflexivity | | left; reflexivity].
  destruct (IH (if p_type phdr =? PT_LOAD env
                then mem_size `max` wrap64 (p_vaddr phdr + p_memsz phdr)
                else mem_size)) as [Heq | (phdr' & Hin & Hty & Heq)].
  - rewrite Heq. destruct (p_type phdr =? PT_LOAD env) eqn:Hty;
      [| left; reflexivity].
    destruct (Z.max_spec mem_size (wrap64 (p_vaddr phdr + p_memsz phdr)))
      as [[_ ->] | [_ ->]]; [| left; reflexivity].
    right. exists phdr. apply Z.eqb_eq in Hty.
    split; [apply list_elem_of_here | auto].
  - right. exists phdr'. split; [apply list_elem_of_further, Hin | auto].
Qed.

Lemma scan_phdrs_covers phdrs : forall mem_size r,
  (scan_phdrs env phdrs mem_size).1 = Some r ->
  forall phdr, Some phdr ∈ phdrs -> p_type phdr = PT_LOAD env ->
               wrap64 (p_vaddr phdr + p_memsz phdr)
               <= (scan_phdrs env phdrs mem_size).2.
Proof.
  induction phdrs as [| [phdr |] rest IH]; intros mem_size r Hr phdr' Hin Hty.
  - inversion Hin.
  - simpl in *. apply elem_of_cons in Hin as [[= ->] | Hin].
    + rewrite Hty, Z.eqb_refl.
      etransitivity; [| apply scan_phdrs_grows]. lia.
    + eapply IH; eauto.
  - discriminate.
Qed.
End WithEnvironment.

(** X6. The size of a code object in memory: scanning the program headers
    never lowers [m_mem_size]; the result is the old value or the end of a
    PT_LOAD segment; and when every header could be read it is at least
    the end of every PT_LOAD segment. *)
Theorem scan_phdrs_is_largest_segment_end
        (env : CodeObject.environment)
        (phdrs : list (option CodeObject.GElf_Phdr)) (mem_size : Z) :
  let result := CodeObject.scan_phdrs env phdrs mem_size in
  mem_size <= result.2
  /\ (result.2 = mem_size
      \/ exists phdr,
          Some phdr ∈ phdrs
          /\ CodeObject.p_type phdr = CodeObject.PT_LOAD env
          /\ result.2 = wrap64 (CodeObject.p_vaddr phdr
                                + CodeObject.p_memsz phdr))
  /\ (Forall is_Some phdrs ->
      result.1 = Some result.2
      /\ forall phdr,
          Some phdr ∈ phdrs ->
          CodeObject.p_type phdr = CodeObject.PT_LOAD env ->
          wrap64 (CodeObject.p_vaddr phdr + CodeObject.p_memsz phdr)
          <= result.2)
  /\ (~ Forall is_Some phdrs -> result.1 = None).
Proof.
  cbn zeta. split; [apply scan_phdrs_grows |].
  split; [apply scan_phdrs_attained |]. split.
  - intros Hall.
    assert (H1 : (scan_phdrs env phdrs mem_size).1
                 = Some (scan_phdrs env phdrs mem_size).2).
    { clear -Hall. revert mem_size.
      induction Hall as [| [phdr |] rest Hsome _ IH]; intros mem_size;
        [reflexivity | apply IH |].
      destruct Hsome as [? [=]]. }
    split; [exact H1 |]. intros phdr Hin Hty.
    eapply scan_phdrs_covers; eauto.
  - intros Hnot. revert mem_size.
    induction phdrs as [| [phdr |] rest IH]; intros mem_size.
    + destruct Hnot. constructor.
    + simpl. apply IH. intros Hrest. apply Hnot. constructor; eauto.
    + reflexivity.
Qed.
End UriFacts.

Section OpenInvariants.
Import CodeObject.
Variable env : environment.

Lemma fetch_buffer_no_warning uri u buffer effects :
  fetch env uri u = (fetch_buffer buffer, effects) ->
  Forall (fun e => Escape.is_warning e = false) effects.
Proof.
  unfold fetch. intros H.
  repeat case_match; simplify_eq; repeat constructor.
Qed.

Lemma materialize_spec co buffer :
  match materialize env co buffer with
  | (returned co', effects) =>
      m_load_address co' = m_load_address co
      /\ m_uri co' = m_uri co
      /\ m_mem_size co <= m_mem_size co'
      /\ (m_fd co' = m_fd co
          \/ exists name fd,
              m_fd co' = Some fd
              /\ temporary_file_name env (m_uri co) = Memfd.name_is name
              /\ create_temporary_file env name = Some fd
              /\ write_result env fd buffer = Z.of_nat (length buffer)
              /\ effects = [temporary_file_written fd buffer])
  | _ => True
  end.
Proof.
  unfold materialize.
  destruct (temporary_file_name env (m_uri co)) as [name | |] eqn:Hname;
    [| exact I ..].
  destruct (create_temporary_file env name) as [fd |] eqn:Hcreate;
    [| simpl; repeat split; auto; lia].
  destruct (write_result env fd buffer =? Z.of_nat (length buffer)) eqn:Hw;
    simpl; [| repeat split; auto; lia].
  apply Z.eqb_eq in Hw.
  destruct (read_elf env buffer) as [| | phdrs];
    [simpl; repeat split; auto; lia .. |].
  pose proof (scan_phdrs_grows env phdrs (m_mem_size co)) as Hgrow.
  destruct (scan_phdrs env phdrs (m_mem_size co)) as [[r |] mem_size];
    simpl in *; repeat split; auto.
  right. exists name, fd. auto.
Qed.
End OpenInvariants.

(** X7. [open] never changes the load address or the URI of a code object
    and never lowers [m_mem_size].  It sets the descriptor only after the
    temporary file was created under the name made for it and the whole
    buffer was written to it, which is then its last effect, and it has
    emitted no warning in that case. *)
Theorem open_sets_descriptor_last
        (env : CodeObject.environment) (co : CodeObject.code_object_t) :
  match CodeObject.open env co with
  | (CodeObject.returned co', effects) =>
      CodeObject.m_load_address co' = CodeObject.m_load_address co
      /\ CodeObject.m_uri co' = CodeObject.m_uri co
      /\ CodeObject.m_mem_size co <= CodeObject.m_mem_size co'
      /\ (CodeObject.m_fd co' = CodeObject.m_fd co
          \/ exists name fd buffer earlier,
              CodeObject.m_fd co' = Some fd
              /\ CodeObject.temporary_file_name env (CodeObject.m_uri co)
                 = Memfd.name_is name
              /\ CodeObject.create_temporary_file env name = Some fd
              /\ CodeObject.write_result env fd buffer
                 = Z.of_nat (length buffer)
              /\ effects
                 = earlier ++ [CodeObject.temporary_file_written fd buffer]
              /\ Forall (fun e => Escape.is_warning e = false) effects)
  | _ => True
  end.
Proof.
  unfold CodeObject.open.
  destruct (CodeObject.parse_uri (CodeObject.m_uri co)) as [u |]; [| exact I].
  destruct (CodeObject.fetch env (CodeObject.m_uri co) u)
    as [[buffer | |] effects] eqn:Hfetch; [| | exact I].
  - pose proof (materialize_spec env co buffer) as Hm.
    destruct (CodeObject.materialize env co buffer) as [[co' | | |] effects'];
      try exact I.
    destruct Hm as (Hl & Hu & Hs & Hfd).
    repeat split; auto.
    destruct Hfd as [Hfd | (name & fd & Hfd & Hname & Hcreate & Hwrite & ->)];
      [left; exact Hfd | right].
    exists name, fd, buffer, effects. repeat split; auto.
    apply Forall_app. split.
    + eapply fetch_buffer_no_warning. exact Hfetch.
    + repeat constructor.
  - repeat split; auto; lia.
Qed.

(** ** The window of the disassembly *)

Section WindowFacts.
Import Disassemble.

Lemma walk_back_to_begin (m : line_number_map) pc :
  StdMap.sorted m ->
  (forall e, e ∈ m -> 0 <= e.1) ->
  0 <= pc < 2 ^ 64 ->
  StdMap.upper_bound (pc - context_byte_size) m = 0%nat ->
  forall it, (it <= StdMap.upper_bound pc m)%nat -> walk_back m pc it = 0%nat.
Proof.
  intros Hs Hpos Hpc Hnone it. induction it as [| it IH]; intros Hit;
    [reflexivity |].
  cbn [walk_back].
  assert (Hsome : is_Some (m !! it)).
  { apply lookup_lt_is_Some. pose proof (upper_bound_length pc m). lia. }
  destruct Hsome as [e He].
  unfold key_at. rewrite He.
  assert (Hle : e.1 <= pc)
    by (apply (upper_bound_lt_iff pc m it e Hs He); lia).
  assert (Hfar : ~ e.1 <= pc - context_byte_size).
  { intros Hfar. apply (upper_bound_lt_iff _ m it e Hs He) in Hfar. lia. }
  assert (H0 : 0 <= e.1) by (apply Hpos; eapply list_elem_of_lookup_2; eauto).
  unfold wrap64. rewrite Z.mod_small by lia.
  destruct (context_byte_size <=? pc - e.1) eqn:Hcmp.
  - apply Z.leb_le in Hcmp. lia.
  - apply IH. lia.
Qed.

Lemma initial_start_pc_cases
        (m : Disassemble.line_number_map) (pc : Z) :
  StdMap.sorted m ->
  (forall e, e ∈ m -> 0 <= e.1) ->
  0 <= pc < 2 ^ 64 ->
  let s := Disassemble.initial_start_pc m pc in
  s <= pc
  /\ ((forall e, e ∈ m -> pc < e.1) -> s = pc)
  /\ (forall e, e ∈ m -> e.1 <= pc -> exists line, (s, line) ∈ m)
  /\ (forall e, e ∈ m -> e.1 <= pc - Disassemble.context_byte_size ->
                e.1 <= s <= pc - Disassemble.context_byte_size)
  /\ ((forall e, e ∈ m -> pc - Disassemble.context_byte_size < e.1) ->
      forall e, e ∈ m -> s <= e.1).
Proof.
  intros Hs Hpos Hpc. cbn zeta. unfold initial_start_pc.
  destruct (StdMap.upper_bound pc m) as [| u] eqn:Hub.
  { pose proof (upper_bound_0 pc m Hs Hub) as Habove.
    split; [lia |]. split; [reflexivity |]. split; [| split].
    - intros e He Hle. specialize (Habove e He). lia.
    - intros e He Hle. specialize (Habove e He).
      unfold context_byte_size in *. lia.
    - intros _ e He. specialize (Habove e He). lia. }
  destruct (StdMap.upper_bound (pc - context_byte_size) m) as [| j] eqn:Hfar.
  - (* every entry is nearer than 24 bytes, or above pc *)
    rewrite (walk_back_to_begin m pc Hs Hpos Hpc Hfar) by lia.
    pose proof (upper_bound_0 _ m Hs Hfar) as Hnear.
    destruct m as [| [k0 line0] rest]; [discriminate |].
    unfold key_at. simpl lookup. cbn [fst].
    assert (H0 : k0 <= pc).
    { apply (upper_bound_lt_iff pc ((k0, line0) :: rest) 0 (k0, line0) Hs
               eq_refl). lia. }
    apply sorted_cons in Hs as [Hfirst _].
    split; [exact H0 |]. split.
    { intros Habove. specialize (Habove (k0, line0) (list_elem_of_here _ _)).
      simpl in Habove. lia. }
    split; [intros; exists line0; apply list_elem_of_here |]. split.
    + intros e He Hle. specialize (Hnear e He). lia.
    + intros _ e He. apply elem_of_cons in He as [-> | He]; [simpl; lia |].
      specialize (Hfirst e He). lia.
  - (* entry [j] is the nearest one at least 24 bytes below pc *)
    assert (Hprev : StdMap.prev_entry
                      (StdMap.upper_bound (pc - context_byte_size) m) m
                    = m !! j) by (rewrite Hfar; reflexivity).
    assert (Hsome : is_Some (m !! j)).
    { apply lookup_lt_is_Some.
      pose proof (upper_bound_length (pc - context_byte_size) m). lia. }
    destruct Hsome as [[k line] Hj].
    rewrite Hj in Hprev.
    apply (prev_entry_upper_bound _ m k line Hs) in Hprev
      as (Hin & Hle & Hmax).
    assert (H0 : 0 <= k) by (apply (Hpos _ Hin)).
    assert (Hju : (j < S u)%nat).
    { rewrite <- Hub. apply (upper_bound_lt_iff pc m j (k, line) Hs Hj).
      simpl. unfold context_byte_size in Hle. lia. }
    rewrite (walk_back_predecessor m pc j (S u) Hs Hpos); try lia.
    2:{ unfold context_byte_size in *. lia. }
    unfold key_at. rewrite Hj. cbn [fst].
    unfold context_byte_size in *.
    split; [lia |]. split.
    { intros Habove. specialize (Habove _ Hin). simpl in Habove. lia. }
    split; [intros; exists line; exact Hin |]. split.
    + intros e He Hfar'. specialize (Hmax e He Hfar'). lia.
    + intros Hnear. specialize (Hnear _ Hin). simpl in Hnear. lia.
Qed.

(** X8. Where the backward walk over the line table leaves [start_pc]: at
    [pc] when no line starts at or below [pc]; otherwise at an entry of the
    table that is not above [pc], namely the nearest entry that lies at
    least 24 bytes below [pc] when there is one, and the first entry of the
    table when every entry is nearer than that. *)
Theorem initial_start_pc_is_nearest_far_line
        (m : Disassemble.line_number_map) (pc : Z) :
  StdMap.sorted m ->
  (forall e, e ∈ m -> 0 <= e.1) ->
  0 <= pc < 2 ^ 64 ->
  let s := Disassemble.initial_start_pc m pc in
  s <= pc
  /\ ((forall e, e ∈ m -> pc < e.1) -> s = pc)
  /\ (forall e, e ∈ m -> e.1 <= pc -> exists line, (s, line) ∈ m)
  /\ (forall e, e ∈ m -> e.1 <= pc - Disassemble.context_byte_size ->
                e.1 <= s <= pc - Disassemble.context_byte_size)
  /\ ((forall e, e ∈ m -> pc - Disassemble.context_byte_size < e.1) ->
      forall e, e ∈ m -> s <= e.1).
Proof. apply initial_start_pc_cases. Qed.

Lemma initial_start_pc_is_nearest_far_line_witness :
  let m := Disassemble.two_lines 1000 in
  let s := Disassemble.initial_start_pc m 1000 in
  s = 900
  /\ s <= 1000
  /\ ((forall e, e ∈ m -> 1000 < e.1) -> s = 1000)
  /\ (forall e, e ∈ m -> e.1 <= 1000 -> exists line, (s, line) ∈ m)
  /\ (forall e, e ∈ m -> e.1 <= 1000 - Disassemble.context_byte_size ->
                e.1 <= s <= 1000 - Disassemble.context_byte_size)
  /\ ((forall e, e ∈ m -> 1000 - Disassemble.context_byte_size < e.1) ->
      forall e, e ∈ m -> s <= e.1).
Proof.
  split; [reflexivity |].
  apply (initial_start_pc_is_nearest_far_line (Disassemble.two_lines 1000) 1000).
  - repeat constructor.
  - intros e He. unfold Disassemble.two_lines in He.
    repeat (apply elem_of_cons in He as [-> | He]; [simpl; lia |]).
    inversion He.
  - lia.
Defined.

(** X9. The window of the disassembly contains [pc]: after the clamp to
    the range of the compilation unit, the walk's [start_pc] is still not
    above [pc] and [end_pc] is above [pc] and at most 24 bytes above it;
    the clamp only moves [start_pc] up, and when [pc] lies in a range the
    window lies in that range. *)
Theorem disassembly_window_contains_pc
        (m : Disassemble.line_number_map)
        (ranges : Disassemble.pc_ranges_map) (pc : Z) :
  StdMap.sorted m ->
  (forall e, e ∈ m -> 0 <= e.1) ->
  StdMap.sorted ranges ->
  0 <= pc -> pc + Disassemble.context_byte_size < 2 ^ 64 ->
  let window := Disassemble.clamp ranges pc
                                  (Disassemble.initial_start_pc m pc) in
  Disassemble.saved_start_pc m ranges pc = window.1
  /\ Disassemble.initial_start_pc m pc <= window.1 <= pc
  /\ pc < window.2 <= pc + Disassemble.context_byte_size
  /\ forall low high,
      (low, high) ∈ ranges -> low <= pc < high ->
      (forall e, e ∈ ranges -> e.1 <= pc -> e.1 <= low) ->
      low <= window.1 /\ window.2 <= high.
Proof.
  intros Hs Hpos Hr Hpc0 Hpc1. cbn zeta.
  unfold context_byte_size in *.
  destruct (initial_start_pc_cases m pc Hs Hpos) as (Hle & _); [lia |].
  split; [reflexivity |]. unfold clamp, context_byte_size.
  unfold wrap64. rewrite Z.mod_small by lia.
  destruct (StdMap.prev_entry (StdMap.upper_bound pc ranges) ranges)
    as [[low0 high0] |] eqn:Hprev.
  - apply (prev_entry_upper_bound pc ranges low0 high0 Hr) in Hprev
      as (Hin & Hlow & Hmax).
    destruct (pc <? high0) eqn:Hin_range; cbn [fst snd].
    + apply Z.ltb_lt in Hin_range. split; [lia |]. split; [lia |].
      intros low high Hin' Hrange Hgreatest.
      assert (low = low0).
      { specialize (Hmax _ Hin'). specialize (Hgreatest _ Hin).
        simpl in *. lia. }
      subst low0.
      assert (high = high0).
      { apply elem_get in Hin, Hin'; try exact Hr. congruence. }
      subst high0. lia.
    + apply Z.ltb_ge in Hin_range. split; [lia |]. split; [lia |].
      intros low high Hin' Hrange Hgreatest.
      assert (low = low0).
      { specialize (Hmax _ Hin'). specialize (Hgreatest _ Hin).
        simpl in *. lia. }
      subst low0.
      assert (high = high0).
      { apply elem_get in Hin, Hin'; try exact Hr. congruence. }
      lia.
  - cbn [fst snd]. split; [lia |]. split; [lia |].
    intros low high Hin' Hrange _. exfalso.
    destruct (StdMap.upper_bound pc ranges) as [| i] eqn:Hub.
    + pose proof (upper_bound_0 pc ranges Hr Hub _ Hin'). simpl in *. lia.
    + simpl in Hprev. apply lookup_ge_None in Hprev.
      pose proof (upper_bound_length pc ranges). lia.
Qed.

Lemma disassembly_window_contains_pc_witness :
  let m := Disassemble.two_lines 1000 in
  let ranges : Disassemble.pc_ranges_map := [(950, 1010)] in
  let window := Disassemble.clamp ranges 1000
                                  (Disassemble.initial_start_pc m 1000) in
  window = (950, 1010)
  /\ Disassemble.saved_start_pc m ranges 1000 = window.1
  /\ Disassemble.initial_start_pc m 1000 <= window.1 <= 1000
  /\ 1000 < window.2 <= 1000 + Disassemble.context_byte_size
  /\ forall low high,
      (low, high) ∈ ranges -> low <= 1000 < high ->
      (forall e, e ∈ ranges -> e.1 <= 1000 -> e.1 <= low) ->
      low <= window.1 /\ window.2 <= high.
Proof.
  split; [reflexivity |].
  apply (disassembly_window_contains_pc
           (Disassemble.two_lines 1000) [(950, 1010)] 1000).
  - repeat constructor.
  - intros e He. unfold Disassemble.two_lines in He.
    repeat (apply elem_of_cons in He as [-> | He]; [simpl; lia |]).
    inversion He.
  - repeat constructor.
  - lia.
  - unfold Disassemble.context_byte_size. lia.
Defined.
End WindowFacts.

(** ** The resume mask for a single stop reason *)

Lemma case_labels_complete r : In r ResumeMask.case_labels.
Proof. destruct r; simpl; tauto. Qed.



(** ** Searching a string for one character *)

Section FindFacts.
Import StdString.

Lemma index_char c s : forall n,
  String.index n (String c "") s
  = (fun i => (n + i)%nat)
      <$> first_of [c] (drop n (list_ascii_of_string s)).
Proof.
  induction s as [| a s IH]; intros n.
  - destruct n; reflexivity.
  - destruct n as [| n].
    + cbn [String.index String.prefix list_ascii_of_string drop first_of
             existsb].
      rewrite orb_false_r. rewrite IH. rewrite drop_0.
      destruct (ascii_dec c a) as [-> | Hne].
      * rewrite Ascii.eqb_refl. destruct s; reflexivity.
      * destruct (Ascii.eqb_spec a c) as [-> | _]; [contradiction |].
        destruct (first_of [c] (list_ascii_of_string s)); reflexivity.
    + cbn [String.index list_ascii_of_string drop]. rewrite IH.
      destruct (first_of [c] (drop n (list_ascii_of_string s))); reflexivity.
Qed.

Lemma first_of_char_None c l :
  first_of [c] l = None <-> Forall (fun a => a <> c) l.
Proof.
  induction l as [| a l IH]; cbn [first_of existsb].
  - split; [constructor | reflexivity].
  - rewrite orb_false_r. destruct (Ascii.eqb_spec a c) as [-> | Hne].
    + split; [discriminate |]. intros H. inversion H; contradiction.
    + destruct (first_of [c] l) eqn:Hl.
      * split; [discriminate |]. intros H. inversion H as [| ? ? _ Hrest].
        apply IH in Hrest. discriminate.
      * split; [| reflexivity]. intros _. constructor; [exact Hne |].
        apply IH. reflexivity.
Qed.

Lemma first_of_char_Some c l i :
  first_of [c] l = Some i <->
  l !! i = Some c /\ Forall (fun a => a <> c) (take i l).
Proof.
  revert i. induction l as [| a l IH]; intros i; cbn [first_of existsb].
  - split; [discriminate | intros [[=] _]].
  - rewrite orb_false_r. destruct (Ascii.eqb_spec a c) as [-> | Hne].
    + split.
      * intros [= <-]. split; [reflexivity | constructor].
      * intros [Hl Hbefore]. destruct i as [| i]; [reflexivity |].
        simpl in Hbefore. inversion Hbefore; contradiction.
    + destruct (first_of [c] l) as [j |] eqn:Hl.
      * split.
        -- intros [= <-]. destruct (proj1 (IH j) eq_refl) as [Hj Hbefore].
           split; [exact Hj |]. simpl. constructor; assumption.
        -- intros [Hi Hbefore]. destruct i as [| i]; [simpl in Hi; congruence |].
           simpl in Hi, Hbefore. inversion Hbefore as [| ? ? _ Hrest].
           f_equal. symmetry. assert (Some j = Some i) as [= ->]; [| reflexivity].
           apply IH. split; assumption.
      * split; [discriminate |]. intros [Hi Hbefore].
        destruct i as [| i]; [simpl in Hi; congruence |].
        simpl in Hi, Hbefore. inversion Hbefore as [| ? ? _ Hrest].
        assert (None = Some i) as [=]. apply IH. split; assumption.
Qed.

Lemma find_char s c pos :
  0 <= pos <= size s -> size s < npos ->
  find s (String c "") pos
  = match first_of [c] (drop (Z.to_nat pos) (list_ascii_of_string s)) with
    | Some i => pos + Z.of_nat i
    | None => npos
    end.
Proof.
  intros Hpos Hsize. unfold find.
  replace (size s <? pos) with false by (symmetry; apply Z.ltb_ge; lia).
  rewrite index_char.
  destruct (first_of [c] _); simpl; [lia | reflexivity].
Qed.
End FindFacts.

Section TokenFacts.
Import StdString CodeObject.

Lemma substr_chars s pos n :
  0 <= pos <= size s -> 0 <= n ->
  exists token,
    substr s pos n = Some token
    /\ list_ascii_of_string token
       = take (Z.to_nat (Z.min n (size s - pos)))
              (drop (Z.to_nat pos) (list_ascii_of_string s)).
Proof.
  intros Hpos Hn. unfold substr.
  replace (size s <? pos) with false by (symmetry; apply Z.ltb_ge; lia).
  eexists. split; [reflexivity |]. apply list_ascii_of_substring.
Qed.

Lemma joined_cons token rest :
  rest <> [] ->
  Escape.joined (token :: rest)
  = list_ascii_of_string token ++ "&"%char :: Escape.joined rest.
Proof. destruct rest; [congruence | reflexivity]. Qed.

Lemma tokenize_spec uri fuel : forall last,
  0 <= last <= size uri -> size uri < npos - 1 ->
  (String.length uri - Z.to_nat last < fuel)%nat ->
  exists tokens,
    tokenize fuel uri last = Some tokens
    /\ tokens <> []
    /\ Escape.joined tokens
       = drop (Z.to_nat last) (list_ascii_of_string uri)
    /\ Forall (fun token =>
                 Forall (fun c => c <> "&"%char) (list_ascii_of_string token))
              tokens.
Proof.
  induction fuel as [| fuel IH]; intros last Hlast Hsize Hfuel; [lia |].
  cbn [tokenize]. unfold size in *.
  set (l := list_ascii_of_string uri) in *.
  assert (Hlen : length l = String.length uri)
    by apply length_list_ascii_of_string.
  rewrite (find_char uri "&" last) by (unfold size; lia).
  fold l.
  destruct (first_of ["&"%char] (drop (Z.to_nat last) l)) as [i |] eqn:Hfirst.
  - apply first_of_char_Some in Hfirst as [Hi Hbefore].
    assert (Hilt : (i < length (drop (Z.to_nat last) l))%nat)
      by (apply lookup_lt_is_Some; eauto).
    rewrite length_drop in Hilt.
    replace (last + Z.of_nat i =? npos) with false
      by (symmetry; apply Z.eqb_neq; unfold npos in *; lia).
    unfold wrap64. rewrite !Z.mod_small by (unfold npos in *; lia).
    destruct (substr_chars uri last (last + Z.of_nat i - last))
      as (token & -> & Htoken); [unfold size; lia | lia |].
    destruct (IH (last + Z.of_nat i + 1))
      as (rest & -> & Hne & Hjoin & Hall); [lia | lia | lia |].
    simpl. eexists. split; [reflexivity |]. split; [discriminate |].
    fold l in Htoken. unfold size in Htoken.
    replace (Z.to_nat ((last + Z.of_nat i - last)
                       `min` (Z.of_nat (String.length uri) - last)))
      with i in Htoken by lia.
    split.
    + rewrite joined_cons by exact Hne. rewrite Htoken, Hjoin.
      replace (Z.to_nat (last + Z.of_nat i + 1))
        with (Z.to_nat last + S i)%nat by lia.
      rewrite <- drop_drop. apply take_drop_middle. exact Hi.
    + constructor; [rewrite Htoken; exact Hbefore | exact Hall].
  - rewrite Z.eqb_refl.
    replace (last =? npos) with false
      by (symmetry; apply Z.eqb_neq; unfold npos in *; lia).
    destruct (substr_chars uri last npos)
      as (token & -> & Htoken); [unfold size; lia | unfold npos; lia |].
    simpl. eexists. split; [reflexivity |]. split; [discriminate |].
    fold l in Htoken. unfold size in Htoken.
    rewrite take_ge in Htoken
      by (rewrite length_drop; unfold npos in *; lia).
    split; [exact Htoken |]. constructor; [| constructor].
    rewrite Htoken. apply first_of_char_None. exact Hfirst.
Qed.

Lemma first_of_none chars l :
  first_of chars l = None
  <-> Forall (fun a => existsb (Ascii.eqb a) chars = false) l.
Proof.
  induction l as [| a l IH]; cbn [first_of].
  - split; [constructor | reflexivity].
  - destruct (existsb (Ascii.eqb a) chars) eqn:Ha.
    + split; [discriminate |]. intros H. inversion H; congruence.
    + destruct (first_of chars l) eqn:Hl.
      * split; [discriminate |]. intros H. inversion H as [| ? ? _ Hrest].
        apply IH in Hrest. discriminate.
      * split; [| reflexivity]. intros _. constructor; [exact Ha |].
        apply IH. reflexivity.
Qed.

Lemma first_of_app chars before c after :
  Forall (fun a => existsb (Ascii.eqb a) chars = false) before ->
  existsb (Ascii.eqb c) chars = true ->
  first_of chars (before ++ c :: after) = Some (length before).
Proof.
  intros Hbefore Hc. induction Hbefore as [| a before Ha _ IH];
    cbn [first_of app length].
  - rewrite Hc. reflexivity.
  - rewrite Ha, IH. reflexivity.
Qed.

Lemma parse_uri_tokens uri u :
  parse_uri uri = Some u ->
  exists tokens,
    tokenize (S (String.length uri)) uri (first_token_position uri)
    = Some tokens
    /\ params u = fold_left add_param tokens ∅.
Proof.
  unfold parse_uri, first_token_position. intros Hparse.
  destruct (substr uri 0 (find uri "://" 0)) as [protocol |];
    [| discriminate].
  cbn [mbind option_bind] in Hparse.
  match type of Hparse with
  | context [if ?c then substr ?s ?a ?b else ?e] =>
      destruct (if c then substr s a b else e) as [path |]; [| discriminate]
  end.
  cbn [mbind option_bind] in Hparse.
  destruct (tokenize _ _ _) as [tokens |]; [| discriminate].
  cbn [mbind option_bind] in Hparse. injection Hparse as <-.
  exists tokens. split; reflexivity.
Qed.

(** X11. The tokenizer of the query or fragment starts behind the first
    [#] or [?] that follows the protocol delimiter and splits exactly at
    the ampersands: written out again with an ampersand between two
    tokens, the tokens give back the rest of the URI behind that
    character, later [#] and [?] included; no token contains an ampersand;
    there is at least one token (the empty one for an empty fragment); and
    a URI with no [#] and no [?] behind the protocol delimiter has no token
    at all.  No [substr] of the tokenizer throws, and these tokens are the
    ones the tag-value map is made from. *)
Theorem tokenize_splits_at_ampersands (uri : string) :
  StdString.size uri < StdString.npos - 4 ->
  let protocol_end := wrap64 (StdString.find uri "://" 0 + 3) in
  let rest := drop (Z.to_nat protocol_end) (list_ascii_of_string uri) in
  let tokens :=
    CodeObject.tokenize (S (String.length uri)) uri
                        (CodeObject.first_token_position uri) in
  (Forall (fun c => CodeObject.ends_path c = false) rest ->
   CodeObject.first_token_position uri = StdString.npos
   /\ tokens = Some [])
  /\ (forall before c after,
         rest = before ++ c :: after ->
         Forall (fun c => CodeObject.ends_path c = false) before ->
         CodeObject.ends_path c = true ->
         CodeObject.first_token_position uri
         = protocol_end + Z.of_nat (length before) + 1
         /\ exists found,
             tokens = Some found
             /\ found <> []
             /\ Escape.joined found = after
             /\ Forall (fun token =>
                          Forall (fun c => c <> "&"%char)
                                 (list_ascii_of_string token))
                       found)
  /\ (forall u,
         CodeObject.parse_uri uri = Some u ->
         exists found,
           tokens = Some found
           /\ CodeObject.params u = fold_left CodeObject.add_param found ∅).
Proof.
  intros Hsize protocol_end rest tokens.
  assert (Hnpos : npos = 2 ^ 64 - 1) by reflexivity.
  assert (Hrange : 0 <= protocol_end < 2 ^ 64) by apply wrap64_range.
  split; [| split].
  - intros Hnone.
    assert (Hfirst : first_token_position uri = npos).
    { unfold first_token_position. fold protocol_end.
      unfold find_first_of.
      destruct (size uri <? protocol_end); [reflexivity |].
      fold rest. change (list_ascii_of_string "#?") with ["#"; "?"]%char.
      rewrite (proj2 (first_of_none _ rest)) by exact Hnone.
      reflexivity. }
    split; [exact Hfirst |]. subst tokens. rewrite Hfirst.
    cbn [tokenize]. unfold find.
    replace (size uri <? npos) with true
      by (symmetry; apply Z.ltb_lt; lia).
    rewrite !Z.eqb_refl. reflexivity.
  - intros before c after Hrest Hbefore Hc.
    assert (Hlen : length rest
                   = (String.length uri - Z.to_nat protocol_end)%nat).
    { subst rest. rewrite length_drop, length_list_ascii_of_string.
      reflexivity. }
    rewrite Hrest, length_app in Hlen. cbn [length] in Hlen.
    unfold size in *.
    assert (Hfirst : first_token_position uri
                     = protocol_end + Z.of_nat (length before) + 1).
    { unfold first_token_position. fold protocol_end.
      unfold find_first_of, size.
      replace (Z.of_nat (String.length uri) <? protocol_end) with false
        by (symmetry; apply Z.ltb_ge; lia).
      fold rest.
      rewrite Hrest,
        (first_of_app (list_ascii_of_string "#?") before c after Hbefore Hc).
      replace (protocol_end + Z.of_nat (length before) =? npos) with false
        by (symmetry; apply Z.eqb_neq; lia).
      cbn [negb]. apply wrap64_small. lia. }
    split; [exact Hfirst |]. subst tokens. rewrite Hfirst.
    destruct (tokenize_spec uri (S (String.length uri))
                (protocol_end + Z.of_nat (length before) + 1))
      as (found & Hrun & Hne & Hjoined & Hamp);
      [unfold size; lia | unfold size; lia | lia |].
    exists found. split; [exact Hrun |]. split; [exact Hne |].
    split; [| exact Hamp].
    rewrite Hjoined.
    replace (Z.to_nat (protocol_end + Z.of_nat (length before) + 1))
      with (Z.to_nat protocol_end + S (length before))%nat by lia.
    rewrite <- drop_drop. fold rest. rewrite Hrest.
    rewrite cons_middle, app_assoc. apply drop_app_length'.
    rewrite length_app. cbn [length]. lia.
  - intros u Hparse. apply parse_uri_tokens. exact Hparse.
Qed.

Lemma tokenize_splits_at_ampersands_witness :
  StdString.size "file:///a#x?y&z=1" < StdString.npos - 4
  /\ CodeObject.first_token_position "file:///a#x?y&z=1" = 10
  /\ CodeObject.tokenize 18 "file:///a#x?y&z=1" 10
     = Some ["x?y"; "z=1"]%string
  /\ exists found,
      CodeObject.tokenize 18 "file:///a#x?y&z=1"
        (CodeObject.first_token_position "file:///a#x?y&z=1") = Some found
      /\ found <> []
      /\ Escape.joined found = list_ascii_of_string "x?y&z=1".
Proof.
  assert (Hsize : StdString.size "file:///a#x?y&z=1" < StdString.npos - 4)
    by (vm_compute; reflexivity).
  split; [exact Hsize |]. split; [vm_compute; reflexivity |].
  split; [vm_compute; reflexivity |].
  destruct (tokenize_splits_at_ampersands "file:///a#x?y&z=1" Hsize)
    as (_ & Hsome & _).
  destruct (Hsome (list_ascii_of_string "/a") "#"%char
                  (list_ascii_of_string "x?y&z=1"))
    as (_ & found & Hrun & Hne & Hjoined & _).
  - vm_compute. reflexivity.
  - repeat constructor.
  - reflexivity.
  - exists found. split; [exact Hrun |]. split; [exact Hne | exact Hjoined].
Defined.
End TokenFacts.

Section ParamFacts.
Import StdString CodeObject.

Lemma add_param_keeps params token tag value :
  params !! tag = Some value -> add_param params token !! tag = Some value.
Proof.
  intros Hv. unfold add_param.
  repeat case_match; try assumption.
  rewrite lookup_insert_ne; [assumption | congruence].
Qed.

Lemma first_of_app_char c l1 l2 :
  Forall (fun a => a <> c) l1 ->
  first_of [c] (l1 ++ c :: l2) = Some (length l1).
Proof.
  intros Hl1. apply first_of_char_Some. split.
  - rewrite lookup_app_r by lia. rewrite Nat.sub_diag. reflexivity.
  - rewrite take_app_length. exact Hl1.
Qed.

Lemma add_param_token params tag value :
  Forall (fun c => c <> "="%char) (list_ascii_of_string tag) ->
  size (tag +:+ "=" +:+ value) < npos - 1 ->
  add_param params (tag +:+ "=" +:+ value)
  = match params !! tag with
    | Some _ => params
    | None => <[tag := value]> params
    end.
Proof.
  intros Htag Hsize. unfold add_param.
  set (token := tag +:+ "=" +:+ value) in *.
  assert (Hl : list_ascii_of_string token
               = list_ascii_of_string tag
                 ++ "="%char :: list_ascii_of_string value).
  { unfold token. rewrite !list_ascii_of_string_app. reflexivity. }
  assert (Hlen : String.length token
                 = (String.length tag + S (String.length value))%nat).
  { rewrite <- !length_list_ascii_of_string, Hl, length_app. reflexivity. }
  unfold size in Hsize.
  rewrite (find_char token "=" 0) by (unfold size; lia).
  rewrite drop_0, Hl, (first_of_app_char _ _ _ Htag).
  rewrite length_list_ascii_of_string.
  replace (0 + Z.of_nat (String.length tag) =? npos) with false
    by (symmetry; apply Z.eqb_neq; unfold npos in *; lia).
  unfold wrap64. rewrite Z.mod_small by (unfold npos in *; lia).
  destruct (substr_chars token 0 (0 + Z.of_nat (String.length tag)))
    as (t & -> & Ht); [unfold size; lia | lia |].
  destruct (substr_chars token (0 + Z.of_nat (String.length tag) + 1) npos)
    as (v & -> & Hv); [unfold size; lia | unfold npos; lia |].
  assert (t = tag) as ->.
  { rewrite <- (string_of_list_ascii_of_string t),
            <- (string_of_list_ascii_of_string tag). f_equal.
    rewrite Ht, Hl. unfold size. rewrite drop_0.
    replace (Z.to_nat _) with (length (list_ascii_of_string tag))
      by (rewrite length_list_ascii_of_string; lia).
    apply take_app_length. }
  assert (v = value) as ->.
  { rewrite <- (string_of_list_ascii_of_string v),
            <- (string_of_list_ascii_of_string value). f_equal.
    rewrite Hv, Hl. unfold size.
    replace (Z.to_nat (0 + Z.of_nat (String.length tag) + 1))
      with (length (list_ascii_of_string tag) + 1)%nat
      by (rewrite length_list_ascii_of_string; lia).
    rewrite <- drop_drop, drop_app_length. simpl drop.
    apply take_ge. rewrite length_list_ascii_of_string.
    unfold npos in *. lia. }
  reflexivity.
Qed.

Lemma add_param_no_delimiter params token :
  Forall (fun c => c <> "="%char) (list_ascii_of_string token) ->
  size token < npos ->
  add_param params token = params.
Proof.
  intros Htoken Hsize. unfold add_param.
  rewrite (find_char token "=" 0) by (unfold size in *; lia).
  rewrite drop_0. apply first_of_char_None in Htoken. rewrite Htoken.
  rewrite Z.eqb_refl. reflexivity.
Qed.
End ParamFacts.

(** X12. The tag-value map of a URI keeps the first value of a repeated
    tag: a token [tag=value] defines the tag only when it has no value
    yet, a token without [=] defines nothing, and a value once given
    survives every later token. *)
Theorem params_keep_first_value
        (params : gmap string string) (tag value : string) :
  Forall (fun c => c <> "="%char) (list_ascii_of_string tag) ->
  StdString.size (tag +:+ "=" +:+ value) < StdString.npos - 1 ->
  let params' := CodeObject.add_param params (tag +:+ "=" +:+ value) in
  params' !! tag = Some (default value (params !! tag))
  /\ (forall tag', tag' <> tag -> params' !! tag' = params !! tag')
  /\ (forall tokens,
         fold_left CodeObject.add_param tokens params' !! tag
         = params' !! tag)
  /\ CodeObject.add_param params tag = params.
Proof.
  intros Htag Hsize. cbn zeta. rewrite add_param_token by assumption.
  assert (Hfirst :
            match params !! tag with
            | Some _ => params
            | None => <[tag := value]> params
            end !! tag = Some (default value (params !! tag))).
  { destruct (params !! tag) as [v |] eqn:Hv; simpl;
      [exact Hv | apply lookup_insert_eq]. }
  split; [exact Hfirst |]. split; [| split].
  - intros tag' Hne. destruct (params !! tag);
      [reflexivity | apply lookup_insert_ne; congruence].
  - intros tokens. rewrite Hfirst.
    generalize dependent (match params !! tag with
                          | Some _ => params
                          | None => <[tag := value]> params
                          end).
    induction tokens as [| token tokens IH]; intros p Hp; [exact Hp |].
    simpl. apply IH. apply add_param_keeps. exact Hp.
  - apply add_param_no_delimiter; [exact Htag |].
    unfold StdString.size, StdString.npos in *.
    rewrite !length_string_app in Hsize. lia.
Qed.

Lemma params_keep_first_value_witness :
  let params' := CodeObject.add_param ∅ ("offset" +:+ "=" +:+ "4096") in
  params' !! "offset"%string
  = Some (default "4096"%string ((∅ : gmap string string) !! "offset"%string))
  /\ (forall tag', tag' <> "offset"%string ->
                   params' !! tag' = (∅ : gmap string string) !! tag')
  /\ (forall tokens,
         fold_left CodeObject.add_param tokens params' !! "offset"%string
         = params' !! "offset"%string)
  /\ CodeObject.add_param ∅ "offset" = ∅.
Proof.
  apply (params_keep_first_value ∅ "offset" "4096").
  - repeat constructor; discriminate.
  - vm_compute. reflexivity.
Defined.

(** ** The code-object map and the report of [print_wavefronts] *)

Section ReportLoopFacts.
Import Agent.
Context {World : Type}.
Variable api : dbgapi World.
Variable cfg : configuration.

Lemma add_code_object_spec code_object_map id st :
  StdMap.sorted code_object_map ->
  (forall e, e ∈ code_object_map -> Trace.filed e) ->
  match add_code_object api cfg code_object_map id st with
  | (Ok code_object_map', st') =>
      StdMap.sorted code_object_map'
      /\ (forall e, e ∈ code_object_map' -> Trace.filed e)
      /\ (forall k v, StdMap.get k code_object_map = Some v ->
                      StdMap.get k code_object_map' = Some v)
      /\ world st' = world st
  | _ => True
  end.
Proof.
  intros Hs Hfiled. unfold add_code_object.
  unfold bind at 1.
  destruct (construct_code_object api cfg id st) as [[co | why |] st1] eqn:Hco;
    [| exact I ..].
  assert (Hw1 : world st1 = world st).
  { unfold construct_code_object, bind, query, ret in Hco.
    repeat case_match; simplify_eq; reflexivity. }
  unfold bind, emit, ret, abort. cbn.
  destruct (CodeObject.open (os cfg) co) as [[co' | | |] effects]; cbn;
    [| exact I ..].
  destruct (CodeObject.is_open co') eqn:Hopen; cbn.
  2:{ split; [exact Hs |]. split; [exact Hfiled |]. split; [auto |].
      exact Hw1. }
  assert (Hemplace :
            let m' := (StdMap.emplace (CodeObject.m_load_address co') co'
                                      code_object_map).2 in
            StdMap.sorted m'
            /\ (forall e, e ∈ m' -> Trace.filed e)
            /\ (forall k v, StdMap.get k code_object_map = Some v ->
                            StdMap.get k m' = Some v)).
  { cbn zeta.
    destruct (StdMap.emplace (CodeObject.m_load_address co') co'
                             code_object_map) as [[it success] m'] eqn:He.
    destruct (emplace_spec _ _ _ _ _ _ Hs He)
      as (Hs' & Hin & Hget & _ & _).
    cbn [snd]. split; [exact Hs' |]. split.
    - intros e He'. destruct (Hin e He') as [-> | Hold]; [| auto].
      split; [exact Hopen | reflexivity].
    - intros k v Hk. rewrite Hget.
      destruct (k =? CodeObject.m_load_address co') eqn:Hkk; [| exact Hk].
      apply Z.eqb_eq in Hkk. subst k. rewrite Hk. reflexivity. }
  cbn zeta in Hemplace. destruct Hemplace as (H1 & H2 & H3).
  destruct (save_code_objects cfg); cbn;
    [destruct (save_succeeds cfg co'); cbn |];
    (split; [exact H1 |]; split; [exact H2 |]; split; [exact H3 |];
     exact Hw1).
Qed.

(** The content of the code-object loop, lines 572-590. *)
Lemma add_code_objects_spec ids code_object_map st :
  StdMap.sorted code_object_map ->
  (forall e, e ∈ code_object_map -> Trace.filed e) ->
  match add_code_objects api cfg code_object_map ids st with
  | (Ok code_object_map', st') =>
      StdMap.sorted code_object_map'
      /\ (forall e, e ∈ code_object_map' -> Trace.filed e)
      /\ (forall k v, StdMap.get k code_object_map = Some v ->
                      StdMap.get k code_object_map' = Some v)
      /\ world st' = world st
  | _ => True
  end.
Proof.
  revert code_object_map st.
  induction ids as [| id ids IH]; intros code_object_map st Hs Hfiled.
  - simpl. auto.
  - cbn [add_code_objects]. unfold bind at 1.
    pose proof (add_code_object_spec code_object_map id st Hs Hfiled) as H1.
    destruct (add_code_object api cfg code_object_map id st)
      as [[m1 | why |] st1]; [| exact I ..].
    destruct H1 as (Hs1 & Hf1 & Hkeep1 & Hw1).
    specialize (IH m1 st1 Hs1 Hf1).
    destruct (add_code_objects api cfg m1 ids st1)
      as [[m' | why |] st']; [| exact I ..].
    destruct IH as (Hs' & Hf' & Hkeep' & Hw').
    split; [exact Hs' |]. split; [exact Hf' |]. split.
    + intros k v Hk. apply Hkeep', Hkeep1, Hk.
    + rewrite Hw'. exact Hw1.
Qed.

(** *** Code that writes nothing to [agent_out] *)

Lemma report_of_append t1 t2 : report_of (t1 ++ t2) = report_of t1 ++ report_of t2.
Proof. apply omap_app. Qed.

Lemma silent_ret {A} (a : A) : Trace.silent (World := World) (ret a).
Proof. intros st. reflexivity. Qed.

Lemma silent_abort {A} why : Trace.silent (World := World) (@abort World A why).
Proof. intros st. reflexivity. Qed.

Lemma silent_out_of_fuel {A} :
  Trace.silent (World := World) (fun st => (@OutOfFuel A, st)).
Proof. intros st. reflexivity. Qed.

Lemma silent_call c : Trace.silent (World := World) (emit (call c)).
Proof. intros st. cbn. rewrite report_of_append. apply app_nil_r. Qed.

Lemma silent_warn_open id :
  Trace.silent (World := World) (emit (warn_could_not_open id)).
Proof. intros st. cbn. rewrite report_of_append. apply app_nil_r. Qed.

Lemma silent_warn_save :
  Trace.silent (World := World) (emit warn_could_not_save).
Proof. intros st. cbn. rewrite report_of_append. apply app_nil_r. Qed.

Lemma silent_query {A} c (f : World -> amd_dbgapi_status_t * A) :
  Trace.silent (query c f).
Proof. intros st. cbn. rewrite report_of_append. apply app_nil_r. Qed.

Lemma silent_command c (f : World -> amd_dbgapi_status_t * World) :
  Trace.silent (command c f).
Proof.
  intros st. unfold command. destruct (f (world st)). cbn.
  rewrite report_of_append. apply app_nil_r.
Qed.

Lemma silent_command_with {A} c
      (f : World -> amd_dbgapi_status_t * A * World) :
  Trace.silent (command_with c f).
Proof.
  intros st. unfold command_with. destruct (f (world st)) as [[? ?] ?]. cbn.
  rewrite report_of_append. apply app_nil_r.
Qed.

Lemma silent_bind {A B} (m : M World A) (k : A -> M World B) :
  Trace.silent m -> (forall a, Trace.silent (k a)) -> Trace.silent (bind m k).
Proof.
  intros Hm Hk st. unfold bind. specialize (Hm st).
  destruct (m st) as [[a | why |] st']; simpl in *; [| assumption ..].
  rewrite Hk. exact Hm.
Qed.

Lemma silent_check status : Trace.silent (World := World) (DBGAPI_CHECK status).
Proof. destruct status; [apply silent_ret | apply silent_abort ..]. Qed.

Lemma silent_assert enabled b :
  Trace.silent (World := World) (agent_assert enabled b).
Proof.
  unfold agent_assert.
  destruct (enabled && negb b); [apply silent_abort | apply silent_ret].
Qed.

Ltac silent_step :=
  first
    [ apply silent_ret | apply silent_abort
    | apply silent_out_of_fuel | apply silent_call
    | apply silent_warn_open | apply silent_warn_save
    | apply silent_query | apply silent_command
    | apply silent_command_with | apply silent_check
    | apply silent_assert | assumption
    | apply silent_bind; [| intros ?]
    | match goal with
      | |- Trace.silent (match ?x with _ => _ end) => destruct x
      | |- Trace.silent (if ?b then _ else _) => destruct b
      end ].

Lemma silent_drain_events fuel sets :
  Trace.silent (drain_events api cfg fuel sets).
Proof.
  revert sets. induction fuel as [| fuel IH]; intros sets; simpl.
  - apply silent_out_of_fuel.
  - repeat silent_step; apply IH.
Qed.

Lemma silent_stop_waves sets wave_ids :
  Trace.silent (stop_waves api sets wave_ids).
Proof.
  revert sets. induction wave_ids as [| id ids IH]; intros sets; simpl.
  - apply silent_ret.
  - apply silent_bind; [| intros; apply IH].
    unfold stop_wave. repeat silent_step.
Qed.

Lemma silent_stop_loop iterations fuel sets :
  Trace.silent (stop_loop api cfg iterations fuel sets).
Proof.
  revert sets. induction iterations as [| n IH]; intros sets; simpl.
  - apply silent_out_of_fuel.
  - apply silent_bind.
    + unfold stop_iteration.
      apply silent_bind; [apply silent_drain_events | intros].
      repeat silent_step. apply silent_stop_waves.
    + intros sets'. destruct (bool_decide _); [apply silent_ret | apply IH].
Qed.

Lemma silent_add_code_objects code_object_map ids :
  Trace.silent (add_code_objects api cfg code_object_map ids).
Proof.
  revert code_object_map.
  induction ids as [| id ids IH]; intros code_object_map; simpl.
  - apply silent_ret.
  - apply silent_bind; [| intros; apply IH].
    unfold add_code_object, construct_code_object. repeat silent_step.
Qed.

Lemma silent_gather iterations fuel all_wavefronts :
  Trace.silent (gather api cfg iterations fuel all_wavefronts).
Proof.
  unfold gather, stop_all_wavefronts.
  repeat first [ apply silent_add_code_objects
               | apply silent_stop_loop
               | silent_step ].
Qed.

(** What [gather] hands to the loop over the waves. *)
Lemma gather_spec iterations fuel all_wavefronts st code_object_map wave_ids
      st1 :
  gather api cfg iterations fuel all_wavefronts st
  = (Ok (code_object_map, wave_ids), st1) ->
  StdMap.sorted code_object_map
  /\ (forall e, e ∈ code_object_map -> Trace.filed e)
  /\ report_of (trace st1) = report_of (trace st).
Proof.
  intros Hrun.
  assert (Hsilent : report_of (trace st1) = report_of (trace st)).
  { pose proof (silent_gather iterations fuel all_wavefronts st) as H.
    rewrite Hrun in H. exact H. }
  unfold gather in Hrun. unfold bind at 1 in Hrun. cbn in Hrun.
  destruct (amd_dbgapi_process_code_object_list api (world st))
    as [status ids]. cbn in Hrun.
  unfold bind at 1 in Hrun.
  destruct status; cbn in Hrun; try discriminate.
  unfold bind at 1 in Hrun.
  match type of Hrun with
  | context [add_code_objects api cfg [] ids ?s] =>
      pose proof (add_code_objects_spec ids [] s) as Hmap;
      destruct (add_code_objects api cfg [] ids s)
        as [[m | why |] st0]; try discriminate
  end.
  destruct Hmap as (Hs & Hf & _).
  { constructor. }
  { intros e He. inversion He. }
  assert (m = code_object_map) as <-.
  { unfold bind, command_with, DBGAPI_CHECK, ret, abort in Hrun.
    repeat case_match; simplify_eq; reflexivity. }
  split; [exact Hs |]. split; [exact Hf | exact Hsilent].
Qed.

(** [print_wavefronts_locked] is [gather] followed by the loop over the
    waves. *)
Lemma print_wavefronts_locked_gather iterations fuel all_wavefronts st :
  print_wavefronts_locked api cfg iterations fuel all_wavefronts st
  = bind (gather api cfg iterations fuel all_wavefronts)
         (fun '(code_object_map, wave_ids) =>
            report_waves api cfg fuel code_object_map 0 wave_ids) st.
Proof.
  unfold print_wavefronts_locked, gather, bind.
  repeat case_match; unfold ret in *; simplify_eq; reflexivity.
Qed.

Lemma bind_ok {A B} (m : M World A) (k : A -> M World B) st b st' :
  bind m k st = (Ok b, st') ->
  exists a st1, m st = (Ok a, st1) /\ k a st1 = (Ok b, st').
Proof.
  unfold bind. destruct (m st) as [[a | why |] st1]; try discriminate.
  eauto.
Qed.

(** *** The report of one wave *)

Section OneWave.
Variable fuel : nat.
Variable code_object_map : StdMap.t CodeObject.code_object_t.

Lemma report_wave_returns i wave_id st :
  Trace.answered api cfg fuel code_object_map (world st) wave_id ->
  exists t,
    report_wave api cfg fuel code_object_map i wave_id st
    = (Ok tt, Trace.after st t)
    /\ report_of t
       = Trace.wave_report api cfg fuel code_object_map (world st) i wave_id
    /\ Trace.reported_waves t
       = if Trace.stopped api (world st) wave_id then [wave_id] else [].
Proof.
  intros [Hstate Hstopped]. unfold Trace.wave_report, Trace.wave_block,
    Trace.kernel_entry_of. unfold Trace.stopped in *.
  unfold report_wave, bind, query, emit, ret, DBGAPI_CHECK, Trace.after.
  destruct (amd_dbgapi_wave_get_info_state api wave_id (world st))
    as [status state]. simpl in Hstate. subst status. cbn.
  destruct state; cbn;
    try (eexists; split; [reflexivity | split; reflexivity]).
  destruct (Hstopped eq_refl)
    as (Hreason & Hpc & [entry Hentry] & Hregs & Hmem & Hfound).
  destruct (amd_dbgapi_wave_get_info_stop_reason api wave_id (world st))
    as [s1 stop_reason]. simpl in Hreason. subst s1. cbn.
  destruct (amd_dbgapi_wave_get_info_pc api wave_id (world st))
    as [s2 pc]. simpl in Hpc. subst s2. cbn in *.
  unfold print_registers, print_local_memory, disassemble, emit.
  destruct (Registers.print_registers
              (wave_registers api wave_id (world st)) fuel)
    as [o1 regs] eqn:Eregs.
  simpl in Hregs. subst o1.
  destruct (LocalMemory.print_local_memory
              (wave_local_memory api wave_id (world st)) (assertions cfg) fuel)
    as [o2 mem] eqn:Emem.
  simpl in Hmem. subst o2.
  unfold kernel_entry_answer in Hentry.
  destruct (amd_dbgapi_wave_get_info_dispatch api wave_id (world st))
    as [dstatus dispatch_id].
  assert (Harch :
            forall co,
              CodeObject.find_code_object code_object_map pc = Some co ->
              exists architecture_id,
                amd_dbgapi_wave_get_info_architecture api wave_id (world st)
                = (AMD_DBGAPI_STATUS_SUCCESS, architecture_id)
                /\ code_object_disassemble api co architecture_id pc (world st)
                   = returns).
  { intros co Hco. destruct (Hfound co Hco) as [Harch Hdis].
    destruct (amd_dbgapi_wave_get_info_architecture api wave_id (world st))
      as [s3 architecture_id]. simpl in *. subst s3. eauto. }
  destruct dstatus; try contradiction.
  - destruct Hentry as (e & Hq & _). cbn. rewrite Hq. cbn.
    destruct (CodeObject.find_code_object code_object_map pc) as [co |].
    + destruct (Harch co eq_refl) as (architecture_id & Ea & Hdis).
      rewrite Ea.
      destruct i; cbn; rewrite Eregs; cbn; rewrite Emem; cbn; rewrite ?Ea;
        cbn; rewrite Hdis; cbn; rewrite <- ?app_assoc;
        (eexists; split; [reflexivity | split; reflexivity]).
    + destruct i; cbn; rewrite Eregs; cbn; rewrite Emem; cbn;
        rewrite <- ?app_assoc;
        (eexists; split; [reflexivity | split; reflexivity]).
  - cbn.
    destruct (CodeObject.find_code_object code_object_map pc) as [co |].
    + destruct (Harch co eq_refl) as (architecture_id & Ea & Hdis).
      rewrite Ea.
      destruct i; cbn; rewrite Eregs; cbn; rewrite Emem; cbn; rewrite ?Ea;
        cbn; rewrite Hdis; cbn; rewrite <- ?app_assoc;
        (eexists; split; [reflexivity | split; reflexivity]).
    + destruct i; cbn; rewrite Eregs; cbn; rewrite Emem; cbn;
        rewrite <- ?app_assoc;
        (eexists; split; [reflexivity | split; reflexivity]).
Qed.

Lemma report_waves_returns wave_ids i st :
  (forall wave_id,
      wave_id ∈ wave_ids ->
      Trace.answered api cfg fuel code_object_map (world st) wave_id) ->
  exists t,
    report_waves api cfg fuel code_object_map i wave_ids st
    = (Ok tt, Trace.after st t)
    /\ report_of t
       = Trace.reports api cfg fuel code_object_map (world st) i wave_ids
    /\ Trace.reported_waves t
       = List.filter (Trace.stopped api (world st)) wave_ids.
Proof.
  revert i st. induction wave_ids as [| wave_id rest IH]; intros i st Hanswers.
  - exists []. unfold Trace.after. rewrite app_nil_r.
    destruct st; repeat split; reflexivity.
  - destruct (report_wave_returns i wave_id st
                (Hanswers wave_id (list_elem_of_here _ _)))
      as (t1 & Hrun1 & Hout1 & Hrep1).
    destruct (IH (S i) (Trace.after st t1)) as (t2 & Hrun2 & Hout2 & Hrep2).
    { intros id Hin. apply (Hanswers id). apply list_elem_of_further, Hin. }
    cbn [Trace.after world lock trace] in *.
    exists (t1 ++ t2). split; [| split].
    + cbn [report_waves]. unfold bind at 1. rewrite Hrun1.
      rewrite Hrun2. unfold Trace.after. cbn. rewrite <- app_assoc.
      reflexivity.
    + rewrite report_of_append, Hout1, Hout2. reflexivity.
    + unfold Trace.reported_waves in *. rewrite omap_app, Hrep1, Hrep2.
      cbn [List.filter].
      destruct (Trace.stopped api (world st) wave_id); reflexivity.
Qed.

(** A returning run of the loop body has had its queries answered. *)
Lemma report_wave_answered i wave_id st st' :
  report_wave api cfg fuel code_object_map i wave_id st = (Ok tt, st') ->
  Trace.answered api cfg fuel code_object_map (world st) wave_id.
Proof.
  unfold report_wave, Trace.answered, Trace.stopped, kernel_entry_answer.
  unfold bind at 1 2 3 4 5 6 7. unfold query, DBGAPI_CHECK, abort. cbn.
  intros Hrun.
  destruct (amd_dbgapi_wave_get_info_state api wave_id (world st))
    as [status state]. cbn in *.
  destruct status; cbn in Hrun; try discriminate.
  split; [reflexivity |]. intros Hstopped.
  destruct state; try discriminate. cbn in Hrun.
  destruct (amd_dbgapi_wave_get_info_stop_reason api wave_id (world st))
    as [s1 stop_reason]. cbn in *.
  destruct s1; cbn in Hrun; try discriminate.
  destruct (amd_dbgapi_wave_get_info_pc api wave_id (world st))
    as [s2 pc]. cbn in *.
  destruct s2; cbn in Hrun; try discriminate.
  split; [reflexivity |]. split; [reflexivity |].
  assert (Hentry :
            forall kernel_entry st0 k,
              world st0 = world st ->
              ((if i is O then ret tt else emit (out blank_line)) ;;
               emit (out separator) ;;
               emit (out (wave_header
                            wave_id pc kernel_entry
                            (match kernel_entry,
                                   CodeObject.find_code_object
                                     code_object_map pc with
                             | Some entry, Some code_object =>
                                 symbol_name cfg code_object entry
                             | _, _ => None
                             end) stop_reason)) ;;
               print_registers api fuel wave_id ;;
               print_local_memory api cfg fuel wave_id ;;
               k)%agent st0 = (Ok tt, st') ->
              (Registers.print_registers
                 (wave_registers api wave_id (world st)) fuel).1
              = Registers.finished
              /\ (LocalMemory.print_local_memory
                    (wave_local_memory api wave_id (world st))
                    (assertions cfg) fuel).1
                 = LocalMemory.finished
              /\ exists st1, world st1 = world st /\ k st1 = (Ok tt, st')).
  { intros kernel_entry st0 k Hw.
    unfold bind, print_registers, print_local_memory, emit, ret.
    destruct i; cbn; rewrite Hw;
      (destruct (Registers.print_registers _ fuel) as [[] regs]; cbn;
       try discriminate; rewrite ?Hw;
       destruct (LocalMemory.print_local_memory _ _ fuel) as [[] mem]; cbn;
       try discriminate;
       intros Hk; split; [reflexivity |]; split; [reflexivity |];
       eexists; split; [| exact Hk]; reflexivity). }
  assert (Hfound :
            forall st1,
              world st1 = world st ->
              match CodeObject.find_code_object code_object_map pc with
              | Some code_object =>
                  ('(status, architecture_id) <-
                     query (wave_get_info wave_id)
                           (amd_dbgapi_wave_get_info_architecture api wave_id) ;
                   DBGAPI_CHECK status ;;
                   disassemble api code_object architecture_id pc)%agent
              | None => ret tt
              end st1 = (Ok tt, st') ->
              forall code_object,
                CodeObject.find_code_object code_object_map pc
                = Some code_object ->
                (amd_dbgapi_wave_get_info_architecture
                   api wave_id (world st)).1
                = AMD_DBGAPI_STATUS_SUCCESS
                /\ code_object_disassemble
                     api code_object
                     (amd_dbgapi_wave_get_info_architecture
                        api wave_id (world st)).2 pc (world st)
                   = returns).
  { intros st1 Hw Hk co Hco. rewrite Hco in Hk.
    unfold bind, query, DBGAPI_CHECK, disassemble, ret, abort, emit in Hk.
    cbn in Hk. rewrite Hw in Hk.
    destruct (amd_dbgapi_wave_get_info_architecture api wave_id (world st))
      as [s3 architecture_id]. cbn in *.
    destruct s3; cbn in Hk; try discriminate.
    destruct (code_object_disassemble api co architecture_id pc (world st));
      try discriminate.
    split; reflexivity. }
  destruct (amd_dbgapi_wave_get_info_dispatch api wave_id (world st))
    as [dstatus dispatch_id].
  apply bind_ok in Hrun as (kernel_entry & st0 & Hm & Hk).
  assert (Hanswer :
            world st0 = world st
            /\ match dstatus with
               | AMD_DBGAPI_STATUS_SUCCESS =>
                   exists entry,
                   amd_dbgapi_dispatch_get_info_kernel_code_entry_address
                     api dispatch_id (world st)
                   = (AMD_DBGAPI_STATUS_SUCCESS, entry)
                   /\ kernel_entry = Some entry
               | AMD_DBGAPI_STATUS_ERROR_NOT_AVAILABLE => kernel_entry = None
               | _ => False
               end).
  { unfold bind, ret in Hm. cbn in Hm.
    destruct dstatus; cbn in Hm; try discriminate.
    - destruct (amd_dbgapi_dispatch_get_info_kernel_code_entry_address
                  api dispatch_id (world st)) as [s3 entry].
      destruct s3; cbn in Hm; try discriminate.
      simplify_eq. split; [reflexivity |]. eauto.
    - simplify_eq. split; reflexivity. }
  destruct Hanswer as [Hw0 Hanswer].
  apply (Hentry kernel_entry st0 _ Hw0) in Hk.
  destruct Hk as (Hregs & Hmem & st1 & Hw & Hk).
  split; [exists kernel_entry; exact Hanswer |].
  split; [exact Hregs |]. split; [exact Hmem |].
  exact (Hfound st1 Hw Hk).
Qed.

(** The loop over the waves returns exactly when its queries are
    answered. *)
Lemma report_waves_answered wave_ids i st st' :
  report_waves api cfg fuel code_object_map i wave_ids st = (Ok tt, st') ->
  forall wave_id,
    wave_id ∈ wave_ids ->
    Trace.answered api cfg fuel code_object_map (world st) wave_id.
Proof.
  revert i st. induction wave_ids as [| id rest IH]; intros i st Hrun.
  - intros wave_id Hin. inversion Hin.
  - cbn [report_waves] in Hrun. unfold bind at 1 in Hrun.
    destruct (report_wave api cfg fuel code_object_map i id st)
      as [[[] | why |] st1] eqn:Hone; try discriminate.
    pose proof (report_wave_answered i id st st1 Hone) as Hanswered.
    destruct (report_wave_returns i id st Hanswered) as (t & Hret & _).
    rewrite Hone in Hret. injection Hret as ->.
    intros wave_id Hin. apply elem_of_cons in Hin as [-> | Hin].
    + exact Hanswered.
    + apply (IH _ _ Hrun wave_id Hin).
Qed.
End OneWave.
End ReportLoopFacts.

(** X13. The code-object map [print_wavefronts] builds is a valid
    [std::map]: its keys stay strictly increasing, every entry is an
    opened code object filed under its load address, an entry once made is
    never replaced (of two code objects with one load address the first
    stays), and the library's state is not touched. *)
Theorem add_code_objects_builds_map
        {World : Type} (api : Agent.dbgapi World) (cfg : Agent.configuration)
        (ids : list Z) (code_object_map : StdMap.t CodeObject.code_object_t)
        (st : Agent.state World) :
  StdMap.sorted code_object_map ->
  (forall e, e ∈ code_object_map -> Trace.filed e) ->
  match Agent.add_code_objects api cfg code_object_map ids st with
  | (Agent.Ok code_object_map', st') =>
      StdMap.sorted code_object_map'
      /\ (forall e, e ∈ code_object_map' -> Trace.filed e)
      /\ (forall k v, StdMap.get k code_object_map = Some v ->
                      StdMap.get k code_object_map' = Some v)
      /\ Agent.world st' = Agent.world st
  | _ => True
  end.
Proof. apply add_code_objects_spec. Qed.

Lemma add_code_objects_builds_map_witness :
  match Agent.add_code_objects
          (SimulatedGpu.api Examples.snapshot) (Examples.configuration true)
          [] [1; 1] (SimulatedGpu.initial (Examples.three_waves 5)) with
  | (Agent.Ok code_object_map', st') =>
      StdMap.sorted code_object_map'
      /\ (forall e, e ∈ code_object_map' -> Trace.filed e)
      /\ (forall k v,
             StdMap.get k ([] : StdMap.t CodeObject.code_object_t) = Some v ->
             StdMap.get k code_object_map' = Some v)
      /\ Agent.world st'
         = Agent.world (SimulatedGpu.initial (Examples.three_waves 5))
  | _ => True
  end.
Proof.
  apply (add_code_objects_builds_map
           (SimulatedGpu.api Examples.snapshot) (Examples.configuration true)
           [1; 1] []).
  - constructor.
  - intros e He. inversion He.
Defined.

(** X14. [print_wavefronts] gives the lock back: whenever it returns, the
    lock is as it was when it was called, free if it was free (the scoped
    lock of line 563) and still held by its owner if it was taken. *)
Theorem print_wavefronts_restores_lock
        {World : Type} (api : Agent.dbgapi World) (cfg : Agent.configuration)
        (iterations fuel : nat) (all_wavefronts : bool)
        (st : Agent.state World) :
  match Agent.print_wavefronts api cfg iterations fuel all_wavefronts st with
  | (Agent.Ok _, st') => Agent.lock st' = Agent.lock st
  | (Agent.Abort _, st') =>
      (* the process is aborted inside the function, the lock taken *)
      Agent.lock st' = true
  | (Agent.OutOfFuel, st') => Agent.lock st' = true
  end.
Proof.
  destruct (Agent.lock st) eqn:Hlock.
  - rewrite print_wavefronts_locked_out by exact Hlock. exact Hlock.
  - rewrite print_wavefronts_takes_lock by exact Hlock.
    unfold Agent.bind.
    pose proof (keeps_lock_print_wavefronts_locked
                  api cfg iterations fuel all_wavefronts
                  {| Agent.world := Agent.world st; Agent.lock := true;
                     Agent.trace := Agent.trace st |}) as Hkeep.
    destruct (Agent.print_wavefronts_locked _ _ _ _ _ _)
      as [[[] | why |] st1]; simpl in *; auto.
Qed.

(** X15. The report covers exactly the waves in state STOP, in the order
    of the wave list: every such wave gets one header, a wave that runs or
    single-steps gets none, and the loop does not touch the library's
    state.  This holds provided the library answers the queries the loop
    makes and, for every stopped wave, [print_registers] and
    [print_local_memory] return and so does [disassemble] when a code
    object is found; else the process is aborted or the loop does not
    return. *)
Theorem report_waves_reports_stopped_waves
        {World : Type} (api : Agent.dbgapi World) (cfg : Agent.configuration)
        (fuel : nat)
        (code_object_map : StdMap.t CodeObject.code_object_t)
        (wave_ids : list Z) (i : nat) (st : Agent.state World) :
  (forall wave_id,
      wave_id ∈ wave_ids ->
      Trace.answered api cfg fuel code_object_map (Agent.world st) wave_id) ->
  exists t,
    Agent.report_waves api cfg fuel code_object_map i wave_ids st
    = (Agent.Ok tt,
       {| Agent.world := Agent.world st; Agent.lock := Agent.lock st;
          Agent.trace := Agent.trace st ++ t |})
    /\ Trace.reported_waves t
       = List.filter (Trace.stopped api (Agent.world st)) wave_ids.
Proof.
  intros Hanswers.
  destruct (report_waves_returns api cfg fuel code_object_map wave_ids i st
                                 Hanswers) as (t & Hrun & _ & Hreported).
  exists t. split; [exact Hrun | exact Hreported].
Qed.

Lemma report_waves_reports_stopped_waves_witness :
  exists t,
    Agent.report_waves
      (SimulatedGpu.api Examples.snapshot) (Examples.configuration true)
      100 [] 0 [1; 2; 3] (SimulatedGpu.initial (Examples.three_waves 5))
    = (Agent.Ok tt,
       {| Agent.world := Examples.three_waves 5; Agent.lock := false;
          Agent.trace := [] ++ t |})
    /\ Trace.reported_waves t
       = List.filter (Trace.stopped (SimulatedGpu.api Examples.snapshot)
                                    (Examples.three_waves 5)) [1; 2; 3].
Proof.
  apply (report_waves_reports_stopped_waves
           (SimulatedGpu.api Examples.snapshot) (Examples.configuration true)
           100 [] [1; 2; 3] 0 (SimulatedGpu.initial (Examples.three_waves 5))).
  intros wave_id Hin.
  repeat (apply elem_of_cons in Hin as [-> | Hin];
          [split; [reflexivity |]; intros Hs;
           repeat split; try reflexivity; try discriminate;
           exists None; reflexivity |]).
  inversion Hin.
Defined.

(** ** The code object selected for the disassembly *)

(** C10.  [print_wavefronts], called with the lock free, reports the waves
    of the wave list in order, from the code-object map it has built
    (sorted by load address, every entry an opened code object under its
    load address): a wave that is not stopped gets nothing; a stopped wave
    at [pc] gets a separator, its header, its registers and its local
    memory, followed by the disassembly exactly when a code object is
    selected, which is the case if and only if the map has a greatest load
    address at most [pc] and [pc - load_address <= mem_size] for it; the
    address [load_address + mem_size] itself is inside.  The run returns
    exactly when the library answers the queries and the functions called
    for the stopped waves return. *)
Theorem print_wavefronts_selects_code_object
        {World : Type} (api : Agent.dbgapi World) (cfg : Agent.configuration)
        (iterations fuel : nat) (all_wavefronts : bool)
        (st : Agent.state World) :
  Agent.lock st = false ->
  (* what a run that returns has written *)
  (forall st',
      Agent.print_wavefronts api cfg iterations fuel all_wavefronts st
      = (Agent.Ok tt, st') ->
      exists code_object_map wave_ids st1,
        Agent.gather api cfg iterations fuel all_wavefronts (Trace.locked st)
        = (Agent.Ok (code_object_map, wave_ids), st1)
        /\ StdMap.sorted code_object_map
        /\ (forall e, e ∈ code_object_map -> Trace.filed e)
        /\ (forall wave_id,
               wave_id ∈ wave_ids ->
               Trace.answered api cfg fuel code_object_map
                              (Agent.world st1) wave_id)
        /\ Agent.world st' = Agent.world st1
        /\ Agent.lock st' = false
        /\ Agent.report_of (Agent.trace st')
           = Agent.report_of (Agent.trace st)
             ++ Trace.reports api cfg fuel code_object_map
                              (Agent.world st1) 0 wave_ids)
  (* when a run returns *)
  /\ (forall code_object_map wave_ids st1,
         Agent.gather api cfg iterations fuel all_wavefronts (Trace.locked st)
         = (Agent.Ok (code_object_map, wave_ids), st1) ->
         (forall wave_id,
             wave_id ∈ wave_ids ->
             Trace.answered api cfg fuel code_object_map
                            (Agent.world st1) wave_id) ->
         exists st',
           Agent.print_wavefronts api cfg iterations fuel all_wavefronts st
           = (Agent.Ok tt, st'))
  (* the report of one wave *)
  /\ (forall code_object_map w i wave_id,
         let pc := (Agent.amd_dbgapi_wave_get_info_pc api wave_id w).2 in
         let kernel_entry := Trace.kernel_entry_of api w wave_id in
         let block symbol :=
           (if i is O then [] else [Agent.blank_line])
           ++ [ Agent.separator;
                Agent.wave_header
                  wave_id pc kernel_entry symbol
                  (Agent.amd_dbgapi_wave_get_info_stop_reason api wave_id w).2;
                Agent.registers
                  wave_id
                  (Registers.print_registers
                     (Agent.wave_registers api wave_id w) fuel).2;
                Agent.local_memory
                  wave_id
                  (LocalMemory.print_local_memory
                     (Agent.wave_local_memory api wave_id w)
                     (Agent.assertions cfg) fuel).2 ] in
         (Trace.stopped api w wave_id = false ->
          Trace.wave_report api cfg fuel code_object_map w i wave_id = [])
         /\ (Trace.stopped api w wave_id = true ->
             match CodeObject.find_code_object code_object_map pc with
             | Some code_object =>
                 Trace.wave_report api cfg fuel code_object_map w i wave_id
                 = block (match kernel_entry with
                          | Some entry =>
                              Agent.symbol_name cfg code_object entry
                          | None => None
                          end)
                   ++ [ Agent.disassembly
                          (CodeObject.m_load_address code_object)
                          (Agent.amd_dbgapi_wave_get_info_architecture
                             api wave_id w).2 pc ]
             | None =>
                 Trace.wave_report api cfg fuel code_object_map w i wave_id
                 = block None
             end))
  (* the code object selected *)
  /\ (forall (code_object_map : StdMap.t CodeObject.code_object_t) pc,
         StdMap.sorted code_object_map ->
         0 <= pc < 2 ^ 64 ->
         (forall e, e ∈ code_object_map -> 0 <= e.1) ->
         (forall co,
             CodeObject.find_code_object code_object_map pc = Some co
             <-> exists load_address,
                 (load_address, co) ∈ code_object_map
                 /\ load_address <= pc
                 /\ (forall e, e ∈ code_object_map -> e.1 <= pc ->
                               e.1 <= load_address)
                 /\ pc - load_address <= CodeObject.m_mem_size co)
         /\ (forall load_address co,
                (load_address, co) ∈ code_object_map ->
                pc = load_address + CodeObject.m_mem_size co ->
                0 <= CodeObject.m_mem_size co ->
                (forall e, e ∈ code_object_map -> e.1 <= pc ->
                              e.1 <= load_address) ->
                CodeObject.find_code_object code_object_map pc = Some co)).
Proof.
  intros Hlock. split; [| split; [| split]].
  - intros st' Hrun.
    rewrite print_wavefronts_takes_lock in Hrun by exact Hlock.
    apply bind_ok in Hrun as ([] & st2 & Hlocked & Hunlock).
    rewrite print_wavefronts_locked_gather in Hlocked.
    apply bind_ok in Hlocked as ([code_object_map wave_ids] & st1 & Hg & Hr).
    exists code_object_map, wave_ids, st1.
    destruct (gather_spec _ _ _ _ _ _ _ _ _ Hg) as (Hs & Hf & Hsilent).
    pose proof (report_waves_answered _ _ _ _ _ _ _ _ Hr) as Hanswered.
    destruct (report_waves_returns api cfg fuel code_object_map wave_ids 0
                                   st1 Hanswered) as (t & Hret & Hout & _).
    rewrite Hr in Hret. injection Hret as ->.
    unfold Agent.unlock in Hunlock. injection Hunlock as <-.
    cbn [Agent.world Agent.lock Agent.trace Trace.after].
    split; [exact Hg |]. split; [exact Hs |]. split; [exact Hf |].
    split; [exact Hanswered |]. split; [reflexivity |].
    split; [reflexivity |].
    rewrite report_of_append, Hout, Hsilent. reflexivity.
  - intros code_object_map wave_ids st1 Hg Hanswered.
    rewrite print_wavefronts_takes_lock by exact Hlock.
    destruct (report_waves_returns api cfg fuel code_object_map wave_ids 0
                                   st1 Hanswered) as (t & Hret & _).
    unfold Agent.bind at 1. rewrite print_wavefronts_locked_gather.
    unfold Agent.bind at 1. fold (Trace.locked st). rewrite Hg, Hret.
    eexists. reflexivity.
  - intros code_object_map w i wave_id pc kernel_entry block.
    unfold Trace.wave_report. fold pc. split.
    + intros ->. reflexivity.
    + intros ->.
      destruct (CodeObject.find_code_object code_object_map pc);
        reflexivity.
  - intros code_object_map pc Hs Hpc Hkeys. split.
    + intros co. apply find_code_object_spec; assumption.
    + intros load_address co Hin Hbound Hsize Hmax.
      apply find_code_object_spec; [assumption .. |].
      exists load_address. split; [exact Hin |].
      repeat split; [lia | exact Hmax | lia].
Qed.

Lemma print_wavefronts_selects_code_object_witness :
  Agent.lock (SimulatedGpu.initial (Examples.three_waves 5)) = false
  /\ exists st',
      Agent.print_wavefronts
        (SimulatedGpu.api Examples.snapshot) (Examples.configuration true)
        10 100 false (SimulatedGpu.initial (Examples.three_waves 5))
      = (Agent.Ok tt, st')
      /\ exists output output',
          Agent.report_of (Agent.trace st')
          = [ Agent.separator; Agent.wave_header 3 4144 None None 8192;
              Agent.registers 3 output; Agent.local_memory 3 output';
              Agent.disassembly 4096 1 4144 ].
Proof.
  split; [reflexivity |].
  destruct (print_wavefronts_selects_code_object
              (SimulatedGpu.api Examples.snapshot)
              (Examples.configuration true) 10 100 false
              (SimulatedGpu.initial (Examples.three_waves 5)) eq_refl)
    as (Hwritten & Hreturns & _).
  pose (gathered :=
          Agent.gather
            (SimulatedGpu.api Examples.snapshot) (Examples.configuration true)
            10 100 false
            (Trace.locked (SimulatedGpu.initial (Examples.three_waves 5)))).
  assert (Hg : gathered
               = (Agent.Ok ([(4096, {| CodeObject.m_load_address := 4096;
                                       CodeObject.m_mem_size := 4096;
                                       CodeObject.m_uri :=
                                         "file:///opt/kernel.co";
                                       CodeObject.m_fd := Some 3 |})],
                            [3; 2; 1]), gathered.2))
    by (vm_compute; reflexivity).
  assert (Hanswered :
            forall wave_id,
              wave_id ∈ [3; 2; 1] ->
              Trace.answered
                (SimulatedGpu.api Examples.snapshot)
                (Examples.configuration true) 100
                [(4096, {| CodeObject.m_load_address := 4096;
                           CodeObject.m_mem_size := 4096;
                           CodeObject.m_uri := "file:///opt/kernel.co";
                           CodeObject.m_fd := Some 3 |})]
                (Agent.world gathered.2) wave_id).
  { intros wave_id Hin.
    repeat (apply elem_of_cons in Hin as [-> | Hin];
            [split; [vm_compute; reflexivity |]; intros Hs;
             first
               [ vm_compute in Hs; discriminate
               | split;
                 [vm_compute; reflexivity
                 | split;
                   [vm_compute; reflexivity
                   | split;
                     [exists None; vm_compute; reflexivity
                     | split;
                       [vm_compute; reflexivity
                       | split;
                         [vm_compute; reflexivity
                         | intros code_object _; split; vm_compute;
                           reflexivity]]]]] ] |]).
    inversion Hin. }
  destruct (Hreturns _ _ _ Hg Hanswered) as [st' Hrun].
  exists st'. split; [exact Hrun |].
  destruct (Hwritten st' Hrun)
    as (code_object_map & wave_ids & st1 & Hg' & _ & _ & _ & _ & _ & Hreport).
  fold gathered in Hg'. rewrite Hg in Hg'. injection Hg' as <- <- <-.
  rewrite Hreport.
  exists (Registers.print_registers Registers.three_classes 100).2,
         (LocalMemory.print_local_memory LocalMemory.one_row true 100).2.
  vm_compute. reflexivity.
Defined.

(** ** [process_dbgapi_events] *)

Section EventFacts.
Import Agent.
Context {World : Type}.
Variable api : dbgapi World.
Variable process : Events.process_control World.
Variable cfg : configuration.

Import Events (only).

Lemma only_ret p {A} (a : A) : only p (Agent.ret (World := World) a).
Proof. intros st. exists []. rewrite app_nil_r. split; [reflexivity | constructor]. Qed.

Lemma only_abort p {A} why : only p (@Agent.abort World A why).
Proof. intros st. exists []. rewrite app_nil_r. split; [reflexivity | constructor]. Qed.

Lemma only_check p status : only p (DBGAPI_CHECK (World := World) status).
Proof. destruct status; [apply only_ret | apply only_abort ..]. Qed.

Lemma only_bind p {A B} (m : Agent.M World A) (k : A -> Agent.M World B) :
  only p m -> (forall a, only p (k a)) -> only p (Agent.bind m k).
Proof.
  intros Hm Hk st. unfold Agent.bind. destruct (Hm st) as (t1 & H1 & Hp1).
  destruct (m st) as [[a | why |] st1]; simpl in *; eauto.
  destruct (Hk a st1) as (t2 & H2 & Hp2). exists (t1 ++ t2).
  rewrite H2, H1, app_assoc. split; [reflexivity |].
  apply Forall_app. split; assumption.
Qed.

Lemma only_query p {A} c (f : World -> amd_dbgapi_status_t * A) :
  p (call c) = true -> only p (query c f).
Proof. intros Hp st. exists [call c]. split; [reflexivity | repeat constructor; exact Hp]. Qed.

Lemma only_command p c (f : World -> amd_dbgapi_status_t * World) :
  p (call c) = true -> only p (command c f).
Proof.
  intros Hp st. exists [call c]. unfold command.
  destruct (f (world st)). split; [reflexivity | repeat constructor; exact Hp].
Qed.

Lemma only_command_with p {A} c
      (f : World -> amd_dbgapi_status_t * A * World) :
  p (call c) = true -> only p (command_with c f).
Proof.
  intros Hp st. exists [call c]. unfold command_with.
  destruct (f (world st)) as [[? ?] ?].
  split; [reflexivity | repeat constructor; exact Hp].
Qed.

Lemma consume_events_inspects fuel : forall flags,
  only Events.inspects (Events.consume_events api cfg fuel flags).
Proof.
  induction fuel as [| fuel IH]; intros flags.
  - intros st. exists []. rewrite app_nil_r. split; [reflexivity | constructor].
  - cbn [Events.consume_events].
    apply only_bind; [apply only_command_with; reflexivity |].
    intros [status next]. apply only_bind; [apply only_check |]. intros _.
    destruct next as [[event_id kind] |]; [| apply only_ret].
    apply only_bind.
    + unfold Events.note_event. destruct kind; try apply only_ret.
      apply only_bind; [apply only_query; reflexivity |].
      intros [s1 wave_id]. apply only_bind; [apply only_check |]. intros _.
      apply only_bind; [apply only_query; reflexivity |].
      intros [s2 stop_reason]. apply only_bind; [apply only_check |].
      intros _. destruct (_ =? _); apply only_ret.
    + intros flags'. apply only_bind; [apply only_command; reflexivity |].
      intros s. apply only_bind; [apply only_check | intros _; apply IH].
Qed.

Lemma lift_steps {A} (m : Agent.M World A) st :
  exists t,
    Events.steps (Events.lift m st).2 = Events.steps st ++ (Events.did <$> t).
Proof.
  unfold Events.lift. destruct (m _) as [r st']. eexists. reflexivity.
Qed.

Lemma checked_steps c (f : World -> amd_dbgapi_status_t * World)
      (st : Events.state) r st' :
  Events.checked c f st = (r, st') ->
  Events.steps st' = Events.steps st ++ [Events.control c].
Proof.
  unfold Events.checked, Events.bind, Events.control_command, Events.lift.
  destruct (f (Events.world st)) as [status w]. cbn.
  destruct status; cbn; intros [= <- <-]; cbn; apply app_nil_r.
Qed.
End EventFacts.



(** ** The event loop of [stop_all_wavefronts] *)

Section DrainFacts.
Import Agent.
Context {World : Type}.
Variable api : dbgapi World.
Variable cfg : configuration.

Lemma drain_events_spec fuel : forall sets st sets' st',
  drain_events api cfg fuel sets st = (Ok sets', st') ->
  exists t events,
    trace st' = trace st ++ t
    /\ Trace.event_calls t = Trace.handshake events
    /\ waiting_to_stop sets' ⊆ waiting_to_stop sets
    /\ already_stopped sets ⊆ already_stopped sets'.
Proof.
  induction fuel as [| fuel IH]; intros sets st sets' st' Hrun;
    [discriminate |].
  cbn [drain_events] in Hrun. unfold bind at 1 in Hrun.
  unfold command_with in Hrun.
  destruct (amd_dbgapi_process_next_pending_event api (world st))
    as [[status next] w1].
  unfold bind at 1 in Hrun.
  destruct status; cbn in Hrun; try discriminate.
  destruct next as [[event_id kind] |].
  2:{ injection Hrun as <- <-. exists [call process_next_pending_event], [].
      repeat split; reflexivity. }
  unfold bind at 1 in Hrun.
  match type of Hrun with
  | context [match ?m ?s with _ => _ end] =>
      assert (Hnote : forall sets1 st1,
                 m s = (Ok sets1, st1) ->
                 exists t1,
                   trace st1 = trace s ++ t1
                   /\ Trace.event_calls t1 = []
                   /\ waiting_to_stop sets1 ⊆ waiting_to_stop sets
                   /\ already_stopped sets ⊆ already_stopped sets1);
        [| destruct (m s) as [[sets1 | why |] st1] eqn:Hm;
           try discriminate ]
  end.
  { intros sets1 st1. unfold bind, query, DBGAPI_CHECK, agent_assert, ret,
      abort. cbn.
    destruct kind; cbn;
      try (intros [= <- <-]; exists []; rewrite app_nil_r;
           repeat split; reflexivity);
      destruct (amd_dbgapi_event_get_info_wave api event_id w1)
        as [s wave_id]; destruct s; cbn; try discriminate;
      destruct (assertions cfg && _); cbn; try discriminate;
      intros [= <- <-]; exists [call (event_get_info event_id)];
      cbn; repeat split; try reflexivity;
      first [ apply union_subseteq_l
            | apply elem_of_subseteq; intros x Hx;
              apply elem_of_difference in Hx; tauto ]. }
  destruct (Hnote _ _ eq_refl) as (t1 & Ht1 & Hc1 & HW1 & HA1).
  unfold bind at 1 in Hrun. unfold command in Hrun.
  destruct (amd_dbgapi_event_processed api event_id (world st1))
    as [status w2].
  unfold bind at 1 in Hrun.
  destruct status; cbn in Hrun; try discriminate.
  apply IH in Hrun as (t2 & events & Ht2 & Hc2 & HW2 & HA2).
  cbn in Ht2, Ht1.
  exists ([call process_next_pending_event] ++ t1
          ++ [call (event_processed event_id)] ++ t2), (event_id :: events).
  split; [| split; [| split]].
  - rewrite Ht2, Ht1. rewrite <- !app_assoc. reflexivity.
  - unfold Trace.event_calls in *. rewrite !omap_app, Hc1, Hc2.
    reflexivity.
  - etransitivity; eassumption.
  - etransitivity; eassumption.
Qed.
End DrainFacts.



(** ** Source lines in the disassembly *)

Section SourceLineFacts.
Import SourceLines.

Lemma back_up_spec m file_name prev fuel : forall first,
  0 <= prev < first -> first < 2 ^ 64 ->
  (Z.to_nat (first - prev) <= fuel)%nat ->
  exists r,
    back_up fuel m file_name prev first = Some r
    /\ prev <= r < first
    /\ (forall l, r < l < first -> mentions m file_name l = false)
    /\ (r = prev \/ mentions m file_name r = true).
Proof.
  induction fuel as [| fuel IH]; intros first Hprev Hfirst Hfuel; [lia |].
  cbn [back_up]. unfold wrap64. rewrite Z.mod_small by lia.
  destruct (prev <? first - 1) eqn:Hcmp.
  - apply Z.ltb_lt in Hcmp.
    destruct (mentions m file_name (first - 1)) eqn:Hm.
    + exists (first - 1). split; [reflexivity |]. split; [lia |].
      split; [intros l Hl; lia | right; exact Hm].
    + destruct (IH (first - 1)) as (r & -> & Hr & Hnone & Hend);
        [lia | lia | lia |].
      exists r. split; [reflexivity |]. split; [lia |]. split; [| exact Hend].
      intros l Hl. destruct (Z.eq_dec l (first - 1)) as [-> | Hne];
        [exact Hm | apply Hnone; lia].
  - apply Z.ltb_ge in Hcmp. exists (first - 1). split; [reflexivity |].
    split; [lia |]. split; [intros l Hl; lia | left; lia].
Qed.

(** X18. The block of source lines printed for an instruction of a new
    line: when the previous line printed is an earlier line of the same
    file, the block starts right after the nearest earlier line that is
    the previous line or has code of its own, so every line printed before
    the instruction's own line has no entry in the line table; otherwise
    the block is the instruction's line alone. *)
Theorem first_line_skips_lines_without_code
        (m : Disassemble.line_number_map)
        (prev_file_name file_name : string)
        (prev_line_number line_number : Z) (fuel : nat) :
  0 <= prev_line_number -> 0 <= line_number < 2 ^ 64 - 1 ->
  (Z.to_nat (line_number - prev_line_number) <= fuel)%nat ->
  (file_name = prev_file_name -> prev_line_number < line_number ->
   exists first,
     SourceLines.first_line fuel m prev_file_name prev_line_number
                            file_name line_number = Some first
     /\ prev_line_number < first <= line_number
     /\ (forall l, first <= l < line_number ->
                   SourceLines.mentions m file_name l = false)
     /\ (first = prev_line_number + 1
         \/ SourceLines.mentions m file_name (first - 1) = true))
  /\ (file_name <> prev_file_name \/ line_number < prev_line_number ->
      SourceLines.first_line fuel m prev_file_name prev_line_number
                             file_name line_number = Some line_number).
Proof.
  intros Hprev Hline Hfuel. unfold first_line, wrap64.
  rewrite (Z.mod_small (line_number + 1)) by lia. split.
  - intros -> Hlt. rewrite String.eqb_refl.
    replace (prev_line_number <? line_number + 1) with true
      by (symmetry; apply Z.ltb_lt; lia).
    cbn [andb].
    destruct (back_up_spec m prev_file_name prev_line_number fuel line_number)
      as (r & -> & Hr & Hnone & Hend); [lia | lia | lia |].
    rewrite Z.mod_small by lia.
    exists (r + 1). split; [reflexivity |]. split; [lia |]. split.
    + intros l Hl. apply Hnone. lia.
    + replace (r + 1 - 1) with r by lia.
      destruct Hend as [-> | Hm]; [left; reflexivity | right; exact Hm].
  - intros [Hne | Hlt].
    + apply String.eqb_neq in Hne. rewrite Hne. reflexivity.
    + replace (prev_line_number <? line_number + 1) with false
        by (symmetry; apply Z.ltb_ge; lia).
      rewrite andb_false_r. reflexivity.
Qed.

Lemma first_line_skips_lines_without_code_witness :
  exists first,
    SourceLines.first_line 8 (Disassemble.two_lines 1000)
                           "kernel.cpp" 3 "kernel.cpp" 10 = Some first
    /\ 3 < first <= 10
    /\ (forall l, first <= l < 10 ->
                  SourceLines.mentions (Disassemble.two_lines 1000)
                                       "kernel.cpp" l = false)
    /\ (first = 3 + 1
        \/ SourceLines.mentions (Disassemble.two_lines 1000)
                                "kernel.cpp" (first - 1) = true).
Proof.
  apply (first_line_skips_lines_without_code
           (Disassemble.two_lines 1000) "kernel.cpp" "kernel.cpp" 3 10 8);
    [lia | lia | lia | reflexivity | lia].
Defined.

Lemma getlines_line line : forall cur content,
  Forall (fun c => c <> "010"%char) line ->
  getlines (line ++ "010"%char :: content) cur
  = (cur ++ line) :: getlines content [].
Proof.
  induction line as [| c line IH]; intros cur content Hline.
  - simpl. rewrite app_nil_r. reflexivity.
  - inversion Hline as [| ? ? Hc Hrest]; subst. cbn [app getlines].
    destruct (Ascii.eqb_spec c "010"); [contradiction |].
    rewrite IH by exact Hrest. rewrite <- app_assoc. reflexivity.
Qed.

Lemma getlines_unlines lines :
  Forall (Forall (fun c => c <> "010"%char)) lines ->
  getlines (unlines lines) [] = lines.
Proof.
  induction 1 as [| line lines Hline _ IH]; [reflexivity |].
  unfold unlines in *. cbn [flat_map]. rewrite <- app_assoc.
  cbn [app]. rewrite getlines_line by exact Hline. rewrite IH. reflexivity.
Qed.

(** X19. The cache of source files: a file is read at most once, so once
    its lines were returned every later request returns the same lines
    whatever the file holds by then; a file that cannot be opened is not
    remembered and is tried again; other files are not affected; and the
    lines of a file are its text between the newline characters. *)
Theorem get_source_file_index_reads_once
        (files : string -> option (list ascii))
        (cache : SourceLines.file_map) (file_name : string) :
  let result := SourceLines.get_source_file_index files cache file_name in
  (forall lines files',
      result.1 = Some lines ->
      SourceLines.get_source_file_index files' result.2 file_name
      = (Some lines, result.2))
  /\ (result.1 = None ->
      result.2 = cache /\ files file_name = None
      /\ forall content files',
          files' file_name = Some content ->
          (SourceLines.get_source_file_index files' result.2 file_name).1
          = Some (SourceLines.getlines content []))
  /\ (forall other, other <> file_name -> result.2 !! other = cache !! other)
  /\ (forall lines,
         cache !! file_name = None ->
         Forall (Forall (fun c => c <> "010"%char)) lines ->
         files file_name = Some (SourceLines.unlines lines) ->
         result.1 = Some lines).
Proof.
  cbn zeta. unfold get_source_file_index.
  destruct (cache !! file_name) as [cached |] eqn:Hcached.
  - cbn [fst snd]. split; [| split; [| split]].
    + intros lines files' [= <-]. rewrite Hcached. reflexivity.
    + discriminate.
    + reflexivity.
    + discriminate.
  - destruct (files file_name) as [content |] eqn:Hfile; cbn [fst snd].
    + split; [| split; [| split]].
      * intros lines files' [= <-]. rewrite lookup_insert_eq. reflexivity.
      * discriminate.
      * intros other Hne. apply lookup_insert_ne. congruence.
      * intros lines _ Hlines [= ->]. rewrite getlines_unlines by exact Hlines.
        reflexivity.
    + split; [| split; [| split]].
      * discriminate.
      * intros _. split; [reflexivity |]. split; [reflexivity |].
        intros content files' Hfile'. rewrite Hcached, Hfile'. reflexivity.
      * reflexivity.
      * discriminate.
Qed.

Lemma get_source_file_index_reads_once_witness :
  let files name :=
    if String.eqb name "kernel.cpp"
    then Some (list_ascii_of_string
                 (String "a" (String "010" (String "b" (String "010" "")))))
    else None in
  let result := SourceLines.get_source_file_index files ∅ "kernel.cpp" in
  result.1 = Some [list_ascii_of_string "a"; list_ascii_of_string "b"]
  /\ forall files',
      SourceLines.get_source_file_index files' result.2 "kernel.cpp"
      = (Some [list_ascii_of_string "a"; list_ascii_of_string "b"], result.2).
Proof.
  cbn zeta. split; [reflexivity |]. intros files'.
  refine (proj1 (get_source_file_index_reads_once _ ∅ "kernel.cpp") _ _ _).
  reflexivity.
Defined.
End SourceLineFacts.

(** ** The stop reason in the wave header *)

Section StopReasonFacts.
Import ResumeMask StopReason.

Lemma pred_bits k x i :
  0 <= k -> 0 <= i -> 0 < x ->
  low_clear k x -> Z.testbit x k = true ->
  Z.testbit (x - 1) i
  = if i <? k then true else if i =? k then false else Z.testbit x i.
Proof.
  intros Hk Hi Hx Hlow Hbit.
  assert (Hmod : x mod 2 ^ k = 0) by (apply low_clear_mod; assumption).
  assert (Hpow : 0 < 2 ^ k) by (apply Z.pow_pos_nonneg; lia).
  set (m := x / 2 ^ (k + 1)).
  assert (Hx2 : x = 2 ^ (k + 1) * m + 2 ^ k).
  { rewrite Z.testbit_true in Hbit by lia.
    pose proof (Z.div_mod x (2 ^ k) ltac:(lia)) as Hd.
    pose proof (Z.div_mod (x / 2 ^ k) 2 ltac:(lia)) as Hd2.
    unfold m. rewrite Z.pow_add_r by lia. rewrite <- Z.div_div by lia.
    change (2 ^ 1) with 2. nia. }
  assert (Hx1 : x - 1 = 2 ^ (k + 1) * m + Z.ones k).
  { rewrite Z.ones_equiv. lia. }
  assert (Hones : 0 <= Z.ones k < 2 ^ k) by (rewrite Z.ones_equiv; lia).
  destruct (i <? k) eqn:Hik.
  - apply Z.ltb_lt in Hik.
    rewrite <- (Z.mod_pow2_bits_low (x - 1) k i) by lia.
    replace ((x - 1) mod 2 ^ k) with (Z.ones k).
    + apply Z.ones_spec_low. lia.
    + apply (Z.mod_unique_pos _ _ (2 * m)); [exact Hones |].
      rewrite Hx1, Z.pow_add_r by lia. change (2 ^ 1) with 2. lia.
  - apply Z.ltb_ge in Hik. destruct (i =? k) eqn:Hieq.
    + apply Z.eqb_eq in Hieq. subst i.
      rewrite <- (Z.mod_pow2_bits_low (x - 1) (k + 1) k) by lia.
      replace ((x - 1) mod 2 ^ (k + 1)) with (Z.ones k).
      * apply Z.ones_spec_high. lia.
      * apply (Z.mod_unique_pos _ _ m); [| lia].
        rewrite Z.pow_add_r by lia. change (2 ^ 1) with 2. lia.
    + apply Z.eqb_neq in Hieq.
      replace i with ((i - (k + 1)) + (k + 1)) by lia.
      rewrite <- !Z.div_pow2_bits by lia. f_equal.
      fold m. symmetry. apply (Z.div_unique_pos _ _ _ (Z.ones k)); [| lia].
      rewrite Z.pow_add_r by lia. change (2 ^ 1) with 2. lia.
Qed.

Lemma lowest_bit_pow2 k x :
  0 <= k -> 0 < x < 2 ^ 32 ->
  low_clear k x -> Z.testbit x k = true ->
  lowest_bit x = 2 ^ k.
Proof.
  intros Hk Hx Hlow Hbit. unfold lowest_bit, wrap32.
  rewrite (Z.mod_small (x - 1)) by lia.
  apply Z.bits_inj'. intros i Hi.
  rewrite Z.lxor_spec, Z.land_spec, (pred_bits k x i) by (assumption || lia).
  rewrite Z.pow2_bits_eqb by lia.
  destruct (i <? k) eqn:Hik.
  - apply Z.ltb_lt in Hik. rewrite (Hlow i) by lia.
    symmetry. apply Z.eqb_neq. lia.
  - apply Z.ltb_ge in Hik. rewrite (Z.eqb_sym k i).
    destruct (i =? k) eqn:Hieq.
    + apply Z.eqb_eq in Hieq. subst i. rewrite Hbit. reflexivity.
    + destruct (Z.testbit x i); reflexivity.
Qed.

Lemma set_bits_from_step k mask :
  0 <= k < 32 ->
  set_bits_from k mask
  = (if Z.testbit mask k then [2 ^ k] else []) ++ set_bits_from (k + 1) mask.
Proof.
  intros Hk. unfold set_bits_from. rewrite (seqZ_cons k) by lia.
  cbn [omap list_omap]. replace (Z.pred (32 - k)) with (32 - (k + 1)) by lia.
  replace (Z.succ k) with (k + 1) by lia.
  destruct (Z.testbit mask k); reflexivity.
Qed.

Lemma set_bits_from_ext k a b :
  0 <= k ->
  (forall i, k <= i < 32 -> Z.testbit a i = Z.testbit b i) ->
  set_bits_from k a = set_bits_from k b.
Proof.
  intros Hk Hsame. unfold set_bits_from.
  assert (Hall : Forall (fun i => k <= i < 32) (seqZ k (32 - k))).
  { apply Forall_forall. intros i Hi. apply elem_of_seqZ in Hi. lia. }
  induction Hall as [| i l Hi _ IH]; [reflexivity |].
  cbn [omap list_omap]. rewrite (Hsame i Hi), IH. reflexivity.
Qed.

Lemma set_bits_from_0 k : 0 <= k -> set_bits_from k 0 = [].
Proof.
  intros Hk. unfold set_bits_from.
  induction (seqZ k (32 - k)) as [| i l IH]; [reflexivity |].
  cbn [omap list_omap]. rewrite Z.bits_0. exact IH.
Qed.

Variable h : dbgapi_header.

Lemma name_loop_spec n : forall fuel k bits str,
  n = Z.to_nat (32 - k) -> 0 <= k <= 32 ->
  low_clear k bits -> 0 < bits < 2 ^ 32 -> (n < fuel)%nat ->
  name_loop h fuel bits str
  = Some (fold_left (add_name) (name_of h <$> set_bits_from k bits) str).
Proof.
  induction n as [| n IH]; intros fuel k bits str Hn Hk Hlow Hbits Hfuel.
  - assert (k = 32) by lia. subst k.
    pose proof (low_clear_all bits ltac:(lia) Hlow). lia.
  - assert (Hk32 : k < 32) by lia.
    rewrite set_bits_from_step by lia.
    destruct (Z.testbit bits k) eqn:Hbit.
    + destruct fuel as [| fuel]; [lia |]. cbn [name_loop].
      rewrite (lowest_bit_pow2 k bits) by (assumption || lia).
      assert (Hrest : forall i, k + 1 <= i < 32 ->
                                Z.testbit (Z.lxor bits (2 ^ k)) i
                                = Z.testbit bits i).
      { intros i Hi. rewrite Z.lxor_spec, Z.pow2_bits_false by lia.
        apply xorb_false_r. }
      rewrite <- (set_bits_from_ext (k + 1) _ _ ltac:(lia) Hrest).
      cbn [app fmap list_fmap fold_left].
      destruct (Z.lxor bits (2 ^ k) =? 0) eqn:Hzero.
      * apply Z.eqb_eq in Hzero. rewrite Hzero.
        rewrite set_bits_from_0 by lia. reflexivity.
      * apply Z.eqb_neq in Hzero.
        assert (Hrange : 0 <= Z.lxor bits (2 ^ k) < 2 ^ 32).
        { rewrite <- (lowest_bit_pow2 k bits) by (assumption || lia).
          rewrite consume_one_bit by lia. apply land_pred_range. lia. }
        apply IH; try lia.
        intros i Hi. rewrite Z.lxor_spec, Z.pow2_bits_eqb by lia.
        destruct (Z.eq_dec i k) as [-> | Hne].
        -- rewrite Hbit, Z.eqb_refl. reflexivity.
        -- rewrite (Hlow i) by lia.
           replace (k =? i) with false by (symmetry; apply Z.eqb_neq; lia).
           reflexivity.
    + cbn [app]. apply IH; try lia.
      intros i Hi. destruct (Z.eq_dec i k) as [-> | Hne];
        [exact Hbit | apply Hlow; lia].
Qed.
End StopReasonFacts.

(** X20. The stop reason written in the header of a wave: for every
    32-bit mask the loop comes to an end; a non-zero mask gives the names
    of its set bits, the lowest bit first, each name after the first
    non-empty text preceded by a bar, and a bit that is no enumerator
    contributes an empty name; the mask 0 gives the name of the enumerator
    with value 0 alone. *)
Theorem stop_reason_str_names_set_bits
        (h : ResumeMask.dbgapi_header) (stop_reason : Z) :
  0 <= stop_reason < 2 ^ 32 ->
  StopReason.stop_reason_str h stop_reason
  = Some (if stop_reason =? 0 then StopReason.name_of h 0
          else fold_left StopReason.add_name
                         (StopReason.name_of h
                            <$> StopReason.set_bits stop_reason) "").
Proof.
  intros Hrange. unfold StopReason.stop_reason_str.
  destruct (stop_reason =? 0) eqn:Hzero.
  - apply Z.eqb_eq in Hzero. subst. reflexivity.
  - apply Z.eqb_neq in Hzero.
    apply (name_loop_spec h 32 33 0); try lia.
    intros i Hi. lia.
Qed.

Lemma stop_reason_str_names_set_bits_witness :
  StopReason.stop_reason_str
    ResumeMask.amd_dbgapi_h ResumeMask.fp_overflow_memory_violation_debug_trap
  = Some "FP_OVERFLOW|DEBUG_TRAP|MEMORY_VIOLATION"%string
  /\ StopReason.stop_reason_str
       ResumeMask.amd_dbgapi_h
       ResumeMask.fp_overflow_memory_violation_debug_trap
     = Some (if ResumeMask.fp_overflow_memory_violation_debug_trap =? 0
             then StopReason.name_of ResumeMask.amd_dbgapi_h 0
             else fold_left
                    StopReason.add_name
                    (StopReason.name_of ResumeMask.amd_dbgapi_h
                       <$> StopReason.set_bits
                             ResumeMask.fp_overflow_memory_violation_debug_trap)
                    "").
Proof.
  split; [vm_compute; reflexivity |].
  apply stop_reason_str_names_set_bits. vm_compute. split; congruence.
Defined.

(** ** [print_registers] *)

Section RegisterFacts.
Import Registers.
Variable env : register_file.

Lemma print_class_once register_class_id register_ids :
  forall printed last_register_size column,
    let run := print_class env register_class_id register_ids printed
                           last_register_size column in
    NoDup (registers_of run.2)
    /\ (forall id, id ∈ registers_of run.2 ->
                   id ∉ printed /\ id ∈ register_ids
                   /\ is_member env register_class_id id
                      = (Agent.AMD_DBGAPI_STATUS_SUCCESS, true))
    /\ run.1.2 = printed ∪ list_to_set (registers_of run.2).
Proof.
  induction register_ids as [| id rest IH]; intros printed last column;
    cbn zeta.
  - simpl. split; [constructor |]. split; [intros id Hin; inversion Hin |].
    set_solver.
  - cbn [print_class]. case_bool_decide as Hprinted.
    { specialize (IH printed last column). cbn zeta in IH.
      destruct IH as (Hnd & Hin & Hset). split; [exact Hnd |].
      split; [| exact Hset]. intros id' Hid'.
      destruct (Hin id' Hid') as (H1 & H2 & H3).
      repeat split; auto using list_elem_of_further. }
    destruct (is_member env register_class_id id) as [status member] eqn:Hm.
    destruct (succeeded status) eqn:Hstatus; cbn [negb].
    2:{ simpl. split; [constructor |].
        split; [intros id' Hin; inversion Hin | set_solver]. }
    destruct status; try discriminate.
    destruct member; cbn [negb].
    2:{ specialize (IH printed last column). cbn zeta in IH.
        destruct IH as (Hnd & Hin & Hset). split; [exact Hnd |].
        split; [| exact Hset]. intros id' Hid'.
        destruct (Hin id' Hid') as (H1 & H2 & H3).
        repeat split; auto using list_elem_of_further. }
    destruct (register_name env id) as [s_name name].
    destruct (register_type env id) as [s_type type].
    destruct (register_size env id) as [s_size size].
    destruct (read_register env id size) as [s_read value].
    destruct (negb (succeeded s_name) || negb (succeeded s_type)
              || negb (succeeded s_size) || negb (succeeded s_read)).
    { simpl. split; [constructor |].
      split; [intros id' Hin; inversion Hin | set_solver]. }
    destruct (size =? 0).
    { simpl. split; [constructor |].
      split; [intros id' Hin; inversion Hin | set_solver]. }
    match goal with
    | |- context [print_class env register_class_id rest ?p ?l ?c] =>
        specialize (IH p l c); cbn zeta in IH;
        destruct (print_class env register_class_id rest p l c)
          as [[result printed'] output]
    end.
    cbn [fst snd] in *. destruct IH as (Hnd & Hin & Hset).
    assert (Hregs : forall pre : bool,
               registers_of ((if pre then [newline] else [])
                             ++ register_line id name type value :: output)
               = id :: registers_of output)
      by (intros []; reflexivity).
    rewrite Hregs. split; [| split].
    + constructor; [| exact Hnd]. intros Hid. apply Hin in Hid as [Hid _].
      set_solver.
    + intros id' Hid'. apply elem_of_cons in Hid' as [-> | Hid'].
      * split; [exact Hprinted |]. split; [apply list_elem_of_here | exact Hm].
      * destruct (Hin id' Hid') as (H1 & H2 & H3).
        split; [set_solver |]. split; [apply list_elem_of_further, H2 | exact H3].
    + rewrite Hset. set_solver.
Qed.

Lemma print_classes_once fuel register_ids :
  forall register_class_ids i printed,
    let run := print_classes env fuel register_class_ids register_ids i
                             printed in
    NoDup (registers_of run.2)
    /\ forall id, id ∈ registers_of run.2 ->
                  id ∉ printed /\ id ∈ register_ids.
Proof.
  induction fuel as [| fuel IH]; intros register_class_ids i printed;
    cbn zeta.
  - simpl. split; [constructor | intros id Hin; inversion Hin].
  - cbn [print_classes].
    destruct (register_class_ids !! i) as [register_class_id |].
    2:{ simpl. split; [constructor | intros id Hin; inversion Hin]. }
    destruct (class_name env register_class_id) as [status name].
    destruct (negb (succeeded status)).
    { simpl. split; [constructor | intros id Hin; inversion Hin]. }
    destruct (String.eqb name "general"
              && (i <? length register_class_ids - 1)%nat).
    { apply IH. }
    pose proof (print_class_once register_class_id register_ids printed 0 0)
      as Hclass. cbn zeta in Hclass.
    destruct (print_class env register_class_id register_ids printed 0 0)
      as [[result printed'] output]. cbn [fst snd] in Hclass.
    destruct Hclass as (Hnd & Hin & Hset).
    destruct result;
      try (cbn [snd]; unfold registers_of in *; cbn [omap list_omap];
           split; [exact Hnd |]; intros id Hid;
           destruct (Hin id Hid) as (H1 & H2 & _); auto).
    specialize (IH register_class_ids (S i) printed'). cbn zeta in IH.
    destruct (print_classes env fuel register_class_ids register_ids (S i)
                            printed') as [result' output'].
    cbn [snd] in *. destruct IH as (Hnd' & Hin').
    assert (Hregs : registers_of (class_header name
                                  :: output ++ end_of_class :: output')
                    = registers_of output ++ registers_of output').
    { unfold registers_of. cbn [omap list_omap]. rewrite omap_app.
      reflexivity. }
    rewrite Hregs. split.
    + apply NoDup_app. split; [exact Hnd |]. split; [| exact Hnd'].
      intros id Hid Hid'. apply Hin' in Hid' as [Hout _]. apply Hout.
      rewrite Hset. apply elem_of_union_r, elem_of_list_to_set. exact Hid.
    + intros id Hid. apply elem_of_app in Hid as [Hid | Hid].
      * destruct (Hin id Hid) as (H1 & H2 & _). auto.
      * destruct (Hin' id Hid) as (H1 & H2). split; [| exact H2].
        intros Hp. apply H1. rewrite Hset. apply elem_of_union_l, Hp.
Qed.
End RegisterFacts.

(** X21. [print_registers] prints no register twice, whatever the
    library answers and however the classes overlap: the registers printed
    are pairwise different registers of the wave's register list. *)
Theorem print_registers_prints_each_register_once
        (env : Registers.register_file) (fuel : nat) :
  let output := (Registers.print_registers env fuel).2 in
  NoDup (Registers.registers_of output)
  /\ forall register_id,
      register_id ∈ Registers.registers_of output ->
      register_id ∈ (Registers.wave_register_list env).2.
Proof.
  cbn zeta. unfold Registers.print_registers.
  destruct (Registers.wave_architecture env) as [s_arch architecture_id].
  destruct (negb (Registers.succeeded s_arch)).
  { simpl. split; [constructor | intros id Hin; inversion Hin]. }
  destruct (Registers.register_class_list env architecture_id)
    as [s_classes register_class_ids].
  destruct (negb (Registers.succeeded s_classes)).
  { simpl. split; [constructor | intros id Hin; inversion Hin]. }
  destruct (Registers.wave_register_list env) as [s_registers register_ids].
  destruct (negb (Registers.succeeded s_registers)).
  { simpl. split; [constructor | intros id Hin; inversion Hin]. }
  destruct (print_classes_once env fuel register_ids register_class_ids 0 ∅)
    as [Hnd Hin].
  split; [exact Hnd |]. intros id Hid. apply (Hin id Hid).
Qed.

Section ClassOrderFacts.
Import Registers.
Variable env : register_file.
Variable register_ids : list Z.

Lemma print_class_plain register_class_id :
  forall ids printed last_register_size column,
    let run := print_class env register_class_id ids printed
                           last_register_size column in
    run.1.1 <> out_of_fuel /\ classes_of run.2 = [].
Proof.
  induction ids as [| id rest IH]; intros printed last column; cbn zeta.
  - simpl. split; [discriminate | reflexivity].
  - cbn [print_class]. case_bool_decide; [apply IH |].
    destruct (is_member env register_class_id id) as [status member].
    destruct (negb (succeeded status));
      [simpl; split; [discriminate | reflexivity] |].
    destruct (negb member); [apply IH |].
    destruct (register_name env id) as [s_name name].
    destruct (register_type env id) as [s_type type].
    destruct (register_size env id) as [s_size size].
    destruct (read_register env id size) as [s_read value].
    destruct (negb (succeeded s_name) || negb (succeeded s_type)
              || negb (succeeded s_size) || negb (succeeded s_read));
      [simpl; split; [discriminate | reflexivity] |].
    destruct (size =? 0); [simpl; split; [discriminate | reflexivity] |].
    match goal with
    | |- context [print_class env register_class_id rest ?p ?l ?c] =>
        specialize (IH p l c); cbn zeta in IH;
        destruct (print_class env register_class_id rest p l c)
          as [[result printed'] output]
    end.
    cbn [fst snd] in *. destruct IH as [Hresult Hclasses].
    split; [exact Hresult |].
    match goal with |- context [if ?b then _ else _] => destruct b end;
      exact Hclasses.
Qed.

Lemma classes_of_class name output output' :
  classes_of output = [] ->
  classes_of (class_header name :: output ++ end_of_class :: output')
  = name :: classes_of output'.
Proof.
  intros Hplain. unfold classes_of in *. cbn [omap list_omap].
  rewrite omap_app, Hplain. reflexivity.
Qed.

(** From index [i] on, no class but perhaps the last one is "general". *)
Lemma print_classes_plain fuel :
  forall ids i printed,
    (forall j id, (i <= j)%nat -> (j < length ids - 1)%nat ->
                  ids !! j = Some id -> class_label env id <> "general") ->
    (length ids - i < fuel)%nat ->
    let run := print_classes env fuel ids register_ids i printed in
    run.1 <> out_of_fuel
    /\ (run.1 = finished -> classes_of run.2 = class_label env <$> drop i ids).
Proof.
  induction fuel as [| fuel IH]; intros ids i printed Hplain Hfuel;
    [lia |]. cbn zeta. cbn [print_classes].
  destruct (ids !! i) as [id |] eqn:Hid.
  2:{ simpl. split; [discriminate |]. intros _.
      apply lookup_ge_None in Hid. rewrite drop_ge by lia. reflexivity. }
  pose proof (lookup_lt_Some _ _ _ Hid) as Hlt.
  assert (Hlabel : class_label env id = (class_name env id).2) by reflexivity.
  destruct (class_name env id) as [status name]. cbn [snd] in Hlabel.
  destruct (negb (succeeded status));
    [simpl; split; [discriminate | discriminate] |].
  assert (Hno : String.eqb name "general" && (i <? length ids - 1)%nat
                = false).
  { destruct (i <? length ids - 1)%nat eqn:Hi;
      [| apply andb_false_r].
    apply Nat.ltb_lt in Hi. rewrite andb_true_r. apply String.eqb_neq.
    rewrite <- Hlabel. exact (Hplain i id (le_n _) Hi Hid). }
  rewrite Hno.
  pose proof (print_class_plain id register_ids printed 0 0) as Hclass.
  cbn zeta in Hclass.
  destruct (print_class env id register_ids printed 0 0)
    as [[result printed'] output]. cbn [fst snd] in Hclass.
  destruct Hclass as [Hresult Hclasses].
  destruct result; try (simpl; split; [congruence | discriminate]).
  specialize (IH ids (S i) printed'). cbn zeta in IH.
  destruct (print_classes env fuel ids register_ids (S i) printed')
    as [result' output']. cbn [fst snd] in *.
  destruct IH as [Hfine Horder].
  { intros j id' Hj. apply Hplain. lia. }
  { lia. }
  split; [exact Hfine |]. intros Hdone.
  rewrite (classes_of_class _ _ _ Hclasses), (Horder Hdone).
  rewrite (drop_S _ _ _ Hid), fmap_cons, Hlabel. reflexivity.
Qed.

(** Exactly one class, at index [i0], is "general". *)
Lemma print_classes_general fuel ids i0 g :
  ids !! i0 = Some g ->
  class_label env g = "general" ->
  (forall j id, ids !! j = Some id -> class_label env id = "general" -> j = i0) ->
  forall i printed,
    (i <= i0)%nat -> (length ids - i + 1 < fuel)%nat ->
    let run := print_classes env fuel ids register_ids i printed in
    run.1 <> out_of_fuel
    /\ (run.1 = finished ->
        classes_of run.2 = class_label env <$> drop i (general_moved ids i0 g)).
Proof.
  intros Hg Hgeneral Hunique. pose proof (lookup_lt_Some _ _ _ Hg) as Hi0.
  induction fuel as [| fuel IH]; intros i printed Hi Hfuel; [lia |].
  cbn zeta. cbn [print_classes].
  destruct (ids !! i) as [id |] eqn:Hid.
  2:{ apply lookup_ge_None in Hid. lia. }
  assert (Hlabel : class_label env id = (class_name env id).2) by reflexivity.
  destruct (class_name env id) as [status name]. cbn [snd] in Hlabel.
  destruct (negb (succeeded status));
    [simpl; split; [discriminate | discriminate] |].
  destruct (decide (i = i0)) as [-> | Hne].
  - assert (id = g) as -> by congruence.
    rewrite <- Hlabel, Hgeneral, String.eqb_refl.
    destruct (i0 <? length ids - 1)%nat eqn:Hlast; cbn [andb].
    + apply Nat.ltb_lt in Hlast. fold (general_moved ids i0 g).
      assert (Hlen : length (general_moved ids i0 g) = length ids).
      { unfold general_moved. rewrite !length_insert. reflexivity. }
      pose proof (print_classes_plain fuel (general_moved ids i0 g) i0
                                      printed) as Hplain.
      cbn zeta in Hplain. apply Hplain; [| lia].
      intros j id Hj Hjlast Hjid Hjgeneral. rewrite Hlen in Hjlast.
      unfold general_moved in Hjid.
      rewrite list_lookup_insert_ne in Hjid by lia.
      destruct (decide (j = i0)) as [-> | Hj0].
      * rewrite list_lookup_insert_eq in Hjid by lia.
        destruct (ids !! (length ids - 1)%nat) as [l |] eqn:Hl;
          [| apply lookup_ge_None in Hl; lia].
        cbn in Hjid. assert (l = id) as -> by congruence.
        pose proof (Hunique _ _ Hl Hjgeneral). lia.
      * rewrite list_lookup_insert_ne in Hjid by lia.
        pose proof (Hunique _ _ Hjid Hjgeneral). lia.
    + apply Nat.ltb_ge in Hlast.
      assert (Hsame : general_moved ids i0 g = ids).
      { unfold general_moved.
        replace (length ids - 1)%nat with i0 by lia.
        rewrite Hg. cbn. rewrite list_insert_insert_eq.
        apply list_insert_id, Hg. }
      rewrite Hsame.
      pose proof (print_class_plain g register_ids printed 0 0) as Hclass.
      cbn zeta in Hclass.
      destruct (print_class env g register_ids printed 0 0)
        as [[result printed'] output]. cbn [fst snd] in Hclass.
      destruct Hclass as [Hresult Hclasses].
      destruct result; try (simpl; split; [congruence | discriminate]).
      pose proof (print_classes_plain fuel ids (S i0) printed') as Hplain.
      cbn zeta in Hplain.
      destruct (print_classes env fuel ids register_ids (S i0) printed')
        as [result' output']. cbn [fst snd] in *.
      destruct Hplain as [Hfine Horder]; [intros; lia | lia |].
      split; [exact Hfine |]. intros Hdone.
      rewrite (classes_of_class _ _ _ Hclasses), (Horder Hdone).
      rewrite (drop_S _ _ _ Hg), fmap_cons, Hgeneral. reflexivity.
  - assert (Hname : String.eqb name "general" = false).
    { apply String.eqb_neq. rewrite <- Hlabel. intros Hgen.
      apply Hne, (Hunique _ _ Hid Hgen). }
    rewrite Hname. cbn [andb].
    pose proof (print_class_plain id register_ids printed 0 0) as Hclass.
    cbn zeta in Hclass.
    destruct (print_class env id register_ids printed 0 0)
      as [[result printed'] output]. cbn [fst snd] in Hclass.
    destruct Hclass as [Hresult Hclasses].
    destruct result; try (simpl; split; [congruence | discriminate]).
    specialize (IH (S i) printed'). cbn zeta in IH.
    destruct (print_classes env fuel ids register_ids (S i) printed')
      as [result' output']. cbn [fst snd] in *.
    destruct IH as [Hfine Horder]; [lia | lia |].
    split; [exact Hfine |]. intros Hdone.
    rewrite (classes_of_class _ _ _ Hclasses), (Horder Hdone).
    assert (Hmoved : general_moved ids i0 g !! i = Some id).
    { unfold general_moved. rewrite !list_lookup_insert_ne by lia.
      exact Hid. }
    rewrite (drop_S _ _ _ Hmoved), fmap_cons, Hlabel. reflexivity.
Qed.

(** The last class is "general" and so is an earlier one. *)
Lemma print_classes_swaps_forever fuel :
  forall ids i j f l printed,
    (i <= j)%nat -> (j < length ids - 1)%nat ->
    ids !! j = Some f -> class_label env f = "general" ->
    ids !! (length ids - 1)%nat = Some l -> class_label env l = "general" ->
    (print_classes env fuel ids register_ids i printed).1 <> finished.
Proof.
  induction fuel as [| fuel IH];
    intros ids i j f l printed Hij Hj Hf Hfg Hl Hlg; [discriminate |].
  cbn [print_classes].
  destruct (ids !! i) as [id |] eqn:Hid.
  2:{ apply lookup_ge_None in Hid. lia. }
  assert (Hlabel : class_label env id = (class_name env id).2) by reflexivity.
  destruct (class_name env id) as [status name]. cbn [snd] in Hlabel.
  destruct (negb (succeeded status)); [discriminate |].
  assert (Hi : (i <? length ids - 1)%nat = true) by (apply Nat.ltb_lt; lia).
  rewrite Hi, andb_true_r, Hl. cbn [default].
  destruct (String.eqb name "general") eqn:Hname.
  - apply String.eqb_eq in Hname. rewrite Hname in Hlabel.
    apply (IH _ i i l id); [lia | rewrite !length_insert; lia | | exact Hlg
                            | | exact Hlabel].
    + rewrite list_lookup_insert_ne by lia.
      apply list_lookup_insert_eq. lia.
    + rewrite !length_insert. apply list_lookup_insert_eq.
      rewrite length_insert. lia.
  - pose proof (print_class_plain id register_ids printed 0 0) as Hclass.
    cbn zeta in Hclass.
    destruct (print_class env id register_ids printed 0 0)
      as [[result printed'] output]. cbn [fst snd] in Hclass.
    destruct result; try discriminate.
    assert (i <> j).
    { intros ->. apply String.eqb_neq in Hname. congruence. }
    pose proof (IH ids (S i) j f l printed' ltac:(lia) Hj Hf Hfg Hl Hlg)
      as Hnever.
    destruct (print_classes env fuel ids register_ids (S i) printed')
      as [result' output']. exact Hnever.
Qed.

(** Two classes are "general". *)
Lemma print_classes_two_general fuel :
  forall ids i j1 j2 g1 g2 printed,
    (i <= j1)%nat -> (j1 < j2)%nat ->
    ids !! j1 = Some g1 -> class_label env g1 = "general" ->
    ids !! j2 = Some g2 -> class_label env g2 = "general" ->
    (print_classes env fuel ids register_ids i printed).1 <> finished.
Proof.
  induction fuel as [| fuel IH];
    intros ids i j1 j2 g1 g2 printed Hi Hj Hg1 Hl1 Hg2 Hl2; [discriminate |].
  pose proof (lookup_lt_Some _ _ _ Hg2) as Hlen.
  cbn [print_classes].
  destruct (ids !! i) as [id |] eqn:Hid.
  2:{ apply lookup_ge_None in Hid. lia. }
  assert (Hlabel : class_label env id = (class_name env id).2) by reflexivity.
  destruct (class_name env id) as [status name]. cbn [snd] in Hlabel.
  destruct (negb (succeeded status)); [discriminate |].
  assert (Hilast : (i <? length ids - 1)%nat = true)
    by (apply Nat.ltb_lt; lia).
  rewrite Hilast, andb_true_r.
  destruct (String.eqb name "general") eqn:Hname.
  - apply String.eqb_eq in Hname. rewrite Hname in Hlabel.
    destruct (ids !! (length ids - 1)%nat) as [l |] eqn:Hl;
      [| apply lookup_ge_None in Hl; lia].
    cbn [default].
    destruct (decide (j2 = length ids - 1)%nat) as [Hlast | Hlast].
    + assert (l = g2) as -> by congruence.
      apply (print_classes_swaps_forever fuel _ i i g2 id);
        [lia | rewrite !length_insert; lia | | exact Hl2 | | exact Hlabel].
      * rewrite list_lookup_insert_ne by lia.
        apply list_lookup_insert_eq. lia.
      * rewrite !length_insert. apply list_lookup_insert_eq.
        rewrite length_insert. lia.
    + apply (print_classes_swaps_forever fuel _ i j2 g2 id);
        [lia | rewrite !length_insert; lia | | exact Hl2 | | exact Hlabel].
      * rewrite !list_lookup_insert_ne by lia. exact Hg2.
      * rewrite !length_insert. apply list_lookup_insert_eq.
        rewrite length_insert. lia.
  - pose proof (print_class_plain id register_ids printed 0 0) as Hclass.
    cbn zeta in Hclass.
    destruct (print_class env id register_ids printed 0 0)
      as [[result printed'] output]. cbn [fst snd] in Hclass.
    destruct result; try discriminate.
    assert (i <> j1).
    { intros ->. apply String.eqb_neq in Hname. congruence. }
    pose proof (IH ids (S i) j1 j2 g1 g2 printed' ltac:(lia) Hj Hg1 Hl1
                   Hg2 Hl2) as Hnever.
    destruct (print_classes env fuel ids register_ids (S i) printed')
      as [result' output']. exact Hnever.
Qed.
End ClassOrderFacts.

(** X22. When at most one register class is called "general",
    [print_registers] leaves its loop over the classes after at most one
    more round than there are classes.  When it returns, the classes were
    headed in the order of the library's list, except that the class
    "general" has changed places with the last class and is printed
    last. *)
Theorem print_registers_prints_general_last
        (env : Registers.register_file) (fuel : nat)
        (architecture_id : Z) (register_class_ids : list Z) :
  Registers.wave_architecture env
  = (Agent.AMD_DBGAPI_STATUS_SUCCESS, architecture_id) ->
  Registers.register_class_list env architecture_id
  = (Agent.AMD_DBGAPI_STATUS_SUCCESS, register_class_ids) ->
  (forall i j a b,
      register_class_ids !! i = Some a -> register_class_ids !! j = Some b ->
      Registers.class_label env a = "general"%string ->
      Registers.class_label env b = "general"%string -> i = j) ->
  (length register_class_ids + 1 < fuel)%nat ->
  let run := Registers.print_registers env fuel in
  run.1 <> Registers.out_of_fuel
  /\ (run.1 = Registers.finished ->
      (forall i g,
          register_class_ids !! i = Some g ->
          Registers.class_label env g = "general"%string ->
          Registers.classes_of run.2
          = Registers.class_label env
              <$> Registers.general_moved register_class_ids i g
          /\ last (Registers.classes_of run.2) = Some "general"%string)
      /\ ((forall g, g ∈ register_class_ids ->
                     Registers.class_label env g <> "general"%string) ->
          Registers.classes_of run.2
          = Registers.class_label env <$> register_class_ids)).
Proof.
  intros Harch Hclasses Hunique Hfuel. cbn zeta.
  unfold Registers.print_registers. rewrite Harch. cbn [negb Registers.succeeded].
  rewrite Hclasses. cbn [negb Registers.succeeded].
  destruct (Registers.wave_register_list env) as [s_registers register_ids].
  destruct (negb (Registers.succeeded s_registers)).
  { simpl. split; [discriminate | discriminate]. }
  destruct (list_find (fun g => Registers.class_label env g
                                = "general"%string) register_class_ids)
    as [[i0 g0] |] eqn:Hfind.
  - apply list_find_Some in Hfind as (Hg0 & Hgeneral & _).
    pose proof (print_classes_general env register_ids fuel
                  register_class_ids i0 g0 Hg0 Hgeneral
                  (fun j id Hj Hl => Hunique j i0 id g0 Hj Hg0 Hl Hgeneral)
                  0%nat ∅ ltac:(lia) ltac:(lia)) as [Hfine Horder].
    split; [exact Hfine |]. intros Hdone. rewrite drop_0 in Horder.
    split.
    + intros i g Hg Hgen.
      assert (i = i0) as -> by exact (Hunique i i0 g g0 Hg Hg0 Hgen Hgeneral).
      assert (g = g0) as -> by congruence.
      split; [exact (Horder Hdone) |].
      rewrite (Horder Hdone), fmap_last, last_lookup.
      unfold Registers.general_moved. rewrite !length_insert.
      pose proof (lookup_lt_Some _ _ _ Hg0).
      replace (Init.Nat.pred (length register_class_ids))
        with (length register_class_ids - 1)%nat by lia.
      rewrite list_lookup_insert_eq by (rewrite length_insert; lia).
      cbn. rewrite Hgeneral. reflexivity.
    + intros Hno. exfalso. apply (Hno g0); [| exact Hgeneral].
      apply list_elem_of_lookup. eauto.
  - apply list_find_None in Hfind.
    assert (Hnone : forall j id, register_class_ids !! j = Some id ->
                                 Registers.class_label env id
                                 <> "general"%string)
      by (intros j id Hj; exact (proj1 (Forall_lookup _ _) Hfind j id Hj)).
    pose proof (print_classes_plain env register_ids fuel register_class_ids
                  0%nat ∅) as Hplain. cbn zeta in Hplain.
    destruct Hplain as [Hfine Horder].
    { intros j id _ _ Hj. exact (Hnone j id Hj). }
    { lia. }
    split; [exact Hfine |]. intros Hdone. rewrite drop_0 in Horder. split.
    + intros i g Hg Hgen. exfalso. exact (Hnone i g Hg Hgen).
    + intros _. exact (Horder Hdone).
Qed.

Lemma print_registers_prints_general_last_witness :
  let run := Registers.print_registers Registers.three_classes 5 in
  run.1 <> Registers.out_of_fuel
  /\ (run.1 = Registers.finished ->
      (forall i g,
          [10; 11; 12] !! i = Some g ->
          Registers.class_label Registers.three_classes g = "general"%string ->
          Registers.classes_of run.2
          = Registers.class_label Registers.three_classes
              <$> Registers.general_moved [10; 11; 12] i g
          /\ last (Registers.classes_of run.2) = Some "general"%string)
      /\ ((forall g, g ∈ [10; 11; 12] ->
                     Registers.class_label Registers.three_classes g
                     <> "general"%string) ->
          Registers.classes_of run.2
          = Registers.class_label Registers.three_classes <$> [10; 11; 12])).
Proof.
  apply (print_registers_prints_general_last Registers.three_classes 5 1
           [10; 11; 12]).
  - reflexivity.
  - reflexivity.
  - intros [| [| [| i]]] [| [| [| j]]] a b Ha Hb Hga Hgb;
      cbn in Ha, Hb; simplify_eq; try reflexivity; vm_compute in Hga, Hgb;
      discriminate.
  - simpl. lia.
Defined.

(** X23. When two register classes are called "general",
    [print_registers] does not return: a library call fails and the agent
    stops, a division by zero stops the process, or the loop over the
    classes keeps exchanging the two classes. *)
Theorem print_registers_two_general_never_returns
        (env : Registers.register_file)
        (architecture_id : Z) (register_class_ids : list Z)
        (j1 j2 : nat) (g1 g2 : Z) :
  Registers.wave_architecture env
  = (Agent.AMD_DBGAPI_STATUS_SUCCESS, architecture_id) ->
  Registers.register_class_list env architecture_id
  = (Agent.AMD_DBGAPI_STATUS_SUCCESS, register_class_ids) ->
  (j1 < j2)%nat ->
  register_class_ids !! j1 = Some g1 ->
  Registers.class_label env g1 = "general"%string ->
  register_class_ids !! j2 = Some g2 ->
  Registers.class_label env g2 = "general"%string ->
  forall fuel,
    (Registers.print_registers env fuel).1 <> Registers.finished.
Proof.
  intros Harch Hclasses Hj Hg1 Hl1 Hg2 Hl2 fuel.
  unfold Registers.print_registers. rewrite Harch. cbn [negb Registers.succeeded].
  rewrite Hclasses. cbn [negb Registers.succeeded].
  destruct (Registers.wave_register_list env) as [s_registers register_ids].
  destruct (negb (Registers.succeeded s_registers)); [discriminate |].
  exact (print_classes_two_general env register_ids fuel register_class_ids
           0%nat j1 j2 g1 g2 ∅ ltac:(lia) Hj Hg1 Hl1 Hg2 Hl2).
Qed.

Lemma print_registers_two_general_never_returns_witness :
  Registers.class_label Registers.all_general 10 = "general"%string
  /\ Registers.class_label Registers.all_general 11 = "general"%string
  /\ forall fuel,
      (Registers.print_registers Registers.all_general fuel).1
      <> Registers.finished.
Proof.
  split; [reflexivity |]. split; [reflexivity |].
  apply (print_registers_two_general_never_returns Registers.all_general 1
           [10; 11] 0 1 10 11); try reflexivity. lia.
Defined.

(** ** [load_debug_info] *)

Section DebugInfoFacts.
Import DebugInfo.
Variable dw : libdw.
Variable m_load_address : Z.

Lemma units_stuck cu_offset :
  unreadable dw cu_offset ->
  forall fuel maps, units dw m_load_address fuel cu_offset maps = None.
Proof.
  intros (next_offset & header_size & Hnext & Hbad).
  induction fuel as [| fuel IH]; intros maps; [reflexivity |].
  cbn [units]. rewrite Hnext.
  destruct Hbad as [Hdie | Hlines].
  - rewrite Hdie. cbn [negb]. apply IH.
  - destruct (dwarf_offdie dw (wrap64 (cu_offset + header_size)));
      cbn [negb]; [| apply IH].
    destruct (ranges_loop dw m_load_address fuel _ 0 maps.2);
      [| reflexivity].
    rewrite Hlines. apply IH.
Qed.

Lemma units_walks_to_stuck cu_offset readable stuck :
  walks_to dw cu_offset readable stuck ->
  unreadable dw stuck ->
  forall fuel maps, units dw m_load_address fuel cu_offset maps = None.
Proof.
  induction 1 as [cu | cu next header_size lines rest stuck Hnext Hdie
                          Hlines Hwalk IH];
    intros Hstuck fuel maps.
  - apply units_stuck, Hstuck.
  - destruct fuel as [| fuel]; [reflexivity |].
    cbn [units]. rewrite Hnext, Hdie. cbn [negb].
    destruct (ranges_loop dw m_load_address fuel _ 0 maps.2);
      [| reflexivity].
    rewrite Hlines. apply IH, Hstuck.
Qed.

Lemma fold_emplaced {V} (entries : list (Z * V)) :
  forall m : StdMap.t V,
    StdMap.sorted m ->
    StdMap.sorted (fold_left emplaced entries m)
    /\ forall a, StdMap.get a (fold_left emplaced entries m)
                 = match StdMap.get a m with
                   | Some v => Some v
                   | None => first_entry a entries
                   end.
Proof.
  induction entries as [| [k v] entries IH]; intros m Hsorted.
  - cbn. split; [exact Hsorted |]. intros a.
    destruct (StdMap.get a m); reflexivity.
  - cbn [fold_left]. unfold emplaced at 2 4. cbn [fst snd].
    destruct (StdMap.emplace k v m) as [[it success] m'] eqn:Hemplace.
    destruct (emplace_spec _ _ _ _ _ _ Hsorted Hemplace)
      as (Hsorted' & _ & Hget & _).
    cbn [snd]. destruct (IH m' Hsorted') as [Hfinal Hlookup].
    split; [exact Hfinal |]. intros a. rewrite Hlookup, Hget.
    unfold first_entry. cbn [List.find fst]. rewrite (Z.eqb_sym k a).
    destruct (a =? k) eqn:Hak.
    + apply Z.eqb_eq in Hak. subst a.
      destruct (StdMap.get k m); reflexivity.
    + reflexivity.
Qed.

Lemma fold_add_line lines :
  forall m,
    fold_left (add_line m_load_address) lines m
    = fold_left emplaced (omap (line_entry m_load_address) lines) m.
Proof.
  induction lines as [| line lines IH]; intros m; [reflexivity |].
  cbn [fold_left omap list_omap]. rewrite IH.
  destruct line as [l |]; [| reflexivity]. cbn [add_line line_entry].
  destruct (dwarf_lineaddr l) as [addr |]; [| reflexivity].
  destruct (dwarf_lineno l) as [line_number |]; [| reflexivity].
  destruct (line_number =? 0); reflexivity.
Qed.

(** libdw gives no range at offset 1. *)
Hypothesis single_range : forall die, (dwarf_ranges dw die 1).1.1 <= 0.

Lemma ranges_loop_once fuel die ranges :
  ranges_loop dw m_load_address (S (S fuel)) die 0 ranges
  = Some (fold_left emplaced
                    (option_list (range_entry dw m_load_address die)) ranges).
Proof.
  cbn [ranges_loop]. unfold range_entry.
  destruct (dwarf_ranges dw die 0) as [[result start] end_].
  destruct (0 <? result); [| reflexivity].
  change (1 =? 0) with false. cbn iota.
  pose proof (single_range die) as Hone.
  destruct (dwarf_ranges dw die 1) as [[result1 start1] end1].
  cbn [fst] in Hone.
  replace (0 <? result1) with false by (symmetry; apply Z.ltb_ge; lia).
  reflexivity.
Qed.

Lemma units_walks cu_offset read last_offset :
  walks_to dw cu_offset read last_offset ->
  dwarf_nextcu dw last_offset = None ->
  forall fuel maps,
    (length read + 2 <= fuel)%nat ->
    units dw m_load_address fuel cu_offset maps
    = Some (fold_left emplaced (line_entries m_load_address read) maps.1,
            fold_left emplaced (range_entries dw m_load_address read)
                      maps.2).
Proof.
  induction 1 as [cu | cu next header_size lines rest last_offset Hnext Hdie
                          Hlines Hwalk IH];
    intros Hend fuel maps Hfuel.
  - destruct fuel as [| fuel]; [cbn in Hfuel; lia |].
    cbn [units]. rewrite Hend. destruct maps; reflexivity.
  - cbn [length] in Hfuel.
    destruct fuel as [| fuel]; [lia |].
    cbn [units]. rewrite Hnext, Hdie. cbn [negb].
    destruct fuel as [| [| fuel]]; try lia.
    rewrite ranges_loop_once, Hlines, (IH Hend) by (cbn [length]; lia).
    cbn [fst snd]. rewrite fold_add_line.
    unfold line_entries, range_entries.
    cbn [flat_map omap list_omap fst snd]. rewrite fold_left_app.
    destruct (range_entry dw m_load_address (wrap64 (cu + header_size)));
      reflexivity.
Qed.
End DebugInfoFacts.

(** X25. [load_debug_info] does not return when it comes to a compilation
    unit whose DIE or whose line table libdw cannot give: both [continue]
    statements leave the unit offset as it is, so the loop asks for the same
    unit again. *)
Theorem load_debug_info_stuck_on_unreadable_unit
        (dw : DebugInfo.libdw) (m_load_address : Z)
        (read : list (Z * list (option DebugInfo.Dwarf_Line)))
        (cu_offset : Z) :
  DebugInfo.dwarf_begin dw = true ->
  DebugInfo.walks_to dw 0 read cu_offset ->
  DebugInfo.unreadable dw cu_offset ->
  forall fuel,
    DebugInfo.load_debug_info dw m_load_address fuel (None, None) = None.
Proof.
  intros Hbegin Hwalk Hstuck fuel. unfold DebugInfo.load_debug_info.
  rewrite Hbegin. cbn [negb].
  rewrite (units_walks_to_stuck dw m_load_address 0 read cu_offset Hwalk
             Hstuck).
  reflexivity.
Qed.

Lemma load_debug_info_stuck_on_unreadable_unit_witness :
  DebugInfo.dwarf_offdie (DebugInfo.two_units false) 111 = false
  /\ forall fuel,
      DebugInfo.load_debug_info (DebugInfo.two_units false) 0 fuel
                                (None, None)
      = None.
Proof.
  split; [reflexivity |].
  apply (load_debug_info_stuck_on_unreadable_unit
           (DebugInfo.two_units false) 0
           [(11, DebugInfo.first_unit_lines)] 100).
  - reflexivity.
  - apply (DebugInfo.walks_unit (DebugInfo.two_units false) 0 100 11
             DebugInfo.first_unit_lines [] 100);
      [reflexivity | reflexivity | reflexivity | apply DebugInfo.walks_here].
  - exists 200, 11. split; [reflexivity | left; reflexivity].
Defined.

(** X26. When every compilation unit can be read and libdw gives no range
    at offset 1, [load_debug_info] returns with both maps filled: an
    address of the line map has the file and line of the first line of the
    line tables with that address and a line number other than 0, and a
    low pc of the range map has the high pc of the first unit whose first
    range starts there.  Only the first range of a unit is filed. *)
Theorem load_debug_info_first_entry_wins
        (dw : DebugInfo.libdw) (m_load_address : Z)
        (read : list (Z * list (option DebugInfo.Dwarf_Line)))
        (last_offset : Z) (fuel : nat)
        (maps : option Disassemble.line_number_map
                * option Disassemble.pc_ranges_map) :
  maps.1 = None \/ maps.2 = None ->
  DebugInfo.dwarf_begin dw = true ->
  DebugInfo.walks_to dw 0 read last_offset ->
  DebugInfo.dwarf_nextcu dw last_offset = None ->
  (forall die, (DebugInfo.dwarf_ranges dw die 1).1.1 <= 0) ->
  (length read + 2 <= fuel)%nat ->
  exists lines ranges,
    DebugInfo.load_debug_info dw m_load_address fuel maps
    = Some (Some lines, Some ranges)
    /\ StdMap.sorted lines /\ StdMap.sorted ranges
    /\ (forall a, StdMap.get a lines
                  = DebugInfo.first_entry
                      a (DebugInfo.line_entries m_load_address read))
    /\ (forall a, StdMap.get a ranges
                  = DebugInfo.first_entry
                      a (DebugInfo.range_entries dw m_load_address read)).
Proof.
  intros Hmaps Hbegin Hwalk Hend Hsingle Hfuel.
  pose proof (units_walks dw m_load_address Hsingle 0 read last_offset Hwalk
                Hend fuel ([], []) Hfuel) as Hunits.
  cbn [fst snd] in Hunits.
  destruct (fold_emplaced (DebugInfo.line_entries m_load_address read) []
                          (sorted_nil (V := string * Z)))
    as [Hlines Hline].
  destruct (fold_emplaced (DebugInfo.range_entries dw m_load_address read) []
                          (sorted_nil (V := Z)))
    as [Hranges Hrange].
  eexists _, _. split; [| split; [exact Hlines | split; [exact Hranges |]]].
  - unfold DebugInfo.load_debug_info. rewrite Hbegin, Hunits. cbn [negb].
    destruct maps as [[lines |] [ranges |]]; cbn [fst snd] in Hmaps;
      try reflexivity.
    destruct Hmaps; discriminate.
  - split; intros a; [rewrite Hline | rewrite Hrange]; reflexivity.
Qed.

Lemma load_debug_info_first_entry_wins_witness :
  exists lines ranges,
    DebugInfo.load_debug_info (DebugInfo.two_units true) 0 4 (None, None)
    = Some (Some lines, Some ranges)
    /\ StdMap.sorted lines /\ StdMap.sorted ranges
    /\ (forall a, StdMap.get a lines
                  = DebugInfo.first_entry
                      a (DebugInfo.line_entries
                           0 [(11, DebugInfo.first_unit_lines);
                              (111, DebugInfo.second_unit_lines)]))
    /\ (forall a, StdMap.get a ranges
                  = DebugInfo.first_entry
                      a (DebugInfo.range_entries
                           (DebugInfo.two_units true) 0
                           [(11, DebugInfo.first_unit_lines);
                            (111, DebugInfo.second_unit_lines)])).
Proof.
  apply (load_debug_info_first_entry_wins
           (DebugInfo.two_units true) 0
           [(11, DebugInfo.first_unit_lines);
            (111, DebugInfo.second_unit_lines)] 200 4 (None, None)).
  - left; reflexivity.
  - reflexivity.
  - apply (DebugInfo.walks_unit (DebugInfo.two_units true) 0 100 11
             DebugInfo.first_unit_lines _ 200);
      [reflexivity | reflexivity | reflexivity |].
    apply (DebugInfo.walks_unit (DebugInfo.two_units true) 100 200 11
             DebugInfo.second_unit_lines [] 200);
      [reflexivity | reflexivity | reflexivity | apply DebugInfo.walks_here].
  - reflexivity.
  - intros die. cbn. lia.
  - cbn. lia.
Defined.

(** ** [print_local_memory] *)

Section LocalMemoryFacts.
Import LocalMemory.

Lemma print_words_row base_address :
  forall buffer i column,
    1 <= column <= 8 ->
    print_words base_address buffer i column
    = (word <$> take (Z.to_nat (8 - column)) buffer)
      ++ print_words base_address (drop (Z.to_nat (8 - column)) buffer)
                     (i + (8 - column)) 8.
Proof.
  induction buffer as [| value rest IH]; intros i column Hcolumn.
  - rewrite take_nil, drop_nil. reflexivity.
  - destruct (decide (column = 8)) as [-> | Hne].
    + change (Z.to_nat (8 - 8)) with 0%nat. rewrite take_0, drop_0.
      cbn [fmap list_fmap app]. f_equal. lia.
    + cbn [print_words].
      assert (Hmod : column mod 8 =? 0 = false).
      { apply Z.eqb_neq. rewrite Z.mod_small by lia. lia. }
      rewrite Hmod, (wrap64_small (column + 1)) by lia.
      rewrite (IH (i + 1) (column + 1)) by lia.
      replace (Z.to_nat (8 - column))
        with (S (Z.to_nat (8 - (column + 1)))) by lia.
      cbn [take drop fmap list_fmap app]. do 3 f_equal. lia.
Qed.

Lemma rows_nil count address : rows count address [] = [].
Proof. destruct count; reflexivity. Qed.

Lemma print_words_rows base_address :
  forall count buffer i column,
    column = 0 \/ column = 8 ->
    (length buffer <= count)%nat ->
    0 <= base_address -> 0 <= i ->
    base_address + 4 * (i + Z.of_nat (length buffer)) < 2 ^ 64 ->
    print_words base_address buffer i column
    = rows count (base_address + 4 * i) buffer.
Proof.
  induction count as [| count IH];
    intros buffer i column Hcolumn Hcount Hbase Hi Hbound.
  - destruct buffer; [reflexivity | cbn in Hcount; lia].
  - destruct buffer as [| value rest]; [reflexivity |].
    cbn [length] in Hcount, Hbound. cbn [print_words rows].
    assert (Hmod : column mod 8 =? 0 = true)
      by (destruct Hcolumn as [-> | ->]; reflexivity).
    rewrite Hmod, (wrap64_small (i * 4)), wrap64_small by lia.
    replace (base_address + i * 4) with (base_address + 4 * i) by lia.
    f_equal. rewrite print_words_row by lia.
    change (Z.to_nat (8 - 1)) with 7%nat.
    change (take 8 (value :: rest)) with (value :: take 7 rest).
    change (drop 8 (value :: rest)) with (drop 7 rest).
    cbn [fmap list_fmap app]. f_equal. f_equal.
    destruct (decide (length rest <= 7)%nat) as [Hshort | Hlong].
    + rewrite (drop_ge rest 7 Hshort), rows_nil. reflexivity.
    + rewrite (IH (drop 7 rest) (i + 1 + (8 - 1)) 8);
        [f_equal; lia | right; reflexivity | | lia | lia |];
        rewrite length_drop; lia.
Qed.

Lemma rows_enough :
  forall count count' words address,
    (length words <= count)%nat -> (length words <= count')%nat ->
    rows count address words = rows count' address words.
Proof.
  induction count as [| count IH]; intros count' words address' Hc Hc'.
  - destruct words; [| cbn in Hc; lia]. rewrite !rows_nil. reflexivity.
  - destruct words as [| w words]; [rewrite !rows_nil; reflexivity |].
    destruct count' as [| count']; [cbn in Hc'; lia |].
    cbn [rows]. do 2 f_equal. cbn [length] in Hc, Hc'.
    apply IH; rewrite length_drop; cbn [length]; lia.
Qed.

Lemma rows_app :
  forall (k : nat) a b address count,
    length a = (8 * k)%nat ->
    (length (a ++ b) <= count)%nat ->
    rows count address (a ++ b)
    = rows (length a) address a
      ++ rows (length b) (address + 4 * Z.of_nat (length a)) b.
Proof.
  induction k as [| k IH]; intros a b address count Ha Hcount.
  - destruct a; [| cbn in Ha; lia]. cbn [app length rows].
    replace (address + 4 * Z.of_nat 0) with address by lia.
    apply rows_enough; [exact Hcount | lia].
  - rewrite length_app in Hcount.
    destruct a as [| w a]; [cbn in Ha; lia |].
    destruct count as [| count]; [cbn in Hcount; lia |].
    assert (Htake : take 8 ((w :: a) ++ b) = take 8 (w :: a))
      by (apply take_app_le; lia).
    assert (Hdrop : drop 8 ((w :: a) ++ b) = drop 8 (w :: a) ++ b)
      by (apply drop_app_le; lia).
    change (rows (S count) address ((w :: a) ++ b))
      with (row_header address
            :: (word <$> take 8 ((w :: a) ++ b))
            ++ rows count (address + 32) (drop 8 ((w :: a) ++ b))).
    rewrite Htake, Hdrop.
    rewrite (IH (drop 8 (w :: a)) b (address + 32) count);
      [| rewrite length_drop; lia | rewrite length_app, length_drop; lia].
    change (rows (length (w :: a)) address (w :: a))
      with (row_header address
            :: (word <$> take 8 (w :: a))
            ++ rows (length a) (address + 32) (drop 8 (w :: a))).
    rewrite (rows_enough (length a) (length (drop 8 (w :: a))));
      [| rewrite length_drop; cbn [length]; lia | lia].
    rewrite <- !app_comm_cons, <- !app_assoc. do 4 f_equal.
    rewrite length_drop. cbn [length] in *. lia.
Qed.

Variable env : local_memory.
Variable assertions_enabled : bool.
Variables process_id local_address_space_id : Z.

Lemma read_loop_reads base_address words :
  reads env process_id local_address_space_id base_address words ->
  0 <= base_address ->
  base_address + 4 * Z.of_nat (length words) < 2 ^ 64 ->
  forall fuel,
    (length words < fuel)%nat ->
    read_loop env assertions_enabled fuel process_id local_address_space_id
              1024 base_address
    = (finished,
       (if base_address =? 0
        then match read_memory env process_id local_address_space_id 0 4096
             with Some _ => [memory_header] | None => [] end
        else [])
       ++ rows (length words) base_address words
       ++ (if base_address + 4 * Z.of_nat (length words) =? 0
           then [] else [final_newline])).
Proof.
  induction 1 as [base_address Hread
                 | base_address size buffer Hread Hsize Hmod
                 | base_address buffer rest Hread Hrest IH];
    intros Hbase Hbound fuel Hfuel;
    (destruct fuel as [| fuel]; [lia |]); cbn [read_loop];
    change (wrap64 (1024 * 4)) with 4096; rewrite Hread.
  - cbn [length rows app]. rewrite Z.add_0_r.
    destruct (base_address =? 0) eqn:Hzero; [| reflexivity].
    apply Z.eqb_eq in Hzero. subst. rewrite Hread. reflexivity.
  - assert (Hlength : Z.of_nat (Z.to_nat (size / 4)) = size / 4)
      by (apply Z2Nat.id, Z.div_pos; lia).
    assert (Hfour : 4 * (size / 4) = size).
    { rewrite (Z.div_mod size 4) at 2 by lia. lia. }
    rewrite length_resize in *. rewrite Hlength in *.
    replace (size mod 4 =? 0) with true by (symmetry; apply Z.eqb_eq, Hmod).
    rewrite andb_false_r.
    replace (size =? 4096) with false by (symmetry; apply Z.eqb_neq; lia).
    cbn [negb]. rewrite wrap64_small, Hfour by lia.
    rewrite (print_words_rows base_address (Z.to_nat (size / 4)));
      [| left; reflexivity | rewrite length_resize; lia | lia | lia
       | rewrite length_resize; lia].
    rewrite Z.mul_0_r, Z.add_0_r, <- app_assoc.
    destruct (base_address =? 0) eqn:Hzero; [| reflexivity].
    apply Z.eqb_eq in Hzero. subst. rewrite Hread. reflexivity.
  - rewrite length_app, length_resize in *.
    change (4096 mod 4 =? 0) with true. rewrite andb_false_r.
    change (4096 =? 4096) with true. cbn [negb].
    change (4096 / 4) with 1024. change (Z.to_nat 1024) with 1024%nat.
    rewrite wrap64_small by lia.
    rewrite (IH ltac:(lia) ltac:(lia) fuel ltac:(lia)).
    replace (base_address + 4096 =? 0) with false
      by (symmetry; apply Z.eqb_neq; lia).
    cbn [app].
    rewrite (print_words_rows base_address 1024);
      [| left; reflexivity | rewrite length_resize; lia | lia | lia
       | rewrite length_resize; lia].
    rewrite Z.mul_0_r, Z.add_0_r.
    rewrite (rows_app 128 (resize 1024 0 buffer) rest base_address);
      [| rewrite length_resize; reflexivity
       | rewrite length_app, length_resize; lia].
    rewrite length_resize, <- !app_assoc.
    replace (base_address + 4 * Z.of_nat 1024) with (base_address + 4096)
      by lia.
    replace (base_address + 4096 + 4 * Z.of_nat (length rest))
      with (base_address + 4 * Z.of_nat (1024 + length rest)) by lia.
    destruct (base_address =? 0) eqn:Hzero; [| reflexivity].
    apply Z.eqb_eq in Hzero. subst. rewrite Hread. reflexivity.
Qed.
End LocalMemoryFacts.

(** X24. [print_local_memory] dumps the local memory as one table although
    it reads it in buffers of 4096 bytes: after the heading come rows of
    eight words, each under the address of its first word, and a last
    newline when there was a word.  The heading is printed when the first
    read succeeds, also when it gives no byte. *)
Theorem print_local_memory_dumps_rows
        (env : LocalMemory.local_memory) (assertions_enabled : bool)
        (process_id architecture_id local_address_space_id : Z)
        (words : list Z) (fuel : nat) :
  LocalMemory.wave_process env
  = (Agent.AMD_DBGAPI_STATUS_SUCCESS, process_id) ->
  LocalMemory.wave_architecture env
  = (Agent.AMD_DBGAPI_STATUS_SUCCESS, architecture_id) ->
  LocalMemory.dwarf_address_space_to_address_space env architecture_id 3
  = (Agent.AMD_DBGAPI_STATUS_SUCCESS, local_address_space_id) ->
  LocalMemory.reads env process_id local_address_space_id 0 words ->
  4 * Z.of_nat (length words) < 2 ^ 64 ->
  (length words < fuel)%nat ->
  LocalMemory.print_local_memory env assertions_enabled fuel
  = (LocalMemory.finished,
     match LocalMemory.read_memory env process_id local_address_space_id
                                   0 4096
     with Some _ => [LocalMemory.memory_header] | None => [] end
     ++ LocalMemory.rows (length words) 0 words
     ++ match words with [] => [] | _ => [LocalMemory.final_newline] end).
Proof.
  intros Hprocess Harchitecture Hspace Hreads Hbound Hfuel.
  unfold LocalMemory.print_local_memory.
  rewrite Hprocess. cbn [negb LocalMemory.succeeded].
  rewrite Harchitecture. cbn [negb LocalMemory.succeeded].
  rewrite Hspace. cbn [negb LocalMemory.succeeded].
  rewrite (read_loop_reads env assertions_enabled process_id
             local_address_space_id 0 words Hreads ltac:(lia) ltac:(lia)
             fuel Hfuel).
  change (0 =? 0) with true. cbn iota. do 3 f_equal.
  destruct words; [reflexivity |]. cbn [length].
  replace (0 + 4 * Z.of_nat (S (length words)) =? 0) with false
    by (symmetry; apply Z.eqb_neq; lia).
  reflexivity.
Qed.

Lemma print_local_memory_dumps_rows_witness :
  let words := resize 1024 0 (repeat 7 1024)
               ++ resize (Z.to_nat (24 / 4)) 0 (repeat 9 1024) in
  LocalMemory.print_local_memory LocalMemory.two_buffers true 2000
  = (LocalMemory.finished,
     match LocalMemory.read_memory LocalMemory.two_buffers 1 3 0 4096
     with Some _ => [LocalMemory.memory_header] | None => [] end
     ++ LocalMemory.rows (length words) 0 words
     ++ match words with [] => [] | _ => [LocalMemory.final_newline] end).
Proof.
  apply (print_local_memory_dumps_rows LocalMemory.two_buffers true 1 2 3).
  - reflexivity.
  - reflexivity.
  - reflexivity.
  - apply (LocalMemory.reads_full LocalMemory.two_buffers 1 3 0
             (repeat 7 1024)); [reflexivity |].
    apply (LocalMemory.reads_short LocalMemory.two_buffers 1 3 4096 24
             (repeat 9 1024)); [reflexivity | lia | reflexivity].
  - rewrite length_app, !length_resize.
    change (Z.to_nat (24 / 4)) with 6%nat. lia.
  - rewrite length_app, !length_resize.
    change (Z.to_nat (24 / 4)) with 6%nat. lia.
Defined.

(** ** The handshake of [update_code_object_list] *)

Section SyncFacts.
Import Sync.
Variable assertions : bool.

Lemma exec_snoc s es e :
  exec assertions s (es ++ [e])
  = match exec assertions s es with
    | Some s' => step assertions s' e
    | None => None
    end.
Proof.
  revert s. induction es as [| e' es IH]; intros s; cbn.
  - destruct (step assertions s e); reflexivity.
  - destruct (step assertions s e'); [apply IH | reflexivity].
Qed.

Lemma split_calls_snoc es e :
  split_calls (es ++ [e])
  = if is_call e then (earlier es ++ segment es, [e])
    else (earlier es, segment es ++ [e]).
Proof.
  unfold earlier, segment, split_calls. rewrite fold_left_app. cbn.
  destruct (fold_left _ es ([], [])) as [before since]. reflexivity.
Qed.

Lemma earlier_segment es : earlier es ++ segment es = es.
Proof.
  induction es as [| e es IH] using rev_ind; [reflexivity |].
  unfold earlier, segment in *. rewrite split_calls_snoc.
  destruct (is_call e); cbn.
  - unfold earlier, segment. rewrite IH. reflexivity.
  - unfold earlier, segment. rewrite app_assoc, IH. reflexivity.
Qed.

Lemma seen_keep k future since e :
  seen k future since -> seen k future (since ++ [e]).
Proof. unfold seen. intros H. apply sublist_inserts_r, H. Qed.

Lemma seen_next k future since e :
  seen k future since ->
  handshake future !! k = Some e ->
  seen (S k) future (since ++ [e]).
Proof.
  unfold seen. intros H Hk. rewrite (take_S_r _ _ _ Hk).
  apply sublist_app; [exact H | reflexivity].
Qed.

Lemma done_keep n future since e :
  is_client e = false ->
  done n future since -> done n future (since ++ [e]).
Proof.
  unfold done, client_events. intros He H. rewrite List.filter_app. cbn.
  rewrite He, app_nil_r. exact H.
Qed.

Lemma done_next n future since e :
  is_client e = true ->
  done n future since ->
  program future !! n = Some e ->
  done (S n) future (since ++ [e]).
Proof.
  unfold done, client_events. intros He H Hn. rewrite List.filter_app.
  cbn [List.filter]. rewrite He, H. rewrite (take_S_r _ _ _ Hn). reflexivity.
Qed.

Lemma requests_snoc bytes c :
  requests (bytes ++ [c])
  = (requests bytes + if Ascii.eqb c "b" then 1 else 0)%nat.
Proof.
  unfold requests. rewrite List.filter_app, length_app. cbn.
  destruct (Ascii.eqb c "b"); reflexivity.
Qed.

Lemma requests_cons bytes c :
  requests (c :: bytes)
  = ((if Ascii.eqb c "b" then 1 else 0) + requests bytes)%nat.
Proof. unfold requests. cbn. destruct (Ascii.eqb c "b"); reflexivity. Qed.

Lemma dispatch_other c :
  Ascii.eqb c "b" = false ->
  handling (dispatch c) = false /\ checking (dispatch c) = false
  /\ dispatch c <> at_set_value.
Proof.
  intros Hc. unfold dispatch. rewrite Hc.
  destruct (Ascii.eqb c "p"); [repeat split; discriminate || reflexivity |].
  destruct (Ascii.eqb c "q"); repeat split; discriminate || reflexivity.
Qed.

Lemma handling_checking pc : handling pc = false -> checking pc = false.
Proof. destruct pc; cbn; congruence. Qed.

(** The shared states a run names exist. *)
Lemma step_ids s e s' es :
  step assertions s e = Some s' ->
  aborted s' = None ->
  Forall (fun g => (g < length (shared s))%nat) (ids es) ->
  Forall (fun g => (g < length (shared s'))%nat) (ids (es ++ [e])).
Proof.
  intros Hstep Halive Hids. unfold ids. rewrite omap_app. apply Forall_app.
  assert (Hgrows : (length (shared s) <= length (shared s'))%nat
                   /\ Forall (fun g => (g < length (shared s'))%nat)
                             (ids [e])).
  { unfold step in Hstep. destruct s as [g p sh pi bp c w ab].
    cbn in *. destruct ab; [discriminate |].
    destruct e; cbn in Hstep; unfold ids; cbn;
      repeat case_match; simplify_eq; cbn;
      rewrite ?length_app, ?length_insert; cbn;
      try (split; [lia | constructor]); try lia; try constructor.
    all: try match goal with
             | H : bool_decide _ = true |- _ => apply bool_decide_eq_true in H
             end.
    all: try match goal with
             | H : _ && _ = true |- _ =>
                 apply andb_true_iff in H as [H1 H2];
                 apply bool_decide_eq_true in H1;
                 apply bool_decide_eq_true in H2
             end.
    all: subst; try lia; try discriminate.
    all: try (eapply lookup_lt_Some; eassumption).
  }
  destruct Hgrows as [Hle Hnew]. split; [| exact Hnew].
  eapply Forall_impl; [exact Hids |]. cbn. intros g Hg. lia.
Qed.

Lemma fresh_new before since (sh : list bool) :
  Forall (fun g => (g < length sh)%nat) (ids (before ++ since)) ->
  fresh (length sh) before.
Proof.
  unfold fresh, ids. rewrite omap_app, Forall_app. intros [H _].
  eapply Forall_impl; [exact H |]. cbn. intros g Hg. lia.
Qed.

Ltac seen_done :=
  first
    [ assumption
    | reflexivity
    | apply seen_next; [assumption | reflexivity]
    | apply seen_keep; assumption
    | apply done_next; [reflexivity | assumption | reflexivity]
    | apply done_keep; [reflexivity | assumption] ].

Ltac open_step H :=
  repeat match type of H with
         | context [if ?b then _ else _] => destruct b eqn:?
         | context [match ?x with _ => _ end] => destruct x eqn:?
         end;
  try discriminate H; injection H as <-; cbn.

Ltac open_facts :=
  repeat match goal with
         | H : Ascii.eqb _ _ = true |- _ => apply Ascii.eqb_eq in H; subst
         | H : bool_decide _ = true |- _ =>
             apply bool_decide_eq_true in H; subst
         | H : _ && _ = true |- _ => apply andb_true_iff in H as [? ?]
         | H : _ /\ _ |- _ => destruct H
         | H : _ \/ _ |- _ => destruct H
         end.

Ltac inv_atom :=
  first
    [ seen_done | congruence | lia
    | unfold seen; cbn; reflexivity
    | unfold done; cbn; reflexivity
    | apply list_lookup_middle; reflexivity
    | apply list_lookup_insert_eq; eapply lookup_lt_Some; eassumption
    | eapply fresh_new; eassumption
    | apply handling_checking; assumption ].

Ltac inv_goal :=
  repeat match goal with
         | |- _ /\ _ => split
         | |- forall _, _ => intros
         | H : forall future : nat, _ /\ _ |- seen _ ?f _ =>
             destruct (H f); clear H
         | H : forall future : nat, _ /\ _ |- done _ ?f _ =>
             destruct (H f); clear H
         end;
  first [ solve [inv_atom] | solve [left; inv_goal] | solve [right; inv_goal] ].

Ltac pick := solve [inv_goal].

Lemma step_invariant before since s e s' :
  Forall (fun g => (g < length (shared s))%nat) (ids (before ++ since)) ->
  invariant before since s ->
  step assertions s e = Some s' ->
  invariant (if is_call e then before ++ since else before)
            (if is_call e then [e] else since ++ [e]) s'.
Proof.
  intros Hids Hinv Hstep. unfold step in Hstep.
  destruct s as [g p sh pi bp c w ab]. unfold invariant in *. cbn in *.
  destruct ab; [discriminate |].
  destruct (is_client e) eqn:Hclient.
  - (* the calling thread *)
    unfold client_step in Hstep. cbn in Hstep.
    destruct e; try discriminate Hclient; cbn [is_call];
      destruct c; try discriminate Hstep; cbn in Hstep;
      open_step Hstep.
    all: unfold waiting in *; unfold at_rest, quiet in *; cbn in *.
    all: open_facts; subst; cbn in *.
    all: rewrite ?andb_false_r in *; try discriminate.
    all: rewrite ?requests_snoc; cbn.
    all: pick.
  - (* the worker *)
    unfold worker_step in Hstep. cbn in Hstep.
    assert (Hcall : is_call e = false) by (destruct e; auto; discriminate).
    rewrite Hcall.
    destruct e; try discriminate Hclient;
      destruct w; try discriminate Hstep; cbn in Hstep;
      open_step Hstep.
    all: destruct c; cbn in *.
    all: unfold waiting in *; unfold at_rest, quiet in *; cbn in *.
    all: open_facts; subst; cbn in *.
    all: rewrite ?andb_false_r in *; try discriminate.
    all: rewrite ?requests_cons in *; cbn.
    all: try match goal with
             | H : context [Ascii.eqb ?a "b"] |- _ =>
                 destruct (Ascii.eqb a "b") eqn:Eb;
                   [ apply Ascii.eqb_eq in Eb; subst a; cbn in *
                   | destruct (dispatch_other _ Eb) as (? & ? & ?) ]
             end.
    all: simplify_eq.
    all: pick.
Qed.

Lemma seen_le k k' future since :
  (k <= k')%nat -> seen k' future since -> seen k future since.
Proof.
  unfold seen. intros Hle H. etransitivity; [| exact H].
  rewrite <- (Nat.min_l k k') by lia. rewrite <- take_take.
  apply sublist_take.
Qed.

Lemma waiting_written future since s :
  waiting future since s -> seen 4 future since.
Proof.
  unfold waiting. intros [H | [H | [H | H]]].
  - apply H.
  - apply (seen_le 4 5); [lia | apply H].
  - apply (seen_le 4 6); [lia | apply H].
  - apply (seen_le 4 7); [lia | apply H].
Qed.

Lemma waiting_ready future since s :
  waiting future since s ->
  shared s !! future = Some true ->
  seen 7 future since.
Proof.
  unfold waiting. intros [H | [H | [H | H]]] Hready;
    destruct H as (Hshared & H); try congruence.
  apply H.
Qed.

Lemma exec_invariant breakpoint_id es s :
  exec assertions (initial breakpoint_id) es = Some s ->
  (aborted s = None ->
   Forall (fun g => (g < length (shared s))%nat) (ids es))
  /\ invariant (earlier es) (segment es) s.
Proof.
  revert s. induction es as [| e es IH] using rev_ind; intros s Hrun.
  - injection Hrun as <-. split; [constructor |].
    unfold invariant, at_rest, quiet. cbn. auto.
  - rewrite exec_snoc in Hrun.
    destruct (exec assertions (initial breakpoint_id) es) as [s0 |] eqn:Hes;
      [| discriminate].
    destruct (IH s0 eq_refl) as [Hids Hinv].
    assert (Halive : aborted s0 = None).
    { unfold step in Hrun. destruct (aborted s0); [discriminate | reflexivity]. }
    specialize (Hids Halive). split.
    + intros Hs. apply (step_ids s0 e s es Hrun Hs Hids).
    + unfold earlier, segment. rewrite split_calls_snoc.
      pose proof (step_invariant (earlier es) (segment es) s0 e s) as Hstep.
      assert (Hids' : Forall (fun g => (g < length (shared s0))%nat)
                             (ids (earlier es ++ segment es)))
        by (rewrite earlier_segment; exact Hids).
      specialize (Hstep Hids' Hinv Hrun).
      destruct (is_call e); exact Hstep.
Qed.
End SyncFacts.

(** C9.  In every run of the calling thread and the worker: a call of
    [update_code_object_list] that returns has stored a promise that no
    earlier call used, then published guard = true, then written the byte
    'b' to the pipe; the worker has then read that byte, had
    [report_breakpoint_hit] succeed and fulfilled that promise; only then
    has the wait of line 1243 returned, after which the caller has reset
    the promise and stored guard = false; these are all the effects of the
    caller, in this order.  On return, and whenever no call is in
    progress, the promise slot is empty and the guard is false.  While the
    caller waits the guard is true and the slot holds its promise, and the
    wait can only return once the worker has reported the breakpoint hit
    and fulfilled the promise.  The process is never aborted by the
    assertions on the pair (lines 1223-1225, 1133, 1134) nor by
    [set_value]. *)
Theorem update_code_object_list_handshake
        (assertions : bool) (breakpoint_id : option Z)
        (es : list Sync.event) (s : Sync.state) :
  Sync.exec assertions (Sync.initial breakpoint_id) es = Some s ->
  (forall why, Sync.aborted s = Some why -> Sync.benign why = true)
  /\ (Sync.aborted s = None -> Sync.client s = Sync.idle ->
      Sync.guard s = false /\ Sync.promise s = None)
  /\ (forall future,
         Sync.aborted s = None -> Sync.client s = Sync.at_wait future ->
         Sync.guard s = true /\ Sync.promise s = Some future
         /\ sublist [ Sync.update_called; Sync.promise_emplaced future;
                      Sync.guard_stored true; Sync.pipe_written "b" ]
                    (Sync.segment es)
         /\ forall e s',
             Sync.is_client e = true ->
             Sync.step assertions s e = Some s' ->
             e = Sync.future_ready future
             /\ sublist [ Sync.update_called; Sync.promise_emplaced future;
                          Sync.guard_stored true; Sync.pipe_written "b";
                          Sync.pipe_read "b";
                          Sync.breakpoint_hit_reported true;
                          Sync.promise_fulfilled future ]
                        (Sync.segment es))
  /\ (last es = Some Sync.update_returned ->
      Sync.guard s = false /\ Sync.promise s = None
      /\ exists future,
          Sync.client_events (Sync.segment es) = Sync.program future
          /\ sublist (Sync.handshake future) (Sync.segment es)
          /\ Sync.fresh future (Sync.earlier es)).
Proof.
  intros Hrun.
  destruct (exec_invariant assertions breakpoint_id es s Hrun) as [_ Hinv].
  split; [| split; [| split]].
  - intros why Hwhy. unfold Sync.invariant in Hinv. rewrite Hwhy in Hinv.
    exact Hinv.
  - intros Halive Hidle. unfold Sync.invariant in Hinv.
    rewrite Halive, Hidle in Hinv. apply Hinv.
  - intros future Halive Hwait. unfold Sync.invariant in Hinv.
    rewrite Halive, Hwait in Hinv.
    destruct Hinv as (Hguard & Hpromise & _ & _ & Hwaiting).
    split; [exact Hguard |]. split; [exact Hpromise |].
    split; [exact (waiting_written _ _ _ Hwaiting) |].
    intros e s' Hclient Hstep. unfold Sync.step in Hstep.
    rewrite Halive, Hclient in Hstep. unfold Sync.client_step in Hstep.
    rewrite Hwait in Hstep.
    destruct e; try discriminate Hstep;
      try (destruct value; discriminate Hstep).
    match type of Hstep with
    | context [bool_decide (?f = future)] =>
        destruct (bool_decide (f = future)) eqn:Hsame;
          [| discriminate Hstep];
        apply bool_decide_eq_true in Hsame; subst f
    end.
    destruct (bool_decide (Sync.shared s !! future = Some true)) eqn:Hready;
      [| discriminate Hstep].
    apply bool_decide_eq_true in Hready.
    split; [reflexivity |].
    exact (waiting_ready _ _ _ Hwaiting Hready).
  - intros Hlast. apply last_Some in Hlast as [es' ->].
    rewrite exec_snoc in Hrun.
    destruct (Sync.exec assertions (Sync.initial breakpoint_id) es')
      as [s0 |] eqn:Hes'; [| discriminate].
    destruct (exec_invariant assertions breakpoint_id es' s0 Hes')
      as [_ Hinv0].
    unfold Sync.step in Hrun.
    destruct (Sync.aborted s0) eqn:Halive; [discriminate |].
    cbn in Hrun. unfold Sync.client_step in Hrun.
    unfold Sync.invariant in Hinv0. rewrite Halive in Hinv0.
    destruct (Sync.client s0) eqn:Hclient; try discriminate Hrun.
    injection Hrun as <-.
    destruct Hinv0 as ([Hguard Hpromise] & _ & Hfresh & Hseen & Hdone).
    split; [exact Hguard |]. split; [exact Hpromise |].
    exists future.
    unfold Sync.earlier, Sync.segment. rewrite split_calls_snoc. cbn.
    split; [| split].
    + apply (done_next 8 future); [reflexivity | exact Hdone | reflexivity].
    + apply (seen_next 10 future); [exact Hseen | reflexivity].
    + exact Hfresh.
Qed.

Lemma update_code_object_list_handshake_witness :
  Sync.exec true (Sync.initial None) Sync.one_call = Some Sync.after_one_call
  /\ Sync.guard Sync.after_one_call = false
  /\ Sync.promise Sync.after_one_call = None
  /\ exists future,
      Sync.client_events (Sync.segment Sync.one_call) = Sync.program future
      /\ sublist (Sync.handshake future) (Sync.segment Sync.one_call)
      /\ Sync.fresh future (Sync.earlier Sync.one_call).
Proof.
  split; [reflexivity |].
  destruct (update_code_object_list_handshake
              true None Sync.one_call Sync.after_one_call eq_refl)
    as (_ & _ & _ & Hreturned).
  apply Hreturned. reflexivity.
Defined.
